(** * Erio: lexer, parser and evaluator of [erio.py], and their properties

    The development follows the three stages of the interpreter:
    [tokenize] (characters to tokens), [parse] (tokens to statements, one
    token of lookahead) and [execute] (statements against a chain of
    mutable namespaces).  Source text is ASCII; host integers are [Z].

    The generators of the source are modelled as pull functions: a stream
    is a state together with a function that either fails, ends, or gives
    the next element and the next state.  Loops and recursion run on a
    counter, the fuel; the recursion limit of the host is not modelled.
    The host is Python 3.7 or later: dictionaries keep the order of
    insertion, and a [StopIteration] that escapes a generator body is
    turned into a [RuntimeError]. *)

From Stdlib Require Import List String Ascii ZArith Bool Lia DecimalString.
From Stdlib Require DecimalPos.
Import ListNotations.

Local Open Scope string_scope.

Set Implicit Arguments.
Set Warnings "-register-all".

(** ** Tokens, AST nodes and exceptions *)

(** [Token = namedtuple('Token', ('type', 'value'))].  The value of the
    end-of-stream sentinel, [None] in the source, is the empty text here. *)
Record Token : Type := MkToken { type : string; value : string }.

(** The sixteen node classes of the source.  A block is a list of nodes and,
    as in the source, nothing separates statements from expressions: the
    evaluator dispatches on the class of whatever node it meets. *)
Inductive node : Type :=
| IfStmnt (cond : node) (then_ : list node) (els : list node)
| WhileStmnt (cond : node) (do : list node)
| AssignmentStmnt (id : Token) (expr : node)
| ConstantExpr (val : Token)
| VariableExpr (id : Token)
| SequenceExpr (elems : list node)
| FunctionCall (id : Token) (args : list node)
| FunctionDef (id : Token) (args : list Token) (body : list node)
| ReturnStmnt (val : node)
| AddExpr (op : Token) (lhs rhs : node)
| MulExpr (op : Token) (lhs rhs : node)
| OrExpr (op : Token) (lhs rhs : node)
| AndExpr (op : Token) (lhs rhs : node)
| NotExpr (op : Token) (rhs : node)
| CompExpr (op : Token) (lhs rhs : node)
| SignExpr (op : Token) (rhs : node).

(** Exceptions of the host that the source never catches. [GeneratorStop] is
    the [RuntimeError] into which the host turns a [StopIteration] that
    escapes a generator body. *)
Inductive host_exception : Type :=
| KeyError (key : string)
| IndexError
| AttributeError
| TypeError
| ZeroDivisionError
| GeneratorStop.

(** What the two [ErioRuntimeError]s of the source are raised with. *)
Inductive runtime_description : Type :=
| InvalidExpression (e : node)
| InvalidConstantToken (t : Token).

(** What [ErioSyntaxError] is raised with: a message or the offending token. *)
Inductive syntax_description : Type :=
| ReturnOutsideFunctionBody
| Unexpected (t : Token).

Inductive exception : Type :=
| ErioInvalidTokenError (lexeme : string)
| ErioSyntaxError (d : syntax_description)
| ErioRuntimeError (d : runtime_description)
| Host (h : host_exception).

(** The outcome of a call: a value, an exception, fuel exhausted (loops and
    recursion are cut off by a counter), or [Unmodelled] where the run
    depends on host behaviour outside this embedding (the textual form of a
    list, arithmetic and ordering on strings and lists). *)
Inductive result (A : Type) : Type :=
| Ok (a : A)
| Raise (e : exception)
| OutOfFuel
| Unmodelled.

Arguments Ok {A} a.
Arguments Raise {A} e.
Arguments OutOfFuel {A}.
Arguments Unmodelled {A}.

Definition rbind {A B : Type} (r : result A) (k : A -> result B) : result B :=
  match r with
  | Ok a => k a
  | Raise e => Raise e
  | OutOfFuel => OutOfFuel
  | Unmodelled => Unmodelled
  end.

(** ** Host string methods, on ASCII text *)

Definition quote : ascii := ascii_of_nat 34.

(** The text of one double quote, and a text between two of them. *)
Definition dq : string := String quote "".
Definition quoted (s : string) : string := dq ++ s ++ dq.

Definition char_in (lo hi : nat) (c : ascii) : bool :=
  let n := nat_of_ascii c in (lo <=? n)%nat && (n <=? hi)%nat.

(** [c.isspace()]: tab to carriage return, the four separators, space. *)
Definition isspace (c : ascii) : bool :=
  char_in 9 13 c || char_in 28 32 c.

Definition is_digit_char (c : ascii) : bool := char_in 48 57 c.

Definition is_letter_char (c : ascii) : bool :=
  char_in 65 90 c || char_in 97 122 c || Ascii.eqb c "_"%char.

Definition all_chars (p : ascii -> bool) (s : string) : bool :=
  forallb p (list_ascii_of_string s).

(** [s.isdigit()] *)
Definition isdigit (s : string) : bool :=
  negb (s =? "") && all_chars is_digit_char s.

(** [s.isidentifier()] *)
Definition isidentifier (s : string) : bool :=
  match s with
  | EmptyString => false
  | String c rest =>
      is_letter_char c
      && all_chars (fun d => is_letter_char d || is_digit_char d) rest
  end.

(** [s.isprintable()] *)
Definition isprintable (s : string) : bool := all_chars (char_in 32 126) s.

Definition startswith (s : string) (c : ascii) : bool :=
  match s with
  | String d _ => Ascii.eqb d c
  | EmptyString => false
  end.

Fixpoint endswith (s : string) (c : ascii) : bool :=
  match s with
  | EmptyString => false
  | String d EmptyString => Ascii.eqb d c
  | String _ rest => endswith rest c
  end.

(** [c.strip()] for a one-character string. *)
Definition strip (c : ascii) : string :=
  if isspace c then "" else String c "".

(** [a in b] for two strings: [a] occurs in [b]. *)
Fixpoint str_in (a b : string) : bool :=
  prefix a b
  || match b with
     | EmptyString => false
     | String _ rest => str_in a rest
     end.

(** ** Lexer *)

Definition keywords : list string :=
  ["if"; "then"; "else"; "end-if"; "while"; "do"; "end-while";
   "def"; "end-def"; "return"; "or"; "and"; "not"].

Definition symbols : list (string * string) :=
  [("(", "open-paren"); (")", "close-paren"); (",", "comma");
   ("=", "assignment"); ("[", "open-bracket"); ("]", "close-bracket");
   (">", "gt"); ("<", "lt"); (">=", "gteq"); ("<=", "lteq");
   ("==", "eq"); ("!=", "noteq"); ("+", "add"); ("-", "sub");
   ("*", "mul"); ("/", "div"); ("%", "mod")].

Definition tests : list (string * (string -> bool)) :=
  [("boolean", fun s => (s =? "true") || (s =? "false"));
   ("identifier", isidentifier);
   ("integer", isdigit);
   ("string", fun s => startswith s quote && endswith s quote
                       && isprintable s)].

Fixpoint dict_get {V : Type} (d : list (string * V)) (k : string) : option V :=
  match d with
  | [] => None
  | (k', v) :: rest => if k' =? k then Some v else dict_get rest k
  end.

Definition dict_in {V : Type} (d : list (string * V)) (k : string) : bool :=
  match dict_get d k with Some _ => true | None => false end.

Definition make_token (value : string) : result Token :=
  if existsb (String.eqb value) keywords then Ok (MkToken value value)
  else match dict_get symbols value with
       | Some name => Ok (MkToken name value)
       | None =>
           match find (fun nt => snd nt value) tests with
           | Some (name, _) => Ok (MkToken name value)
           | None => Raise (ErioInvalidTokenError value)
           end
       end.

(** The first characters of the symbols, [[s[0] for s in symbols]]. *)
Definition symbol_heads : list ascii :=
  flat_map (fun kv => match fst kv with
                      | String c _ => [c]
                      | EmptyString => []
                      end) symbols.

Definition add_char (buffer : string) (c : ascii) : string :=
  buffer ++ String c "".

(** One turn of the [for c in stream] loop of [tokenize]: the token yielded
    during the turn, if any, and the buffer and mode after it. *)
Definition tokenize_char (buffer : string) (instring : bool) (c : ascii)
  : result (option Token * (string * bool)) :=
  if instring && negb (Ascii.eqb c quote) then
    Ok (None, (add_char buffer c, instring))
  else if Ascii.eqb c quote && instring then
    rbind (make_token (add_char buffer c))
          (fun t => Ok (Some t, ("", false)))
  else
    let instring := if Ascii.eqb c quote then true else instring in
    if dict_in symbols buffer && negb (dict_in symbols (add_char buffer c))
    then
      rbind (make_token buffer) (fun t => Ok (Some t, (strip c, instring)))
    else if (0 <? String.length buffer)%nat
            && (isspace c
                || (existsb (Ascii.eqb c) symbol_heads
                    && negb (dict_in symbols (add_char buffer c))
                    && negb (buffer =? "end")))
    then
      rbind (make_token buffer)
            (fun t => Ok (Some t, ("" ++ strip c, instring)))
    else
      Ok (None, (buffer ++ strip c, instring)).

(** The generator [tokenize(stream)] between two pulls.  [Finished] is the
    generator after its last statement. *)
Inductive tokenizer : Type :=
| Running (buffer : string) (instring : bool) (stream : list ascii)
| Finished.

(** What is left to do when the character stream has ended. *)
Definition tokenize_end (buffer : string) : result (option (Token * tokenizer)) :=
  if (0 <? String.length buffer)%nat then
    rbind (make_token buffer) (fun t => Ok (Some (t, Finished)))
  else Ok None.

Fixpoint tokenize_run (buffer : string) (instring : bool) (stream : list ascii)
  : result (option (Token * tokenizer)) :=
  match stream with
  | [] => tokenize_end buffer
  | c :: rest =>
      match tokenize_char buffer instring c with
      | Ok (Some t, (b, i)) => Ok (Some (t, Running b i rest))
      | Ok (None, (b, i)) => tokenize_run b i rest
      | Raise e => Raise e
      | OutOfFuel => OutOfFuel
      | Unmodelled => Unmodelled
      end
  end.

(** [next(it)] on the generator: [Ok None] is [StopIteration]. *)
Definition tokenizer_next (g : tokenizer) : result (option (Token * tokenizer)) :=
  match g with
  | Running buffer instring stream => tokenize_run buffer instring stream
  | Finished => Ok None
  end.

Definition tokenize (text : string) : tokenizer :=
  Running "" false (list_ascii_of_string text).

(** All the tokens of a text, as [list(tokenize(text))] gives them. *)
Fixpoint drain (n : nat) (g : tokenizer) : result (list Token) :=
  match n with
  | O => OutOfFuel
  | S n' =>
      rbind (tokenizer_next g)
            (fun r => match r with
                      | None => Ok []
                      | Some (t, g') =>
                          rbind (drain n' g') (fun ts => Ok (t :: ts))
                      end)
  end.

Definition tokens_of (text : string) : result (list Token) :=
  drain (S (String.length text)) (tokenize text).

Definition nl : string := String (ascii_of_nat 10) "".

(** ** Parser *)

(** What [token.type in token_types] tests.  The source writes the operator
    sets of three levels as [('not')], [('and')] and [('or')], which are
    strings and not tuples: there [in] is the substring test. *)
Inductive token_types : Type :=
| Tuple (names : list string)
| Str (text : string).

Definition type_in (t : Token) (tt : token_types) : bool :=
  match tt with
  | Tuple names => existsb (String.eqb (type t)) names
  | Str text => str_in (type t) text
  end.

Definition eof : Token := MkToken "eof" "".

Section Parse.

(** The token stream handed to [parse]: any iterator of tokens. *)
Variable Iter : Type.
Variable next : Iter -> result (option (Token * Iter)).

(** The variables [token] and [lookahead] of [parse], with the stream. *)
Record parser : Type :=
  MkParser { token : Token; lookahead : Token; stream : Iter }.

Definition P (A : Type) : Type := parser -> result (A * parser).

Definition ret {A : Type} (a : A) : P A := fun p => Ok (a, p).

Definition bind {A B : Type} (m : P A) (k : A -> P B) : P B :=
  fun p => rbind (m p) (fun ap => k (fst ap) (snd ap)).

Definition throw {A : Type} (e : exception) : P A := fun _ => Raise e.

Definition cur : P Token := fun p => Ok (token p, p).

Definition peek : P Token := fun p => Ok (lookahead p, p).

Notation "x <- m ;; k" := (bind m (fun x => k))
  (at level 61, m at next level, right associativity).
Notation "m ;;; k" := (bind m (fun _ => k))
  (at level 61, right associativity).

(** [next(stream, Token('eof', None))] in [next_token]. *)
Definition next_token : P unit :=
  fun p =>
    rbind (next (stream p))
          (fun r => match r with
                    | Some (t, s) => Ok (tt, MkParser (lookahead p) t s)
                    | None => Ok (tt, MkParser (lookahead p) eof (stream p))
                    end).

Section Ladder.

Variable expr_type : Token -> node -> node -> node.
Variable next_expr : P node.
Variable types : token_types.

Fixpoint build_tree (fuel : nat) (lhs : node) : P node :=
  match fuel with
  | O => fun _ => OutOfFuel
  | S fuel' =>
      t <- cur ;;
      if negb (type_in t types) then ret lhs
      else
        next_token ;;;
        rhs <- next_expr ;;
        build_tree fuel' (expr_type t lhs rhs)
  end.

Definition make_left_assoc_binary_op (fuel : nat) : P node :=
  lhs <- next_expr ;; build_tree fuel lhs.

End Ladder.

Section Prefix.

Variable expr_type : Token -> node -> node.
Variable next_expr : P node.
Variable types : token_types.

(** The [while] loop that collects the operators into [op_token_list]. *)
Fixpoint while_prefix (fuel : nat) (op_token_list : list Token)
  : P (list Token) :=
  match fuel with
  | O => fun _ => OutOfFuel
  | S fuel' =>
      t <- cur ;;
      if type_in t types then
        next_token ;;; while_prefix fuel' (op_token_list ++ [t])
      else ret op_token_list
  end.

Definition make_prefix_unary_op (fuel : nat) : P node :=
  op_token_list <- while_prefix fuel [] ;;
  exp <- next_expr ;;
  ret (fold_left (fun exp op => expr_type op exp) (rev op_token_list) exp).

End Prefix.

Section Atom.

(** The rules below [expr] call back into it. *)
Variable expr : P node.

(** [while token.type != close: items.append(expr()); skip a comma] *)
Fixpoint while_exprs (fuel : nat) (close : string) (items : list node)
  : P (list node) :=
  match fuel with
  | O => fun _ => OutOfFuel
  | S fuel' =>
      t <- cur ;;
      if negb (type t =? close) then
        e <- expr ;;
        t' <- cur ;;
        (if type t' =? "comma" then next_token else ret tt) ;;;
        while_exprs fuel' close (items ++ [e])
      else ret items
  end.

Definition function_call (fuel : nat) : P node :=
  name <- cur ;;
  next_token ;;;
  next_token ;;;
  args <- while_exprs fuel "close-paren" [] ;;
  next_token ;;;
  ret (FunctionCall name args).

Definition constant_expr : P node :=
  val <- cur ;; next_token ;;; ret (ConstantExpr val).

Definition variable_expr : P node :=
  val <- cur ;; next_token ;;; ret (VariableExpr val).

Definition sequence_expr (fuel : nat) : P node :=
  next_token ;;;
  elements <- while_exprs fuel "close-bracket" [] ;;
  next_token ;;;
  ret (SequenceExpr elements).

Definition enclosure_expr : P node :=
  next_token ;;; exp <- expr ;; next_token ;;; ret exp.

Definition atom (fuel : nat) : P node :=
  t <- cur ;;
  la <- peek ;;
  if existsb (String.eqb (type t)) ["string"; "integer"; "boolean"] then
    constant_expr
  else if type t =? "identifier" then
    if type la =? "open-paren" then function_call fuel else variable_expr
  else if type t =? "open-bracket" then sequence_expr fuel
  else if type t =? "open-paren" then enclosure_expr
  else throw (ErioSyntaxError (Unexpected t)).

Definition sign_expr (fuel : nat) : P node :=
  make_prefix_unary_op SignExpr (atom fuel) (Tuple ["add"; "sub"]) fuel.

Definition mul_expr (fuel : nat) : P node :=
  make_left_assoc_binary_op MulExpr (sign_expr fuel)
    (Tuple ["mul"; "div"; "mod"]) fuel.

Definition add_expr (fuel : nat) : P node :=
  make_left_assoc_binary_op AddExpr (mul_expr fuel)
    (Tuple ["add"; "sub"]) fuel.

Definition comp_expr (fuel : nat) : P node :=
  make_left_assoc_binary_op CompExpr (add_expr fuel)
    (Tuple ["eq"; "gt"; "lt"; "gteq"; "lteq"; "noteq"]) fuel.

Definition not_expr (fuel : nat) : P node :=
  make_prefix_unary_op NotExpr (comp_expr fuel) (Str "not") fuel.

Definition and_expr (fuel : nat) : P node :=
  make_left_assoc_binary_op AndExpr (not_expr fuel) (Str "and") fuel.

Definition or_expr (fuel : nat) : P node :=
  make_left_assoc_binary_op OrExpr (and_expr fuel) (Str "or") fuel.

End Atom.

(** [expr()]; the fuel bounds the nesting of expressions and the length
    of every loop in them. *)
Fixpoint expr (fuel : nat) : P node :=
  match fuel with
  | O => fun _ => OutOfFuel
  | S fuel' => or_expr (expr fuel') fuel'
  end.

Section Statement.

Variable statement : P node.
Variable fuel : nat.

(** [while token.type not in stop: block.append(statement())] *)
Fixpoint while_statements (n : nat) (stop : list string) (block : list node)
  : P (list node) :=
  match n with
  | O => fun _ => OutOfFuel
  | S n' =>
      t <- cur ;;
      if negb (existsb (String.eqb (type t)) stop) then
        s <- statement ;;
        while_statements n' stop (block ++ [s])
      else ret block
  end.

(** The parameter loop of [function_def]. *)
Fixpoint while_params (n : nat) (args : list Token) : P (list Token) :=
  match n with
  | O => fun _ => OutOfFuel
  | S n' =>
      t <- cur ;;
      if negb (type t =? "close-paren") then
        next_token ;;;
        t' <- cur ;;
        (if type t' =? "comma" then next_token else ret tt) ;;;
        while_params n' (args ++ [t])
      else ret args
  end.

Definition function_def : P node :=
  next_token ;;;
  name <- cur ;;
  next_token ;;;
  next_token ;;;
  args <- while_params fuel [] ;;
  next_token ;;;
  body <- while_statements fuel ["end-def"] [] ;;
  next_token ;;;
  ret (FunctionDef name args body).

Definition return_stmnt : P node :=
  next_token ;;; e <- expr fuel ;; ret (ReturnStmnt e).

Definition if_stmnt : P node :=
  next_token ;;;
  cond <- expr fuel ;;
  next_token ;;;
  then_ <- while_statements fuel ["else"; "end-if"] [] ;;
  t <- cur ;;
  els <- (if type t =? "else" then
            next_token ;;; while_statements fuel ["end-if"] []
          else ret []) ;;
  next_token ;;;
  ret (IfStmnt cond then_ els).

Definition while_stmnt : P node :=
  next_token ;;;
  cond <- expr fuel ;;
  next_token ;;;
  do <- while_statements fuel ["end-while"] [] ;;
  next_token ;;;
  ret (WhileStmnt cond do).

Definition assignment_stmnt : P node :=
  var <- cur ;;
  next_token ;;;
  next_token ;;;
  e <- expr fuel ;;
  ret (AssignmentStmnt var e).

Definition statement_rule : P node :=
  t <- cur ;;
  la <- peek ;;
  if type t =? "if" then if_stmnt
  else if type t =? "while" then while_stmnt
  else if type t =? "def" then function_def
  else if type t =? "return" then return_stmnt
  else if (type t =? "identifier") && (type la =? "assignment")
  then assignment_stmnt
  else if (type t =? "identifier") && (type la =? "open-paren")
  then function_call (expr fuel) fuel
  else throw (ErioSyntaxError (Unexpected t)).

End Statement.

(** [statement()]; the fuel bounds the nesting of statements and
    expressions and the length of every loop. *)
Fixpoint statement (fuel : nat) : P node :=
  match fuel with
  | O => fun _ => OutOfFuel
  | S fuel' => statement_rule (statement fuel') fuel'
  end.

Definition top_level_statement (fuel : nat) : P node :=
  t <- cur ;;
  if type t =? "return" then throw (ErioSyntaxError ReturnOutsideFunctionBody)
  else statement fuel.

(** The generator [parse(stream)] between two pulls: not yet started, or
    suspended at its [yield]. *)
Inductive parse_generator : Type :=
| Fresh (s : Iter)
| Suspended (p : parser).

(** [next(stream)] with no default, inside the generator body: the
    [StopIteration] of an exhausted stream leaves the body as the host's
    [RuntimeError]. *)
Definition next_or_stop (s : Iter) : result (Token * Iter) :=
  rbind (next s)
        (fun r => match r with
                  | Some ts => Ok ts
                  | None => Raise (Host GeneratorStop)
                  end).

(** The first two statements of [parse]. *)
Definition parse_start (s : Iter) : result parser :=
  rbind (next_or_stop s)
        (fun ts1 =>
           rbind (next_or_stop (snd ts1))
                 (fun ts2 => Ok (MkParser (fst ts1) (fst ts2) (snd ts2)))).

(** The loop [while token.type != 'eof': yield top_level_statement()],
    resumed until its next [yield]; [Ok None] is [StopIteration]. *)
Definition parse_resume (fuel : nat) (p : parser)
  : result (option (node * parse_generator)) :=
  if negb (type (token p) =? "eof") then
    rbind (top_level_statement fuel p)
          (fun sp => Ok (Some (fst sp, Suspended (snd sp))))
  else Ok None.

Definition parse_next (fuel : nat) (g : parse_generator)
  : result (option (node * parse_generator)) :=
  match g with
  | Fresh s => rbind (parse_start s) (parse_resume fuel)
  | Suspended p => parse_resume fuel p
  end.

Definition parse (s : Iter) : parse_generator := Fresh s.

(** [list(program)]: every statement of the generator. *)
Fixpoint parse_all (fuel : nat) (n : nat) (g : parse_generator)
  : result (list node) :=
  match n with
  | O => OutOfFuel
  | S n' =>
      rbind (parse_next fuel g)
            (fun r => match r with
                      | None => Ok []
                      | Some (s, g') =>
                          rbind (parse_all fuel n' g')
                                (fun ss => Ok (s :: ss))
                      end)
  end.

End Parse.

Arguments MkParser {Iter} token lookahead stream.
Arguments Fresh {Iter} s.
Arguments Suspended {Iter} p.

(** A list of tokens as a stream: [iter(tokens)]. *)
Definition list_next (ts : list Token) : result (option (Token * list Token)) :=
  match ts with
  | [] => Ok None
  | t :: rest => Ok (Some (t, rest))
  end.

(** [list(parse(tokenize(text)))] *)
Definition parse_text (fuel : nat) (text : string) : result (list node) :=
  parse_all tokenizer_next fuel fuel (parse (tokenize text)).

Definition ident (s : string) : Token := MkToken "identifier" s.
Definition int_tok (s : string) : Token := MkToken "integer" s.

(** ** Runtime objects and the store *)

(** [token.value[1:-1]] *)
Definition strip_quotes (s : string) : string :=
  substring 1 (String.length s - 2) s.

(** [int(s)] for a text of decimal digits. *)
Definition int_of_digits (s : string) : Z :=
  fold_left (fun acc c => (10 * acc + Z.of_nat (nat_of_ascii c - 48))%Z)
            (list_ascii_of_string s) 0%Z.

(** [str(z)] *)
Definition str_of_int (z : Z) : string := NilZero.string_of_int (Z.to_int z).

Definition loc : Type := nat.

(** The primitives that [build_global_environment] defines. *)
Inductive primitive : Type :=
| _print | _add | _sub | _lt | _eq | _geti | _seti | _len | _insert.

(** The callable in a [Function]: a primitive, or the closure [func] that
    [exec_func_def] builds around the body of a definition. *)
Inductive callable : Type :=
| Primitive (f : primitive)
| Func (body : list node).

(** The objects the evaluator handles.  Besides the five record classes
    there are [None], the one-character host string that indexing a
    [String]'s text gives, and the output stream.  Lists and namespaces are
    mutable and shared: they live in the store and are named by location. *)
Inductive object : Type :=
| NoneObject
| Integer (val : Z)
| String (val : string)
| Boolean (val : bool)
| Sequence (val : loc)
| Function (env : loc) (args : list string) (body : callable)
| Char (c : ascii)
| Out.

(** [class Namespace(dict)]: the items and the parent. *)
Record Namespace : Type :=
  MkNamespace { items : list (string * object); parent : option loc }.

Record state : Type :=
  MkState { namespaces : list Namespace;
            lists : list (list object);
            output : string }.

(** What the field [val] of a record holds. *)
Inductive pyval : Type :=
| VInt (z : Z)
| VBool (b : bool)
| VStr (s : string)
| VList (l : loc).

(** [obj.val]: the objects that are not records have no such attribute. *)
Definition val_of (o : object) : result pyval :=
  match o with
  | Integer z => Ok (VInt z)
  | String s => Ok (VStr s)
  | Boolean b => Ok (VBool b)
  | Sequence l => Ok (VList l)
  | _ => Raise (Host AttributeError)
  end.

(** A host boolean is a host integer. *)
Definition as_int (v : pyval) : option Z :=
  match v with
  | VInt z => Some z
  | VBool b => Some (if b then 1 else 0)%Z
  | _ => None
  end.

(** [a == b] on host values; two lists are compared element by element by
    the host, which is not modelled. *)
Definition py_eq (a b : pyval) : result bool :=
  match as_int a, as_int b with
  | Some x, Some y => Ok (x =? y)%Z
  | _, _ =>
      match a, b with
      | VStr s, VStr t => Ok (s =? t)
      | VList _, VList _ => Unmodelled
      | _, _ => Ok false
      end
  end.

(** The orderings: defined between numbers and between strings. *)
Definition py_cmp (test : comparison -> bool) (a b : pyval) : result bool :=
  match as_int a, as_int b with
  | Some x, Some y => Ok (test (x ?= y)%Z)
  | _, _ =>
      match a, b with
      | VStr s, VStr t => Ok (test (String.compare s t))
      | VList _, VList _ => Unmodelled
      | _, _ => Raise (Host TypeError)
      end
  end.

Definition is_lt (c : comparison) : bool :=
  match c with Lt => true | _ => false end.
Definition is_gt (c : comparison) : bool :=
  match c with Gt => true | _ => false end.

Definition operator_eq : pyval -> pyval -> result bool := py_eq.
Definition operator_ne (a b : pyval) : result bool :=
  rbind (py_eq a b) (fun r => Ok (negb r)).
Definition operator_lt : pyval -> pyval -> result bool := py_cmp is_lt.
Definition operator_gt : pyval -> pyval -> result bool := py_cmp is_gt.
Definition operator_le : pyval -> pyval -> result bool :=
  py_cmp (fun c => negb (is_gt c)).
Definition operator_ge : pyval -> pyval -> result bool :=
  py_cmp (fun c => negb (is_lt c)).

Definition is_seq_like (v : pyval) : bool :=
  match v with VStr _ | VList _ => true | _ => false end.

(** [a + b]: the sum of two numbers; the host also concatenates two strings
    or two lists, which would put a non-integer in an [Integer]. *)
Definition operator_add (a b : pyval) : result Z :=
  match as_int a, as_int b with
  | Some x, Some y => Ok (x + y)%Z
  | _, _ =>
      match a, b with
      | VStr _, VStr _ | VList _, VList _ => Unmodelled
      | _, _ => Raise (Host TypeError)
      end
  end.

Definition operator_sub (a b : pyval) : result Z :=
  match as_int a, as_int b with
  | Some x, Some y => Ok (x - y)%Z
  | _, _ => Raise (Host TypeError)
  end.

(** [a * b]: the host also repeats a string or a list a number of times. *)
Definition operator_mul (a b : pyval) : result Z :=
  match as_int a, as_int b with
  | Some x, Some y => Ok (x * y)%Z
  | Some _, None => if is_seq_like b then Unmodelled else Raise (Host TypeError)
  | None, Some _ => if is_seq_like a then Unmodelled else Raise (Host TypeError)
  | None, None => Raise (Host TypeError)
  end.

Definition operator_floordiv (a b : pyval) : result Z :=
  match as_int a, as_int b with
  | Some x, Some y =>
      if (y =? 0)%Z then Raise (Host ZeroDivisionError) else Ok (x / y)%Z
  | _, _ => Raise (Host TypeError)
  end.

(** [a % b]: with a string on the left the host formats it. *)
Definition operator_mod (a b : pyval) : result Z :=
  match a with
  | VStr _ => Unmodelled
  | _ =>
      match as_int a, as_int b with
      | Some x, Some y =>
          if (y =? 0)%Z then Raise (Host ZeroDivisionError) else Ok (x mod y)%Z
      | _, _ => Raise (Host TypeError)
      end
  end.

Definition operator_pos (a : pyval) : result Z :=
  match as_int a with Some x => Ok x | None => Raise (Host TypeError) end.

Definition operator_neg (a : pyval) : result Z :=
  match as_int a with Some x => Ok (- x)%Z | None => Raise (Host TypeError) end.

(** The position that the host index [i] names in a sequence of [n]
    elements: negative indices count from the end. *)
Definition py_index (n : nat) (i : Z) : option nat :=
  if (0 <=? i)%Z then
    if (i <? Z.of_nat n)%Z then Some (Z.to_nat i) else None
  else if (- Z.of_nat n <=? i)%Z then Some (Z.to_nat (Z.of_nat n + i))
  else None.

(** Where [list.insert(i, x)] puts [x]: the index is clipped. *)
Definition py_insert_position (n : nat) (i : Z) : nat :=
  if (0 <=? i)%Z then Nat.min (Z.to_nat i) n
  else Z.to_nat (Z.max 0 (Z.of_nat n + i)).

Fixpoint list_set {A : Type} (l : list A) (i : nat) (x : A) : list A :=
  match l, i with
  | [], _ => []
  | _ :: rest, O => x :: rest
  | y :: rest, S i' => y :: list_set rest i' x
  end.

Definition list_insert {A : Type} (l : list A) (i : nat) (x : A) : list A :=
  firstn i l ++ x :: skipn i l.

(** [d[k] = v] on the items of a dict. *)
Fixpoint dict_set {V : Type} (d : list (string * V)) (k : string) (v : V)
  : list (string * V) :=
  match d with
  | [] => [(k, v)]
  | (k', v') :: rest =>
      if k' =? k then (k, v) :: rest else (k', v') :: dict_set rest k v
  end.

(** [Namespace.__contains__] and [Namespace.__getitem__].  A parent is
    always a namespace made earlier, so the walk up the chain ends; the
    counter [n] bounds it, and the callers pass the number of namespaces. *)
Fixpoint Namespace_contains (n : nat) (h : list Namespace) (self : loc)
  (key : string) : bool :=
  match n, nth_error h self with
  | S n', Some ns =>
      let found_here := dict_in (items ns) key in
      if negb found_here
         && match parent ns with
            | Some p => Namespace_contains n' h p key
            | None => false
            end
      then true
      else found_here
  | _, _ => false
  end.

Fixpoint Namespace_getitem (n : nat) (h : list Namespace) (self : loc)
  (key : string) : result object :=
  match n, nth_error h self with
  | S n', Some ns =>
      match parent ns with
      | Some p =>
          if negb (dict_in (items ns) key) && Namespace_contains n' h p key
          then Namespace_getitem n' h p key
          else match dict_get (items ns) key with
               | Some v => Ok v
               | None => Raise (Host (KeyError key))
               end
      | None =>
          match dict_get (items ns) key with
          | Some v => Ok v
          | None => Raise (Host (KeyError key))
          end
      end
  | _, _ => Raise (Host (KeyError key))
  end.

(** ** Evaluator *)

(** A computation on the store.  When it raises, the store is the one at
    the moment of the exception: what was written stays written. *)
Definition M (A : Type) : Type := state -> result A * state.

Definition unit_ {A : Type} (a : A) : M A := fun st => (Ok a, st).

Definition lift {A : Type} (r : result A) : M A := fun st => (r, st).

Definition raise {A : Type} (e : exception) : M A := lift (Raise e).

Definition mbind {A B : Type} (m : M A) (k : A -> M B) : M B :=
  fun st =>
    match m st with
    | (Ok a, st') => k a st'
    | (Raise e, st') => (Raise e, st')
    | (OutOfFuel, st') => (OutOfFuel, st')
    | (Unmodelled, st') => (Unmodelled, st')
    end.

Declare Scope eval_scope.
Delimit Scope eval_scope with eval.
Notation "x <- m ;; k" := (mbind m (fun x => k))
  (at level 61, m at next level, right associativity) : eval_scope.
Notation "m ;;; k" := (mbind m (fun _ => k))
  (at level 61, right associativity) : eval_scope.
Local Open Scope eval_scope.

Fixpoint mapM {A B : Type} (f : A -> M B) (l : list A) : M (list B) :=
  match l with
  | [] => unit_ []
  | a :: rest => b <- f a ;; bs <- mapM f rest ;; unit_ (b :: bs)
  end.

(** [env[key]] *)
Definition getitem (env : loc) (key : string) : M object :=
  fun st =>
    (Namespace_getitem (List.length (namespaces st)) (namespaces st) env key, st).

(** [env[key] = v] *)
Definition setitem (env : loc) (key : string) (v : object) : M unit :=
  fun st =>
    match nth_error (namespaces st) env with
    | Some ns =>
        (Ok tt,
         MkState (list_set (namespaces st) env
                    (MkNamespace (dict_set (items ns) key v) (parent ns)))
                 (lists st) (output st))
    | None => (Unmodelled, st)
    end.

(** [Namespace(parent=p)] *)
Definition new_namespace (p : option loc) : M loc :=
  fun st =>
    (Ok (List.length (namespaces st)),
     MkState (namespaces st ++ [MkNamespace [] p]) (lists st) (output st)).

(** A new host list. *)
Definition new_list (elems : list object) : M loc :=
  fun st =>
    (Ok (List.length (lists st)),
     MkState (namespaces st) (lists st ++ [elems]) (output st)).

Definition read_list (l : loc) : M (list object) :=
  fun st =>
    match nth_error (lists st) l with
    | Some elems => (Ok elems, st)
    | None => (Unmodelled, st)
    end.

Definition write_list (l : loc) (elems : list object) : M unit :=
  fun st =>
    (Ok tt, MkState (namespaces st) (list_set (lists st) l elems) (output st)).

(** [out.write(s)] *)
Definition write (s : string) : M unit :=
  fun st => (Ok tt, MkState (namespaces st) (lists st) (output st ++ s)).

(** [runenv[key].val] *)
Definition getval (runenv : loc) (key : string) : M pyval :=
  o <- getitem runenv key ;; lift (val_of o).

(** A host value used as an index must be an integer. *)
Definition index_of (v : pyval) : M Z :=
  match as_int v with
  | Some i => unit_ i
  | None => raise (Host TypeError)
  end.

Section Primitives.

Variable runenv : loc.

Definition print_body : M object :=
  o <- getitem runenv "s" ;;
  s <- match o with
       | Boolean b => unit_ (if b then "true" else "false")
       | _ =>
           o' <- getitem runenv "s" ;;
           v <- lift (val_of o') ;;
           match v with
           | VInt z => unit_ (str_of_int z)
           | VBool b => unit_ (if b then "True" else "False")
           | VStr s => unit_ s
           | VList _ => lift Unmodelled
           end
       end ;;
  sink <- getitem runenv ".out" ;;
  match sink with
  | Out => write s ;;; unit_ NoneObject
  | _ => raise (Host AttributeError)
  end.

Definition add_body : M object :=
  lhs <- getval runenv "lhs" ;;
  rhs <- getval runenv "rhs" ;;
  z <- lift (operator_add lhs rhs) ;;
  unit_ (Integer z).

Definition sub_body : M object :=
  lhs <- getval runenv "lhs" ;;
  rhs <- getval runenv "rhs" ;;
  z <- lift (operator_sub lhs rhs) ;;
  unit_ (Integer z).

Definition lt_body : M object :=
  lhs <- getval runenv "lhs" ;;
  rhs <- getval runenv "rhs" ;;
  b <- lift (operator_lt lhs rhs) ;;
  unit_ (Boolean b).

Definition eq_body : M object :=
  lhs <- getval runenv "lhs" ;;
  rhs <- getval runenv "rhs" ;;
  b <- lift (operator_eq lhs rhs) ;;
  unit_ (Boolean b).

(** [runenv['seq'].val[runenv['i'].val]] *)
Definition geti_body : M object :=
  seq <- getval runenv "seq" ;;
  i <- getval runenv "i" ;;
  match seq with
  | VList l =>
      elems <- read_list l ;;
      i <- index_of i ;;
      match py_index (List.length elems) i with
      | Some k => match nth_error elems k with
                  | Some o => unit_ o
                  | None => raise (Host IndexError)
                  end
      | None => raise (Host IndexError)
      end
  | VStr s =>
      i <- index_of i ;;
      match py_index (String.length s) i with
      | Some k => match String.get k s with
                  | Some c => unit_ (Char c)
                  | None => raise (Host IndexError)
                  end
      | None => raise (Host IndexError)
      end
  | _ => raise (Host TypeError)
  end.

(** [runenv['seq'].val[runenv['i'].val] = runenv['value']]: the host
    evaluates the right-hand side first. *)
Definition seti_body : M object :=
  v <- getitem runenv "value" ;;
  seq <- getval runenv "seq" ;;
  i <- getval runenv "i" ;;
  match seq with
  | VList l =>
      elems <- read_list l ;;
      i <- index_of i ;;
      match py_index (List.length elems) i with
      | Some k => write_list l (list_set elems k v) ;;; unit_ NoneObject
      | None => raise (Host IndexError)
      end
  | _ => raise (Host TypeError)
  end.

Definition len_body : M object :=
  seq <- getval runenv "seq" ;;
  match seq with
  | VList l => elems <- read_list l ;;
               unit_ (Integer (Z.of_nat (List.length elems)))
  | VStr s => unit_ (Integer (Z.of_nat (String.length s)))
  | _ => raise (Host TypeError)
  end.

(** [runenv['seq'].val.insert(runenv['i'].val, runenv['value'])]: only a
    list has the method. *)
Definition insert_body : M object :=
  seq <- getval runenv "seq" ;;
  match seq with
  | VList l =>
      i <- getval runenv "i" ;;
      v <- getitem runenv "value" ;;
      elems <- read_list l ;;
      i <- index_of i ;;
      write_list l
        (list_insert elems (py_insert_position (List.length elems) i) v) ;;;
      unit_ NoneObject
  | _ => raise (Host AttributeError)
  end.

Definition run_primitive (f : primitive) : M object :=
  match f with
  | _print => print_body
  | _add => add_body
  | _sub => sub_body
  | _lt => lt_body
  | _eq => eq_body
  | _geti => geti_body
  | _seti => seti_body
  | _len => len_body
  | _insert => insert_body
  end.

End Primitives.

(** The primitives in the order in which they are defined. *)
Definition primitive_functions : list (string * (list string * primitive)) :=
  [("print", (["s"], _print));
   ("add", (["lhs"; "rhs"], _add));
   ("sub", (["lhs"; "rhs"], _sub));
   ("lt", (["lhs"; "rhs"], _lt));
   ("eq", (["lhs"; "rhs"], _eq));
   ("geti", (["seq"; "i"], _geti));
   ("seti", (["seq"; "i"; "value"], _seti));
   ("len", (["seq"], _len));
   ("insert", (["seq"; "i"; "value"], _insert))].

(** The store after [build_global_environment(out)]: one namespace, at
    location 0, holding the stream and the primitives; nothing written. *)
Definition global : loc := 0.

Definition build_global_environment : state :=
  MkState
    [MkNamespace
       (fold_left
          (fun d p => dict_set d (fst p)
                        (Function global (fst (snd p))
                                  (Primitive (snd (snd p)))))
          primitive_functions
          (dict_set [] ".out" Out))
       None]
    [] "".

(** [true(obj)], local to [execute]. *)
Module Execute.
Definition true (obj : object) : result bool :=
  rbind (val_of obj) (fun v => py_eq v (VBool true)).
End Execute.

(** [if ret:], the host's own test of an object: [None] is false; a record
    is a non-empty tuple, a one-character string is non-empty, a stream is
    an ordinary object, and these are true. *)
Definition host_bool (ret : object) : bool :=
  match ret with
  | NoneObject => false
  | _ => true
  end.

Definition eval_const (t : Token) : M object :=
  if type t =? "string" then unit_ (String (strip_quotes (value t)))
  else if type t =? "integer" then
    if isdigit (value t) then unit_ (Integer (int_of_digits (value t)))
    else lift Unmodelled
  else if type t =? "boolean" then unit_ (Boolean (value t =? "true"))
  else raise (ErioRuntimeError (InvalidConstantToken t)).

Definition comp_ops : list (string * (pyval -> pyval -> result bool)) :=
  [("eq", operator_eq); ("lt", operator_lt); ("gt", operator_gt);
   ("lteq", operator_le); ("gteq", operator_ge); ("noteq", operator_ne)].

Definition arith_ops : list (string * (pyval -> pyval -> result Z)) :=
  [("add", operator_add); ("sub", operator_sub); ("mul", operator_mul);
   ("div", operator_floordiv); ("mod", operator_mod)].

Definition sign_ops : list (string * (pyval -> result Z)) :=
  [("add", operator_pos); ("sub", operator_neg)].

(** [ops[key]] *)
Definition ops_get {V : Type} (ops : list (string * V)) (key : string) : M V :=
  match dict_get ops key with
  | Some f => unit_ f
  | None => raise (Host (KeyError key))
  end.

Section Closures.

(** The closures of one call [execute(env, block)].  [execute] itself is
    what the closure [func] of a user function calls on its body;
    [eval_expr], [exec_statement] and [exec_while] are the recursive
    closures, tied together below. *)
Variable execute : loc -> list node -> M object.
Variable env : loc.
Variable eval_expr : node -> M object.
Variable exec_statement : node -> M object.
Variable exec_while : node -> M object.

Fixpoint exec_block (block : list node) : M object :=
  match block with
  | [] => unit_ NoneObject
  | s :: rest =>
      ret <- exec_statement s ;;
      if host_bool ret then unit_ ret else exec_block rest
  end.

Definition exec_if (cond : node) (then_ els : list node) : M object :=
  c <- eval_expr cond ;;
  b <- lift (Execute.true c) ;;
  if b then
    ret <- exec_block then_ ;;
    if host_bool ret then unit_ ret else unit_ NoneObject
  else
    ret <- exec_block els ;;
    if host_bool ret then unit_ ret else unit_ NoneObject.

Definition exec_assign (id : Token) (e : node) : M unit :=
  v <- eval_expr e ;; setitem env (value id) v.

Definition exec_func_def (id : Token) (args : list Token) (body : list node)
  : M unit :=
  setitem env (value id) (Function env (map value args) (Func body)).

Definition exec_return (e : node) : M object := eval_expr e.

Definition eval_or (lhs rhs : node) : M object :=
  l <- eval_expr lhs ;;
  b <- lift (Execute.true l) ;;
  if b then unit_ l
  else
    r <- eval_expr rhs ;;
    b' <- lift (Execute.true r) ;;
    if b' then unit_ r else unit_ (Boolean false).

Definition eval_and (lhs rhs : node) : M object :=
  l <- eval_expr lhs ;;
  b <- lift (Execute.true l) ;;
  if negb b then unit_ (Boolean false)
  else
    r <- eval_expr rhs ;;
    b' <- lift (Execute.true r) ;;
    if negb b' then unit_ (Boolean false) else unit_ r.

Definition eval_not (rhs : node) : M object :=
  r <- eval_expr rhs ;;
  b <- lift (Execute.true r) ;;
  unit_ (Boolean (negb b)).

Definition eval_comp (op : Token) (lhs rhs : node) : M object :=
  l <- eval_expr lhs ;;
  l <- lift (val_of l) ;;
  r <- eval_expr rhs ;;
  r <- lift (val_of r) ;;
  f <- ops_get comp_ops (type op) ;;
  b <- lift (f l r) ;;
  unit_ (Boolean b).

Definition eval_arith (op : Token) (lhs rhs : node) : M object :=
  l <- eval_expr lhs ;;
  l <- lift (val_of l) ;;
  r <- eval_expr rhs ;;
  r <- lift (val_of r) ;;
  f <- ops_get arith_ops (type op) ;;
  z <- lift (f l r) ;;
  unit_ (Integer z).

Definition eval_sign (op : Token) (rhs : node) : M object :=
  r <- eval_expr rhs ;;
  r <- lift (val_of r) ;;
  f <- ops_get sign_ops (type op) ;;
  z <- lift (f r) ;;
  unit_ (Integer z).

(** [runenv.update(zip(func.args, evald_args))] *)
Fixpoint update (runenv : loc) (pairs : list (string * object)) : M unit :=
  match pairs with
  | [] => unit_ tt
  | (k, v) :: rest => setitem runenv k v ;;; update runenv rest
  end.

Definition eval_func_call (id : Token) (args : list node) : M object :=
  func <- getitem env (value id) ;;
  evald_args <- mapM eval_expr args ;;
  match func with
  | Function fenv fargs body =>
      runenv <- new_namespace (Some fenv) ;;
      update runenv (combine fargs evald_args) ;;;
      match body with
      | Primitive f => run_primitive runenv f
      | Func block => execute runenv block
      end
  | _ => raise (Host AttributeError)
  end.

Definition eval_var (t : Token) : M object := getitem env (value t).

Definition eval_seq (elems : list node) : M object :=
  vs <- mapM eval_expr elems ;;
  l <- new_list vs ;;
  unit_ (Sequence l).

Definition eval_expr_rule (e : node) : M object :=
  match e with
  | ConstantExpr t => eval_const t
  | VariableExpr t => eval_var t
  | SequenceExpr elems => eval_seq elems
  | OrExpr _ lhs rhs => eval_or lhs rhs
  | AndExpr _ lhs rhs => eval_and lhs rhs
  | NotExpr _ rhs => eval_not rhs
  | CompExpr op lhs rhs => eval_comp op lhs rhs
  | MulExpr op lhs rhs | AddExpr op lhs rhs => eval_arith op lhs rhs
  | SignExpr op rhs => eval_sign op rhs
  | FunctionCall id args => eval_func_call id args
  | _ => raise (ErioRuntimeError (InvalidExpression e))
  end.

Definition exec_statement_rule (s : node) : M object :=
  match s with
  | IfStmnt cond then_ els => exec_if cond then_ els
  | WhileStmnt _ _ => exec_while s
  | ReturnStmnt e => exec_return e
  | AssignmentStmnt id e => exec_assign id e ;;; unit_ NoneObject
  | FunctionCall id args => eval_func_call id args ;;; unit_ NoneObject
  | FunctionDef id args body =>
      exec_func_def id args body ;;; unit_ NoneObject
  | _ => unit_ NoneObject
  end.

(** One turn of the loop of [exec_while]; [again] is the rest of the
    loop. *)
Definition exec_while_rule (again : M object) (s : node) : M object :=
  match s with
  | WhileStmnt cond do =>
      c <- eval_expr cond ;;
      b <- lift (Execute.true c) ;;
      if b then
        ret <- exec_block do ;;
        if host_bool ret then unit_ ret else again
      else unit_ NoneObject
  | _ => raise (Host AttributeError)
  end.

End Closures.

(** The three recursive closures.  The fuel bounds the depth of the
    recursion through expressions, blocks and calls, and the number of
    turns of every [while] loop. *)
Fixpoint eval_expr (fuel : nat) (env : loc) (e : node) {struct fuel} : M object :=
  match fuel with
  | O => lift OutOfFuel
  | S fuel' =>
      eval_expr_rule
        (fun runenv block => exec_block (exec_statement fuel' runenv) block)
        env (eval_expr fuel' env) e
  end
with exec_statement (fuel : nat) (env : loc) (s : node) {struct fuel} : M object :=
  match fuel with
  | O => lift OutOfFuel
  | S fuel' =>
      exec_statement_rule
        (fun runenv block => exec_block (exec_statement fuel' runenv) block)
        env (eval_expr fuel' env) (exec_statement fuel' env)
        (exec_while fuel' env) s
  end
with exec_while (fuel : nat) (env : loc) (s : node) {struct fuel} : M object :=
  match fuel with
  | O => lift OutOfFuel
  | S fuel' =>
      exec_while_rule (eval_expr fuel' env) (exec_statement fuel' env)
        (exec_while fuel' env s) s
  end.

(** [execute(env, block)] for a block that is a list. *)
Definition execute (fuel : nat) (env : loc) (block : list node) : M object :=
  exec_block (exec_statement fuel env) block.

(** ** The pipeline *)

Section Program.

Variable Iter : Type.
Variable next : Iter -> result (option (Token * Iter)).

(** [exec_block(block)] when the block is the generator that [parse]
    returns, as in [interpreter]: the loop pulls a statement, executes it,
    and only then pulls the next one.  [n] bounds the number of top-level
    statements. *)
Fixpoint exec_program (fuel n : nat) (env : loc) (g : parse_generator Iter)
  : M object :=
  match n with
  | O => lift OutOfFuel
  | S n' =>
      fun st =>
        match parse_next next fuel g with
        | Ok None => (Ok NoneObject, st)
        | Ok (Some (s, g')) =>
            (ret <- exec_statement fuel env s ;;
             if host_bool ret then unit_ ret
             else exec_program fuel n' env g') st
        | Raise e => (Raise e, st)
        | OutOfFuel => (OutOfFuel, st)
        | Unmodelled => (Unmodelled, st)
        end
  end.

End Program.

(** [interpreter(instream, outstream)]: the outcome of
    [execute(env, parse(tokenize(by_char(instream))))] and the store it
    leaves, whose [output] is what [outstream] received. *)
Definition interpreter (fuel : nat) (instream : string) : result object * state :=
  exec_program tokenizer_next fuel fuel global (parse (tokenize instream))
    build_global_environment.

(** [exec_to_string(parse(tokenize(program)))] *)
Definition exec_to_string (fuel : nat) (program : string) : result string :=
  match interpreter fuel program with
  | (Ok _, st) => Ok (output st)
  | (Raise e, _) => Raise e
  | (OutOfFuel, _) => OutOfFuel
  | (Unmodelled, _) => Unmodelled
  end.

(** ** Definitions used in the statements and proofs *)

(** Tokens and nodes of the examples. *)
Definition kw (s : string) : Token := MkToken s s.

Definition assign : Token := MkToken "assignment" "=".

Definition boolean_true : Token := MkToken "boolean" "true".

Definition boolean_false : Token := MkToken "boolean" "false".

(** The call [print(s)] for a quoted text [s]. *)
Definition print_call (s : string) : node :=
  FunctionCall (ident "print") [ConstantExpr (MkToken "string" (quoted s))].

(** *** Of the lexer *)

(** The buffer and the mode of [tokenize] when the loop has read the whole
    character stream, whatever it yielded on the way. *)
Fixpoint tokenize_state (buffer : string) (instring : bool) (stream : list ascii)
  : result (string * bool) :=
  match stream with
  | [] => Ok (buffer, instring)
  | c :: rest =>
      rbind (tokenize_char buffer instring c)
            (fun r => tokenize_state (fst (snd r)) (snd (snd r)) rest)
  end.

(** The number of double quotes in a text. *)
Definition quotes (s : string) : nat :=
  count_occ ascii_dec (list_ascii_of_string s) quote.

(** *** Of the parser *)

(** The kinds of token that [atom] turns into a leaf when no parenthesis
    follows. *)
Definition leaf_kinds : list string :=
  ["string"; "integer"; "boolean"; "identifier"].

(** The leaf that [atom] makes of such a token. *)
Definition leaf (t : Token) : node :=
  if existsb (String.eqb (type t)) ["string"; "integer"; "boolean"]
  then ConstantExpr t else VariableExpr t.

(** The kinds of the comparison operators. *)
Definition comp_kinds : list string :=
  ["eq"; "gt"; "lt"; "gteq"; "lteq"; "noteq"].

(** The kinds of token that continue no expression: every kind the lexer
    gives except the binary operators, and the end-of-stream sentinel. *)
Definition skipped_kinds : list string :=
  ["if"; "then"; "else"; "end-if"; "while"; "do"; "end-while"; "def";
   "end-def"; "return"; "not"; "open-paren"; "close-paren"; "comma";
   "assignment"; "open-bracket"; "close-bracket"; "string"; "integer";
   "boolean"; "identifier"; "eof"].

(** [list(parse(iter(x = ts)))]: the one statement that assigns the
    expression written [ts]. *)
Definition parse_assignment (fuel : nat) (ts : list Token) : result (list node) :=
  parse_all list_next fuel 2 (parse (ident "x" :: assign :: ts)).

(** What [parse_assignment] gives when the expression parses as [e]. *)
Definition assigned (e : node) : result (list node) :=
  Ok [AssignmentStmnt (ident "x") e].

(** A rule that, on a list of tokens, raises nothing but syntax errors. *)
Definition syntax_only {A : Type} (m : P (list Token) A) : Prop :=
  forall (p : parser (list Token)) (e : exception),
    m p = Raise e -> exists d, e = ErioSyntaxError d.

(** *** Of the evaluator *)

(** The making of the call frame in [eval_func_call]. *)
Definition call_frame (fenv : loc) (fargs : list string) (vs : list object)
  : M loc :=
  runenv <- new_namespace (Some fenv) ;;
  update runenv (combine fargs vs) ;;;
  unit_ runenv.

(** A store for [geti]: the global namespace, a call frame binding
    [seq] to a list of three elements and [i] to [-1]. *)
Definition geti_frame_store : state :=
  MkState
    (namespaces build_global_environment
     ++ [MkNamespace [("seq", Sequence 0); ("i", Integer (-1))] (Some global)])
    [[Integer 10; Integer 20; Integer 30]] "".

(** A block with a [return] in it: the body [y = 1  return 5  print(...)],
    the function [f] that has it, bound in the global namespace, and the
    stores along one call of [f]. *)
Definition sample_pre : list node :=
  [AssignmentStmnt (ident "y") (ConstantExpr (int_tok "1"))].

Definition sample_return : node := ReturnStmnt (ConstantExpr (int_tok "5")).

Definition sample_rest : list node := [print_call "unreachable"].

Definition sample_body : list node :=
  sample_pre ++ sample_return :: sample_rest.

Definition store_with_f : state :=
  snd (exec_statement 1 global (FunctionDef (ident "f") [] sample_body)
         build_global_environment).

Definition store_in_call : state := snd (call_frame global [] [] store_with_f).

Definition store_after_pre : state :=
  snd (exec_block (exec_statement 3 1) sample_pre store_in_call).

(** *** Of the reserved name *)

(** A name that may be bound: any but the reserved one. *)
Definition safe_name (s : string) : bool := negb (s =? ".out").

(** A node all of whose binding names, the targets of assignments and the
    names and parameters of definitions, may be bound. *)
Fixpoint safe_node (n : node) : bool :=
  match n with
  | IfStmnt cond then_ els =>
      safe_node cond && forallb safe_node then_ && forallb safe_node els
  | WhileStmnt cond do => safe_node cond && forallb safe_node do
  | AssignmentStmnt id e => safe_name (value id) && safe_node e
  | ConstantExpr _ | VariableExpr _ => true
  | SequenceExpr elems => forallb safe_node elems
  | FunctionCall _ args => forallb safe_node args
  | FunctionDef id args body =>
      safe_name (value id) && forallb (fun t => safe_name (value t)) args
      && forallb safe_node body
  | ReturnStmnt e => safe_node e
  | AddExpr _ l r | MulExpr _ l r | OrExpr _ l r | AndExpr _ l r
  | CompExpr _ l r => safe_node l && safe_node r
  | NotExpr _ r | SignExpr _ r => safe_node r
  end.

(** An object that, called, binds no reserved name. *)
Definition safe_object (o : object) : bool :=
  match o with
  | Function _ args (Func body) =>
      forallb safe_name args && forallb safe_node body
  | Function _ args (Primitive _) => forallb safe_name args
  | _ => true
  end.

(** The invariant of the store: the global namespace binds the reserved
    name to the stream, no other namespace binds it, and every function
    held in a namespace or in a list is safe. *)
Record sink_kept (st : state) : Prop :=
  MkSinkKept {
    has_global : exists g, nth_error (namespaces st) global = Some g;
    reserved_binding :
      forall (e : loc) (ns : Namespace),
        nth_error (namespaces st) e = Some ns ->
        dict_get (items ns) ".out"
        = if (e =? global)%nat then Some Out else None;
    safe_items :
      forall (e : loc) (ns : Namespace) (k : string) (v : object),
        nth_error (namespaces st) e = Some ns -> In (k, v) (items ns) ->
        safe_object v = true;
    safe_elems :
      forall (l : loc) (elems : list object) (v : object),
        nth_error (lists st) l = Some elems -> In v elems ->
        safe_object v = true
  }.

(** A computation that keeps the invariant, with a result that satisfies
    [Q]. *)
Definition keeps {A : Type} (Q : A -> Prop) (m : M A) : Prop :=
  forall (st st' : state) (r : result A),
    sink_kept st -> m st = (r, st') ->
    sink_kept st' /\ (forall a, r = Ok a -> Q a).

(** The results that the invariant speaks of. *)
Definition safe (o : object) : Prop := safe_object o = true.

Definition any {A : Type} (_ : A) : Prop := True.

Definition all_safe (vs : list object) : Prop := forall v, In v vs -> safe v.

Definition safe_token (t : Token) : Prop := safe_name (value t) = true.

Definition safe_n (n : node) : Prop := safe_node n = true.

Definition safe_ns (l : list node) : Prop := forallb safe_node l = true.

Definition safe_tokens (l : list Token) : Prop :=
  forallb (fun t => safe_name (value t)) l = true.

Section SafeParser.

Variable Iter : Type.

Definition safe_parser (p : parser Iter) : Prop :=
  safe_token (token p) /\ safe_token (lookahead p).

(** A rule that, from safe current and lookahead tokens, leaves them safe
    and gives a result that satisfies [Q]. *)
Definition psafe {A : Type} (Q : A -> Prop) (m : P Iter A) : Prop :=
  forall (p p' : parser Iter) (a : A),
    safe_parser p -> m p = Ok (a, p') -> safe_parser p' /\ Q a.

Definition safe_generator (g : parse_generator Iter) : Prop :=
  match g with
  | Fresh _ => True
  | Suspended p => safe_parser p
  end.

End SafeParser.

(** *** Of the further properties *)

(** The characters of a text that the lexer keeps: everything inside a
    string literal, the quotes included, and everything outside that is
    not whitespace.  [instring] tells whether the text starts inside a
    literal. *)
Fixpoint squeeze (instring : bool) (chars : list ascii) : string :=
  match chars with
  | [] => ""
  | c :: rest =>
      if instring then String.String c (squeeze (negb (Ascii.eqb c quote)) rest)
      else strip c ++ squeeze (Ascii.eqb c quote) rest
  end.

(** What a suspended tokenizer has still to give: its buffer and the kept
    characters of the rest of the stream. *)
Definition pending (g : tokenizer) : string :=
  match g with
  | Running buffer instring chars => buffer ++ squeeze instring chars
  | Finished => ""
  end.

(** The values of some tokens, one after the other. *)
Definition values (ts : list Token) : string :=
  fold_right (fun t s => value t ++ s) "" ts.

(** Every kind of token that [make_token] knows. *)
Definition token_kinds : list string :=
  keywords ++ map snd symbols ++ map fst tests.

(** The store after [env[key] = v]. *)
Definition store_after_setitem (env : loc) (key : string) (v : object)
  (st : state) : state :=
  snd (setitem env key v st).

(** The store in which the list at [l] is [elems]. *)
Definition store_with_list (st : state) (l : loc) (elems : list object) : state :=
  MkState (namespaces st) (list_set (lists st) l elems) (output st).

(** [env[key]] is [v] in the store [st]. *)
Definition binds (st : state) (env : loc) (key : string) (v : object) : Prop :=
  fst (getitem env key st) = Ok v.

(** A store for the list primitives: the global namespace, the list
    [[10, 20, 30]], and four call frames on it: one that writes 7 at
    index 1, one that reads at index -2, one that inserts 7 at index 10,
    one that reads at index 3. *)
Definition list_frames_store : state :=
  MkState
    (namespaces build_global_environment
     ++ [MkNamespace [("seq", Sequence 0); ("i", Integer 1); ("value", Integer 7)]
           (Some global);
         MkNamespace [("seq", Sequence 0); ("i", Integer (-2))] (Some global);
         MkNamespace [("seq", Sequence 0); ("i", Integer 10); ("value", Integer 7)]
           (Some global);
         MkNamespace [("seq", Sequence 0); ("i", Integer 3)] (Some global)])
    [[Integer 10; Integer 20; Integer 30]] "".

(** One turn of [int(s)]: the digit [c] put after the number [acc]. *)
Definition digit_step (acc : Z) (c : ascii) : Z :=
  (10 * acc + Z.of_nat (nat_of_ascii c - 48))%Z.

(** A store for [print]: the global namespace and a call frame that binds
    [s] to 42. *)
Definition print_frame_store : state :=
  MkState
    (namespaces build_global_environment
     ++ [MkNamespace [("s", Integer 42)] (Some global)])
    [] "".

(** What a run from [st] to [st'] may do to the store when it executes in
    the namespace [env] ([None] for an expression, which executes in
    none): every other namespace of [st] is in [st'] as it was, and the
    output of [st'] starts with the output of [st]. *)
Definition grows (env : option loc) (st st' : state) : Prop :=
  (forall (e : loc) (ns : Namespace),
     Some e <> env -> nth_error (namespaces st) e = Some ns ->
     nth_error (namespaces st') e = Some ns)
  /\ (List.length (namespaces st) <= List.length (namespaces st'))%nat
  /\ exists w : string, output st' = output st ++ w.

Definition runs {A : Type} (env : option loc) (m : M A) : Prop :=
  forall st : state, grows env st (snd (m st)).

(** The class of the record that an expression gives, by the class of
    its node, where the node decides it. *)
Definition result_class (e : node) (v : object) : Prop :=
  match e with
  | CompExpr _ _ _ | NotExpr _ _ => exists b : bool, v = Boolean b
  | AddExpr _ _ _ | MulExpr _ _ _ | SignExpr _ _ => exists z : Z, v = Integer z
  | SequenceExpr _ => exists l : loc, v = Sequence l
  | ConstantExpr t =>
      match v with
      | Integer _ => type t = "integer"
      | String _ => type t = "string"
      | Boolean _ => type t = "boolean"
      | _ => False
      end
  | VariableExpr _ | FunctionCall _ _ | OrExpr _ _ _ | AndExpr _ _ _ => True
  | IfStmnt _ _ _ | WhileStmnt _ _ | AssignmentStmnt _ _ | FunctionDef _ _ _
  | ReturnStmnt _ => False
  end.

Definition returns (Q : object -> Prop) (m : M object) : Prop :=
  forall (st : state) (v : object), fst (m st) = Ok v -> Q v.

(** Every parent is a namespace made earlier. *)
Definition chain_ok (h : list Namespace) : Prop :=
  forall (e : loc) (ns : Namespace) (p : loc),
    nth_error h e = Some ns -> parent ns = Some p -> (p < e)%nat.

(** [dict(pairs)] put over the items [d], as [dict.update] does. *)
Definition dict_update (d : list (string * object))
  (pairs : list (string * object)) : list (string * object) :=
  fold_left (fun d p => dict_set d (fst p) (snd p)) pairs d.

(** A [Function] holds a namespace that exists among [n]. *)
Definition fun_ok (n : nat) (o : object) : Prop :=
  match o with
  | Function env _ _ => (env < n)%nat
  | _ => True
  end.

Definition all_fun_ok (n : nat) (l : list object) : Prop :=
  forall v : object, In v l -> fun_ok n v.

(** Every parent is an older namespace, and every function that a
    namespace or a list holds closes over a namespace of the store. *)
Definition well_formed (st : state) : Prop :=
  chain_ok (namespaces st)
  /\ (forall (e : loc) (ns : Namespace) (k : string) (v : object),
        nth_error (namespaces st) e = Some ns -> In (k, v) (items ns) ->
        fun_ok (List.length (namespaces st)) v)
  /\ (forall (l : loc) (elems : list object),
        nth_error (lists st) l = Some elems ->
        all_fun_ok (List.length (namespaces st)) elems).

(** [m], run from a well-formed store of at least [n0] namespaces, leaves
    a well-formed store of no fewer namespaces, and what it returns
    satisfies [Q] there. *)
Definition wkeeps {A : Type} (n0 : nat) (Q : nat -> A -> Prop) (m : M A) : Prop :=
  forall (st st' : state) (r : result A),
    well_formed st -> (n0 <= List.length (namespaces st))%nat ->
    m st = (r, st') ->
    well_formed st'
    /\ (List.length (namespaces st) <= List.length (namespaces st'))%nat
    /\ forall a : A, r = Ok a -> Q (List.length (namespaces st')) a.

Definition whatever {A : Type} (n : nat) (a : A) : Prop := True.

Definition below (n : nat) (e : loc) : Prop := (e < n)%nat.

(** [m'] does what [m] does wherever [m] is not cut short by its bound. *)
Definition extends {A : Type} (m m' : M A) : Prop :=
  forall st : state, fst (m st) <> OutOfFuel -> m' st = m st.

(** A store for the binary primitives: the global namespace and a call
    frame that binds [lhs] to 1 and [rhs] to a text. *)
Definition binary_frame_store : state :=
  MkState
    (namespaces build_global_environment
     ++ [MkNamespace [("lhs", Integer 1); ("rhs", String "two")] (Some global)])
    [] "".

Section StreamSim.

Variable I1 : Type.
Variable I2 : Type.
Variable R : I1 -> I2 -> Prop.

(** Two parsers at the same tokens, over streams that [R] relates. *)
Definition psim (p1 : parser I1) (p2 : parser I2) : Prop :=
  token p1 = token p2 /\ lookahead p1 = lookahead p2
  /\ R (stream p1) (stream p2).

Definition rsim {A : Type} (r1 : result (A * parser I1))
  (r2 : result (A * parser I2)) : Prop :=
  match r1, r2 with
  | Ok (a1, p1), Ok (a2, p2) => a1 = a2 /\ psim p1 p2
  | Raise e1, Raise e2 => e1 = e2
  | OutOfFuel, OutOfFuel => True
  | Unmodelled, Unmodelled => True
  | _, _ => False
  end.

Definition msim {A : Type} (m1 : P I1 A) (m2 : P I2 A) : Prop :=
  forall (p1 : parser I1) (p2 : parser I2), psim p1 p2 -> rsim (m1 p1) (m2 p2).

Definition gsim (g1 : parse_generator I1) (g2 : parse_generator I2) : Prop :=
  match g1, g2 with
  | Fresh s1, Fresh s2 => R s1 s2
  | Suspended p1, Suspended p2 => psim p1 p2
  | _, _ => False
  end.

End StreamSim.

(** The generator [g] yields the tokens [ts] and ends. *)
Definition yields (g : tokenizer) (ts : list Token) : Prop :=
  exists n : nat, drain n g = Ok ts.

(** The text [print("s")]. *)
Definition print_text (s : string) : string := "print(" ++ quoted s ++ ")".

(** Tokens of the punctuation. *)
Definition open_paren : Token := MkToken "open-paren" "(".
Definition close_paren : Token := MkToken "close-paren" ")".
Definition comma : Token := MkToken "comma" ",".

(** [list(parse(iter(ts)))] for the tokens of one statement. *)
Definition parse_statement (fuel : nat) (ts : list Token) : result (list node) :=
  parse_all list_next fuel 2 (parse ts).

(** The characters of identifiers and numbers. *)
Definition is_word_char (c : ascii) : bool :=
  is_letter_char c || is_digit_char c.

(** A non-empty text of such characters. *)
Definition is_word (w : string) : bool :=
  negb (w =? "") && all_chars is_word_char w.

(** A buffer that is empty or starts as a word does. *)
Definition word_start (b : string) : bool :=
  match b with
  | EmptyString => true
  | String.String a _ => is_word_char a
  end.

(** The five arithmetic operators: the character, the name of the token
    and the function of the host. *)
Definition arithmetic : list (ascii * (string * (Z -> Z -> result Z))) :=
  [("+"%char, ("add", fun x y => Ok (x + y)%Z));
   ("-"%char, ("sub", fun x y => Ok (x - y)%Z));
   ("*"%char, ("mul", fun x y => Ok (x * y)%Z));
   ("/"%char,
    ("div", fun x y => if (y =? 0)%Z then Raise (Host ZeroDivisionError)
                       else Ok (x / y)%Z));
   ("%"%char,
    ("mod", fun x y => if (y =? 0)%Z then Raise (Host ZeroDivisionError)
                       else Ok (x mod y)%Z))].

(** The node that the parser makes of an arithmetic operator. *)
Definition arith_node (name : string) : Token -> node -> node -> node :=
  if existsb (String.eqb name) ["add"; "sub"] then AddExpr else MulExpr.

(** The text [print(a c b)] for two numbers and an operator. *)
Definition print_arith_text (a : Z) (c : ascii) (b : Z) : string :=
  "print(" ++ str_of_int a ++ String.String c "" ++ str_of_int b ++ ")".

(** *** Of the ladder of expressions *)

Definition open_bracket : Token := MkToken "open-bracket" "[".
Definition close_bracket : Token := MkToken "close-bracket" "]".

(** The rung of an expression on the ladder of [expr]: 1 for [or], the
    loosest, to 7 for a sign; 8 for what [atom] parses. *)
Definition level (e : node) : nat :=
  match e with
  | OrExpr _ _ _ => 1
  | AndExpr _ _ _ => 2
  | NotExpr _ _ => 3
  | CompExpr _ _ _ => 4
  | AddExpr _ _ _ => 5
  | MulExpr _ _ _ => 6
  | SignExpr _ _ => 7
  | _ => 8
  end.

(** Tokens between parentheses, when [b] asks for them. *)
Definition wrap (b : bool) (ts : list Token) : list Token :=
  if b then open_paren :: ts ++ [close_paren] else ts.

(** Texts one after the other, a comma between two of them. *)
Fixpoint commas (l : list (list Token)) : list Token :=
  match l with
  | [] => []
  | x :: rest =>
      match rest with
      | [] => x
      | _ :: _ => x ++ comma :: commas rest
      end
  end.

(** An expression written out, with parentheses only around an operand
    that stands on a looser rung than its place allows: the left operand
    of a binary operator may stand on the operator's own rung, the right
    operand and the operand of a prefix operator as the rules of [expr]
    say.  The statements have no such text. *)
Fixpoint pretty (e : node) : list Token :=
  match e with
  | ConstantExpr t => [t]
  | VariableExpr t => [t]
  | SequenceExpr elems =>
      open_bracket :: commas (map pretty elems) ++ [close_bracket]
  | FunctionCall id args =>
      id :: open_paren :: commas (map pretty args) ++ [close_paren]
  | OrExpr op l r =>
      wrap (level l <? 1)%nat (pretty l) ++ op :: wrap (level r <? 2)%nat (pretty r)
  | AndExpr op l r =>
      wrap (level l <? 2)%nat (pretty l) ++ op :: wrap (level r <? 3)%nat (pretty r)
  | NotExpr op r => op :: wrap (level r <? 3)%nat (pretty r)
  | CompExpr op l r =>
      wrap (level l <? 4)%nat (pretty l) ++ op :: wrap (level r <? 5)%nat (pretty r)
  | AddExpr op l r =>
      wrap (level l <? 5)%nat (pretty l) ++ op :: wrap (level r <? 6)%nat (pretty r)
  | MulExpr op l r =>
      wrap (level l <? 6)%nat (pretty l) ++ op :: wrap (level r <? 7)%nat (pretty r)
  | SignExpr op r => op :: wrap (level r <? 7)%nat (pretty r)
  | _ => []
  end.

(** The text of [e] as an operand on the rung [r]. *)
Definition pretty_at (r : nat) (e : node) : list Token :=
  wrap (level e <? r)%nat (pretty e).

(** The expressions that [expr] can give: every token of the kind of its
    place. *)
Fixpoint wf_expr (e : node) : bool :=
  match e with
  | ConstantExpr t => existsb (String.eqb (type t)) ["string"; "integer"; "boolean"]
  | VariableExpr t => type t =? "identifier"
  | SequenceExpr elems => forallb wf_expr elems
  | FunctionCall id args => (type id =? "identifier") && forallb wf_expr args
  | OrExpr op l r => (type op =? "or") && wf_expr l && wf_expr r
  | AndExpr op l r => (type op =? "and") && wf_expr l && wf_expr r
  | NotExpr op r => (type op =? "not") && wf_expr r
  | CompExpr op l r =>
      existsb (String.eqb (type op)) comp_kinds && wf_expr l && wf_expr r
  | AddExpr op l r =>
      existsb (String.eqb (type op)) ["add"; "sub"] && wf_expr l && wf_expr r
  | MulExpr op l r =>
      existsb (String.eqb (type op)) ["mul"; "div"; "mod"]
      && wf_expr l && wf_expr r
  | SignExpr op r => existsb (String.eqb (type op)) ["add"; "sub"] && wf_expr r
  | _ => false
  end.

(** The number of nodes of an expression. *)
Fixpoint size (e : node) : nat :=
  match e with
  | SequenceExpr elems => S (list_sum (map size elems))
  | FunctionCall _ args => S (list_sum (map size args))
  | OrExpr _ l r | AndExpr _ l r | CompExpr _ l r | AddExpr _ l r
  | MulExpr _ l r => S (size l + size r)
  | NotExpr _ r | SignExpr _ r => S (size r)
  | _ => 1
  end.

(** The parser, as [parse] and [next_token] set it, on a list of tokens
    that are still to come. *)
Definition at_tokens (ts : list Token) : parser (list Token) :=
  match ts with
  | [] => MkParser eof eof []
  | t :: rest =>
      match rest with
      | [] => MkParser t eof []
      | u :: s => MkParser t u s
      end
  end.

(** The rule of [expr] for the rung [r], with the fuel [f]. *)
Definition level_parser (r f : nat) : P (list Token) node :=
  let e := expr list_next f in
  match r with
  | 0 | 1 => or_expr list_next e f
  | 2 => and_expr list_next e f
  | 3 => not_expr list_next e f
  | 4 => comp_expr list_next e f
  | 5 => add_expr list_next e f
  | 6 => mul_expr list_next e f
  | 7 => sign_expr list_next e f
  | _ => atom list_next e f
  end.

(** The binary rungs and their operators, as [expr] writes them. *)
Definition binary_levels : list (nat * token_types) :=
  [(1%nat, Str "or"); (2%nat, Str "and");
   (4%nat, Tuple ["eq"; "gt"; "lt"; "gteq"; "lteq"; "noteq"]);
   (5%nat, Tuple ["add"; "sub"]); (6%nat, Tuple ["mul"; "div"; "mod"])].

(** A token at which the rule of the rung [r] stops: no binary operator of
    that rung or a tighter one, and no parenthesis that would make a call
    of a variable before it. *)
Definition stops (r : nat) (t : Token) : bool :=
  negb (type t =? "open-paren")
  && forallb (fun lt => (fst lt <? r)%nat || negb (type_in t (snd lt)))
       binary_levels.

(** The rule of the rung [r] reads the text of [e] as [e], and stops
    where the text ends. *)
Definition parses_at (r : nat) (e : node) (f : nat) : Prop :=
  forall rest : list Token,
    stops r (token (at_tokens rest)) = true ->
    level_parser r f (at_tokens (pretty_at r e ++ rest)) = Ok (e, at_tokens rest).

(** The kinds of token with which the text of an expression on the rung
    [lv] can start. *)
Definition starts (lv : nat) (t : Token) : bool :=
  existsb (String.eqb (type t))
    (["string"; "integer"; "boolean"; "identifier"; "open-bracket"]
     ++ (if (lv <? 8)%nat then ["open-paren"; "add"; "sub"] else [])
     ++ (if (lv <? 4)%nat then ["not"] else [])).

(** What the rule of the rung [r] needs of the bound to read [e]: a step
    for every node, and one more for the parentheses. *)
Definition budget (r : nat) (e : node) : nat :=
  size e + (if (level e <? r)%nat then 1 else 0).

(** The loop of [build_tree] on the rung [r], after the operands to the
    left of [e] have been read: [k] more rounds give [e] as the left-hand
    side. *)
Definition spine_ok (E : Token -> node -> node -> node) (types : token_types)
    (r f : nat) (e : node) : Prop :=
  exists k : nat, (k < size e)%nat /\
    forall (m : nat) (rest : list Token),
      stops (S r) (token (at_tokens rest)) = true ->
      make_left_assoc_binary_op list_next E (level_parser (S r) f) types (k + m)
        (at_tokens (pretty_at r e ++ rest))
      = build_tree list_next E (level_parser (S r) f) types m e (at_tokens rest).

(** What [make_prefix_unary_op] does once its loop has the operators. *)
Definition prefix_rest (U : Token -> node -> node) (r f : nat)
    (ops : list Token) : P (list Token) node :=
  bind (level_parser (S r) f)
    (fun exp => ret (fold_left (fun exp op => U op exp) (rev ops) exp)).

(** The loop of [make_prefix_unary_op] on the rung [r], with the operators
    [acc] already read: [k] more rounds read the operators of [e]. *)
Definition prefix_ok (U : Token -> node -> node) (types : token_types)
    (r f : nat) (e : node) : Prop :=
  exists k : nat, (k < size e)%nat /\
    forall (acc : list Token) (m : nat) (rest : list Token),
      stops (S r) (token (at_tokens rest)) = true ->
      bind (while_prefix list_next types (k + S m) acc) (prefix_rest U r f)
        (at_tokens (pretty_at r e ++ rest))
      = Ok (fold_left (fun exp op => U op exp) (rev acc) e, at_tokens rest).

(** An expression with every rung in it, and its text:
    [not a + f(b, 1) * - c - (d + 2) < [e] or y]. *)
Definition ladder_example : node :=
  OrExpr (kw "or")
    (NotExpr (kw "not")
       (CompExpr (MkToken "lt" "<")
          (AddExpr (MkToken "sub" "-")
             (AddExpr (MkToken "add" "+") (VariableExpr (ident "a"))
                (MulExpr (MkToken "mul" "*")
                   (FunctionCall (ident "f")
                      [VariableExpr (ident "b"); ConstantExpr (int_tok "1")])
                   (SignExpr (MkToken "sub" "-") (VariableExpr (ident "c")))))
             (AddExpr (MkToken "add" "+") (VariableExpr (ident "d"))
                (ConstantExpr (int_tok "2"))))
          (SequenceExpr [VariableExpr (ident "e")])))
    (VariableExpr (ident "y")).

Definition ladder_example_text : list Token :=
  [kw "not"; ident "a"; MkToken "add" "+"; ident "f"; open_paren; ident "b";
   comma; int_tok "1"; close_paren; MkToken "mul" "*"; MkToken "sub" "-";
   ident "c"; MkToken "sub" "-"; open_paren; ident "d"; MkToken "add" "+";
   int_tok "2"; close_paren; MkToken "lt" "<"; open_bracket; ident "e";
   close_bracket; kw "or"; ident "y"].

(** *** Of the dispatch of the parser *)

(** The test of the dispatch in [statement]: the token and the lookahead
    start one of its rules. *)
Definition starts_statement (t la : Token) : bool :=
  existsb (String.eqb (type t)) ["if"; "while"; "def"; "return"]
  || ((type t =? "identifier")
      && existsb (String.eqb (type la)) ["assignment"; "open-paren"]).

(** The test of the dispatch in [atom]. *)
Definition starts_atom (t : Token) : bool :=
  existsb (String.eqb (type t))
    ["string"; "integer"; "boolean"; "identifier"; "open-bracket"; "open-paren"].

(** * Properties *)

(** ** The programs of the test suite *)

Example test_tokenizer :
  tokens_of (nl ++ "  if then else end-if while do end-while = 100 some_string"
             ++ nl ++ "  (" ++ quoted "a string" ++ ") [false, true ] def return end-def or and not"
             ++ nl ++ "  > < >= <= == != + - * / %")
  = Ok (map (fun p => MkToken (fst p) (snd p))
         [("if", "if"); ("then", "then"); ("else", "else");
          ("end-if", "end-if"); ("while", "while"); ("do", "do");
          ("end-while", "end-while"); ("assignment", "="); ("integer", "100");
          ("identifier", "some_string"); ("open-paren", "(");
          ("string", quoted "a string"); ("close-paren", ")");
          ("open-bracket", "["); ("boolean", "false"); ("comma", ",");
          ("boolean", "true"); ("close-bracket", "]"); ("def", "def");
          ("return", "return"); ("end-def", "end-def"); ("or", "or");
          ("and", "and"); ("not", "not"); ("gt", ">"); ("lt", "<");
          ("gteq", ">="); ("lteq", "<="); ("eq", "=="); ("noteq", "!=");
          ("add", "+"); ("sub", "-"); ("mul", "*"); ("div", "/");
          ("mod", "%")]).
Proof. vm_compute. reflexivity. Qed.

Example test_order_of_operations :
  parse_text 20 "test = x == 1 and y * 2 - 4 < 3 or not 5 != z % 6"
  = Ok [AssignmentStmnt (ident "test")
          (OrExpr (MkToken "or" "or")
             (AndExpr (MkToken "and" "and")
                (CompExpr (MkToken "eq" "==")
                   (VariableExpr (ident "x")) (ConstantExpr (int_tok "1")))
                (CompExpr (MkToken "lt" "<")
                   (AddExpr (MkToken "sub" "-")
                      (MulExpr (MkToken "mul" "*")
                         (VariableExpr (ident "y"))
                         (ConstantExpr (int_tok "2")))
                      (ConstantExpr (int_tok "4")))
                   (ConstantExpr (int_tok "3"))))
             (NotExpr (MkToken "not" "not")
                (CompExpr (MkToken "noteq" "!=")
                   (ConstantExpr (int_tok "5"))
                   (MulExpr (MkToken "mod" "%")
                      (VariableExpr (ident "z"))
                      (ConstantExpr (int_tok "6"))))))].
Proof. vm_compute. reflexivity. Qed.

Example test_parse_function_def :
  parse_text 20 ("def useradd(x, y)" ++ nl ++ " return add(x, y)" ++ nl ++ "end-def")
  = Ok [FunctionDef (ident "useradd") [ident "x"; ident "y"]
          [ReturnStmnt (FunctionCall (ident "add")
                          [VariableExpr (ident "x"); VariableExpr (ident "y")])]].
Proof. vm_compute. reflexivity. Qed.

Example test_negative_integers :
  parse_text 20 ("x = -55" ++ nl ++ "y = 55 + - x")
  = Ok [AssignmentStmnt (ident "x")
          (SignExpr (MkToken "sub" "-") (ConstantExpr (int_tok "55")));
        AssignmentStmnt (ident "y")
          (AddExpr (MkToken "add" "+") (ConstantExpr (int_tok "55"))
             (SignExpr (MkToken "sub" "-") (VariableExpr (ident "x"))))].
Proof. vm_compute. reflexivity. Qed.

Example test_hello_world :
  exec_to_string 10 ("print(" ++ quoted "hello world" ++ ")") = Ok "hello world".
Proof. vm_compute. reflexivity. Qed.

Example test_simple_program :
  exec_to_string 30
    ("test = true" ++ nl ++
     "if test then" ++ nl ++
     "    total = add(4, 3)" ++ nl ++
     "else" ++ nl ++
     "    total = 3" ++ nl ++
     "end-if" ++ nl ++
     "count = 0" ++ nl ++
     "a = [" ++ quoted "this" ++ ", " ++ quoted "was" ++ ", " ++ quoted "a" ++ "]" ++ nl ++
     "insert(a, len(a), " ++ quoted "triumph" ++ ")" ++ nl ++
     "print(geti(a, 3))" ++ nl ++
     "while lt(count, total) do" ++ nl ++
     "    print(" ++ quoted "!" ++ ")" ++ nl ++
     "    count = add(count, 1)" ++ nl ++
     "end-while")
  = Ok "triumph!!!!!!!".
Proof. vm_compute. reflexivity. Qed.

Example test_function_def :
  exec_to_string 30
    ("def mul(x, y)" ++ nl ++
     "    c = 0" ++ nl ++
     "    a = 0" ++ nl ++
     "    while lt(c, y) do" ++ nl ++
     "        a = add(a, x)" ++ nl ++
     "        c = add(c, 1)" ++ nl ++
     "    end-while" ++ nl ++
     "    return a" ++ nl ++
     "end-def" ++ nl ++
     "print(mul(6, 7))")
  = Ok "42".
Proof. vm_compute. reflexivity. Qed.

Example test_order_of_operations_value :
  exec_to_string 30
    ("x = 7==1 and 10/5 <= 11 or 8*2-4 > -15 or not 5 != 9 % 6" ++ nl ++
     "print(x)")
  = Ok "true".
Proof. vm_compute. reflexivity. Qed.

Example test_enclosure_value :
  exec_to_string 30 "print((1 + 2) * 3)" = Ok "9".
Proof. vm_compute. reflexivity. Qed.

(** ** Truthiness *)

(** What [true(obj)] accepts: [Boolean(true)], and [Integer(1)], which the
    host's [==] equates with [True], and no other object; objects without
    a [val] make it raise. *)
Lemma true_iff_boolean_true_or_integer_one : forall v : object,
  Execute.true v = Ok true <-> v = Boolean true \/ v = Integer 1.
Proof.
  intro v; split.
  - destruct v as [ | z | s | b | l | e a f | c | ]; cbn; intro H;
      try discriminate.
    + right. injection H as H. apply Z.eqb_eq in H. now subst.
    + left. destruct b; [reflexivity | discriminate].
  - intros [-> | ->]; reflexivity.
Qed.

(** C1, the failing input: [Integer(1)] is not [Boolean(true)] and is
    truthy all the same, in [true] itself, as the condition of an [if] and
    of a [while], and as an operand of [or], [and] and [not]. *)
Lemma integer_one_is_truthy :
  Execute.true (Integer 1) = Ok true
  /\ Integer 1 <> Boolean true
  /\ exec_to_string 10 ("if 1 then print(" ++ quoted "yes" ++ ") end-if")
     = Ok "yes"
  /\ exec_to_string 10 "x = 1 while x do print(x) x = 0 end-while" = Ok "1"
  /\ exec_to_string 10 "print(1 or 5) print(1 and true) print(not 1)"
     = Ok "1truefalse".
Proof. repeat split; try discriminate; vm_compute; reflexivity. Qed.

(** ** The end of the character stream *)

(** C7, the failing input: the stream that is one double quote ends in
    in-string mode with the quote in the buffer, and finalization makes a
    [string] token of it, since a one-character text both starts and ends
    with a quote. *)
Theorem lone_quote_is_a_string_token :
  tokenize_char "" false quote = Ok (None, (dq, true))
  /\ tokenize_end dq = Ok (Some (MkToken "string" dq, Finished))
  /\ tokens_of dq = Ok [MkToken "string" dq]
  /\ tokens_of ("x = " ++ dq)
     = Ok [ident "x"; MkToken "assignment" "="; MkToken "string" dq].
Proof. repeat split; vm_compute; reflexivity. Qed.

#[local] Arguments quote : simpl never.

Lemma list_ascii_app : forall s t : string,
  list_ascii_of_string (s ++ t)
  = (list_ascii_of_string s ++ list_ascii_of_string t)%list.
Proof.
  induction s as [ | c s IH]; intro t; cbn; [reflexivity | now rewrite IH].
Qed.

Lemma quotes_app : forall s t : string, quotes (s ++ t) = (quotes s + quotes t)%nat.
Proof.
  intros s t. unfold quotes. rewrite list_ascii_app. apply count_occ_app.
Qed.

Lemma quotes_char : forall c : ascii,
  quotes (String.String c "") = if Ascii.eqb c quote then 1%nat else 0%nat.
Proof.
  intro c. unfold quotes. cbn [list_ascii_of_string count_occ].
  destruct (ascii_dec c quote) as [-> | Hne].
  - reflexivity.
  - destruct (Ascii.eqb_spec c quote); [contradiction | reflexivity].
Qed.

Lemma quotes_strip : forall c : ascii,
  quotes (strip c) = if Ascii.eqb c quote then 1%nat else 0%nat.
Proof.
  intro c. unfold strip. destruct (isspace c) eqn:Hs.
  - destruct (Ascii.eqb_spec c quote) as [-> | ]; [discriminate | reflexivity].
  - apply quotes_char.
Qed.

(** In in-string mode the buffer holds one quote, the opening one; outside
    it holds none. *)
Lemma tokenize_char_quotes :
  forall (buffer : string) (instring : bool) (c : ascii)
         (t : option Token) (buffer' : string) (instring' : bool),
  quotes buffer = (if instring then 1 else 0)%nat ->
  tokenize_char buffer instring c = Ok (t, (buffer', instring')) ->
  quotes buffer' = (if instring' then 1 else 0)%nat.
Proof.
  intros buffer instring c t buffer' instring' Hq. unfold tokenize_char.
  destruct instring; cbn [andb negb].
  - destruct (Ascii.eqb c quote) eqn:Hc; cbn [negb andb].
    + destruct (make_token (add_char buffer c)); cbn; try discriminate.
      now intros [= _ <- <-].
    + intros [= _ <- <-]. unfold add_char. rewrite quotes_app, quotes_char, Hc.
      lia.
  - rewrite andb_false_r.
    assert (Hs : quotes (strip c)
                 = (if (if Ascii.eqb c quote then true else false)
                    then 1 else 0)%nat)
      by (rewrite quotes_strip; now destruct (Ascii.eqb c quote)).
    repeat match goal with
           | |- (if ?b then _ else _) = _ -> _ => destruct b
           end;
      try (destruct (make_token buffer); cbn; try discriminate);
      intros [= _ <- <-]; cbn [append];
      rewrite ?quotes_app, ?Hq, ?Hs; reflexivity.
Qed.

Lemma tokenize_state_quotes :
  forall (chars : list ascii) (buffer buffer' : string) (instring instring' : bool),
  quotes buffer = (if instring then 1 else 0)%nat ->
  tokenize_state buffer instring chars = Ok (buffer', instring') ->
  quotes buffer' = (if instring' then 1 else 0)%nat.
Proof.
  induction chars as [ | c rest IH]; intros buffer buffer' instring instring' Hq;
    cbn.
  - now intros [= <- <-].
  - destruct (tokenize_char buffer instring c) as [[t [b i]] | | | ] eqn:Hc;
      cbn; try discriminate.
    apply IH. eapply tokenize_char_quotes; eassumption.
Qed.

Lemma word_chars_no_quote : forall (p : ascii -> bool) (s : string),
  p quote = false -> all_chars p s = true -> quotes s = 0%nat.
Proof.
  intros p s Hp. unfold all_chars, quotes.
  induction (list_ascii_of_string s) as [ | c l IH]; cbn; [reflexivity | ].
  intro H. apply andb_prop in H. destruct H as [Hc Hl].
  destruct (ascii_dec c quote) as [-> | _]; [congruence | now apply IH].
Qed.

Lemma endswith_quotes : forall s : string,
  endswith s quote = true -> (1 <= quotes s)%nat.
Proof.
  induction s as [ | c s IH]; [discriminate | ].
  unfold quotes in *. cbn [list_ascii_of_string count_occ endswith].
  destruct s as [ | d s'].
  - intro H. apply Ascii.eqb_eq in H. subst c.
    destruct (ascii_dec quote quote); [lia | contradiction].
  - intro H. specialize (IH H). destruct (ascii_dec c quote); lia.
Qed.

Ltac not_this_word Hq :=
  match goal with
  | |- context [String.eqb ?b ?w] =>
      let E := fresh "E" in
      destruct (String.eqb_spec b w) as [E | _];
      [subst; vm_compute in Hq; discriminate Hq | ]
  end.

(** A text with exactly one quote in it that is more than that quote is
    no token. *)
Lemma one_quote_is_no_token : forall s : string,
  quotes s = 1%nat -> s <> dq ->
  make_token s = Raise (ErioInvalidTokenError s).
Proof.
  intros s Hq Hne. unfold make_token, keywords, symbols, tests.
  cbn [existsb dict_get find fst snd orb].
  repeat not_this_word Hq. cbn [orb].
  assert (Hid : isidentifier s = false).
  { destruct (isidentifier s) eqn:H; [ | reflexivity].
    destruct s as [ | c r]; [discriminate | ]. cbn in H.
    apply andb_prop in H. destruct H as [Hc Hr].
    apply (word_chars_no_quote (fun d => is_letter_char d || is_digit_char d))
      in Hr; [ | reflexivity].
    unfold quotes in Hq, Hr. cbn in Hq.
    destruct (ascii_dec c quote) as [-> | _]; [discriminate | congruence]. }
  assert (Hdig : isdigit s = false).
  { destruct (isdigit s) eqn:H; [ | reflexivity]. unfold isdigit in H.
    apply andb_prop in H. destruct H as [_ H].
    apply word_chars_no_quote in H; [congruence | reflexivity]. }
  assert (Hstr : startswith s quote && endswith s quote = false).
  { destruct s as [ | c r]; [reflexivity | ]. cbn [startswith].
    destruct (Ascii.eqb_spec c quote) as [-> | _]; [ | reflexivity].
    cbn [andb]. destruct (endswith (String.String quote r) quote) eqn:He;
      [ | reflexivity].
    destruct r as [ | d r']; [now contradiction Hne | ].
    change (endswith (String.String d r') quote = true) in He.
    apply endswith_quotes in He. unfold quotes in Hq, He.
    cbn [list_ascii_of_string count_occ] in Hq, He.
    destruct (ascii_dec quote quote); [lia | contradiction]. }
  rewrite Hid, Hdig, Hstr. reflexivity.
Qed.

(** Every stream that ends in in-string mode is rejected at finalization,
    unless the buffer is the one opening quote. *)
Lemma unterminated_string_is_invalid :
  forall (text : string) (buffer : string),
  tokenize_state "" false (list_ascii_of_string text) = Ok (buffer, true) ->
  buffer <> dq ->
  tokenize_end buffer = Raise (ErioInvalidTokenError buffer).
Proof.
  intros text buffer Hs Hne.
  assert (Hq : quotes buffer = 1%nat).
  { change 1%nat with (if true then 1 else 0)%nat.
    eapply (@tokenize_state_quotes _ "" buffer false true);
      [reflexivity | exact Hs]. }
  unfold tokenize_end. rewrite (one_quote_is_no_token Hq Hne).
  destruct buffer; [discriminate | reflexivity].
Qed.

Example unterminated_string_example :
  tokenize_state "" false (list_ascii_of_string ("x = " ++ dq ++ "abc"))
  = Ok (dq ++ "abc", true)
  /\ tokens_of ("x = " ++ dq ++ "abc")
     = Raise (ErioInvalidTokenError (dq ++ "abc")).
Proof. split; vm_compute; reflexivity. Qed.

(** ** The start of the parser *)

Lemma parse_start_short_list : forall ts : list Token,
  (List.length ts < 2)%nat ->
  parse_start list_next ts = Raise (Host GeneratorStop).
Proof.
  intros [ | t [ | t' ts]] H; cbn in *; try reflexivity; lia.
Qed.

Lemma drain_short : forall (n : nat) (g : tokenizer) (ts : list Token),
  drain n g = Ok ts -> (List.length ts < 2)%nat ->
  parse_start tokenizer_next g = Raise (Host GeneratorStop).
Proof.
  intros n g ts Hd Hlen. unfold parse_start, next_or_stop.
  destruct n as [ | n]; [discriminate | ]. cbn in Hd.
  destruct (tokenizer_next g) as [[[t g'] | ] | | | ]; cbn in *;
    try discriminate; try reflexivity.
  destruct n as [ | n]; [discriminate | ]. cbn in Hd.
  destruct (tokenizer_next g') as [[[t' g''] | ] | | | ]; cbn in *;
    try discriminate; try reflexivity.
  destruct (drain n g''); cbn in Hd; try discriminate.
  injection Hd as <-. cbn in Hlen. lia.
Qed.

(** C10. [parse] pulls two tokens before its loop: on a stream of fewer
    than two tokens the first pull of a statement raises (the host's
    [RuntimeError] for a [StopIteration] escaping a generator), so a text
    that lexes to fewer than two tokens, the empty text among them, is not
    run to a successful end. *)
Theorem parse_needs_two_tokens :
  forall (text : string) (ts : list Token) (fuel : nat),
  tokens_of text = Ok ts -> (List.length ts < 2)%nat ->
  parse_next list_next fuel (parse ts) = Raise (Host GeneratorStop)
  /\ parse_next tokenizer_next fuel (parse (tokenize text))
     = Raise (Host GeneratorStop)
  /\ interpreter (S fuel) text
     = (Raise (Host GeneratorStop), build_global_environment).
Proof.
  intros text ts fuel Hts Hlen.
  assert (Hs : parse_start tokenizer_next (tokenize text)
               = Raise (Host GeneratorStop))
    by (eapply drain_short; eassumption).
  repeat split.
  - cbn. now rewrite parse_start_short_list.
  - cbn. now rewrite Hs.
  - unfold interpreter. cbn. now rewrite Hs.
Qed.

Lemma parse_needs_two_tokens_witness :
  parse_next list_next 5 (parse []) = Raise (Host GeneratorStop)
  /\ parse_next tokenizer_next 5 (parse (tokenize ""))
     = Raise (Host GeneratorStop)
  /\ interpreter 6 "" = (Raise (Host GeneratorStop), build_global_environment).
Proof.
  apply (@parse_needs_two_tokens "" [] 5); [reflexivity | cbn; lia].
Defined.

(** ** Failing lookups *)

Lemma dict_in_false_get : forall (V : Type) (d : list (string * V)) (k : string),
  dict_in d k = false -> dict_get d k = None.
Proof.
  intros V d k. unfold dict_in. now destruct (dict_get d k).
Qed.

(** A name that the chain does not contain is a [KeyError] of the dict at
    which the walk stops. *)
Lemma Namespace_getitem_missing :
  forall (n : nat) (h : list Namespace) (self : loc) (key : string),
  Namespace_contains n h self key = false ->
  Namespace_getitem n h self key = Raise (Host (KeyError key)).
Proof.
  induction n as [ | n IH]; intros h self key H; cbn in *.
  - now destruct (nth_error h self).
  - destruct (nth_error h self) as [ns | ]; [ | reflexivity].
    destruct (dict_in (items ns) key) eqn:Hin; cbn in H.
    + discriminate.
    + rewrite (dict_in_false_get _ _ Hin).
      destruct (parent ns) as [p | ]; [ | reflexivity].
      cbn. destruct (Namespace_contains n h p key); [discriminate | reflexivity].
Qed.

(** C8, as amended: a variable that no namespace of the chain binds fails
    with the host's [KeyError], and [geti] on a list fails with the host's
    [IndexError] when the index is at least the length or below its
    negation; an index from [-len] to [-1] does not fail and gives the
    element counted from the end.  Neither failure is an
    [ErioRuntimeError]. *)
Theorem missing_name_and_bad_index_raise_host_errors :
  forall (fuel : nat) (env runenv : loc) (t : Token) (st : state)
         (l : loc) (elems : list object) (i : Z),
  Namespace_contains (List.length (namespaces st)) (namespaces st) env (value t)
  = false ->
  getitem runenv "seq" st = (Ok (Sequence l), st) ->
  getitem runenv "i" st = (Ok (Integer i), st) ->
  nth_error (lists st) l = Some elems ->
  let len := Z.of_nat (List.length elems) in
  eval_expr (S fuel) env (VariableExpr t) st
  = (Raise (Host (KeyError (value t))), st)
  /\ run_primitive runenv _geti st
     = if ((len <=? i) || (i <? - len))%Z
       then (Raise (Host IndexError), st)
       else (Ok (nth (Z.to_nat (if (i <? 0)%Z then len + i else i)%Z)
                     elems NoneObject), st).
Proof.
  intros fuel env runenv t st l elems i Hmiss Hseq Hi Hl len.
  split.
  - cbn. unfold eval_var, getitem. now rewrite Namespace_getitem_missing.
  - cbn. unfold geti_body, getval, mbind.
    rewrite Hseq. cbn -[getitem]. rewrite Hi. cbn. unfold read_list. rewrite Hl.
    unfold py_index. fold len.
    destruct (Z.leb_spec 0 i) as [Hpos | Hneg].
    + destruct (Z.ltb_spec i len) as [Hlt | Hge].
      * destruct (Z.leb_spec len i); [lia | ].
        destruct (Z.ltb_spec i (- len)); [lia | ].
        destruct (Z.ltb_spec i 0); [lia | ]. cbn.
        destruct (nth_error elems (Z.to_nat i)) as [o | ] eqn:Ho.
        -- now rewrite (nth_error_nth _ _ _ Ho).
        -- apply nth_error_None in Ho. lia.
      * destruct (Z.leb_spec len i); [reflexivity | lia].
    + destruct (Z.leb_spec (- len) i) as [Hin | Hout].
      * destruct (Z.leb_spec len i); [lia | ].
        destruct (Z.ltb_spec i (- len)); [lia | ].
        destruct (Z.ltb_spec i 0); [ | lia]. cbn.
        destruct (nth_error elems (Z.to_nat (len + i))) as [o | ] eqn:Ho.
        -- now rewrite (nth_error_nth _ _ _ Ho).
        -- apply nth_error_None in Ho. lia.
      * destruct (Z.leb_spec len i); [lia | ].
        destruct (Z.ltb_spec i (- len)); [reflexivity | lia].
Qed.

Lemma missing_name_and_bad_index_witness :
  eval_expr 1 global (VariableExpr (ident "x")) geti_frame_store
  = (Raise (Host (KeyError "x")), geti_frame_store)
  /\ run_primitive 1 _geti geti_frame_store
     = (Ok (Integer 30), geti_frame_store).
Proof.
  apply (@missing_name_and_bad_index_raise_host_errors
           0 global 1 (ident "x") geti_frame_store 0
           [Integer 10; Integer 20; Integer 30] (-1)%Z);
    reflexivity.
Defined.

(** C8, as stated, fails: the missing name and the index past the end are
    exceptions of the host, and the index [-1] is no failure at all. *)
Lemma lookup_failures_are_host_exceptions :
  exec_to_string 10 "print(x)" = Raise (Host (KeyError "x"))
  /\ exec_to_string 10 "a = [1, 2, 3] print(geti(a, 3))"
     = Raise (Host IndexError)
  /\ exec_to_string 10 "a = [1, 2, 3] print(geti(a, -1))" = Ok "3".
Proof. repeat split; vm_compute; reflexivity. Qed.

(** ** A top-level return *)

(** C6, as amended: when the parser, resumed for its next statement, stands
    at a [return], the pipeline stops with the syntax error and leaves the
    store, the output in it, as it was: what earlier statements wrote stays
    written, and a program that starts with [return] writes nothing. *)
Theorem top_level_return_raises :
  forall (Iter : Type) (next : Iter -> result (option (Token * Iter)))
         (fuel n : nat) (env : loc) (s : Iter) (p : parser Iter) (st : state),
  parse_start next s = Ok p -> type (token p) = "return" ->
  exec_program next fuel (S n) env (Suspended p) st
  = (Raise (ErioSyntaxError ReturnOutsideFunctionBody), st)
  /\ exec_program next fuel (S n) env (parse s) st
     = (Raise (ErioSyntaxError ReturnOutsideFunctionBody), st)
  /\ output build_global_environment = "".
Proof.
  intros Iter next fuel n env s p st Hs Ht.
  assert (Hr : parse_resume next fuel p
               = Raise (ErioSyntaxError ReturnOutsideFunctionBody)).
  { unfold parse_resume, top_level_statement, bind, cur. rewrite Ht. cbn.
    rewrite Ht. reflexivity. }
  repeat split; cbn.
  - now rewrite Hr.
  - now rewrite Hs; cbn; rewrite Hr.
Qed.

Lemma top_level_return_witness :
  exec_program tokenizer_next 3 1 global
    (Suspended (MkParser (MkToken "return" "return") (int_tok "1") Finished))
    build_global_environment
  = (Raise (ErioSyntaxError ReturnOutsideFunctionBody), build_global_environment)
  /\ exec_program tokenizer_next 3 1 global (parse (tokenize "return 1"))
       build_global_environment
     = (Raise (ErioSyntaxError ReturnOutsideFunctionBody),
        build_global_environment)
  /\ output build_global_environment = "".
Proof.
  apply (@top_level_return_raises tokenizer tokenizer_next 3 0 global
           (tokenize "return 1")
           (MkParser (MkToken "return" "return") (int_tok "1") Finished)
           build_global_environment);
    reflexivity.
Defined.

(** C6, as stated, fails: the statements before a top-level [return] are
    executed, and write, before the parser reaches it; and a program that
    is the one token [return] does not fail with a syntax error. *)
Lemma output_before_top_level_return :
  (exists st,
     interpreter 10 ("print(" ++ quoted "a" ++ ") return 1")
     = (Raise (ErioSyntaxError ReturnOutsideFunctionBody), st)
     /\ output st = "a")
  /\ interpreter 10 "return"
     = (Raise (Host GeneratorStop), build_global_environment).
Proof.
  split; [eexists; split | ]; vm_compute; reflexivity.
Qed.

(** ** Precedence *)

Ltac kinds H :=
  cbn in H;
  repeat match type of H with
         | _ \/ _ => destruct H as [H | H]
         | False => destruct H
         end;
  try (cbn in H; subst).

Ltac token_cases t H :=
  destruct t as [? ?]; kinds H.

Lemma mul_binds_tighter_than_add :
  forall (a b c plus times : Token) (fuel : nat),
  In (type a) leaf_kinds -> In (type b) leaf_kinds -> In (type c) leaf_kinds ->
  In (type plus) ["add"; "sub"] -> In (type times) ["mul"; "div"; "mod"] ->
  parse_assignment (5 + fuel) [a; plus; b; times; c]
  = assigned (AddExpr plus (leaf a) (MulExpr times (leaf b) (leaf c)))
  /\ parse_assignment (5 + fuel) [a; times; b; plus; c]
     = assigned (AddExpr plus (MulExpr times (leaf a) (leaf b)) (leaf c)).
Proof.
  intros a b c plus times fuel Ha Hb Hc Hp Ht.
  token_cases a Ha; token_cases b Hb; token_cases c Hc;
    token_cases plus Hp; token_cases times Ht;
    split; vm_compute; reflexivity.
Qed.

Lemma comp_binds_tighter_than_and_and_not :
  forall (a b c cmp : Token) (fuel : nat),
  In (type a) leaf_kinds -> In (type b) leaf_kinds -> In (type c) leaf_kinds ->
  In (type cmp) comp_kinds ->
  parse_assignment (5 + fuel) [a; cmp; b; kw "and"; c]
  = assigned (AndExpr (kw "and") (CompExpr cmp (leaf a) (leaf b)) (leaf c))
  /\ parse_assignment (5 + fuel) [kw "not"; a; cmp; b]
     = assigned (NotExpr (kw "not") (CompExpr cmp (leaf a) (leaf b))).
Proof.
  intros a b c cmp fuel Ha Hb Hc Hcmp.
  token_cases a Ha; token_cases b Hb; token_cases c Hc; token_cases cmp Hcmp;
    split; vm_compute; reflexivity.
Qed.

Lemma add_binds_tighter_than_comp :
  forall (a b c plus cmp : Token) (fuel : nat),
  In (type a) leaf_kinds -> In (type b) leaf_kinds -> In (type c) leaf_kinds ->
  In (type plus) ["add"; "sub"] -> In (type cmp) comp_kinds ->
  parse_assignment (5 + fuel) [a; cmp; b; plus; c]
  = assigned (CompExpr cmp (leaf a) (AddExpr plus (leaf b) (leaf c))).
Proof.
  intros a b c plus cmp fuel Ha Hb Hc Hp Hcmp.
  token_cases a Ha; token_cases b Hb; token_cases c Hc;
    token_cases plus Hp; token_cases cmp Hcmp;
    vm_compute; reflexivity.
Qed.

Lemma not_and_or_levels :
  forall (a b c : Token) (fuel : nat),
  In (type a) leaf_kinds -> In (type b) leaf_kinds -> In (type c) leaf_kinds ->
  parse_assignment (5 + fuel) [kw "not"; a; kw "or"; b]
  = assigned (OrExpr (kw "or") (NotExpr (kw "not") (leaf a)) (leaf b))
  /\ parse_assignment (5 + fuel) [kw "not"; a; kw "and"; b]
     = assigned (AndExpr (kw "and") (NotExpr (kw "not") (leaf a)) (leaf b))
  /\ parse_assignment (5 + fuel) [a; kw "or"; b; kw "and"; c]
     = assigned (OrExpr (kw "or") (leaf a) (AndExpr (kw "and") (leaf b) (leaf c)))
  /\ parse_assignment (5 + fuel) [a; kw "and"; b; kw "and"; c]
     = assigned (AndExpr (kw "and") (AndExpr (kw "and") (leaf a) (leaf b)) (leaf c))
  /\ parse_assignment (5 + fuel) [a; kw "or"; b; kw "or"; c]
     = assigned (OrExpr (kw "or") (OrExpr (kw "or") (leaf a) (leaf b)) (leaf c)).
Proof.
  intros a b c fuel Ha Hb Hc.
  token_cases a Ha; token_cases b Hb; token_cases c Hc;
    repeat split; vm_compute; reflexivity.
Qed.

Lemma arithmetic_levels_associate_left :
  forall (a b c op op' : Token) (fuel : nat),
  In (type a) leaf_kinds -> In (type b) leaf_kinds -> In (type c) leaf_kinds ->
  (In (type op) ["mul"; "div"; "mod"] -> In (type op') ["mul"; "div"; "mod"] ->
   parse_assignment (5 + fuel) [a; op; b; op'; c]
   = assigned (MulExpr op' (MulExpr op (leaf a) (leaf b)) (leaf c)))
  /\ (In (type op) ["add"; "sub"] -> In (type op') ["add"; "sub"] ->
      parse_assignment (5 + fuel) [a; op; b; op'; c]
      = assigned (AddExpr op' (AddExpr op (leaf a) (leaf b)) (leaf c))).
Proof.
  intros a b c op op' fuel Ha Hb Hc.
  token_cases a Ha; token_cases b Hb; token_cases c Hc;
    split; intros Ho Ho'; token_cases op Ho; token_cases op' Ho';
    vm_compute; reflexivity.
Qed.

Lemma comparisons_associate_left :
  forall (a b c op op' : Token) (fuel : nat),
  In (type a) leaf_kinds -> In (type b) leaf_kinds -> In (type c) leaf_kinds ->
  In (type op) comp_kinds -> In (type op') comp_kinds ->
  parse_assignment (5 + fuel) [a; op; b; op'; c]
  = assigned (CompExpr op' (CompExpr op (leaf a) (leaf b)) (leaf c)).
Proof.
  intros a b c op op' fuel Ha Hb Hc Ho Ho'.
  token_cases a Ha; token_cases b Hb; token_cases c Hc;
    token_cases op Ho; token_cases op' Ho';
    vm_compute; reflexivity.
Qed.

Lemma prefix_operators_bind_tightest_and_stack :
  forall (a b sign sign' times : Token) (fuel : nat),
  In (type a) leaf_kinds -> In (type b) leaf_kinds ->
  In (type sign) ["add"; "sub"] -> In (type sign') ["add"; "sub"] ->
  In (type times) ["mul"; "div"; "mod"] ->
  parse_assignment (5 + fuel) [sign; a; times; b]
  = assigned (MulExpr times (SignExpr sign (leaf a)) (leaf b))
  /\ parse_assignment (5 + fuel) [sign; sign'; a]
     = assigned (SignExpr sign (SignExpr sign' (leaf a)))
  /\ parse_assignment (5 + fuel) [kw "not"; kw "not"; a]
     = assigned (NotExpr (kw "not") (NotExpr (kw "not") (leaf a))).
Proof.
  intros a b sign sign' times fuel Ha Hb Hs Hs' Ht.
  token_cases a Ha; token_cases b Hb; token_cases sign Hs;
    token_cases sign' Hs'; token_cases times Ht;
    repeat split; vm_compute; reflexivity.
Qed.

(** The ladder on the shapes of two operators, for leaves [a], [b], [c]
    (constants or variables) and operators of the kinds named:
    multiplication binds tighter than addition, addition tighter than
    comparison, comparison tighter than [not], [not] tighter than [and],
    [and] tighter than [or], a sign tighter than multiplication; two
    operators of one binary level group to the left and prefix operators
    stack. *)
Lemma ladder_of_two_operators :
  forall (a b c plus plus' times times' cmp cmp' : Token) (fuel : nat),
  In (type a) leaf_kinds -> In (type b) leaf_kinds -> In (type c) leaf_kinds ->
  In (type plus) ["add"; "sub"] -> In (type plus') ["add"; "sub"] ->
  In (type times) ["mul"; "div"; "mod"] ->
  In (type times') ["mul"; "div"; "mod"] ->
  In (type cmp) comp_kinds -> In (type cmp') comp_kinds ->
  let parsed := parse_assignment (5 + fuel) in
  parsed [a; plus; b; times; c]
  = assigned (AddExpr plus (leaf a) (MulExpr times (leaf b) (leaf c)))
  /\ parsed [a; times; b; plus; c]
     = assigned (AddExpr plus (MulExpr times (leaf a) (leaf b)) (leaf c))
  /\ parsed [a; cmp; b; plus; c]
     = assigned (CompExpr cmp (leaf a) (AddExpr plus (leaf b) (leaf c)))
  /\ parsed [a; cmp; b; kw "and"; c]
     = assigned (AndExpr (kw "and") (CompExpr cmp (leaf a) (leaf b)) (leaf c))
  /\ parsed [kw "not"; a; cmp; b]
     = assigned (NotExpr (kw "not") (CompExpr cmp (leaf a) (leaf b)))
  /\ parsed [kw "not"; a; kw "or"; b]
     = assigned (OrExpr (kw "or") (NotExpr (kw "not") (leaf a)) (leaf b))
  /\ parsed [kw "not"; a; kw "and"; b]
     = assigned (AndExpr (kw "and") (NotExpr (kw "not") (leaf a)) (leaf b))
  /\ parsed [a; kw "or"; b; kw "and"; c]
     = assigned (OrExpr (kw "or") (leaf a) (AndExpr (kw "and") (leaf b) (leaf c)))
  /\ parsed [a; times; b; times'; c]
     = assigned (MulExpr times' (MulExpr times (leaf a) (leaf b)) (leaf c))
  /\ parsed [a; plus; b; plus'; c]
     = assigned (AddExpr plus' (AddExpr plus (leaf a) (leaf b)) (leaf c))
  /\ parsed [a; cmp; b; cmp'; c]
     = assigned (CompExpr cmp' (CompExpr cmp (leaf a) (leaf b)) (leaf c))
  /\ parsed [a; kw "and"; b; kw "and"; c]
     = assigned (AndExpr (kw "and") (AndExpr (kw "and") (leaf a) (leaf b)) (leaf c))
  /\ parsed [a; kw "or"; b; kw "or"; c]
     = assigned (OrExpr (kw "or") (OrExpr (kw "or") (leaf a) (leaf b)) (leaf c))
  /\ parsed [plus; a; times; b]
     = assigned (MulExpr times (SignExpr plus (leaf a)) (leaf b))
  /\ parsed [plus; plus'; a]
     = assigned (SignExpr plus (SignExpr plus' (leaf a)))
  /\ parsed [kw "not"; kw "not"; a]
     = assigned (NotExpr (kw "not") (NotExpr (kw "not") (leaf a))).
Proof.
  intros a b c plus plus' times times' cmp cmp' fuel
         Ha Hb Hc Hp Hp' Ht Ht' Hcmp Hcmp' parsed. subst parsed.
  destruct (mul_binds_tighter_than_add a b c plus times fuel) as [M1 M2];
    try assumption.
  destruct (comp_binds_tighter_than_and_and_not a b c cmp fuel) as [C1 C2];
    try assumption.
  destruct (not_and_or_levels a b c fuel) as (N1 & N2 & N3 & N4 & N5);
    try assumption.
  destruct (arithmetic_levels_associate_left a b c times times' fuel)
    as [L1 _]; try assumption.
  destruct (arithmetic_levels_associate_left a b c plus plus' fuel)
    as [_ L2]; try assumption.
  destruct (prefix_operators_bind_tightest_and_stack a b plus plus' times fuel)
    as (P1 & P2 & P3); try assumption.
  repeat split; try assumption.
  - now apply add_binds_tighter_than_comp.
  - now apply L1.
  - now apply L2.
  - now apply comparisons_associate_left.
Qed.

Lemma ladder_of_two_operators_example :
  let a := ident "a" in
  let b := int_tok "1" in
  let c := ident "b" in
  let plus := MkToken "add" "+" in
  let minus := MkToken "sub" "-" in
  let times := MkToken "mul" "*" in
  let over := MkToken "div" "/" in
  let eq := MkToken "eq" "==" in
  let lt := MkToken "lt" "<" in
  let parsed := parse_assignment 5 in
  parsed [a; plus; b; times; c]
  = assigned (AddExpr plus (leaf a) (MulExpr times (leaf b) (leaf c)))
  /\ parsed [a; times; b; plus; c]
     = assigned (AddExpr plus (MulExpr times (leaf a) (leaf b)) (leaf c))
  /\ parsed [a; eq; b; plus; c]
     = assigned (CompExpr eq (leaf a) (AddExpr plus (leaf b) (leaf c)))
  /\ parsed [a; eq; b; kw "and"; c]
     = assigned (AndExpr (kw "and") (CompExpr eq (leaf a) (leaf b)) (leaf c))
  /\ parsed [kw "not"; a; eq; b]
     = assigned (NotExpr (kw "not") (CompExpr eq (leaf a) (leaf b)))
  /\ parsed [kw "not"; a; kw "or"; b]
     = assigned (OrExpr (kw "or") (NotExpr (kw "not") (leaf a)) (leaf b))
  /\ parsed [kw "not"; a; kw "and"; b]
     = assigned (AndExpr (kw "and") (NotExpr (kw "not") (leaf a)) (leaf b))
  /\ parsed [a; kw "or"; b; kw "and"; c]
     = assigned (OrExpr (kw "or") (leaf a) (AndExpr (kw "and") (leaf b) (leaf c)))
  /\ parsed [a; times; b; over; c]
     = assigned (MulExpr over (MulExpr times (leaf a) (leaf b)) (leaf c))
  /\ parsed [a; plus; b; minus; c]
     = assigned (AddExpr minus (AddExpr plus (leaf a) (leaf b)) (leaf c))
  /\ parsed [a; eq; b; lt; c]
     = assigned (CompExpr lt (CompExpr eq (leaf a) (leaf b)) (leaf c))
  /\ parsed [a; kw "and"; b; kw "and"; c]
     = assigned (AndExpr (kw "and") (AndExpr (kw "and") (leaf a) (leaf b)) (leaf c))
  /\ parsed [a; kw "or"; b; kw "or"; c]
     = assigned (OrExpr (kw "or") (OrExpr (kw "or") (leaf a) (leaf b)) (leaf c))
  /\ parsed [plus; a; times; b]
     = assigned (MulExpr times (SignExpr plus (leaf a)) (leaf b))
  /\ parsed [plus; minus; a]
     = assigned (SignExpr plus (SignExpr minus (leaf a)))
  /\ parsed [kw "not"; kw "not"; a]
     = assigned (NotExpr (kw "not") (NotExpr (kw "not") (leaf a))).
Proof.
  intros a b c plus minus times over eq lt.
  apply (@ladder_of_two_operators a b c plus minus times over eq lt 0);
    cbn; tauto.
Defined.

(** ** The ladder, for every expression *)

Lemma next_token_at : forall (t : Token) (l : list Token),
  next_token list_next (at_tokens (t :: l)) = Ok (tt, at_tokens l).
Proof. intros t [ | u [ | v s]]; reflexivity. Qed.

Lemma token_at : forall (t : Token) (l : list Token),
  token (at_tokens (t :: l)) = t.
Proof. intros t [ | u s]; reflexivity. Qed.

Lemma lookahead_at : forall (t : Token) (l : list Token),
  lookahead (at_tokens (t :: l)) = token (at_tokens l).
Proof. intros t [ | u [ | v s]]; reflexivity. Qed.

Lemma stops_S : forall (r : nat) (t : Token),
  stops r t = true -> stops (S r) t = true.
Proof.
  intros r t H. unfold stops in *. apply andb_prop in H. destruct H as [Hp H].
  rewrite Hp. cbn [andb]. rewrite forallb_forall in *.
  intros lt Hin. specialize (H lt Hin). apply orb_prop in H.
  destruct H as [H | H].
  - apply Nat.ltb_lt in H. assert (H' : (fst lt <? S r)%nat = true)
      by (apply Nat.ltb_lt; lia). now rewrite H'.
  - rewrite H. apply orb_true_r.
Qed.

Lemma stops_le : forall (r r' : nat) (t : Token),
  (r <= r')%nat -> stops r t = true -> stops r' t = true.
Proof.
  intros r r' t Hle. induction Hle; [auto | ]. intro H. apply stops_S. auto.
Qed.

Lemma stops_no_paren : forall (r : nat) (t : Token),
  stops r t = true -> (type t =? "open-paren") = false.
Proof.
  intros r t H. unfold stops in H. apply andb_prop in H.
  destruct H as [H _]. now apply negb_true_iff in H.
Qed.

Lemma stops_types : forall (r : nat) (tt : token_types) (t : Token),
  In (r, tt) binary_levels -> stops r t = true -> type_in t tt = false.
Proof.
  intros r tt t Hin H. unfold stops in H. apply andb_prop in H.
  destruct H as [_ H]. rewrite forallb_forall in H. specialize (H _ Hin).
  cbn [fst snd] in H. rewrite Nat.ltb_irrefl in H. cbn in H.
  now apply negb_true_iff in H.
Qed.

Lemma size_pos : forall e : node, (1 <= size e)%nat.
Proof. destruct e; cbn; lia. Qed.

Lemma level_range : forall e : node, (1 <= level e <= 8)%nat.
Proof. destruct e; cbn; lia. Qed.

Lemma pretty_at_unwrapped : forall (r : nat) (e : node),
  (r <= level e)%nat -> pretty_at r e = pretty e.
Proof.
  intros r e H. unfold pretty_at.
  destruct (Nat.ltb_spec (level e) r); [lia | reflexivity].
Qed.

Lemma pretty_at_wrapped : forall (r : nat) (e : node),
  (level e < r)%nat ->
  pretty_at r e = open_paren :: pretty e ++ [close_paren].
Proof.
  intros r e H. unfold pretty_at.
  destruct (Nat.ltb_spec (level e) r); [reflexivity | lia].
Qed.

Lemma pretty_at_S : forall (r : nat) (e : node),
  level e <> r -> pretty_at r e = pretty_at (S r) e.
Proof.
  intros r e H. unfold pretty_at.
  destruct (Nat.ltb_spec (level e) r), (Nat.ltb_spec (level e) (S r));
    try reflexivity; lia.
Qed.

(** *** The first token of a text *)

Lemma starts_le : forall (lv lv' : nat) (t : Token),
  (lv' <= lv)%nat -> starts lv t = true -> starts lv' t = true.
Proof.
  intros lv lv' t Hle. unfold starts. rewrite !existsb_app, !orb_true_iff.
  intros [H | [H | H]]; [now left | | ].
  - destruct (Nat.ltb_spec lv 8); [ | discriminate].
    destruct (Nat.ltb_spec lv' 8); [ | lia]. right. now left.
  - destruct (Nat.ltb_spec lv 4); [ | discriminate].
    destruct (Nat.ltb_spec lv' 4); [ | lia]. right. now right.
Qed.

Lemma starts_paren : forall lv : nat, (lv < 8)%nat -> starts lv open_paren = true.
Proof.
  intros lv H. unfold starts. destruct (Nat.ltb_spec lv 8); [ | lia].
  destruct (lv <? 4)%nat; reflexivity.
Qed.

Lemma first_token : forall e : node,
  wf_expr e = true ->
  exists (t : Token) (ts : list Token),
    pretty e = t :: ts /\ starts (level e) t = true.
Proof.
  assert (Hwrap : forall (r : nat) (x : node) (more : list Token),
            (r < 8)%nat ->
            (exists t ts, pretty x = t :: ts /\ starts (level x) t = true) ->
            exists t ts, (wrap (level x <? r)%nat (pretty x) ++ more)%list = t :: ts
                         /\ starts r t = true).
  { intros r x more Hr (t & ts & Hp & Hs). unfold wrap.
    destruct (Nat.ltb_spec (level x) r).
    - exists open_paren. eexists. split; [reflexivity | now apply starts_paren].
    - rewrite Hp. exists t. eexists. split; [reflexivity | ].
      eapply starts_le; eassumption. }
  induction e; cbn [wf_expr]; intro H; try discriminate; cbn [pretty level];
    repeat match goal with
           | H : (_ && _) = true |- _ =>
               let H1 := fresh "Hw" in
               apply andb_prop in H; destruct H as [H H1]
           end;
    try (apply Hwrap; [lia | auto]; fail).
  - exists val. eexists. split; [reflexivity | ].
    destruct val as [ty v]. cbn in H.
    repeat (apply orb_prop in H; destruct H as [H | H]);
      try discriminate; apply String.eqb_eq in H; subst; reflexivity.
  - exists id. eexists. split; [reflexivity | ].
    destruct id as [ty v]. cbn in H. apply String.eqb_eq in H. now subst.
  - exists open_bracket. eexists. split; reflexivity.
  - exists id. eexists. split; [reflexivity | ].
    destruct id as [ty v]. cbn in H. apply String.eqb_eq in H. now subst.
  - exists op. eexists. split; [reflexivity | ].
    destruct op as [ty v]. cbn in H. apply String.eqb_eq in H. now subst.
  - exists op. eexists. split; [reflexivity | ].
    destruct op as [ty v]. cbn in H.
    repeat (apply orb_prop in H; destruct H as [H | H]);
      try discriminate; apply String.eqb_eq in H; subst; reflexivity.
Qed.

Lemma first_token_at : forall (r : nat) (e : node) (rest : list Token),
  wf_expr e = true ->
  exists (t : Token) (ts : list Token),
    (pretty_at r e ++ rest)%list = t :: ts
    /\ (if (level e <? r)%nat then t = open_paren else starts (level e) t = true).
Proof.
  intros r e rest H. unfold pretty_at, wrap.
  destruct (level e <? r)%nat.
  - exists open_paren. eexists. split; reflexivity.
  - destruct (first_token e H) as (t & ts & Hp & Hs). rewrite Hp.
    exists t. eexists. split; [reflexivity | assumption].
Qed.

Lemma starts_types : forall (t : Token) (kinds : list string) (tt : token_types),
  existsb (String.eqb (type t)) kinds = true ->
  forallb (fun k => negb (type_in (MkToken k EmptyString) tt)) kinds = true ->
  type_in t tt = false.
Proof.
  intros [ty v] kinds tt H1 H2. apply existsb_exists in H1.
  destruct H1 as (k & Hin & Hk). cbn in Hk. apply String.eqb_eq in Hk. subst k.
  rewrite forallb_forall in H2. specialize (H2 _ Hin).
  apply negb_true_iff in H2. destruct tt; exact H2.
Qed.

Lemma starts_kind : forall (t : Token) (kinds : list string) (k : string),
  existsb (String.eqb (type t)) kinds = true ->
  forallb (fun k' => negb (k' =? k)) kinds = true ->
  (type t =? k) = false.
Proof.
  intros [ty v] kinds k H1 H2. apply existsb_exists in H1.
  destruct H1 as (k' & Hin & Hk). cbn in Hk. apply String.eqb_eq in Hk. subst k'.
  rewrite forallb_forall in H2. specialize (H2 _ Hin).
  now apply negb_true_iff in H2.
Qed.

(** *** The steps of the rules on a list of tokens *)

Lemma bind_ok : forall (A B : Type) (m : P (list Token) A)
    (k : A -> P (list Token) B) (p p' : parser (list Token)) (a : A),
  m p = Ok (a, p') -> bind m k p = k a p'.
Proof. intros A B m k p p' a H. unfold bind. now rewrite H. Qed.

Lemma build_tree_stop : forall (E : Token -> node -> node -> node)
    (nxt : P (list Token) node) (types : token_types) (m : nat) (lhs : node)
    (p : parser (list Token)),
  type_in (token p) types = false ->
  build_tree list_next E nxt types (S m) lhs p = Ok (lhs, p).
Proof.
  intros E nxt types m lhs p H. cbn [build_tree]. unfold bind at 1, cur.
  cbn [rbind fst snd]. now rewrite H.
Qed.

Lemma build_tree_go : forall (E : Token -> node -> node -> node)
    (nxt : P (list Token) node) (types : token_types) (m : nat) (lhs rhs : node)
    (t : Token) (tl : list Token) (p' : parser (list Token)),
  type_in t types = true ->
  nxt (at_tokens tl) = Ok (rhs, p') ->
  build_tree list_next E nxt types (S m) lhs (at_tokens (t :: tl))
  = build_tree list_next E nxt types m (E t lhs rhs) p'.
Proof.
  intros E nxt types m lhs rhs t tl p' Ht Hn. cbn [build_tree].
  unfold bind at 1, cur. cbn [rbind fst snd]. rewrite token_at, Ht.
  cbn [negb]. erewrite bind_ok; [ | apply next_token_at].
  erewrite bind_ok; [ | exact Hn]. reflexivity.
Qed.

Lemma while_prefix_stop : forall (types : token_types) (m : nat)
    (acc : list Token) (p : parser (list Token)),
  type_in (token p) types = false ->
  while_prefix list_next types (S m) acc p = Ok (acc, p).
Proof.
  intros types m acc p H. cbn [while_prefix]. unfold bind at 1, cur.
  cbn [rbind fst snd]. now rewrite H.
Qed.

Lemma while_prefix_go : forall (types : token_types) (m : nat)
    (acc : list Token) (t : Token) (tl : list Token),
  type_in t types = true ->
  while_prefix list_next types (S m) acc (at_tokens (t :: tl))
  = while_prefix list_next types m (acc ++ [t]) (at_tokens tl).
Proof.
  intros types m acc t tl H. cbn [while_prefix]. unfold bind at 1, cur.
  cbn [rbind fst snd]. rewrite token_at, H.
  erewrite bind_ok; [ | apply next_token_at]. reflexivity.
Qed.

Lemma budget_size : forall (r : nat) (e : node), (size e <= budget r e)%nat.
Proof. intros. unfold budget. lia. Qed.

Lemma budget_le : forall (r : nat) (e : node), (budget r e <= S (size e))%nat.
Proof. intros. unfold budget. destruct (level e <? r)%nat; lia. Qed.

Lemma budget_S : forall (r : nat) (e : node),
  level e <> r -> budget (S r) e = budget r e.
Proof.
  intros r e H. unfold budget.
  destruct (Nat.ltb_spec (level e) r), (Nat.ltb_spec (level e) (S r));
    try reflexivity; lia.
Qed.

(** *** A rung with binary operators *)

Section BinaryRung.

Variable E : Token -> node -> node -> node.
Variable types : token_types.
Variable r : nat.
Variable f : nat.

Hypothesis H_in : In (r, types) binary_levels.
Hypothesis H_rule :
  level_parser r f
  = make_left_assoc_binary_op list_next E (level_parser (S r) f) types f.
Hypothesis H_shape : forall e : node,
  level e = r -> exists op l r0, e = E op l r0.
Hypothesis H_level : forall op l r0, level (E op l r0) = r.
Hypothesis H_size : forall op l r0, size (E op l r0) = S (size l + size r0).
Hypothesis H_pretty : forall op l r0,
  pretty (E op l r0) = (pretty_at r l ++ op :: pretty_at (S r) r0)%list.
Hypothesis H_wf : forall op l r0,
  wf_expr (E op l r0) = true ->
  type_in op types = true /\ stops (S r) op = true
  /\ wf_expr l = true /\ wf_expr r0 = true.

Lemma spine_base : forall e : node,
  level e <> r -> parses_at (S r) e f -> spine_ok E types r f e.
Proof.
  intros e Hl H. exists 0%nat. split; [apply size_pos | ].
  intros m rest Hs. rewrite pretty_at_S by exact Hl.
  unfold make_left_assoc_binary_op. erewrite bind_ok; [ | apply (H rest Hs)].
  reflexivity.
Qed.

Lemma spine_step : forall (op : Token) (l r0 : node),
  type_in op types = true -> stops (S r) op = true ->
  spine_ok E types r f l -> parses_at (S r) r0 f ->
  spine_ok E types r f (E op l r0).
Proof.
  intros op l r0 Hop Hstop (k & Hk & H) Hr. exists (S k).
  split; [rewrite H_size; lia | ].
  intros m rest Hs.
  rewrite pretty_at_unwrapped by (rewrite H_level; lia).
  rewrite H_pretty, <- app_assoc, <- app_comm_cons.
  replace (S k + m)%nat with (k + S m)%nat by lia.
  rewrite H by (now rewrite token_at).
  apply build_tree_go; [exact Hop | now apply Hr].
Qed.

Lemma spine_all : forall (n : nat) (e : node),
  (size e <= n)%nat -> wf_expr e = true -> (budget r e <= f)%nat ->
  (forall e' : node, (size e' < size e)%nat -> wf_expr e' = true ->
     (budget (S r) e' <= f)%nat -> parses_at (S r) e' f) ->
  (level e <> r -> parses_at (S r) e f) ->
  spine_ok E types r f e.
Proof.
  induction n as [ | n IH]; intros e Hn Hwf Hb Hsub Hself.
  - pose proof (size_pos e). lia.
  - destruct (Nat.eq_dec (level e) r) as [Heq | Hne].
    + destruct (H_shape _ Heq) as (op & l & r0 & ->).
      destruct (H_wf _ _ _ Hwf) as (Hop & Hstop & Hwl & Hwr).
      pose proof (budget_size r (E op l r0)) as Hsz. rewrite H_size in Hsz.
      rewrite H_size in Hn.
      assert (Hsub' : forall e' : node, (size e' < S (size l + size r0))%nat ->
                wf_expr e' = true -> (budget (S r) e' <= f)%nat ->
                parses_at (S r) e' f)
        by (intros e' He'; apply Hsub; now rewrite H_size).
      apply spine_step; [exact Hop | exact Hstop | | ].
      * apply IH; [lia | exact Hwl | pose proof (budget_le r l); lia | | ].
        -- intros e' He'. apply Hsub'. lia.
        -- intros _. apply Hsub'; [lia | exact Hwl | ].
           pose proof (budget_le (S r) l). lia.
      * apply Hsub'; [lia | exact Hwr | ].
        pose proof (budget_le (S r) r0). lia.
    + apply spine_base; auto.
Qed.

Lemma binary_rule : forall e : node,
  (budget r e <= f)%nat -> spine_ok E types r f e -> parses_at r e f.
Proof.
  intros e Hb (k & Hk & H) rest Hs. rewrite H_rule.
  assert (Hs' : stops (S r) (token (at_tokens rest)) = true)
    by (now apply stops_S).
  pose proof (H (f - k)%nat rest Hs') as H'.
  replace (k + (f - k))%nat with f in H'
    by (pose proof (budget_size r e); lia).
  rewrite H'. pose proof (budget_size r e).
  destruct (f - k)%nat as [ | m] eqn:Hm; [lia | ].
  apply build_tree_stop. now apply stops_types with (r := r).
Qed.

Lemma binary_rung : forall e : node,
  wf_expr e = true -> (budget r e <= f)%nat ->
  (forall e' : node, (size e' < size e)%nat -> wf_expr e' = true ->
     (budget (S r) e' <= f)%nat -> parses_at (S r) e' f) ->
  (level e <> r -> parses_at (S r) e f) ->
  parses_at r e f.
Proof.
  intros e Hwf Hb Hsub Hself. apply binary_rule; [exact Hb | ].
  now apply spine_all with (n := size e).
Qed.

End BinaryRung.

(** *** A rung with prefix operators *)

Section PrefixRung.

Variable U : Token -> node -> node.
Variable types : token_types.
Variable r : nat.
Variable f : nat.

Hypothesis H_rule :
  level_parser r f
  = make_prefix_unary_op list_next U (level_parser (S r) f) types f.
Hypothesis H_shape : forall e : node, level e = r -> exists op x, e = U op x.
Hypothesis H_level : forall op x, level (U op x) = r.
Hypothesis H_size : forall op x, size (U op x) = S (size x).
Hypothesis H_pretty : forall op x, pretty (U op x) = op :: pretty_at r x.
Hypothesis H_wf : forall op x,
  wf_expr (U op x) = true -> type_in op types = true /\ wf_expr x = true.
Hypothesis H_first : forall t : Token,
  starts (S r) t = true -> type_in t types = false.
Hypothesis H_paren : type_in open_paren types = false.

Lemma prefix_base : forall e : node,
  level e <> r -> wf_expr e = true -> parses_at (S r) e f ->
  prefix_ok U types r f e.
Proof.
  intros e Hl Hwf H. exists 0%nat. split; [apply size_pos | ].
  intros acc m rest Hs. rewrite pretty_at_S by exact Hl.
  cbn [plus].
  erewrite bind_ok; [ | apply while_prefix_stop].
  - unfold prefix_rest. erewrite bind_ok; [ | apply (H rest Hs)]. reflexivity.
  - destruct (first_token_at (S r) e rest Hwf) as (t & ts & Heq & Ht).
    rewrite Heq, token_at.
    destruct (Nat.ltb_spec (level e) (S r)) as [Hlt | Hge].
    + subst t. exact H_paren.
    + apply H_first. apply starts_le with (lv := level e); assumption.
Qed.

Lemma prefix_step : forall (op : Token) (x : node),
  type_in op types = true ->
  prefix_ok U types r f x -> prefix_ok U types r f (U op x).
Proof.
  intros op x Hop (k & Hk & H). exists (S k).
  split; [rewrite H_size; lia | ].
  intros acc m rest Hs.
  rewrite pretty_at_unwrapped by (rewrite H_level; lia).
  rewrite H_pretty, <- app_comm_cons. cbn [plus].
  transitivity (bind (while_prefix list_next types (k + S m) (acc ++ [op]))
                  (prefix_rest U r f) (at_tokens (pretty_at r x ++ rest))).
  - unfold bind. now rewrite while_prefix_go.
  - rewrite H by exact Hs. now rewrite rev_app_distr.
Qed.

Lemma prefix_all : forall (n : nat) (e : node),
  (size e <= n)%nat -> wf_expr e = true -> (budget r e <= f)%nat ->
  (forall e' : node, (size e' < size e)%nat -> wf_expr e' = true ->
     (budget (S r) e' <= f)%nat -> parses_at (S r) e' f) ->
  (level e <> r -> parses_at (S r) e f) ->
  prefix_ok U types r f e.
Proof.
  induction n as [ | n IH]; intros e Hn Hwf Hb Hsub Hself.
  - pose proof (size_pos e). lia.
  - destruct (Nat.eq_dec (level e) r) as [Heq | Hne].
    + destruct (H_shape _ Heq) as (op & x & ->).
      destruct (H_wf _ _ Hwf) as (Hop & Hwx).
      pose proof (budget_size r (U op x)) as Hsz. rewrite H_size in Hsz.
      rewrite H_size in Hn.
      assert (Hsub' : forall e' : node, (size e' < S (size x))%nat ->
                wf_expr e' = true -> (budget (S r) e' <= f)%nat ->
                parses_at (S r) e' f)
        by (intros e' He'; apply Hsub; now rewrite H_size).
      apply prefix_step; [exact Hop | ].
      apply IH; [lia | exact Hwx | pose proof (budget_le r x); lia | | ].
      * intros e' He'. apply Hsub'. lia.
      * intros _. apply Hsub'; [lia | exact Hwx | ].
        pose proof (budget_le (S r) x). lia.
    + apply prefix_base; auto.
Qed.

Lemma prefix_rule : forall e : node,
  (budget r e <= f)%nat -> prefix_ok U types r f e -> parses_at r e f.
Proof.
  intros e Hb (k & Hk & H) rest Hs. rewrite H_rule.
  assert (Hs' : stops (S r) (token (at_tokens rest)) = true)
    by (now apply stops_S).
  pose proof (H [] (f - k - 1)%nat rest Hs') as H'.
  replace (k + S (f - k - 1))%nat with f in H'
    by (pose proof (budget_size r e); lia).
  exact H'.
Qed.

Lemma prefix_rung : forall e : node,
  wf_expr e = true -> (budget r e <= f)%nat ->
  (forall e' : node, (size e' < size e)%nat -> wf_expr e' = true ->
     (budget (S r) e' <= f)%nat -> parses_at (S r) e' f) ->
  (level e <> r -> parses_at (S r) e f) ->
  parses_at r e f.
Proof.
  intros e Hwf Hb Hsub Hself. apply prefix_rule; [exact Hb | ].
  now apply prefix_all with (n := size e).
Qed.

End PrefixRung.

(** *** The rule [atom] *)

Lemma bind_cur : forall (B : Type) (k : Token -> P (list Token) B)
    (p : parser (list Token)),
  bind (@cur (list Token)) k p = k (token p) p.
Proof. reflexivity. Qed.

Lemma bind_peek : forall (B : Type) (k : Token -> P (list Token) B)
    (p : parser (list Token)),
  bind (@peek (list Token)) k p = k (lookahead p) p.
Proof. reflexivity. Qed.

Lemma budget_1 : forall e : node, budget 1 e = size e.
Proof.
  intro e. unfold budget. pose proof (level_range e).
  destruct (Nat.ltb_spec (level e) 1); lia.
Qed.

Lemma size_in : forall (a : node) (l : list node),
  In a l -> (size a <= list_sum (map size l))%nat.
Proof.
  intros a l. induction l as [ | b l IH]; simpl; [tauto | ].
  intros [-> | H]; [lia | ]. specialize (IH H). lia.
Qed.

Lemma length_sizes : forall l : list node,
  (List.length l <= list_sum (map size l))%nat.
Proof.
  induction l as [ | b l IH]; simpl; [lia | ].
  pose proof (size_pos b). lia.
Qed.

Lemma commas_app : forall (x : list Token) (l : list (list Token))
    (tl : list Token),
  (commas (x :: l) ++ tl)%list
  = (x ++ match l with
          | [] => tl
          | _ :: _ => comma :: commas l ++ tl
          end)%list.
Proof.
  intros x [ | y l] tl; cbn [commas]; [reflexivity | ].
  now rewrite <- app_assoc, <- app_comm_cons.
Qed.

Lemma while_exprs_reads : forall (f : nat) (c : Token) (args items : list node)
    (m : nat) (rest : list Token),
  (type c =? "comma") = false -> stops 1 c = true ->
  (forall t : Token, starts 1 t = true -> (type t =? type c) = false) ->
  (forall a : node, In a args ->
     wf_expr a = true
     /\ forall rest' : list Token,
          stops 1 (token (at_tokens rest')) = true ->
          expr list_next f (at_tokens (pretty a ++ rest'))
          = Ok (a, at_tokens rest')) ->
  while_exprs list_next (expr list_next f) (List.length args + S m) (type c)
    items (at_tokens (commas (map pretty args) ++ c :: rest))
  = Ok ((items ++ args)%list, at_tokens (c :: rest)).
Proof.
  intros f c args. induction args as [ | a args IH];
    intros items m rest Hc Hstop Hstart Hargs.
  - cbn [List.length plus map commas app while_exprs].
    rewrite bind_cur, token_at, String.eqb_refl. cbn [negb].
    now rewrite app_nil_r.
  - cbn [List.length plus map while_exprs]. rewrite bind_cur, commas_app.
    destruct (Hargs a (or_introl eq_refl)) as (Hwf & Ha).
    destruct (first_token a Hwf) as (t & ts & Hp & Hs).
    match goal with
    | |- context [at_tokens (pretty a ++ ?X)] =>
        assert (Htok : token (at_tokens (pretty a ++ X)) = t)
          by (rewrite Hp, <- app_comm_cons; apply token_at)
    end.
    rewrite Htok.
    rewrite Hstart by (apply starts_le with (lv := level a);
                       [apply level_range | exact Hs]).
    cbn [negb].
    assert (Hrest : forall b : node, In b args ->
              wf_expr b = true
              /\ forall rest' : list Token,
                   stops 1 (token (at_tokens rest')) = true ->
                   expr list_next f (at_tokens (pretty b ++ rest'))
                   = Ok (b, at_tokens rest'))
      by (intros b Hb; apply Hargs; now right).
    clear Htok.
    destruct args as [ | b args']; cbn [map].
    + erewrite bind_ok; [ | apply Ha; now rewrite token_at].
      rewrite bind_cur, token_at, Hc.
      erewrite bind_ok; [ | reflexivity].
      specialize (IH (items ++ [a])%list m rest Hc Hstop Hstart Hrest).
      cbn [map commas app] in IH. rewrite IH. now rewrite app_nil_r.
    + erewrite bind_ok; [ | apply Ha; now rewrite token_at].
      rewrite bind_cur, token_at. cbn [comma type String.eqb Ascii.eqb Bool.eqb].
      change (type comma =? "comma") with true. cbv iota.
      erewrite bind_ok; [ | apply next_token_at].
      specialize (IH (items ++ [a])%list m rest Hc Hstop Hstart Hrest).
      cbn [map] in IH. rewrite IH. now rewrite <- app_assoc.
Qed.

Lemma atom_constant : forall (t : Token) (rest : list Token) (f : nat),
  existsb (String.eqb (type t)) ["string"; "integer"; "boolean"] = true ->
  atom list_next (expr list_next f) f (at_tokens (t :: rest))
  = Ok (ConstantExpr t, at_tokens rest).
Proof.
  intros t rest f H. unfold atom. rewrite bind_cur, bind_peek, token_at, H.
  unfold constant_expr. rewrite bind_cur, token_at.
  erewrite bind_ok; [ | apply next_token_at]. reflexivity.
Qed.

Lemma atom_variable : forall (t : Token) (rest : list Token) (f : nat),
  (type t =? "identifier") = true ->
  (type (token (at_tokens rest)) =? "open-paren") = false ->
  atom list_next (expr list_next f) f (at_tokens (t :: rest))
  = Ok (VariableExpr t, at_tokens rest).
Proof.
  intros t rest f H Hp. unfold atom.
  rewrite bind_cur, bind_peek, token_at, lookahead_at, H, Hp.
  apply String.eqb_eq in H. rewrite H. cbn [existsb String.eqb Ascii.eqb Bool.eqb orb].
  unfold variable_expr. rewrite bind_cur, token_at.
  erewrite bind_ok; [ | apply next_token_at]. reflexivity.
Qed.

Lemma while_exprs_enough : forall (f n : nat) (c : Token) (args : list node)
    (rest : list Token),
  (List.length args < n)%nat ->
  (type c =? "comma") = false -> stops 1 c = true ->
  (forall t : Token, starts 1 t = true -> (type t =? type c) = false) ->
  (forall a : node, In a args ->
     wf_expr a = true
     /\ forall rest' : list Token,
          stops 1 (token (at_tokens rest')) = true ->
          expr list_next f (at_tokens (pretty a ++ rest'))
          = Ok (a, at_tokens rest')) ->
  while_exprs list_next (expr list_next f) n (type c) []
    (at_tokens (commas (map pretty args) ++ c :: rest))
  = Ok (args, at_tokens (c :: rest)).
Proof.
  intros f n c args rest Hn Hc Hstop Hstart Hargs.
  replace n with (List.length args + S (n - List.length args - 1))%nat by lia.
  now rewrite while_exprs_reads.
Qed.

Lemma starts_not_close : forall t : Token,
  starts 1 t = true ->
  (type t =? "close-bracket") = false /\ (type t =? "close-paren") = false.
Proof.
  intros t H. split; eapply starts_kind; try exact H; reflexivity.
Qed.

Lemma atom_bracket : forall (tl : list Token) (e : P (list Token) node)
    (f : nat),
  atom list_next e f (at_tokens (open_bracket :: tl))
  = sequence_expr list_next e f (at_tokens (open_bracket :: tl)).
Proof.
  intros. unfold atom. rewrite bind_cur, bind_peek, token_at. reflexivity.
Qed.

Lemma atom_paren : forall (tl : list Token) (e : P (list Token) node)
    (f : nat),
  atom list_next e f (at_tokens (open_paren :: tl))
  = enclosure_expr list_next e (at_tokens (open_paren :: tl)).
Proof.
  intros. unfold atom. rewrite bind_cur, bind_peek, token_at. reflexivity.
Qed.

Lemma atom_call : forall (id : Token) (tl : list Token)
    (e : P (list Token) node) (f : nat),
  (type id =? "identifier") = true ->
  atom list_next e f (at_tokens (id :: open_paren :: tl))
  = function_call list_next e f (at_tokens (id :: open_paren :: tl)).
Proof.
  intros id tl e f H. unfold atom.
  rewrite bind_cur, bind_peek, token_at, lookahead_at, token_at, H.
  apply String.eqb_eq in H. rewrite H. reflexivity.
Qed.

Lemma operands_read : forall (f : nat) (args : list node),
  (list_sum (map size args) <= f)%nat ->
  forallb wf_expr args = true ->
  (forall e' : node, (size e' <= list_sum (map size args))%nat ->
     wf_expr e' = true ->
     forall f' : nat, (size e' <= f')%nat -> parses_at 1 e' f') ->
  forall a : node, In a args ->
    wf_expr a = true
    /\ forall rest' : list Token,
         stops 1 (token (at_tokens rest')) = true ->
         expr list_next (S f) (at_tokens (pretty a ++ rest'))
         = Ok (a, at_tokens rest').
Proof.
  intros f args Hf Hwf Hsub a Hin.
  rewrite forallb_forall in Hwf. pose proof (size_in a args Hin) as Hsz.
  split; [now apply Hwf | ]. intros rest' Hs.
  change (expr list_next (S f)) with (level_parser 1 f).
  rewrite <- pretty_at_unwrapped with (r := 1%nat) by apply level_range.
  apply Hsub; [exact Hsz | now apply Hwf | lia | exact Hs].
Qed.

Lemma atom_rung : forall (e : node) (f : nat),
  level e = 8%nat -> wf_expr e = true -> (size e <= f)%nat ->
  (forall e' : node, (size e' < size e)%nat -> wf_expr e' = true ->
     forall f' : nat, (size e' <= f')%nat -> parses_at 1 e' f') ->
  parses_at 8 e f.
Proof.
  intros e f Hl Hwf Hb Hsub rest Hs.
  change (level_parser 8 f) with (atom list_next (expr list_next f) f).
  rewrite pretty_at_unwrapped by lia.
  destruct e; cbn [level] in Hl; try discriminate Hl;
    cbn [wf_expr] in Hwf; try discriminate Hwf; cbn [pretty size] in *.
  - apply atom_constant. exact Hwf.
  - apply atom_variable; [exact Hwf | ]. now apply stops_no_paren with (r := 8%nat).
  - rewrite <- app_comm_cons, <- app_assoc. cbn [app].
    rewrite atom_bracket. unfold sequence_expr.
    erewrite bind_ok; [ | apply next_token_at].
    destruct f as [ | f']; [lia | ].
    erewrite bind_ok;
      [ | apply while_exprs_enough with (c := close_bracket);
          [pose proof (length_sizes elems); lia | reflexivity | reflexivity
          | intros t Ht; now apply starts_not_close
          | apply operands_read;
            [lia | exact Hwf
            | intros e' He'; apply Hsub; lia] ] ].
    erewrite bind_ok; [ | apply next_token_at]. reflexivity.
  - apply andb_prop in Hwf. destruct Hwf as [Hid Hwf].
    rewrite <- !app_comm_cons, <- app_assoc. cbn [app].
    rewrite atom_call by exact Hid. unfold function_call.
    rewrite bind_cur, token_at.
    erewrite bind_ok; [ | apply next_token_at].
    erewrite bind_ok; [ | apply next_token_at].
    destruct f as [ | f']; [lia | ].
    erewrite bind_ok;
      [ | apply while_exprs_enough with (c := close_paren);
          [pose proof (length_sizes args); lia | reflexivity | reflexivity
          | intros t Ht; now apply starts_not_close
          | apply operands_read;
            [lia | exact Hwf
            | intros e' He'; apply Hsub; lia] ] ].
    erewrite bind_ok; [ | apply next_token_at]. reflexivity.
Qed.

Lemma atom_wrapped : forall (e : node) (f : nat),
  (level e < 8)%nat -> (budget 8 e <= f)%nat ->
  (forall f' : nat, (size e <= f')%nat -> parses_at 1 e f') ->
  parses_at 8 e f.
Proof.
  intros e f Hl Hb H rest Hs.
  change (level_parser 8 f) with (atom list_next (expr list_next f) f).
  rewrite pretty_at_wrapped by lia.
  rewrite <- app_comm_cons, <- app_assoc. cbn [app].
  rewrite atom_paren. unfold enclosure_expr.
  erewrite bind_ok; [ | apply next_token_at].
  assert (Hf : (S (size e) <= f)%nat).
  { unfold budget in Hb. destruct (Nat.ltb_spec (level e) 8); lia. }
  destruct f as [ | f']; [lia | ].
  change (expr list_next (S f')) with (level_parser 1 f').
  assert (Hp : level_parser 1 f' (at_tokens (pretty e ++ close_paren :: rest))
               = Ok (e, at_tokens (close_paren :: rest))).
  { rewrite <- pretty_at_unwrapped with (r := 1%nat) by apply level_range.
    apply H; [lia | now rewrite token_at]. }
  erewrite bind_ok; [ | exact Hp].
  erewrite bind_ok; [ | apply next_token_at]. reflexivity.
Qed.

(** *** The seven rungs above [atom] *)

Ltac operator_kind H op :=
  let ty := fresh "ty" in
  let v := fresh "v" in
  destruct op as [ty v]; cbn in H;
  repeat (apply orb_prop in H; destruct H as [H | H]);
  try discriminate; apply String.eqb_eq in H; subst ty.

Ltac rung_shape :=
  let x := fresh "x" in
  let Hx := fresh "Hx" in
  intros x Hx; destruct x; cbn in Hx; try discriminate Hx; eauto.

Ltac binary_facts :=
  first
    [ assumption
    | reflexivity
    | solve [cbn; tauto]
    | solve [intros; reflexivity]
    | solve [rung_shape]
    | solve [ let op := fresh "op" in
              let H := fresh "H" in
              let Hl := fresh "Hl" in
              let Hr0 := fresh "Hr0" in
              intros op ? ? H; cbn [wf_expr] in H;
              apply andb_prop in H; destruct H as [H Hr0];
              apply andb_prop in H; destruct H as [H Hl];
              operator_kind H op; repeat split; auto ] ].

Ltac prefix_facts :=
  first
    [ assumption
    | reflexivity
    | solve [intros; reflexivity]
    | solve [rung_shape]
    | solve [ let op := fresh "op" in
              let H := fresh "H" in
              let Hx := fresh "Hx" in
              intros op ? H; cbn [wf_expr] in H;
              apply andb_prop in H; destruct H as [H Hx];
              operator_kind H op; repeat split; auto ]
    | solve [ let t := fresh "t" in
              let H := fresh "H" in
              intros t H; eapply starts_types; [exact H | reflexivity] ] ].

Lemma rung_step : forall (r : nat) (e : node) (f : nat),
  (1 <= r <= 7)%nat -> wf_expr e = true -> (budget r e <= f)%nat ->
  (forall e' : node, (size e' < size e)%nat -> wf_expr e' = true ->
     (budget (S r) e' <= f)%nat -> parses_at (S r) e' f) ->
  (level e <> r -> parses_at (S r) e f) ->
  parses_at r e f.
Proof.
  intros r e f Hr Hwf Hb Hsub Hself.
  assert (Hcases : (r = 1 \/ r = 2 \/ r = 3 \/ r = 4 \/ r = 5 \/ r = 6
                    \/ r = 7)%nat) by lia.
  destruct Hcases as [-> | [-> | [-> | [-> | [-> | [-> | ->]]]]]].
  - apply (@binary_rung OrExpr (Str "or")); binary_facts.
  - apply (@binary_rung AndExpr (Str "and")); binary_facts.
  - apply (@prefix_rung NotExpr (Str "not")); prefix_facts.
  - apply (@binary_rung CompExpr
             (Tuple ["eq"; "gt"; "lt"; "gteq"; "lteq"; "noteq"])); binary_facts.
  - apply (@binary_rung AddExpr (Tuple ["add"; "sub"])); binary_facts.
  - apply (@binary_rung MulExpr (Tuple ["mul"; "div"; "mod"])); binary_facts.
  - apply (@prefix_rung SignExpr (Tuple ["add"; "sub"])); prefix_facts.
Qed.

(** *** Every rung, every expression *)

Lemma rungs_down : forall (e : node) (d r f : nat),
  wf_expr e = true ->
  (forall (e' : node), (size e' < size e)%nat -> wf_expr e' = true ->
     forall r' f' : nat, (1 <= r' <= 8)%nat -> (budget r' e' <= f')%nat ->
     parses_at r' e' f') ->
  (1 <= r)%nat -> (r + d <= 8)%nat ->
  (forall r' : nat, (r <= r' < r + d)%nat -> level e <> r') ->
  ((budget (r + d) e <= f)%nat -> parses_at (r + d) e f) ->
  (budget r e <= f)%nat -> parses_at r e f.
Proof.
  intros e d. induction d as [ | d IH]; intros r f Hwf Hsub Hr Hd Hne Htop Hb.
  - replace (r + 0)%nat with r in Htop by lia. auto.
  - apply rung_step; [lia | exact Hwf | exact Hb | | ].
    + intros e' He' Hwf' Hb'. apply Hsub; [exact He' | exact Hwf' | lia | exact Hb'].
    + intros Hl. apply IH; [exact Hwf | exact Hsub | lia | lia | | | ].
      * intros r' Hr'. apply Hne. lia.
      * replace (S r + d)%nat with (r + S d)%nat by lia. exact Htop.
      * rewrite budget_S by exact Hl. exact Hb.
Qed.

Lemma ladder_all : forall (n : nat) (e : node),
  (size e <= n)%nat -> wf_expr e = true ->
  forall r f : nat, (1 <= r <= 8)%nat -> (budget r e <= f)%nat ->
  parses_at r e f.
Proof.
  induction n as [ | n IH]; intros e Hn Hwf.
  - pose proof (size_pos e). lia.
  - assert (Hsub : forall e' : node, (size e' < size e)%nat ->
              wf_expr e' = true ->
              forall r' f' : nat, (1 <= r' <= 8)%nat ->
              (budget r' e' <= f')%nat -> parses_at r' e' f')
      by (intros e' He' Hwf'; apply IH; [lia | exact Hwf']).
    pose proof (level_range e) as Hlv.
    assert (Hown : forall f : nat, (budget (level e) e <= f)%nat ->
              parses_at (level e) e f).
    { intros f Hb. destruct (Nat.eq_dec (level e) 8) as [H8 | H8].
      - rewrite H8 in *. apply atom_rung; [exact H8 | exact Hwf | | ].
        + pose proof (budget_size 8 e). lia.
        + intros e' He' Hwf' f' Hf'. apply Hsub; [exact He' | exact Hwf' | lia | ].
          now rewrite budget_1.
      - apply rung_step; [lia | exact Hwf | exact Hb | | congruence].
        intros e' He' Hwf' Hb'.
        apply Hsub; [exact He' | exact Hwf' | lia | exact Hb']. }
    assert (Hlow : forall r f : nat, (1 <= r <= level e)%nat ->
              (budget r e <= f)%nat -> parses_at r e f).
    { intros r f Hr Hb.
      apply rungs_down with (d := (level e - r)%nat);
        [exact Hwf | exact Hsub | lia | lia | intros r' Hr'; lia | | exact Hb].
      replace (r + (level e - r))%nat with (level e) by lia. apply Hown. }
    assert (Hparen : (level e < 8)%nat -> forall f : nat,
              (budget 8 e <= f)%nat -> parses_at 8 e f).
    { intros H8 f Hb. apply atom_wrapped; [exact H8 | exact Hb | ].
      intros f' Hf'. apply Hlow; [lia | now rewrite budget_1]. }
    intros r f Hr Hb. destruct (le_lt_dec r (level e)) as [Hle | Hlt].
    + apply Hlow; [lia | exact Hb].
    + apply rungs_down with (d := (8 - r)%nat);
        [exact Hwf | exact Hsub | lia | lia | intros r' Hr'; lia | | exact Hb].
      replace (r + (8 - r))%nat with 8%nat by lia. apply Hparen. lia.
Qed.

Lemma expr_reads_pretty : forall (e : node) (fuel : nat) (rest : list Token),
  wf_expr e = true -> (size e <= fuel)%nat ->
  stops 1 (token (at_tokens rest)) = true ->
  expr list_next (S fuel) (at_tokens (pretty e ++ rest))
  = Ok (e, at_tokens rest).
Proof.
  intros e fuel rest Hwf Hf Hs.
  change (expr list_next (S fuel)) with (level_parser 1 fuel).
  rewrite <- pretty_at_unwrapped with (r := 1%nat) by apply level_range.
  apply ladder_all with (n := size e);
    [lia | exact Hwf | lia | now rewrite budget_1 | exact Hs].
Qed.

Lemma parse_assignment_pretty : forall (e : node) (fuel : nat),
  wf_expr e = true -> (size e <= fuel)%nat ->
  parse_assignment (S (S fuel)) (pretty e) = assigned e.
Proof.
  intros e fuel Hwf Hf.
  assert (He : expr list_next (S fuel) (at_tokens (pretty e))
               = Ok (e, at_tokens [])).
  { rewrite <- (app_nil_r (pretty e)) at 1.
    now apply expr_reads_pretty. }
  assert (Hst : statement list_next (S (S fuel))
                  (at_tokens (ident "x" :: assign :: pretty e))
                = Ok (AssignmentStmnt (ident "x") e, at_tokens [])).
  { cbn [statement]. unfold statement_rule.
    rewrite bind_cur, bind_peek, token_at, lookahead_at, token_at.
    change (type (ident "x") =? "if") with false.
    change (type (ident "x") =? "while") with false.
    change (type (ident "x") =? "def") with false.
    change (type (ident "x") =? "return") with false.
    change ((type (ident "x") =? "identifier") && (type assign =? "assignment"))
      with true.
    cbv iota. unfold assignment_stmnt. rewrite bind_cur, token_at.
    erewrite bind_ok; [ | apply next_token_at].
    erewrite bind_ok; [ | apply next_token_at].
    erewrite bind_ok; [ | exact He]. reflexivity. }
  unfold parse_assignment, assigned, parse. cbn [parse_all parse_next].
  change (parse_start list_next (ident "x" :: assign :: pretty e))
    with (Ok (at_tokens (ident "x" :: assign :: pretty e))).
  cbn [rbind]. unfold parse_resume at 1. rewrite token_at.
  change (negb (type (ident "x") =? "eof")) with true. cbv iota.
  unfold top_level_statement. rewrite bind_cur, token_at.
  change (type (ident "x") =? "return") with false. cbv iota.
  rewrite Hst. reflexivity.
Qed.

(** C5.  The ladder of [expr], for every expression.  Take any tree [e]
    of expression nodes whose tokens are of the kinds of their places, and
    write it out as [pretty] does: operands one after the other, with
    parentheses around an operand only where it stands on a looser rung
    than its place takes, that is around a right operand on the rung of
    its operator or a looser one, around a left operand on a looser rung
    than its operator, and around the operand of a sign or of [not] on a
    looser rung than the operator.  Then [expr], run on this text followed
    by any token that continues no expression, gives back [e] and stops at
    that token; and [parse] on the statement [x = ] followed by the text
    yields the assignment of [e].  So an operator of a tighter rung takes
    its operands first, and operators of one binary rung group to the
    left, for operands of any kind and any number of operators:
    [a + b * c] is the text of [AddExpr(a, MulExpr(b, c))],
    [a == 1 and b] of [AndExpr(CompExpr(a, 1), b)], [not x or y] of
    [OrExpr(NotExpr(x), y)], and [a - b - c] of
    [AddExpr(AddExpr(a, b), c)]. *)
Theorem precedence_ladder_of_every_expression :
  forall (e : node) (fuel : nat) (rest : list Token),
  wf_expr e = true -> (size e <= fuel)%nat ->
  stops 1 (token (at_tokens rest)) = true ->
  expr list_next (S fuel) (at_tokens (pretty e ++ rest))
  = Ok (e, at_tokens rest)
  /\ parse_assignment (S (S fuel)) (pretty e) = assigned e.
Proof.
  intros e fuel rest Hwf Hf Hs. split.
  - now apply expr_reads_pretty.
  - now apply parse_assignment_pretty.
Qed.

Lemma precedence_ladder_of_every_expression_witness :
  wf_expr ladder_example = true
  /\ (size ladder_example <= 18)%nat
  /\ stops 1 (token (at_tokens [kw "then"])) = true
  /\ pretty ladder_example = ladder_example_text
  /\ expr list_next 19 (at_tokens (ladder_example_text ++ [kw "then"]))
     = Ok (ladder_example, at_tokens [kw "then"])
  /\ parse_assignment 20 ladder_example_text = assigned ladder_example.
Proof.
  split; [reflexivity | ]. split; [vm_compute; lia | ].
  split; [reflexivity | ]. split; [reflexivity | ].
  apply (@precedence_ladder_of_every_expression ladder_example 18 [kw "then"]);
    [reflexivity | vm_compute; lia | reflexivity].
Defined.

(** ** What the parser rejects *)

(** The basic rules raise nothing, or a syntax error; sequencing keeps
    that, and so does every loop and every rule built from them. *)
Lemma so_ret : forall (A : Type) (a : A), syntax_only (ret (Iter:=list Token) a).
Proof. intros A a p e H. discriminate. Qed.

Lemma so_cur : syntax_only (cur (Iter:=list Token)).
Proof. intros p e H. discriminate. Qed.

Lemma so_peek : syntax_only (peek (Iter:=list Token)).
Proof. intros p e H. discriminate. Qed.

Lemma so_next_token : syntax_only (next_token list_next).
Proof.
  intros p e H. unfold next_token in H.
  destruct (stream p) as [ | t s]; discriminate.
Qed.

Lemma so_throw : forall (A : Type) (d : syntax_description),
  syntax_only (throw (Iter:=list Token) (A:=A) (ErioSyntaxError d)).
Proof. intros A d p e H. injection H as <-. now exists d. Qed.

Lemma so_bind :
  forall (A B : Type) (m : P (list Token) A) (k : A -> P (list Token) B),
  syntax_only m -> (forall a, syntax_only (k a)) -> syntax_only (bind m k).
Proof.
  intros A B m k Hm Hk p e H. unfold bind in H.
  destruct (m p) as [[a p'] | e' | | ] eqn:Hmp; cbn in H; try discriminate.
  - eapply Hk; eassumption.
  - injection H as <-. eapply Hm; eassumption.
Qed.

Lemma so_out_of_fuel : forall A : Type,
  syntax_only (fun _ : parser (list Token) => @OutOfFuel (A * parser (list Token))).
Proof. intros A p e H. discriminate. Qed.

Ltac so_step :=
  first
    [ assumption
    | apply so_ret | apply so_cur | apply so_peek | apply so_next_token
    | apply so_throw | apply so_out_of_fuel
    | apply so_bind; [ | intro ]
    | match goal with
      | |- syntax_only (if ?b then _ else _) => destruct b
      | |- syntax_only (match ?x with _ => _ end) => destruct x
      end ].

Ltac so := repeat so_step.

Lemma so_build_tree :
  forall (expr_type : Token -> node -> node -> node)
         (next_expr : P (list Token) node) (types : token_types),
  syntax_only next_expr ->
  forall (fuel : nat) (lhs : node),
    syntax_only (build_tree list_next expr_type next_expr types fuel lhs).
Proof.
  intros expr_type next_expr types Hn fuel.
  induction fuel as [ | fuel IH]; intro lhs; cbn; so; apply IH.
Qed.

Lemma so_binary :
  forall (expr_type : Token -> node -> node -> node)
         (next_expr : P (list Token) node) (types : token_types) (fuel : nat),
  syntax_only next_expr ->
  syntax_only (make_left_assoc_binary_op list_next expr_type next_expr types fuel).
Proof.
  intros. unfold make_left_assoc_binary_op. so. now apply so_build_tree.
Qed.

Lemma so_while_prefix :
  forall (types : token_types) (fuel : nat) (ops : list Token),
    syntax_only (while_prefix list_next types fuel ops).
Proof.
  intros types fuel. induction fuel as [ | fuel IH]; intro ops; cbn; so; apply IH.
Qed.

Lemma so_prefix :
  forall (expr_type : Token -> node -> node)
         (next_expr : P (list Token) node) (types : token_types) (fuel : nat),
  syntax_only next_expr ->
  syntax_only (make_prefix_unary_op list_next expr_type next_expr types fuel).
Proof.
  intros. unfold make_prefix_unary_op. so. apply so_while_prefix.
Qed.

Lemma so_while_exprs :
  forall (expr : P (list Token) node), syntax_only expr ->
  forall (fuel : nat) (close : string) (items : list node),
    syntax_only (while_exprs list_next expr fuel close items).
Proof.
  intros expr He fuel close. induction fuel as [ | fuel IH]; intro items; cbn; so; apply IH.
Qed.

Lemma so_atom :
  forall (expr : P (list Token) node) (fuel : nat),
  syntax_only expr -> syntax_only (atom list_next expr fuel).
Proof.
  intros expr fuel He.
  unfold atom, constant_expr, variable_expr, function_call, sequence_expr,
    enclosure_expr.
  so; now apply so_while_exprs.
Qed.

Lemma so_or_expr :
  forall (expr : P (list Token) node) (fuel : nat),
  syntax_only expr -> syntax_only (or_expr list_next expr fuel).
Proof.
  intros expr fuel He.
  unfold or_expr, and_expr, not_expr, comp_expr, add_expr, mul_expr, sign_expr.
  repeat first [ apply so_binary | apply so_prefix ]. now apply so_atom.
Qed.

Lemma so_expr : forall fuel : nat, syntax_only (expr list_next fuel).
Proof.
  induction fuel as [ | fuel IH]; cbn; [so | now apply so_or_expr].
Qed.

Lemma so_while_statements :
  forall (statement : P (list Token) node), syntax_only statement ->
  forall (n : nat) (stop : list string) (block : list node),
    syntax_only (while_statements statement n stop block).
Proof.
  intros statement Hs n stop. induction n as [ | n IH]; intro block; cbn; so; apply IH.
Qed.

Lemma so_while_params :
  forall (n : nat) (args : list Token),
    syntax_only (while_params list_next n args).
Proof.
  induction n as [ | n IH]; intro args; cbn; so; apply IH.
Qed.

Lemma so_statement : forall fuel : nat, syntax_only (statement list_next fuel).
Proof.
  induction fuel as [ | fuel IH]; cbn; [so | ].
  pose proof (so_expr fuel) as He.
  unfold statement_rule, if_stmnt, while_stmnt, function_def, return_stmnt,
    assignment_stmnt, function_call.
  so; first [ now apply so_while_statements | apply so_while_params
            | now apply so_while_exprs ].
Qed.

Lemma so_top_level_statement :
  forall fuel : nat, syntax_only (top_level_statement list_next fuel).
Proof.
  intro fuel. unfold top_level_statement. so. apply so_statement.
Qed.

(** Whatever token of a kind that does not continue the condition stands
    where [then] or [do] belongs, the open parenthesis among them, this
    statement is parsed as if the keyword were there. *)
Lemma any_skipped_kind_stands_for_then_and_do :
  forall (fuel : nat) (k : Token),
  In (type k) skipped_kinds ->
  parse_all list_next (5 + fuel) 2
    (parse [kw "if"; boolean_true; k; ident "x"; assign; int_tok "1";
            kw "end-if"])
  = Ok [IfStmnt (ConstantExpr boolean_true)
          [AssignmentStmnt (ident "x") (ConstantExpr (int_tok "1"))] []]
  /\ parse_all list_next (5 + fuel) 2
       (parse [kw "while"; boolean_true; k; ident "x"; assign; int_tok "1";
               kw "end-while"])
     = Ok [WhileStmnt (ConstantExpr boolean_true)
             [AssignmentStmnt (ident "x") (ConstantExpr (int_tok "1"))]].
Proof.
  intros fuel k Hk. split; token_cases k Hk; vm_compute; reflexivity.
Qed.

Lemma parse_start_at : forall (t u : Token) (s : list Token),
  parse_start list_next (t :: u :: s) = Ok (at_tokens (t :: u :: s)).
Proof. reflexivity. Qed.

Lemma parse_resume_syntax_only : forall (fuel : nat) (p : parser (list Token))
    (e : exception),
  parse_resume list_next fuel p = Raise e -> exists d, e = ErioSyntaxError d.
Proof.
  intros fuel p e H. unfold parse_resume in H.
  destruct (negb (type (token p) =? "eof")); [ | discriminate].
  destruct (top_level_statement list_next fuel p) as [[s p'] | e' | | ] eqn:Ht;
    cbn in H; try discriminate.
  injection H as <-. eapply so_top_level_statement; eassumption.
Qed.

Lemma parse_resume_suspends : forall (fuel : nat) (p : parser (list Token))
    (s : node) (g : parse_generator (list Token)),
  parse_resume list_next fuel p = Ok (Some (s, g)) -> exists p', g = Suspended p'.
Proof.
  intros fuel p s g H. unfold parse_resume in H.
  destruct (negb (type (token p) =? "eof")); [ | discriminate].
  destruct (top_level_statement list_next fuel p) as [[x px] | | | ];
    cbn in H; try discriminate.
  injection H as _ <-. now exists px.
Qed.

Lemma parse_next_started : forall (fuel : nat) (g : parse_generator (list Token)),
  match g with
  | Fresh s => (2 <= List.length s)%nat
  | Suspended _ => True
  end ->
  exists p, parse_next list_next fuel g = parse_resume list_next fuel p.
Proof.
  intros fuel [s | p] Hg.
  - destruct s as [ | t1 [ | t2 s]]; cbn in Hg; try lia.
    now exists (at_tokens (t1 :: t2 :: s)).
  - now exists p.
Qed.

Lemma parse_all_syntax_only : forall (fuel n : nat)
    (g : parse_generator (list Token)) (e : exception),
  match g with
  | Fresh s => (2 <= List.length s)%nat
  | Suspended _ => True
  end ->
  parse_all list_next fuel n g = Raise e -> exists d, e = ErioSyntaxError d.
Proof.
  intros fuel n. induction n as [ | n IH]; intros g e Hg H; [discriminate | ].
  cbn [parse_all] in H.
  destruct (parse_next_started fuel g Hg) as [p Hp]. rewrite Hp in H.
  destruct (parse_resume list_next fuel p) as [[[s g'] | ] | e' | | ] eqn:Hn;
    cbn in H; try discriminate.
  - destruct (parse_all list_next fuel n g') as [ss | e' | | ] eqn:Ha;
      cbn in H; try discriminate.
    injection H as <-. apply (IH g'); [ | exact Ha].
    destruct (parse_resume_suspends _ _ Hn) as [p' ->]. exact I.
  - injection H as <-. eapply parse_resume_syntax_only; eassumption.
Qed.

Lemma atom_rejects : forall (Iter : Type)
    (next : Iter -> result (option (Token * Iter))) (ex : P Iter node)
    (fuel : nat) (t la : Token) (s : Iter),
  starts_atom t = false ->
  atom next ex fuel (MkParser t la s) = Raise (ErioSyntaxError (Unexpected t)).
Proof.
  intros Iter next ex fuel t la s H. unfold starts_atom in H.
  cbn [existsb] in H.
  repeat (apply orb_false_elim in H;
          let H1 := fresh "H" in destruct H as [H1 H]).
  unfold atom, bind, cur, peek. cbn [rbind fst snd token lookahead existsb].
  now rewrite H0, H1, H2, H3, H4, H5.
Qed.

Lemma statement_rejects : forall (Iter : Type)
    (next : Iter -> result (option (Token * Iter)))
    (fuel : nat) (t la : Token) (s : Iter),
  starts_statement t la = false ->
  statement next (S fuel) (MkParser t la s)
  = Raise (ErioSyntaxError (Unexpected t)).
Proof.
  intros Iter next fuel t la s H. unfold starts_statement in H.
  apply orb_false_elim in H. destruct H as [H Hid].
  cbn [existsb] in H, Hid.
  repeat (apply orb_false_elim in H;
          let H1 := fresh "H" in destruct H as [H1 H]).
  cbn [statement]. unfold statement_rule, bind, cur, peek.
  cbn [rbind fst snd token lookahead]. rewrite H0, H1, H2, H3.
  destruct (type t =? "identifier"); cbn [andb] in *; [ | reflexivity].
  apply orb_false_elim in Hid. destruct Hid as [Ha Hid].
  apply orb_false_elim in Hid. destruct Hid as [Hb _].
  now rewrite Ha, Hb.
Qed.

Lemma top_level_return_rejected : forall (Iter : Type)
    (next : Iter -> result (option (Token * Iter)))
    (fuel : nat) (t la : Token) (s : Iter),
  type t = "return" ->
  top_level_statement next fuel (MkParser t la s)
  = Raise (ErioSyntaxError ReturnOutsideFunctionBody).
Proof.
  intros Iter next fuel t la s H. unfold top_level_statement, bind, cur.
  cbn [rbind fst snd token]. now rewrite H.
Qed.

(** *** The tokens that no rule looks at *)

Lemma condition_read : forall (cond : node) (k : Token) (rest : list Token)
    (fuel : nat),
  wf_expr cond = true -> (size cond <= fuel)%nat -> stops 1 k = true ->
  expr list_next (S fuel) (at_tokens (pretty cond ++ k :: rest))
  = Ok (cond, at_tokens (k :: rest)).
Proof.
  intros cond k rest fuel Hwf Hf Hk. apply expr_reads_pretty; try assumption.
  now rewrite token_at.
Qed.

Lemma if_skips_then : forall (st : P (list Token) node) (cond : node)
    (i k k' : Token) (rest : list Token) (fuel : nat),
  wf_expr cond = true -> (size cond <= fuel)%nat ->
  stops 1 k = true -> stops 1 k' = true ->
  if_stmnt list_next st (S fuel) (at_tokens (i :: pretty cond ++ k :: rest))
  = if_stmnt list_next st (S fuel) (at_tokens (i :: pretty cond ++ k' :: rest)).
Proof.
  intros st cond i k k' rest fuel Hwf Hf Hk Hk'. unfold if_stmnt.
  erewrite bind_ok; [ | apply next_token_at].
  erewrite bind_ok; [ | now apply condition_read].
  erewrite bind_ok; [ | apply next_token_at].
  symmetry.
  erewrite bind_ok; [ | apply next_token_at].
  erewrite bind_ok; [ | now apply condition_read].
  erewrite bind_ok; [ | apply next_token_at].
  reflexivity.
Qed.

Lemma while_skips_do : forall (st : P (list Token) node) (cond : node)
    (i k k' : Token) (rest : list Token) (fuel : nat),
  wf_expr cond = true -> (size cond <= fuel)%nat ->
  stops 1 k = true -> stops 1 k' = true ->
  while_stmnt list_next st (S fuel) (at_tokens (i :: pretty cond ++ k :: rest))
  = while_stmnt list_next st (S fuel)
      (at_tokens (i :: pretty cond ++ k' :: rest)).
Proof.
  intros st cond i k k' rest fuel Hwf Hf Hk Hk'. unfold while_stmnt.
  erewrite bind_ok; [ | apply next_token_at].
  erewrite bind_ok; [ | now apply condition_read].
  erewrite bind_ok; [ | apply next_token_at].
  symmetry.
  erewrite bind_ok; [ | apply next_token_at].
  erewrite bind_ok; [ | now apply condition_read].
  erewrite bind_ok; [ | apply next_token_at].
  reflexivity.
Qed.

Lemma parse_all_of_statement : forall (fuel n : nat) (ts ts' : list Token)
    (i : Token),
  type i <> "eof" -> type i <> "return" ->
  (2 <= List.length ts)%nat -> (2 <= List.length ts')%nat ->
  token (at_tokens ts) = i -> token (at_tokens ts') = i ->
  statement list_next fuel (at_tokens ts)
  = statement list_next fuel (at_tokens ts') ->
  parse_all list_next fuel n (parse ts) = parse_all list_next fuel n (parse ts').
Proof.
  intros fuel n ts ts' i He Hr Hl Hl' Ht Ht' H.
  destruct n as [ | n]; [reflexivity | ]. cbn [parse_all]. f_equal.
  unfold parse, parse_next.
  destruct ts as [ | t1 [ | t2 ts]]; cbn in Hl; try lia.
  destruct ts' as [ | t1' [ | t2' ts']]; cbn in Hl'; try lia.
  rewrite !parse_start_at. cbn [rbind]. unfold parse_resume.
  rewrite Ht, Ht'. apply String.eqb_neq in He, Hr. rewrite He. cbn [negb].
  unfold top_level_statement. rewrite !bind_cur, Ht, Ht', Hr. now rewrite H.
Qed.

Lemma closer_is_not_looked_at : forall (cond : node) (k : Token)
    (rest : list Token) (fuel : nat),
  wf_expr cond = true -> (size cond <= fuel)%nat -> stops 1 k = true ->
  atom list_next (expr list_next (S fuel)) (S fuel)
    (at_tokens (open_paren :: pretty cond ++ k :: rest))
  = Ok (cond, at_tokens rest).
Proof.
  intros cond k rest fuel Hwf Hf Hk. rewrite atom_paren. unfold enclosure_expr.
  erewrite bind_ok; [ | apply next_token_at].
  erewrite bind_ok; [ | now apply condition_read].
  erewrite bind_ok; [ | apply next_token_at]. reflexivity.
Qed.

Lemma fixed_tokens_are_skipped : forall (cond : node) (k : Token)
    (rest : list Token) (m n : nat),
  wf_expr cond = true -> (size cond <= m)%nat -> stops 1 k = true ->
  parse_all list_next (S (S m)) n (parse (kw "if" :: pretty cond ++ k :: rest))
  = parse_all list_next (S (S m)) n
      (parse (kw "if" :: pretty cond ++ kw "then" :: rest))
  /\ parse_all list_next (S (S m)) n
       (parse (kw "while" :: pretty cond ++ k :: rest))
     = parse_all list_next (S (S m)) n
         (parse (kw "while" :: pretty cond ++ kw "do" :: rest)).
Proof.
  intros cond k rest m n Hwf Hm Hk. split.
  - apply parse_all_of_statement with (i := kw "if");
      try discriminate; try apply token_at;
      try (cbn [List.length]; rewrite length_app; cbn [List.length]; lia).
    cbn [statement]. unfold statement_rule.
    rewrite !bind_cur, !bind_peek, !token_at.
    change (type (kw "if") =? "if") with true. cbv iota.
    now apply if_skips_then.
  - apply parse_all_of_statement with (i := kw "while");
      try discriminate; try apply token_at;
      try (cbn [List.length]; rewrite length_app; cbn [List.length]; lia).
    cbn [statement]. unfold statement_rule.
    rewrite !bind_cur, !bind_peek, !token_at.
    change (type (kw "while") =? "if") with false.
    change (type (kw "while") =? "while") with true. cbv iota.
    now apply while_skips_do.
Qed.

(** C2, as amended.  On a list of at least two tokens [parse] raises
    nothing but syntax errors, whatever the bounds of the run.  (A run is
    bounded here by its fuel and not by the depth of its calls: the run
    that the host ends with [RecursionError], on a chain of operators or a
    nesting deeper than its limit, is outside this statement.)  On any
    stream the syntax error is raised where
    [statement] meets a token that starts none of its rules, where [atom]
    meets one that starts none of its own, and where [return] opens a
    top-level statement.  The token at a fixed position is consumed
    without being looked at: after [if] and any condition, any token [k]
    that does not continue the condition stands for [then], whatever
    follows, and likewise for [do] after [while] and for the parenthesis
    that closes an expression. *)
Theorem parser_raises_syntax_errors_and_skips_fixed_tokens :
  forall (ts : list Token) (e : exception) (fuel n : nat)
         (Iter : Type) (next : Iter -> result (option (Token * Iter)))
         (ex : P Iter node) (t la a r : Token) (s : Iter)
         (cond : node) (k : Token) (rest : list Token) (m : nat),
  (2 <= List.length ts)%nat ->
  parse_all list_next fuel n (parse ts) = Raise e ->
  starts_statement t la = false ->
  starts_atom a = false ->
  type r = "return" ->
  wf_expr cond = true -> (size cond <= m)%nat -> stops 1 k = true ->
  (exists d, e = ErioSyntaxError d)
  /\ statement next (S fuel) (MkParser t la s)
     = Raise (ErioSyntaxError (Unexpected t))
  /\ atom next ex fuel (MkParser a la s)
     = Raise (ErioSyntaxError (Unexpected a))
  /\ top_level_statement next fuel (MkParser r la s)
     = Raise (ErioSyntaxError ReturnOutsideFunctionBody)
  /\ parse_all list_next (S (S m)) n
       (parse (kw "if" :: pretty cond ++ k :: rest))
     = parse_all list_next (S (S m)) n
         (parse (kw "if" :: pretty cond ++ kw "then" :: rest))
  /\ parse_all list_next (S (S m)) n
       (parse (kw "while" :: pretty cond ++ k :: rest))
     = parse_all list_next (S (S m)) n
         (parse (kw "while" :: pretty cond ++ kw "do" :: rest))
  /\ atom list_next (expr list_next (S m)) (S m)
       (at_tokens (open_paren :: pretty cond ++ k :: rest))
     = Ok (cond, at_tokens rest).
Proof.
  intros ts e fuel n Iter next ex t la a r s cond k rest m
         Hts He Ht Ha Hr Hwf Hm Hk.
  split; [ | split; [ | split; [ | split; [ | split; [ | split]]]]].
  - apply (@parse_all_syntax_only fuel n (parse ts)); assumption.
  - now apply statement_rejects.
  - now apply atom_rejects.
  - now apply top_level_return_rejected.
  - now apply fixed_tokens_are_skipped.
  - now apply fixed_tokens_are_skipped.
  - now apply closer_is_not_looked_at.
Qed.

Lemma parser_raises_syntax_errors_witness :
  (2 <= List.length [kw "if"; kw "then"])%nat
  /\ parse_all list_next 3 2 (parse [kw "if"; kw "then"])
     = Raise (ErioSyntaxError (Unexpected (kw "then")))
  /\ starts_statement (kw "then") eof = false
  /\ starts_atom (kw "end-if") = false
  /\ type (kw "return") = "return"
  /\ wf_expr (ConstantExpr boolean_true) = true
  /\ (size (ConstantExpr boolean_true) <= 4)%nat
  /\ stops 1 close_bracket = true
  /\ (exists d, ErioSyntaxError (Unexpected (kw "then")) = ErioSyntaxError d)
  /\ statement list_next 4 (MkParser (kw "then") eof [])
     = Raise (ErioSyntaxError (Unexpected (kw "then")))
  /\ atom list_next (expr list_next 0) 3 (MkParser (kw "end-if") eof [])
     = Raise (ErioSyntaxError (Unexpected (kw "end-if")))
  /\ top_level_statement list_next 3 (MkParser (kw "return") eof [])
     = Raise (ErioSyntaxError ReturnOutsideFunctionBody)
  /\ parse_all list_next 6 2
       (parse (kw "if" :: pretty (ConstantExpr boolean_true) ++ close_bracket
               :: [ident "x"; assign; int_tok "1"; kw "end-if"]))
     = parse_all list_next 6 2
         (parse (kw "if" :: pretty (ConstantExpr boolean_true) ++ kw "then"
                 :: [ident "x"; assign; int_tok "1"; kw "end-if"]))
  /\ parse_all list_next 6 2
       (parse (kw "while" :: pretty (ConstantExpr boolean_true) ++ close_bracket
               :: [ident "x"; assign; int_tok "1"; kw "end-if"]))
     = parse_all list_next 6 2
         (parse (kw "while" :: pretty (ConstantExpr boolean_true) ++ kw "do"
                 :: [ident "x"; assign; int_tok "1"; kw "end-if"]))
  /\ atom list_next (expr list_next 5) 5
       (at_tokens (open_paren :: pretty (ConstantExpr boolean_true)
                   ++ close_bracket
                   :: [ident "x"; assign; int_tok "1"; kw "end-if"]))
     = Ok (ConstantExpr boolean_true,
           at_tokens [ident "x"; assign; int_tok "1"; kw "end-if"]).
Proof.
  split; [cbn; lia | ]. split; [reflexivity | ]. split; [reflexivity | ].
  split; [reflexivity | ]. split; [reflexivity | ]. split; [reflexivity | ].
  split; [cbn; lia | ]. split; [reflexivity | ].
  apply (@parser_raises_syntax_errors_and_skips_fixed_tokens
           [kw "if"; kw "then"] (ErioSyntaxError (Unexpected (kw "then")))
           3 2 (list Token) list_next (expr list_next 0)
           (kw "then") eof (kw "end-if") (kw "return") []
           (ConstantExpr boolean_true) close_bracket
           [ident "x"; assign; int_tok "1"; kw "end-if"] 4);
    first [reflexivity | cbn; lia].
Defined.

(** C2, as stated, fails: with [do] where [then] belongs, with the [then]
    missing, with a bracket closing a parenthesis, and with the parenthesis
    that opens the parameters of a definition replaced, the stream is
    parsed; and a definition cut short by the end of the stream is never
    rejected, the parameter loop turning on the sentinel for ever. *)
Lemma misplaced_tokens_are_parsed :
  parse_text 10 "if true do x = 1 end-if"
  = Ok [IfStmnt (ConstantExpr boolean_true)
          [AssignmentStmnt (ident "x") (ConstantExpr (int_tok "1"))] []]
  /\ parse_text 10 "if a end-if end-if"
     = Ok [IfStmnt (VariableExpr (ident "a")) [] []]
  /\ parse_text 10 "x = (1 ]"
     = Ok [AssignmentStmnt (ident "x") (ConstantExpr (int_tok "1"))]
  /\ parse_text 10 "def f x ) end-def"
     = Ok [FunctionDef (ident "f") [] []]
  /\ parse_text 50 "def f ( x" = OutOfFuel.
Proof. repeat split; vm_compute; reflexivity. Qed.

(** At the end of the stream the parameter loop of a definition turns on
    the sentinel without end: no fuel is enough. *)
Lemma parameter_loop_never_ends : forall (n : nat) (args : list Token),
  while_params list_next n args (MkParser eof eof []) = OutOfFuel.
Proof.
  induction n as [ | n IH]; intro args; [reflexivity | ].
  cbn. apply IH.
Qed.

Lemma unclosed_definition_is_never_rejected : forall fuel : nat,
  parse_next list_next fuel
    (parse [kw "def"; ident "f"; MkToken "open-paren" "("; ident "x"])
  = OutOfFuel.
Proof.
  intros [ | [ | fuel]]; try reflexivity.
  cbn. unfold bind. cbn. now rewrite parameter_loop_never_ends.
Qed.

(** ** Short circuit *)

Lemma mbind_ok : forall (A B : Type) (m : M A) (k : A -> M B)
                        (st st' : state) (a : A),
  m st = (Ok a, st') -> mbind m k st = k a st'.
Proof. intros A B m k st st' a H. unfold mbind. now rewrite H. Qed.

Lemma lift_ok : forall (A : Type) (r : result A) (st : state),
  lift r st = (r, st).
Proof. reflexivity. Qed.

(** C3. With the left operand evaluated to [l], [bl] telling whether [l]
    is truthy: the operator that [l] decides ([or] when truthy, [and] when
    not) gives [l], respectively [Boolean(false)], in the store left by the
    left operand, whatever the right operand [R] is: [R] is not evaluated
    and nothing of it happens.  The other operator evaluates its right
    operand [R'] in that store and gives its value [r] when truthy and
    [Boolean(false)] when not. *)
Theorem or_and_short_circuit :
  forall (fuel : nat) (env : loc) (op : Token) (L R R' : node)
         (st st1 st2 : state) (l r : object) (bl br : bool),
  eval_expr fuel env L st = (Ok l, st1) -> Execute.true l = Ok bl ->
  eval_expr fuel env R' st1 = (Ok r, st2) -> Execute.true r = Ok br ->
  eval_expr (S fuel) env (if bl then OrExpr op L R else AndExpr op L R) st
  = (Ok (if bl then l else Boolean false), st1)
  /\ eval_expr (S fuel) env (if bl then AndExpr op L R' else OrExpr op L R') st
     = (Ok (if br then r else Boolean false), st2).
Proof.
  intros fuel env op L R R' st st1 st2 l r bl br HL Hl HR Hr.
  split.
  - destruct bl; cbn; unfold eval_or, eval_and;
      rewrite (@mbind_ok _ _ _ _ _ _ _ HL), Hl; reflexivity.
  - destruct bl; cbn; unfold eval_or, eval_and;
      rewrite (@mbind_ok _ _ _ _ _ _ _ HL), Hl; cbn;
      rewrite (@mbind_ok _ _ _ _ _ _ _ HR), Hr; cbn; now destruct br.
Qed.

Lemma or_and_short_circuit_witness :
  eval_expr 3 global
    (OrExpr (kw "or") (ConstantExpr boolean_true) (print_call "boom"))
    build_global_environment
  = (Ok (Boolean true), build_global_environment)
  /\ eval_expr 3 global
       (AndExpr (kw "or") (ConstantExpr boolean_true) (ConstantExpr boolean_false))
       build_global_environment
     = (Ok (Boolean false), build_global_environment).
Proof.
  apply (@or_and_short_circuit 2 global (kw "or") (ConstantExpr boolean_true)
           (print_call "boom") (ConstantExpr boolean_false)
           build_global_environment build_global_environment
           build_global_environment (Boolean true) (Boolean false) true false);
    reflexivity.
Defined.

(** The right operand's effect when it is evaluated, and its absence when
    the left operand decides. *)
Example short_circuit_output :
  exec_to_string 10
    ("def shout() print(" ++ quoted "boom" ++ ") return true end-def "
     ++ "a = true or shout() b = false and shout() print(a) print(b)")
  = Ok "truefalse"
  /\ exec_to_string 10
       ("def shout() print(" ++ quoted "boom" ++ ") return true end-def "
        ++ "a = false or shout() b = true and shout() print(a) print(b)")
     = Ok "boomboomtruetrue".
Proof. split; vm_compute; reflexivity. Qed.

(** ** Return *)

Lemma exec_block_app :
  forall (exec : node -> M object) (pre more : list node) (st0 st : state),
  exec_block exec pre st0 = (Ok NoneObject, st) ->
  exec_block exec (pre ++ more) st0 = exec_block exec more st.
Proof.
  intros exec pre more. induction pre as [ | s pre IH]; intros st0 st H; cbn in *.
  - now injection H as <-.
  - unfold mbind in *.
    destruct (exec s st0) as [[ret | e | | ] st'] eqn:Hs; try discriminate.
    destruct (host_bool ret) eqn:Hb.
    + cbn in H. injection H as -> <-. discriminate.
    + now apply IH.
Qed.

Lemma exec_block_stops :
  forall (exec : node -> M object) (pre rest : list node) (s : node)
         (st0 st1 st2 : state) (v : object),
  exec_block exec pre st0 = (Ok NoneObject, st1) ->
  exec s st1 = (Ok v, st2) -> host_bool v = true ->
  exec_block exec (pre ++ s :: rest) st0 = (Ok v, st2).
Proof.
  intros exec pre rest s st0 st1 st2 v Hpre Hs Hv.
  rewrite (@exec_block_app _ _ _ _ _ Hpre). cbn.
  rewrite (@mbind_ok _ _ _ _ _ _ _ Hs), Hv. reflexivity.
Qed.

(** C4.  In a block whose statements [pre] yield nothing and whose next
    statement [s] yields the non-null [v]: the block stops at [s] and
    yields [v], the statements [rest] not executed; an [if] whose
    condition selects the block yields [v]; a [while] with the block as
    body yields [v] on the first turn if its condition is truthy, the loop
    ending there; and a call of a function with the block as body has [v]
    as its value.  Each layer hands on the value and the store unchanged,
    so the same holds through any nesting, [s] being itself such an [if]
    or [while]. *)
Theorem return_propagates :
  forall (fuel : nat) (caller env fenv : loc) (id : Token) (fargs : list string)
         (args other pre rest : list node) (cond s : node)
         (vs : list object) (c v : object) (b : bool)
         (st_call st_args st_cond st0 st1 st2 : state),
  (* the block *)
  exec_block (exec_statement fuel env) pre st0 = (Ok NoneObject, st1) ->
  exec_statement fuel env s st1 = (Ok v, st2) ->
  host_bool v = true ->
  (* a condition in front of it *)
  eval_expr fuel env cond st_cond = (Ok c, st0) ->
  Execute.true c = Ok b ->
  (* a call of a function that has it as body *)
  getitem caller (value id) st_call
  = (Ok (Function fenv fargs (Func (pre ++ s :: rest))), st_call) ->
  mapM (eval_expr fuel caller) args st_call = (Ok vs, st_args) ->
  call_frame fenv fargs vs st_args = (Ok env, st0) ->
  execute fuel env (pre ++ s :: rest) st0 = (Ok v, st2)
  /\ exec_statement (S fuel) env
       (if b then IfStmnt cond (pre ++ s :: rest) other
        else IfStmnt cond other (pre ++ s :: rest)) st_cond
     = (Ok v, st2)
  /\ exec_statement (S (S fuel)) env (WhileStmnt cond (pre ++ s :: rest)) st_cond
     = (if b then (Ok v, st2) else (Ok NoneObject, st0))
  /\ eval_expr (S fuel) caller (FunctionCall id args) st_call = (Ok v, st2).
Proof.
  intros fuel caller env fenv id fargs args other pre rest cond s vs c v b
         st_call st_args st_cond st0 st1 st2
         Hpre Hs Hv Hcond Hc Hf Hargs Hframe.
  pose proof (@exec_block_stops _ _ rest _ _ _ _ _ Hpre Hs Hv) as Hblock.
  repeat split.
  - exact Hblock.
  - destruct b; cbn; unfold exec_if;
      rewrite (@mbind_ok _ _ _ _ _ _ _ Hcond), Hc; cbn;
      rewrite (@mbind_ok _ _ _ _ _ _ _ Hblock), Hv; reflexivity.
  - cbn. rewrite (@mbind_ok _ _ _ _ _ _ _ Hcond), Hc. destruct b; cbn.
    + rewrite (@mbind_ok _ _ _ _ _ _ _ Hblock), Hv. reflexivity.
    + reflexivity.
  - cbn [eval_expr eval_expr_rule]. unfold eval_func_call.
    rewrite (@mbind_ok _ _ _ _ _ _ _ Hf), (@mbind_ok _ _ _ _ _ _ _ Hargs).
    unfold call_frame in Hframe. unfold mbind in *.
    destruct (new_namespace (Some fenv) st_args) as [[runenv | | | ] st'];
      try discriminate.
    destruct (update runenv (combine fargs vs) st') as [[[] | | | ] st''];
      try discriminate.
    cbn in Hframe. injection Hframe as -> ->. exact Hblock.
Qed.

Lemma return_propagates_witness :
  execute 3 1 sample_body store_in_call = (Ok (Integer 5), store_after_pre)
  /\ exec_statement 4 1
       (IfStmnt (ConstantExpr boolean_true) sample_body []) store_in_call
     = (Ok (Integer 5), store_after_pre)
  /\ exec_statement 5 1
       (WhileStmnt (ConstantExpr boolean_true) sample_body) store_in_call
     = (Ok (Integer 5), store_after_pre)
  /\ eval_expr 4 global (FunctionCall (ident "f") []) store_with_f
     = (Ok (Integer 5), store_after_pre).
Proof.
  apply (@return_propagates 3 global 1 global (ident "f") [] [] []
           sample_pre sample_rest (ConstantExpr boolean_true) sample_return
           [] (Boolean true) (Integer 5) true
           store_with_f store_with_f store_in_call store_in_call
           store_after_pre store_after_pre);
    reflexivity.
Defined.

(** A [return] under a [while] under an [if] under a [while]: the call
    gives its value and nothing after it runs. *)
Example nested_return :
  exec_to_string 12
    ("def f() while true do if true then while true do return 5 "
     ++ "end-while end-if print(0) end-while print(1) end-def print(f())")
  = Ok "5".
Proof. vm_compute. reflexivity. Qed.

(** ** The reserved name *)

(** The invariant [sink_kept] is shown to hold of the first store and to
    be kept by every operation on the store, by the primitives, and by the
    closures of [execute] at every fuel, when the nodes they run bind no
    reserved name ([safe_node]).  The lexer makes no token with the
    reserved text, and the parser puts no name in a node that is not the
    text of a token, so the nodes of a parsed program are safe. *)

Lemma keeps_unit : forall (A : Type) (Q : A -> Prop) (a : A),
  Q a -> keeps Q (unit_ a).
Proof.
  intros A Q a HQ st st' r Hst H. injection H as <- <-.
  split; [assumption | ]. now intros a' [= <-].
Qed.

Lemma keeps_lift : forall (A : Type) (Q : A -> Prop) (r : result A),
  (forall a, r = Ok a -> Q a) -> keeps Q (lift r).
Proof.
  intros A Q r HQ st st' r' Hst H. injection H as <- <-. now split.
Qed.

Lemma keeps_raise : forall (A : Type) (Q : A -> Prop) (e : exception),
  keeps Q (raise e).
Proof. intros A Q e. apply keeps_lift. discriminate. Qed.

Lemma keeps_bind :
  forall (A B : Type) (Q : A -> Prop) (R : B -> Prop) (m : M A) (k : A -> M B),
  keeps Q m -> (forall a, Q a -> keeps R (k a)) -> keeps R (mbind m k).
Proof.
  intros A B Q R m k Hm Hk st st' r Hst H. unfold mbind in H.
  destruct (m st) as [[a | e | | ] st1] eqn:Hmst;
    destruct (Hm _ _ _ Hst Hmst) as [Hst1 HQ].
  - eapply Hk; [apply HQ; reflexivity | eassumption | eassumption].
  - injection H as <- <-. split; [assumption | discriminate].
  - injection H as <- <-. split; [assumption | discriminate].
  - injection H as <- <-. split; [assumption | discriminate].
Qed.

Lemma keeps_weaken :
  forall (A : Type) (Q Q' : A -> Prop) (m : M A),
  keeps Q m -> (forall a, Q a -> Q' a) -> keeps Q' m.
Proof.
  intros A Q Q' m Hm HQ st st' r Hst H.
  destruct (Hm _ _ _ Hst H) as [Hst' Hr]. split; [assumption | auto].
Qed.

(** *** The store operations *)

Lemma dict_get_In : forall (V : Type) (d : list (string * V)) (k : string) (v : V),
  dict_get d k = Some v -> In (k, v) d.
Proof.
  intros V d k v. induction d as [ | [k' v'] d IH]; cbn; [discriminate | ].
  destruct (String.eqb_spec k' k) as [-> | Hne].
  - intros [= ->]. now left.
  - intro H. right. now apply IH.
Qed.

Lemma Namespace_getitem_In :
  forall (n : nat) (h : list Namespace) (self : loc) (key : string) (v : object),
  Namespace_getitem n h self key = Ok v ->
  exists e ns, nth_error h e = Some ns /\ In (key, v) (items ns).
Proof.
  induction n as [ | n IH]; intros h self key v H; cbn in H.
  - destruct (nth_error h self); discriminate.
  - destruct (nth_error h self) as [ns | ] eqn:Hns; [ | discriminate].
    assert (Hhere : dict_get (items ns) key = Some v ->
                    exists e ns', nth_error h e = Some ns' /\ In (key, v) (items ns')).
    { intro Hg. exists self, ns. split; [assumption | now apply dict_get_In]. }
    destruct (parent ns) as [p | ].
    + destruct (negb (dict_in (items ns) key) && Namespace_contains n h p key).
      * eapply IH; eassumption.
      * destruct (dict_get (items ns) key) eqn:Hg; [ | discriminate].
        injection H as ->. now apply Hhere.
    + destruct (dict_get (items ns) key) eqn:Hg; [ | discriminate].
      injection H as ->. now apply Hhere.
Qed.

Lemma keeps_getitem : forall (env : loc) (key : string),
  keeps safe (getitem env key).
Proof.
  intros env key st st' r Hst H. unfold getitem in H. injection H as <- <-.
  split; [assumption | ]. intros v Hv.
  destruct (Namespace_getitem_In _ _ _ _ Hv) as (e & ns & Hns & Hin).
  eapply safe_items; eassumption.
Qed.

Lemma nth_error_list_set :
  forall (A : Type) (l : list A) (i j : nat) (x y : A),
  nth_error (list_set l i x) j = Some y ->
  (j = i /\ y = x /\ (i < List.length l)%nat) \/ (j <> i /\ nth_error l j = Some y).
Proof.
  intros A l. induction l as [ | a l IH]; intros i j x y H.
  - destruct j; discriminate.
  - destruct i as [ | i], j as [ | j]; cbn in *.
    + injection H as <-. left. repeat split. lia.
    + right. split; [lia | assumption].
    + right. split; [lia | assumption].
    + destruct (IH _ _ _ _ H) as [(-> & -> & Hlt) | [Hne Hn]].
      * left. repeat split. lia.
      * right. split; [lia | assumption].
Qed.

Lemma list_set_some :
  forall (A : Type) (l : list A) (i : nat) (x a : A),
  nth_error l 0 = Some a -> exists b, nth_error (list_set l i x) 0 = Some b.
Proof.
  intros A [ | a' l] i x a H; [discriminate | ].
  destruct i; cbn; eauto.
Qed.

Lemma dict_set_other :
  forall (V : Type) (d : list (string * V)) (k k' : string) (v : V),
  k <> k' -> dict_get (dict_set d k v) k' = dict_get d k'.
Proof.
  intros V d k k' v Hne. induction d as [ | [k0 v0] d IH]; cbn.
  - destruct (String.eqb_spec k k'); [contradiction | reflexivity].
  - destruct (String.eqb_spec k0 k) as [-> | Hne0]; cbn.
    + destruct (String.eqb_spec k k'); [contradiction | reflexivity].
    + destruct (String.eqb_spec k0 k'); [reflexivity | apply IH].
Qed.

Lemma dict_set_In :
  forall (V : Type) (d : list (string * V)) (k k' : string) (v v' : V),
  In (k', v') (dict_set d k v) -> (k', v') = (k, v) \/ In (k', v') d.
Proof.
  intros V d k k' v v'. induction d as [ | [k0 v0] d IH]; cbn.
  - intros [H | []]. now left.
  - destruct (k0 =? k); cbn.
    + intros [H | H]; [now left | right; now right].
    + intros [H | H]; [right; now left | ].
      destruct (IH H) as [H' | H']; [now left | right; now right].
Qed.

Lemma safe_name_neq : forall k : string, safe_name k = true -> k <> ".out".
Proof.
  intros k H ->. discriminate.
Qed.

Lemma keeps_setitem : forall (env : loc) (key : string) (v : object),
  safe_name key = true -> safe v -> keeps any (setitem env key v).
Proof.
  intros env key v Hkey Hv st st' r Hst H. unfold setitem in H.
  destruct (nth_error (namespaces st) env) as [ns | ] eqn:Hns.
  - injection H as <- <-. split; [ | now intros].
    destruct Hst as [[g Hg] Hres Hitems Helems]. constructor; cbn [namespaces lists output].
    + eapply list_set_some; eassumption.
    + intros e ns' H'.
      destruct (nth_error_list_set _ _ _ _ H') as [(-> & -> & _) | [_ Hold]].
      * cbn. rewrite dict_set_other by now apply safe_name_neq.
        now apply Hres.
      * now apply Hres.
    + intros e ns' k w H' Hin.
      destruct (nth_error_list_set _ _ _ _ H') as [(-> & -> & _) | [_ Hold]].
      * cbn in Hin. destruct (dict_set_In _ _ _ _ _ Hin) as [[= -> ->] | Hin'].
        -- exact Hv.
        -- eapply Hitems; eassumption.
      * eapply Hitems; eassumption.
    + exact Helems.
  - injection H as <- <-. split; [assumption | discriminate].
Qed.

Lemma keeps_new_namespace : forall p : option loc,
  keeps any (new_namespace p).
Proof.
  intros p st st' r Hst H. unfold new_namespace in H. injection H as <- <-.
  split; [ | now intros].
  destruct Hst as [[g Hg] Hres Hitems Helems]. constructor; cbn [namespaces lists output].
  - exists g. rewrite nth_error_app1; [assumption | ].
    apply nth_error_Some. now rewrite Hg.
  - intros e ns H.
    destruct (Nat.lt_ge_cases e (List.length (namespaces st))) as [Hlt | Hge].
    + rewrite nth_error_app1 in H by assumption. now apply Hres.
    + rewrite nth_error_app2 in H by assumption.
      assert (Hpos : (0 < List.length (namespaces st))%nat)
        by (apply nth_error_Some; unfold global in Hg; now rewrite Hg).
      destruct (e - List.length (namespaces st))%nat as [ | k] eqn:Hk; cbn in H.
      * injection H as <-. cbn.
        destruct (Nat.eqb_spec e global); [unfold global in *; lia | reflexivity].
      * destruct k; discriminate.
  - intros e ns k v H Hin.
    destruct (Nat.lt_ge_cases e (List.length (namespaces st))) as [Hlt | Hge].
    + rewrite nth_error_app1 in H by assumption. eapply Hitems; eassumption.
    + rewrite nth_error_app2 in H by assumption.
      destruct (e - List.length (namespaces st))%nat as [ | k']; cbn in H.
      * injection H as <-. destruct Hin.
      * destruct k'; discriminate.
  - exact Helems.
Qed.

Lemma keeps_new_list : forall elems : list object,
  all_safe elems -> keeps any (new_list elems).
Proof.
  intros elems He st st' r Hst H. unfold new_list in H. injection H as <- <-.
  split; [ | now intros].
  destruct Hst as [Hg Hres Hitems Helems]. constructor; cbn [namespaces lists output]; try assumption.
  intros l es v H Hin.
  destruct (Nat.lt_ge_cases l (List.length (lists st))) as [Hlt | Hge].
  - rewrite nth_error_app1 in H by assumption. eapply Helems; eassumption.
  - rewrite nth_error_app2 in H by assumption.
    destruct (l - List.length (lists st))%nat as [ | k]; cbn in H.
    + injection H as <-. now apply He.
    + destruct k; discriminate.
Qed.

Lemma keeps_read_list : forall l : loc, keeps all_safe (read_list l).
Proof.
  intros l st st' r Hst H. unfold read_list in H.
  destruct (nth_error (lists st) l) as [elems | ] eqn:Hl; injection H as <- <-.
  - split; [assumption | ]. intros a [= <-] v Hin. eapply safe_elems; eassumption.
  - split; [assumption | discriminate].
Qed.

Lemma keeps_write_list : forall (l : loc) (elems : list object),
  all_safe elems -> keeps any (write_list l elems).
Proof.
  intros l elems He st st' r Hst H. unfold write_list in H. injection H as <- <-.
  split; [ | now intros].
  destruct Hst as [Hg Hres Hitems Helems]. constructor; cbn [namespaces lists output]; try assumption.
  intros l' es v H Hin.
  destruct (nth_error_list_set _ _ _ _ H) as [(-> & -> & _) | [_ Hold]].
  - now apply He.
  - eapply Helems; eassumption.
Qed.

Lemma keeps_write : forall s : string, keeps any (write s).
Proof.
  intros s st st' r Hst H. unfold write in H. injection H as <- <-.
  split; [ | now intros]. destruct Hst. now constructor.
Qed.

Lemma keeps_any_lift : forall (A : Type) (r : result A), keeps any (lift r).
Proof. intros A r. apply keeps_lift. now intros. Qed.

Lemma keeps_getval : forall (runenv : loc) (key : string),
  keeps any (getval runenv key).
Proof.
  intros runenv key. unfold getval.
  eapply keeps_bind; [apply keeps_getitem | intros o _; apply keeps_any_lift].
Qed.

Lemma keeps_index_of : forall v : pyval, keeps any (index_of v).
Proof.
  intro v. unfold index_of. destruct (as_int v).
  - now apply keeps_unit.
  - apply keeps_raise.
Qed.

Lemma keeps_mapM :
  forall (A : Type) (f : A -> M object) (l : list A),
  (forall a, In a l -> keeps safe (f a)) -> keeps all_safe (mapM f l).
Proof.
  intros A f l. induction l as [ | a l IH]; intro Hf; cbn.
  - apply keeps_unit. intros v [].
  - eapply keeps_bind; [apply Hf; now left | intros b Hb].
    eapply keeps_bind; [apply IH; intros; apply Hf; now right | intros bs Hbs].
    apply keeps_unit. intros v [<- | Hin]; [assumption | now apply Hbs].
Qed.

Lemma keeps_update :
  forall (runenv : loc) (pairs : list (string * object)),
  (forall k v, In (k, v) pairs -> safe_name k = true /\ safe v) ->
  keeps any (update runenv pairs).
Proof.
  intros runenv pairs. induction pairs as [ | [k v] pairs IH]; intro H; cbn.
  - now apply keeps_unit.
  - destruct (H k v (or_introl eq_refl)) as [Hk Hv].
    eapply keeps_bind; [now apply keeps_setitem | intros _ _].
    apply IH. intros k' v' Hin. apply H. now right.
Qed.

Lemma all_safe_list_set :
  forall (elems : list object) (k : nat) (v : object),
  all_safe elems -> safe v -> all_safe (list_set elems k v).
Proof.
  intros elems k v He Hv w Hin.
  destruct (In_nth_error _ _ Hin) as [j Hj].
  destruct (nth_error_list_set _ _ _ _ Hj) as [(_ & -> & _) | [_ Hold]].
  - assumption.
  - apply He. eapply nth_error_In; eassumption.
Qed.

Lemma all_safe_list_insert :
  forall (elems : list object) (k : nat) (v : object),
  all_safe elems -> safe v -> all_safe (list_insert elems k v).
Proof.
  intros elems k v He Hv w Hin. unfold list_insert in Hin.
  apply in_app_or in Hin. destruct Hin as [Hin | [<- | Hin]].
  - apply He. rewrite <- (firstn_skipn k elems). apply in_or_app. now left.
  - assumption.
  - apply He. rewrite <- (firstn_skipn k elems). apply in_or_app. now right.
Qed.

(** Steps that keep the invariant whatever they return. *)
Ltac keeps_leaf :=
  first
    [ apply keeps_getval | apply keeps_getitem | apply keeps_any_lift
    | apply keeps_index_of | apply keeps_raise | apply keeps_write
    | apply keeps_read_list
    | apply keeps_lift; discriminate
    | apply keeps_unit; first [ reflexivity | exact I | assumption ] ].

Ltac keeps_step :=
  first
    [ keeps_leaf
    | eapply keeps_bind; [ keeps_leaf | intros ? ? ]
    | match goal with
      | |- keeps _ (match ?x with _ => _ end) => destruct x
      | |- keeps _ (if ?b then _ else _) => destruct b
      end ].

Lemma keeps_run_primitive : forall (runenv : loc) (f : primitive),
  keeps safe (run_primitive runenv f).
Proof.
  intros runenv f.
  destruct f; cbn;
    unfold print_body, add_body, sub_body, lt_body, eq_body, geti_body,
      seti_body, len_body, insert_body.
  - (* print *)
    eapply keeps_bind; [keeps_leaf | intros o _].
    eapply keeps_bind with (Q := any).
    + destruct o; repeat keeps_step.
    + intros s _. repeat keeps_step.
  - repeat keeps_step.
  - repeat keeps_step.
  - repeat keeps_step.
  - repeat keeps_step.
  - (* geti *)
    eapply keeps_bind; [keeps_leaf | intros seq _].
    eapply keeps_bind; [keeps_leaf | intros i _].
    destruct seq; try apply keeps_raise.
    + repeat keeps_step.
    + eapply keeps_bind; [keeps_leaf | intros elems He].
      eapply keeps_bind; [keeps_leaf | intros i' _].
      destruct (py_index (List.length elems) i') as [k | ]; [ | apply keeps_raise].
      destruct (nth_error elems k) as [o | ] eqn:Ho; [ | apply keeps_raise].
      apply keeps_unit. apply He. eapply nth_error_In; eassumption.
  - (* seti *)
    eapply keeps_bind; [keeps_leaf | intros v Hv].
    eapply keeps_bind; [keeps_leaf | intros seq _].
    eapply keeps_bind; [keeps_leaf | intros i _].
    destruct seq; try apply keeps_raise.
    eapply keeps_bind; [keeps_leaf | intros elems He].
    eapply keeps_bind; [keeps_leaf | intros i' _].
    destruct (py_index (List.length elems) i') as [k | ]; [ | apply keeps_raise].
    eapply keeps_bind;
      [apply keeps_write_list; now apply all_safe_list_set | intros _ _].
    now apply keeps_unit.
  - repeat keeps_step.
  - (* insert *)
    eapply keeps_bind; [keeps_leaf | intros seq _].
    destruct seq; try apply keeps_raise.
    eapply keeps_bind; [keeps_leaf | intros i _].
    eapply keeps_bind; [keeps_leaf | intros v Hv].
    eapply keeps_bind; [keeps_leaf | intros elems He].
    eapply keeps_bind; [keeps_leaf | intros i' _].
    eapply keeps_bind;
      [apply keeps_write_list; now apply all_safe_list_insert | intros _ _].
    now apply keeps_unit.
Qed.

(** *** The closures of [execute] *)

Lemma forallb_In : forall (A : Type) (f : A -> bool) (l : list A) (a : A),
  forallb f l = true -> In a l -> f a = true.
Proof.
  intros A f l a H Hin. rewrite forallb_forall in H. now apply H.
Qed.

Lemma forallb_map_value : forall (args : list Token),
  forallb (fun t => safe_name (value t)) args
  = forallb safe_name (map value args).
Proof.
  induction args as [ | t args IH]; cbn; [reflexivity | now rewrite IH].
Qed.

Lemma keeps_eval_const : forall t : Token, keeps safe (eval_const t).
Proof.
  intro t. unfold eval_const. repeat keeps_step.
Qed.

Lemma keeps_ops_get : forall (V : Type) (ops : list (string * V)) (key : string),
  keeps any (ops_get ops key).
Proof.
  intros V ops key. unfold ops_get. destruct (dict_get ops key).
  - now apply keeps_unit.
  - apply keeps_raise.
Qed.

Section KeepsClosures.

Variable execute : loc -> list node -> M object.
Variable env : loc.
Variable eval_expr : node -> M object.
Variable exec_statement : node -> M object.
Variable exec_while : node -> M object.

Hypothesis keeps_execute :
  forall (runenv : loc) (block : list node),
    forallb safe_node block = true -> keeps safe (execute runenv block).
Hypothesis keeps_eval :
  forall e : node, safe_node e = true -> keeps safe (eval_expr e).
Hypothesis keeps_exec :
  forall s : node, safe_node s = true -> keeps safe (exec_statement s).
Hypothesis keeps_while :
  forall s : node, safe_node s = true -> keeps safe (exec_while s).

Lemma keeps_exec_block : forall block : list node,
  forallb safe_node block = true -> keeps safe (exec_block exec_statement block).
Proof.
  induction block as [ | s block IH]; cbn; intro H.
  - now apply keeps_unit.
  - apply andb_prop in H. destruct H as [Hs Hb].
    eapply keeps_bind; [now apply keeps_exec | intros ret Hret].
    destruct (host_bool ret); [now apply keeps_unit | now apply IH].
Qed.

Lemma keeps_eval_list : forall l : list node,
  forallb safe_node l = true -> keeps all_safe (mapM eval_expr l).
Proof.
  intros l H. apply keeps_mapM. intros a Hin. apply keeps_eval.
  eapply forallb_In; eassumption.
Qed.

Lemma keeps_eval_func_call : forall (id : Token) (args : list node),
  forallb safe_node args = true ->
  keeps safe (eval_func_call execute env eval_expr id args).
Proof.
  intros id args Hargs. unfold eval_func_call.
  eapply keeps_bind; [apply keeps_getitem | intros func Hfunc].
  eapply keeps_bind; [now apply keeps_eval_list | intros vs Hvs].
  destruct func as [ | | | | | fenv fargs body | | ]; try apply keeps_raise.
  eapply keeps_bind; [apply keeps_new_namespace | intros runenv _].
  assert (Hnames : forallb safe_name fargs = true)
    by (unfold safe in Hfunc; cbn in Hfunc; destruct body;
        [assumption | now apply andb_prop in Hfunc]).
  eapply keeps_bind.
  - apply keeps_update. intros k v Hin. split.
    + eapply forallb_In; [eassumption | ]. eapply in_combine_l; eassumption.
    + apply Hvs. eapply in_combine_r; eassumption.
  - intros _ _. destruct body as [f | block].
    + apply keeps_run_primitive.
    + apply keeps_execute. unfold safe in Hfunc. cbn in Hfunc.
      now apply andb_prop in Hfunc.
Qed.

Ltac split_safe H :=
  cbn in H;
  repeat match goal with
         | H' : (_ && _)%bool = true |- _ =>
             apply andb_prop in H'; destruct H'
         end.

Lemma keeps_true : forall (c : object), keeps any (lift (Execute.true c)).
Proof. intro c. apply keeps_any_lift. Qed.

Lemma keeps_eval_expr_rule : forall e : node,
  safe_node e = true -> keeps safe (eval_expr_rule execute env eval_expr e).
Proof.
  intros e He. destruct e; cbn [eval_expr_rule]; try apply keeps_raise;
    split_safe He.
  - apply keeps_eval_const.
  - apply keeps_getitem.
  - unfold eval_seq.
    eapply keeps_bind; [now apply keeps_eval_list | intros vs Hvs].
    eapply keeps_bind; [now apply keeps_new_list | intros l _].
    now apply keeps_unit.
  - now apply keeps_eval_func_call.
  - unfold eval_arith.
    eapply keeps_bind; [now apply keeps_eval | intros l _].
    eapply keeps_bind; [keeps_leaf | intros l' _].
    eapply keeps_bind; [now apply keeps_eval | intros r _].
    eapply keeps_bind; [keeps_leaf | intros r' _].
    eapply keeps_bind; [apply keeps_ops_get | intros f _].
    repeat keeps_step.
  - unfold eval_arith.
    eapply keeps_bind; [now apply keeps_eval | intros l _].
    eapply keeps_bind; [keeps_leaf | intros l' _].
    eapply keeps_bind; [now apply keeps_eval | intros r _].
    eapply keeps_bind; [keeps_leaf | intros r' _].
    eapply keeps_bind; [apply keeps_ops_get | intros f _].
    repeat keeps_step.
  - unfold eval_or.
    eapply keeps_bind; [now apply keeps_eval | intros l Hl].
    eapply keeps_bind; [apply keeps_true | intros b _].
    destruct b; [now apply keeps_unit | ].
    eapply keeps_bind; [now apply keeps_eval | intros r Hr].
    eapply keeps_bind; [apply keeps_true | intros b' _].
    destruct b'; now apply keeps_unit.
  - unfold eval_and.
    eapply keeps_bind; [now apply keeps_eval | intros l Hl].
    eapply keeps_bind; [apply keeps_true | intros b _].
    destruct b; cbn; [ | now apply keeps_unit].
    eapply keeps_bind; [now apply keeps_eval | intros r Hr].
    eapply keeps_bind; [apply keeps_true | intros b' _].
    destruct b'; now apply keeps_unit.
  - unfold eval_not.
    eapply keeps_bind; [now apply keeps_eval | intros r _].
    eapply keeps_bind; [apply keeps_true | intros b _].
    now apply keeps_unit.
  - unfold eval_comp.
    eapply keeps_bind; [now apply keeps_eval | intros l _].
    eapply keeps_bind; [keeps_leaf | intros l' _].
    eapply keeps_bind; [now apply keeps_eval | intros r _].
    eapply keeps_bind; [keeps_leaf | intros r' _].
    eapply keeps_bind; [apply keeps_ops_get | intros f _].
    repeat keeps_step.
  - unfold eval_sign.
    eapply keeps_bind; [now apply keeps_eval | intros r _].
    eapply keeps_bind; [keeps_leaf | intros r' _].
    eapply keeps_bind; [apply keeps_ops_get | intros f _].
    repeat keeps_step.
Qed.

Lemma keeps_exec_statement_rule : forall s : node,
  safe_node s = true ->
  keeps safe (exec_statement_rule execute env eval_expr exec_statement
                exec_while s).
Proof.
  intros s Hs. destruct s; cbn [exec_statement_rule];
    try (now apply keeps_unit).
  - (* if *)
    split_safe Hs. unfold exec_if.
    eapply keeps_bind; [now apply keeps_eval | intros c _].
    eapply keeps_bind; [apply keeps_true | intros b _].
    destruct b;
      (eapply keeps_bind; [now apply keeps_exec_block | intros ret Hret];
       destruct (host_bool ret); now apply keeps_unit).
  - (* while *)
    now apply keeps_while.
  - (* assignment *)
    split_safe Hs. unfold exec_assign.
    eapply keeps_bind with (Q := any); [ | intros _ _; now apply keeps_unit].
    eapply keeps_bind; [now apply keeps_eval | intros v Hv].
    now apply keeps_setitem.
  - (* call *)
    cbn in Hs.
    eapply keeps_bind; [now apply keeps_eval_func_call | intros _ _].
    now apply keeps_unit.
  - (* definition *)
    split_safe Hs. unfold exec_func_def.
    eapply keeps_bind with (Q := any); [ | intros _ _; now apply keeps_unit].
    apply keeps_setitem; [assumption | ].
    unfold safe. cbn. rewrite <- forallb_map_value.
    apply andb_true_intro. now split.
  - (* return *)
    unfold exec_return. now apply keeps_eval.
Qed.

Lemma keeps_exec_while_rule : forall (again : M object) (s : node),
  keeps safe again -> safe_node s = true ->
  keeps safe (exec_while_rule eval_expr exec_statement again s).
Proof.
  intros again s Hagain Hs. destruct s; cbn [exec_while_rule];
    try apply keeps_raise.
  split_safe Hs.
  eapply keeps_bind; [now apply keeps_eval | intros c _].
  eapply keeps_bind; [apply keeps_true | intros b _].
  destruct b; [ | now apply keeps_unit].
  eapply keeps_bind; [now apply keeps_exec_block | intros ret Hret].
  destruct (host_bool ret); [now apply keeps_unit | assumption].
Qed.

End KeepsClosures.

Lemma keeps_out_of_fuel : forall (A : Type) (Q : A -> Prop),
  keeps Q (lift OutOfFuel).
Proof. intros A Q. apply keeps_lift. discriminate. Qed.

(** Every closure keeps the invariant, whatever the fuel. *)
Lemma keeps_closures : forall fuel : nat,
  (forall env e, safe_node e = true -> keeps safe (eval_expr fuel env e))
  /\ (forall env s, safe_node s = true -> keeps safe (exec_statement fuel env s))
  /\ (forall env s, safe_node s = true -> keeps safe (exec_while fuel env s)).
Proof.
  induction fuel as [ | fuel (IHe & IHs & IHw)].
  - split; [ | split]; intros; apply keeps_out_of_fuel.
  - assert (Hbody : forall runenv block,
              forallb safe_node block = true ->
              keeps safe (exec_block (exec_statement fuel runenv) block))
      by (intros; apply keeps_exec_block; auto).
    split; [ | split]; intros env x Hx;
      cbn [eval_expr exec_statement exec_while].
    + apply keeps_eval_expr_rule; auto.
    + apply keeps_exec_statement_rule; auto.
    + apply keeps_exec_while_rule; auto.
Qed.

(** *** The tokens of the lexer *)

Lemma make_token_value : forall (s : string) (t : Token),
  make_token s = Ok t -> value t = s.
Proof.
  intros s t. unfold make_token.
  destruct (existsb (String.eqb s) keywords); [now intros [= <-] | ].
  destruct (dict_get symbols s); [now intros [= <-] | ].
  destruct (find (fun nt => snd nt s) tests) as [[name f] | ];
    [now intros [= <-] | discriminate].
Qed.

Lemma make_token_dot : forall rest : string,
  make_token (String.String "."%char rest)
  = Raise (ErioInvalidTokenError (String.String "."%char rest)).
Proof. reflexivity. Qed.

Lemma make_token_not_dot : forall (s : string) (t : Token),
  make_token s = Ok t -> startswith (value t) "."%char = false.
Proof.
  intros s t H. rewrite (make_token_value _ H).
  destruct s as [ | c rest]; [reflexivity | ]. cbn.
  destruct (Ascii.eqb_spec c "."%char) as [-> | Hne]; [ | reflexivity].
  rewrite make_token_dot in H. discriminate.
Qed.

Lemma not_dot_safe : forall s : string,
  startswith s "."%char = false -> safe_name s = true.
Proof.
  intros [ | c rest]; [reflexivity | ]. cbn. intro H. unfold safe_name. cbn.
  now rewrite H.
Qed.

Lemma tokenize_char_token :
  forall (buffer : string) (instring : bool) (c : ascii) (t : Token)
         (bi : string * bool),
  tokenize_char buffer instring c = Ok (Some t, bi) ->
  exists s, make_token s = Ok t.
Proof.
  intros buffer instring c t bi. unfold tokenize_char.
  repeat match goal with
         | |- (if ?b then _ else _) = _ -> _ => destruct b
         end;
    try discriminate;
    match goal with
    | |- rbind (make_token ?s) _ = _ -> _ =>
        destruct (make_token s) as [t' | | | ] eqn:Hm; cbn; try discriminate;
        intros [= <- _]; now exists s
    end.
Qed.

Lemma tokenizer_next_token : forall (g g' : tokenizer) (t : Token),
  tokenizer_next g = Ok (Some (t, g')) -> exists s, make_token s = Ok t.
Proof.
  intros [buffer instring stream | ] g' t; cbn; [ | discriminate].
  revert buffer instring. induction stream as [ | c rest IH];
    intros buffer instring; cbn.
  - unfold tokenize_end. destruct (0 <? String.length buffer)%nat;
      [ | discriminate].
    destruct (make_token buffer) as [t' | | | ] eqn:Hm; cbn; try discriminate.
    intros [= <- _]. now exists buffer.
  - destruct (tokenize_char buffer instring c) as [[[t' | ] [b i]] | | | ] eqn:Hc;
      try discriminate.
    + intros [= <- _]. eapply tokenize_char_token; eassumption.
    + apply IH.
Qed.

Lemma tokenizer_next_safe : forall (g g' : tokenizer) (t : Token),
  tokenizer_next g = Ok (Some (t, g')) -> safe_name (value t) = true.
Proof.
  intros g g' t H. destruct (tokenizer_next_token _ H) as [s Hs].
  apply not_dot_safe. eapply make_token_not_dot; eassumption.
Qed.

(** *** The nodes of the parser *)

Section SafeParse.

Variable Iter : Type.
Variable next : Iter -> result (option (Token * Iter)).
Hypothesis next_safe :
  forall (s s' : Iter) (t : Token),
    next s = Ok (Some (t, s')) -> safe_name (value t) = true.

Lemma ps_ret : forall (A : Type) (Q : A -> Prop) (a : A),
  Q a -> psafe Q (ret (Iter:=Iter) a).
Proof. intros A Q a HQ p p' a' Hp [= <- <-]. now split. Qed.

Lemma ps_cur : psafe safe_token (cur (Iter:=Iter)).
Proof. intros p p' a Hp [= <- <-]. split; [assumption | apply Hp]. Qed.

Lemma ps_peek : psafe safe_token (peek (Iter:=Iter)).
Proof. intros p p' a Hp [= <- <-]. split; [assumption | apply Hp]. Qed.

Lemma ps_next_token : psafe any (next_token next).
Proof.
  intros p p' a [Ht Hl] H. unfold next_token in H.
  destruct (next (stream p)) as [[[t s] | ] | | | ] eqn:Hn; cbn in H;
    try discriminate; injection H as <- <-.
  - split; [ | exact I]. split; cbn; [assumption | ].
    eapply next_safe; eassumption.
  - split; [ | exact I]. split; cbn; [assumption | reflexivity].
Qed.

Lemma ps_throw : forall (A : Type) (Q : A -> Prop) (e : exception),
  psafe Q (throw (Iter:=Iter) (A:=A) e).
Proof. intros A Q e p p' a Hp H. discriminate. Qed.

Lemma ps_out_of_fuel : forall (A : Type) (Q : A -> Prop),
  psafe Q (fun _ : parser Iter => @OutOfFuel (A * parser Iter)).
Proof. intros A Q p p' a Hp H. discriminate. Qed.

Lemma ps_bind :
  forall (A B : Type) (Q : A -> Prop) (R : B -> Prop)
         (m : P Iter A) (k : A -> P Iter B),
  psafe Q m -> (forall a, Q a -> psafe R (k a)) -> psafe R (bind m k).
Proof.
  intros A B Q R m k Hm Hk p p' b Hp H. unfold bind in H.
  destruct (m p) as [[a p1] | | | ] eqn:Hmp; cbn in H; try discriminate.
  destruct (Hm _ _ _ Hp Hmp) as [Hp1 HQ].
  eapply Hk; eassumption.
Qed.

Lemma ps_skip : forall (t : Token),
  psafe any (if type t =? "comma" then next_token next else ret tt).
Proof.
  intro t. destruct (type t =? "comma"); [apply ps_next_token | now apply ps_ret].
Qed.

Lemma ps_build_tree :
  forall (expr_type : Token -> node -> node -> node)
         (next_expr : P Iter node) (types : token_types),
  (forall op l r, safe_n l -> safe_n r -> safe_n (expr_type op l r)) ->
  psafe safe_n next_expr ->
  forall (fuel : nat) (lhs : node), safe_n lhs ->
    psafe safe_n (build_tree next expr_type next_expr types fuel lhs).
Proof.
  intros expr_type next_expr types Ht Hn fuel.
  induction fuel as [ | fuel IH]; intros lhs Hlhs; cbn.
  - apply ps_out_of_fuel.
  - eapply ps_bind; [apply ps_cur | intros t _].
    destruct (negb (type_in t types)); [now apply ps_ret | ].
    eapply ps_bind; [apply ps_next_token | intros _ _].
    eapply ps_bind; [apply Hn | intros rhs Hrhs].
    apply IH. now apply Ht.
Qed.

Lemma ps_binary :
  forall (expr_type : Token -> node -> node -> node)
         (next_expr : P Iter node) (types : token_types) (fuel : nat),
  (forall op l r, safe_n l -> safe_n r -> safe_n (expr_type op l r)) ->
  psafe safe_n next_expr ->
  psafe safe_n (make_left_assoc_binary_op next expr_type next_expr types fuel).
Proof.
  intros expr_type next_expr types fuel Ht Hn. unfold make_left_assoc_binary_op.
  eapply ps_bind; [apply Hn | intros lhs Hlhs]. now apply ps_build_tree.
Qed.

Lemma ps_while_prefix :
  forall (types : token_types) (fuel : nat) (ops : list Token),
    psafe any (while_prefix next types fuel ops).
Proof.
  intros types fuel. induction fuel as [ | fuel IH]; intro ops; cbn.
  - apply ps_out_of_fuel.
  - eapply ps_bind; [apply ps_cur | intros t _].
    destruct (type_in t types); [ | now apply ps_ret].
    eapply ps_bind; [apply ps_next_token | intros _ _]. apply IH.
Qed.

Lemma ps_prefix :
  forall (expr_type : Token -> node -> node)
         (next_expr : P Iter node) (types : token_types) (fuel : nat),
  (forall op r, safe_n r -> safe_n (expr_type op r)) ->
  psafe safe_n next_expr ->
  psafe safe_n (make_prefix_unary_op next expr_type next_expr types fuel).
Proof.
  intros expr_type next_expr types fuel Ht Hn. unfold make_prefix_unary_op.
  eapply ps_bind; [apply ps_while_prefix | intros ops _].
  eapply ps_bind; [apply Hn | intros exp Hexp].
  apply ps_ret. revert exp Hexp.
  induction (rev ops) as [ | op l IH]; intros exp Hexp; cbn; [assumption | ].
  apply IH. now apply Ht.
Qed.

Lemma safe_ns_snoc : forall (l : list node) (n : node),
  safe_ns l -> safe_n n -> safe_ns (l ++ [n]).
Proof.
  intros l n Hl Hn. unfold safe_ns. rewrite forallb_app. cbn.
  unfold safe_ns in Hl. unfold safe_n in Hn. now rewrite Hl, Hn.
Qed.

Section SafeAtom.

Variable expr : P Iter node.
Hypothesis ps_expr : psafe safe_n expr.

Lemma ps_while_exprs :
  forall (fuel : nat) (close : string) (items : list node),
  safe_ns items -> psafe safe_ns (while_exprs next expr fuel close items).
Proof.
  induction fuel as [ | fuel IH]; intros close items Hitems; cbn.
  - apply ps_out_of_fuel.
  - eapply ps_bind; [apply ps_cur | intros t _].
    destruct (negb (type t =? close)); [ | now apply ps_ret].
    eapply ps_bind; [apply ps_expr | intros e He].
    eapply ps_bind; [apply ps_cur | intros t' _].
    eapply ps_bind; [apply ps_skip | intros _ _].
    apply IH. now apply safe_ns_snoc.
Qed.

Lemma ps_function_call : forall fuel : nat,
  psafe safe_n (function_call next expr fuel).
Proof.
  intro fuel. unfold function_call.
  eapply ps_bind; [apply ps_cur | intros name _].
  eapply ps_bind; [apply ps_next_token | intros _ _].
  eapply ps_bind; [apply ps_next_token | intros _ _].
  eapply ps_bind; [now apply ps_while_exprs | intros args Hargs].
  eapply ps_bind; [apply ps_next_token | intros _ _].
  now apply ps_ret.
Qed.

Lemma ps_atom : forall fuel : nat, psafe safe_n (atom next expr fuel).
Proof.
  intro fuel. unfold atom.
  eapply ps_bind; [apply ps_cur | intros t _].
  eapply ps_bind; [apply ps_peek | intros la _].
  destruct (existsb (String.eqb (type t)) ["string"; "integer"; "boolean"]).
  { unfold constant_expr.
    eapply ps_bind; [apply ps_cur | intros v _].
    eapply ps_bind; [apply ps_next_token | intros _ _]. now apply ps_ret. }
  destruct (type t =? "identifier").
  { destruct (type la =? "open-paren"); [apply ps_function_call | ].
    unfold variable_expr.
    eapply ps_bind; [apply ps_cur | intros v _].
    eapply ps_bind; [apply ps_next_token | intros _ _]. now apply ps_ret. }
  destruct (type t =? "open-bracket").
  { unfold sequence_expr.
    eapply ps_bind; [apply ps_next_token | intros _ _].
    eapply ps_bind; [now apply ps_while_exprs | intros elems Helems].
    eapply ps_bind; [apply ps_next_token | intros _ _]. now apply ps_ret. }
  destruct (type t =? "open-paren"); [ | apply ps_throw].
  unfold enclosure_expr.
  eapply ps_bind; [apply ps_next_token | intros _ _].
  eapply ps_bind; [apply ps_expr | intros e He].
  eapply ps_bind; [apply ps_next_token | intros _ _]. now apply ps_ret.
Qed.

Lemma safe_binary : forall (l r : node),
  safe_n l -> safe_n r -> (safe_node l && safe_node r)%bool = true.
Proof. intros l r Hl Hr. unfold safe_n in *. now rewrite Hl, Hr. Qed.

Lemma ps_or_expr : forall fuel : nat, psafe safe_n (or_expr next expr fuel).
Proof.
  intro fuel.
  unfold or_expr, and_expr, not_expr, comp_expr, add_expr, mul_expr, sign_expr.
  repeat first
    [ apply ps_binary; [intros op l r; apply safe_binary | ]
    | apply ps_prefix; [intros op r Hr; exact Hr | ] ].
  apply ps_atom.
Qed.

End SafeAtom.

Lemma ps_expr_fuel : forall fuel : nat, psafe safe_n (expr next fuel).
Proof.
  induction fuel as [ | fuel IH]; cbn;
    [apply ps_out_of_fuel | now apply ps_or_expr].
Qed.

Section SafeStatement.

Variable statement : P Iter node.
Variable fuel : nat.
Hypothesis ps_statement : psafe safe_n statement.

Lemma ps_while_statements :
  forall (n : nat) (stop : list string) (block : list node),
  safe_ns block -> psafe safe_ns (while_statements statement n stop block).
Proof.
  induction n as [ | n IH]; intros stop block Hblock; cbn.
  - apply ps_out_of_fuel.
  - eapply ps_bind; [apply ps_cur | intros t _].
    destruct (negb (existsb (String.eqb (type t)) stop)); [ | now apply ps_ret].
    eapply ps_bind; [apply ps_statement | intros s Hs].
    apply IH. now apply safe_ns_snoc.
Qed.

Lemma ps_while_params :
  forall (n : nat) (args : list Token),
  safe_tokens args -> psafe safe_tokens (while_params next n args).
Proof.
  induction n as [ | n IH]; intros args Hargs; cbn.
  - apply ps_out_of_fuel.
  - eapply ps_bind; [apply ps_cur | intros t Ht].
    destruct (negb (type t =? "close-paren")); [ | now apply ps_ret].
    eapply ps_bind; [apply ps_next_token | intros _ _].
    eapply ps_bind; [apply ps_cur | intros t' _].
    eapply ps_bind; [apply ps_skip | intros _ _].
    apply IH. unfold safe_tokens in *. rewrite forallb_app. cbn.
    unfold safe_token in Ht. now rewrite Hargs, Ht.
Qed.

Lemma ps_statement_rule : psafe safe_n (statement_rule next statement fuel).
Proof.
  pose proof (ps_expr_fuel fuel) as He.
  unfold statement_rule.
  eapply ps_bind; [apply ps_cur | intros t _].
  eapply ps_bind; [apply ps_peek | intros la _].
  destruct (type t =? "if").
  { unfold if_stmnt.
    eapply ps_bind; [apply ps_next_token | intros _ _].
    eapply ps_bind; [apply He | intros cond Hcond].
    eapply ps_bind; [apply ps_next_token | intros _ _].
    eapply ps_bind; [now apply ps_while_statements | intros then_ Hthen].
    eapply ps_bind; [apply ps_cur | intros t' _].
    eapply ps_bind with (Q := safe_ns).
    - destruct (type t' =? "else"); [ | now apply ps_ret].
      eapply ps_bind; [apply ps_next_token | intros _ _].
      now apply ps_while_statements.
    - intros els Hels.
      eapply ps_bind; [apply ps_next_token | intros _ _].
      apply ps_ret. unfold safe_n, safe_ns in *. cbn.
      now rewrite Hcond, Hthen, Hels. }
  destruct (type t =? "while").
  { unfold while_stmnt.
    eapply ps_bind; [apply ps_next_token | intros _ _].
    eapply ps_bind; [apply He | intros cond Hcond].
    eapply ps_bind; [apply ps_next_token | intros _ _].
    eapply ps_bind; [now apply ps_while_statements | intros do Hdo].
    eapply ps_bind; [apply ps_next_token | intros _ _].
    apply ps_ret. unfold safe_n, safe_ns in *. cbn. now rewrite Hcond, Hdo. }
  destruct (type t =? "def").
  { unfold function_def.
    eapply ps_bind; [apply ps_next_token | intros _ _].
    eapply ps_bind; [apply ps_cur | intros name Hname].
    eapply ps_bind; [apply ps_next_token | intros _ _].
    eapply ps_bind; [apply ps_next_token | intros _ _].
    eapply ps_bind; [now apply ps_while_params | intros args Hargs].
    eapply ps_bind; [apply ps_next_token | intros _ _].
    eapply ps_bind; [now apply ps_while_statements | intros body Hbody].
    eapply ps_bind; [apply ps_next_token | intros _ _].
    apply ps_ret. unfold safe_n, safe_ns, safe_tokens, safe_token in *. cbn.
    now rewrite Hname, Hargs, Hbody. }
  destruct (type t =? "return").
  { unfold return_stmnt.
    eapply ps_bind; [apply ps_next_token | intros _ _].
    eapply ps_bind; [apply He | intros e Hexp]. now apply ps_ret. }
  destruct ((type t =? "identifier") && (type la =? "assignment")).
  { unfold assignment_stmnt.
    eapply ps_bind; [apply ps_cur | intros var Hvar].
    eapply ps_bind; [apply ps_next_token | intros _ _].
    eapply ps_bind; [apply ps_next_token | intros _ _].
    eapply ps_bind; [apply He | intros e Hexp].
    apply ps_ret. unfold safe_n, safe_token in *. cbn. now rewrite Hvar, Hexp. }
  destruct ((type t =? "identifier") && (type la =? "open-paren")).
  { now apply ps_function_call. }
  apply ps_throw.
Qed.

End SafeStatement.

Lemma ps_statement_fuel : forall fuel : nat, psafe safe_n (statement next fuel).
Proof.
  induction fuel as [ | fuel IH]; cbn;
    [apply ps_out_of_fuel | now apply ps_statement_rule].
Qed.

Lemma parse_next_safe :
  forall (fuel : nat) (g g' : parse_generator Iter) (s : node),
  safe_generator g -> parse_next next fuel g = Ok (Some (s, g')) ->
  safe_n s /\ safe_generator g'.
Proof.
  intros fuel g g' s Hg H.
  assert (Hres : forall p, safe_parser p ->
                           parse_resume next fuel p = Ok (Some (s, g')) ->
                           safe_n s /\ safe_generator g').
  { intros p Hp Hr. unfold parse_resume in Hr.
    destruct (negb (type (token p) =? "eof")); [ | discriminate].
    destruct (top_level_statement next fuel p) as [[s' p'] | | | ] eqn:Ht;
      cbn in Hr; try discriminate.
    injection Hr as <- <-. unfold top_level_statement, bind, cur in Ht.
    cbn in Ht. destruct (type (token p) =? "return"); [discriminate | ].
    pose proof (ps_statement_fuel fuel) as Hps.
    destruct (Hps _ _ _ Hp Ht) as [Hp' Hs]. now split. }
  destruct g as [it | p]; cbn in H.
  - unfold parse_start, next_or_stop in H.
    destruct (next it) as [[[t1 it1] | ] | | | ] eqn:H1; cbn in H;
      try discriminate.
    destruct (next it1) as [[[t2 it2] | ] | | | ] eqn:H2; cbn in H;
      try discriminate.
    eapply Hres; [ | eassumption].
    split; cbn; eapply next_safe; eassumption.
  - eapply Hres; eassumption.
Qed.

Lemma keeps_exec_program :
  forall (fuel n : nat) (env : loc) (g : parse_generator Iter),
  safe_generator g -> keeps safe (exec_program next fuel n env g).
Proof.
  intros fuel n env. induction n as [ | n IH]; intros g Hg; cbn.
  - apply keeps_out_of_fuel.
  - intros st st' r Hst H.
    destruct (parse_next next fuel g) as [[[s g'] | ] | e | | ] eqn:Hp.
    + destruct (parse_next_safe _ _ Hg Hp) as [Hs Hg'].
      revert st st' r Hst H.
      change (keeps safe
                (mbind (exec_statement fuel env s)
                   (fun ret => if host_bool ret then unit_ ret
                               else exec_program next fuel n env g'))).
      eapply keeps_bind.
      * now apply (keeps_closures fuel).
      * intros ret Hret. destruct (host_bool ret);
          [now apply keeps_unit | now apply IH].
    + injection H as <- <-. split; [assumption | now intros a [= <-]].
    + injection H as <- <-. split; [assumption | discriminate].
    + injection H as <- <-. split; [assumption | discriminate].
    + injection H as <- <-. split; [assumption | discriminate].
Qed.

End SafeParse.

Lemma sink_kept_initially : sink_kept build_global_environment.
Proof.
  constructor.
  - eexists. reflexivity.
  - intros [ | e] ns H; cbn in H.
    + now injection H as <-.
    + destruct e; discriminate.
  - intros [ | e] ns k v H Hin; cbn in H.
    + injection H as <-. cbn in Hin.
      repeat (destruct Hin as [[= <- <-] | Hin]; [reflexivity | ]).
      destruct Hin.
    + destruct e; discriminate.
  - intros [ | l] elems v H; discriminate.
Qed.

(** C9.  The lexer makes no token whose text starts with a dot; and in
    the store that interpretation leaves, however far it got, the global
    namespace binds the reserved name to the stream and no other
    namespace binds that name. *)
Theorem reserved_sink_name_is_kept :
  forall (s : string) (t : Token) (fuel : nat) (text : string),
  make_token s = Ok t ->
  let st := snd (interpreter fuel text) in
  startswith (value t) "."%char = false
  /\ getitem global ".out" st = (Ok Out, st)
  /\ forallb (fun ns => negb (dict_in (items ns) ".out")) (tl (namespaces st))
     = true.
Proof.
  intros s t fuel text Ht st. split; [eapply make_token_not_dot; eassumption | ].
  assert (Hst : sink_kept st).
  { subst st. unfold interpreter.
    destruct (exec_program tokenizer_next fuel fuel global
                (parse (tokenize text)) build_global_environment)
      as [r st'] eqn:H.
    pose proof (@keeps_exec_program tokenizer tokenizer_next
                  tokenizer_next_safe fuel fuel global
                  (parse (tokenize text)) I) as Hk.
    destruct (Hk _ _ _ sink_kept_initially H) as [Hst' _]. exact Hst'. }
  destruct Hst as [[g Hg] Hres _ _]. split.
  - unfold getitem. f_equal.
    destruct (namespaces st) as [ | g' rest] eqn:Hns; [discriminate | ].
    cbn in Hg. injection Hg as ->.
    pose proof (Hres 0%nat g eq_refl) as Hout. cbn in Hout.
    cbn. unfold dict_in. rewrite Hout. now destruct (parent g).
  - apply forallb_forall. intros ns Hin.
    destruct (namespaces st) as [ | g' rest]; [destruct Hin | ]. cbn in Hin.
    destruct (In_nth_error _ _ Hin) as [e He].
    pose proof (Hres (S e) ns He) as Hout. cbn in Hout.
    unfold dict_in. now rewrite Hout.
Qed.

Lemma reserved_sink_name_witness :
  let st := snd (interpreter 12 "x = 1 print(x)") in
  startswith (value (ident "x")) "."%char = false
  /\ getitem global ".out" st = (Ok Out, st)
  /\ forallb (fun ns => negb (dict_in (items ns) ".out")) (tl (namespaces st))
     = true.
Proof.
  apply (@reserved_sink_name_is_kept "x" (ident "x") 12 "x = 1 print(x)").
  reflexivity.
Defined.

(** * Further properties *)

(** ** What the lexer keeps *)

Lemma append_nil_r : forall s : string, s ++ "" = s.
Proof. induction s as [ | c s IH]; cbn; [reflexivity | now rewrite IH]. Qed.

Lemma append_assoc : forall s t u : string, (s ++ t) ++ u = s ++ (t ++ u).
Proof.
  induction s as [ | c s IH]; intros t u; cbn; [reflexivity | now rewrite IH].
Qed.

Lemma rbind_token_inv :
  forall (A : Type) (s : string) (k : Token -> A) (a : A),
  rbind (make_token s) (fun t => Ok (k t)) = Ok a ->
  exists t, make_token s = Ok t /\ a = k t.
Proof.
  intros A s k a H. destruct (make_token s) as [t | | | ]; cbn in H;
    try discriminate.
  injection H as <-. now exists t.
Qed.

(** One turn of the loop moves the character it reads from the stream to
    the buffer or to the token it yields, unless it is whitespace outside
    a string. *)
Lemma tokenize_char_pending :
  forall (buffer : string) (instring : bool) (c : ascii) (rest : list ascii)
         (t : option Token) (b : string) (i : bool),
  tokenize_char buffer instring c = Ok (t, (b, i)) ->
  buffer ++ squeeze instring (c :: rest)
  = match t with Some t => value t | None => "" end ++ b ++ squeeze i rest.
Proof.
  intros buffer instring c rest t b i. unfold tokenize_char.
  destruct instring; cbn [andb negb squeeze].
  - destruct (Ascii.eqb c quote) eqn:Hc; cbn [negb andb].
    + intro H. apply (rbind_token_inv _ (fun t => (Some t, ("", false)))) in H.
      destruct H as (t' & Ht' & [= -> -> ->]).
      rewrite (make_token_value _ Ht'). unfold add_char.
      rewrite append_assoc. reflexivity.
    + intros [= <- <- <-]. unfold add_char. cbn. rewrite append_assoc.
      reflexivity.
  - rewrite andb_false_r.
    replace (if Ascii.eqb c quote then true else false) with (Ascii.eqb c quote)
      by now destruct (Ascii.eqb c quote).
    repeat match goal with
           | |- (if ?b then _ else _) = _ -> _ => destruct b
           end;
      intro H;
      try (apply (rbind_token_inv _ (fun t => (Some t, (_, _)))) in H;
           destruct H as (t' & Ht' & [= -> -> ->]);
           rewrite (make_token_value _ Ht'));
      try (injection H as <- <- <-);
      cbn [append]; rewrite ?append_assoc; reflexivity.
Qed.

Lemma tokenizer_next_pending : forall (g : tokenizer),
  match tokenizer_next g with
  | Ok (Some (t, g')) => pending g = value t ++ pending g'
  | Ok None => pending g = ""
  | _ => True
  end.
Proof.
  intros [buffer instring chars | ]; [ | reflexivity]. cbn [tokenizer_next].
  revert buffer instring. induction chars as [ | c rest IH];
    intros buffer instring; cbn [tokenize_run].
  - unfold tokenize_end. cbn [pending squeeze]. rewrite append_nil_r.
    destruct buffer as [ | c b]; [reflexivity | ]. cbn [String.length Nat.ltb Nat.leb].
    destruct (make_token (String.String c b)) as [t | | | ] eqn:Ht; cbn;
      try exact I.
    rewrite (make_token_value _ Ht). cbn. now rewrite append_nil_r.
  - destruct (tokenize_char buffer instring c) as [[[t | ] [b i]] | | | ] eqn:Hc;
      try exact I.
    + cbn [pending]. now rewrite (tokenize_char_pending _ _ _ rest Hc).
    + specialize (IH b i). cbn [pending] in *.
      rewrite (tokenize_char_pending _ _ _ rest Hc). cbn [append].
      exact IH.
Qed.

Lemma drain_pending : forall (n : nat) (g : tokenizer) (ts : list Token),
  drain n g = Ok ts -> pending g = values ts.
Proof.
  induction n as [ | n IH]; intros g ts H; [discriminate | ]. cbn in H.
  pose proof (tokenizer_next_pending g) as Hp.
  destruct (tokenizer_next g) as [[[t g'] | ] | | | ]; cbn in H;
    try discriminate.
  - destruct (drain n g') as [ts' | | | ] eqn:Hd; cbn in H; try discriminate.
    injection H as <-. rewrite Hp, (IH _ _ Hd). reflexivity.
  - injection H as <-. exact Hp.
Qed.

(** X2.  The lexer drops whitespace outside string literals and nothing
    else: the values of the tokens of a text, one after the other, are the
    characters of the text without the whitespace that stands outside the
    literals; inside a literal every character is kept, the quotes
    included. *)
Theorem lexing_keeps_all_but_outer_whitespace :
  forall (text : string) (ts : list Token),
  tokens_of text = Ok ts ->
  values ts = squeeze false (list_ascii_of_string text).
Proof.
  intros text ts H. symmetry. apply (drain_pending _ _ H).
Qed.

Lemma lexing_keeps_witness :
  values [ident "a"; assign; MkToken "string" (quoted "b c")]
  = squeeze false (list_ascii_of_string (" a  = " ++ quoted "b c" ++ " ")).
Proof.
  apply (@lexing_keeps_all_but_outer_whitespace
           (" a  = " ++ quoted "b c" ++ " ")
           [ident "a"; assign; MkToken "string" (quoted "b c")]).
  reflexivity.
Defined.

(** ** The kinds of tokens *)

Lemma dict_get_snd : forall (d : list (string * string)) (k v : string),
  dict_get d k = Some v -> In v (map snd d).
Proof.
  induction d as [ | [k' v'] d IH]; intros k v; cbn; [discriminate | ].
  destruct (k' =? k); [intros [= ->]; now left | intro H; right; eauto].
Qed.

Lemma existsb_eqb_In : forall (s : string) (l : list string),
  existsb (String.eqb s) l = true <-> In s l.
Proof.
  intros s l. rewrite existsb_exists. split.
  - intros (x & Hin & Heq). apply String.eqb_eq in Heq. now subst.
  - intro Hin. exists s. split; [assumption | apply String.eqb_refl].
Qed.

(** X1.  A token that [make_token] makes has the text as its value and
    one of the known kinds as its type, never [eof]; the kind is found in
    the order of the source: a keyword has itself as type, then a symbol
    its name, then the tests in their order, so that [true] and [false]
    are booleans although they are identifiers too. *)
Theorem make_token_classifies : forall (s : string) (t : Token),
  make_token s = Ok t ->
  value t = s
  /\ In (type t) token_kinds
  /\ (type t =? "eof") = false
  /\ ((In s keywords /\ type t = s)
      \/ (~ In s keywords /\ dict_get symbols s = Some (type t))
      \/ (~ In s keywords /\ dict_get symbols s = None
          /\ ((type t = "boolean" /\ (s = "true" \/ s = "false"))
              \/ (type t = "identifier" /\ isidentifier s = true
                  /\ s <> "true" /\ s <> "false")
              \/ (type t = "integer" /\ isdigit s = true
                  /\ isidentifier s = false)
              \/ (type t = "string" /\ startswith s quote = true
                  /\ endswith s quote = true /\ isprintable s = true
                  /\ isdigit s = false /\ isidentifier s = false)))).
Proof.
  intros s t H.
  assert (Hcases :
    (In s keywords /\ type t = s)
    \/ (~ In s keywords /\ dict_get symbols s = Some (type t))
    \/ (~ In s keywords /\ dict_get symbols s = None
        /\ ((type t = "boolean" /\ (s = "true" \/ s = "false"))
            \/ (type t = "identifier" /\ isidentifier s = true
                /\ s <> "true" /\ s <> "false")
            \/ (type t = "integer" /\ isdigit s = true
                /\ isidentifier s = false)
            \/ (type t = "string" /\ startswith s quote = true
                /\ endswith s quote = true /\ isprintable s = true
                /\ isdigit s = false /\ isidentifier s = false)))).
  { unfold make_token in H.
    destruct (existsb (String.eqb s) keywords) eqn:Hk.
    - injection H as <-. left. split; [now apply existsb_eqb_In | reflexivity].
    - right.
      assert (Hnk : ~ In s keywords)
        by (intro Hin; apply existsb_eqb_In in Hin; congruence).
      destruct (dict_get symbols s) as [k | ] eqn:Hsym.
      + injection H as <-. left. now split.
      + right. split; [assumption | split; [reflexivity | ]].
        unfold tests in H. cbn [find snd fst] in H.
        destruct ((s =? "true") || (s =? "false")) eqn:Hb.
        * injection H as <-. left. split; [reflexivity | ].
          apply orb_prop in Hb. destruct Hb as [Hb | Hb];
            apply String.eqb_eq in Hb; auto.
        * apply orb_false_elim in Hb. destruct Hb as [Ht Hf].
          apply String.eqb_neq in Ht, Hf.
          destruct (isidentifier s) eqn:Hid.
          { injection H as <-. right. left. repeat split; assumption. }
          destruct (isdigit s) eqn:Hd.
          { injection H as <-. right. right. left. repeat split; reflexivity. }
          destruct (startswith s quote && endswith s quote && isprintable s)
            eqn:Hs; [ | discriminate].
          injection H as <-. right. right. right.
          apply andb_prop in Hs. destruct Hs as [Hs Hp].
          apply andb_prop in Hs. destruct Hs as [Hs He].
          repeat split; assumption. }
  assert (Hkind : In (type t) token_kinds).
  { unfold token_kinds. apply in_or_app.
    destruct Hcases as [[Hin ->] | [[_ Hsym] | (_ & _ & Hc)]].
    - now left.
    - right. apply in_or_app. left. eapply dict_get_snd; eassumption.
    - right. apply in_or_app. right. cbn.
      destruct Hc as [[-> _] | [[-> _] | [[-> _] | [-> _]]]]; auto. }
  split; [now apply make_token_value | ].
  split; [assumption | ].
  split; [ | assumption].
  unfold token_kinds in Hkind. cbn in Hkind.
  repeat (destruct Hkind as [<- | Hkind]; [reflexivity | ]). destruct Hkind.
Qed.

Lemma make_token_classifies_witness :
  value boolean_true = "true"
  /\ In (type boolean_true) token_kinds
  /\ (type boolean_true =? "eof") = false
  /\ ((In "true" keywords /\ type boolean_true = "true")
      \/ (~ In "true" keywords
          /\ dict_get symbols "true" = Some (type boolean_true))
      \/ (~ In "true" keywords /\ dict_get symbols "true" = None
          /\ ((type boolean_true = "boolean"
               /\ ("true" = "true" \/ "true" = "false"))
              \/ (type boolean_true = "identifier"
                  /\ isidentifier "true" = true
                  /\ "true" <> "true" /\ "true" <> "false")
              \/ (type boolean_true = "integer" /\ isdigit "true" = true
                  /\ isidentifier "true" = false)
              \/ (type boolean_true = "string"
                  /\ startswith "true" quote = true
                  /\ endswith "true" quote = true
                  /\ isprintable "true" = true
                  /\ isdigit "true" = false
                  /\ isidentifier "true" = false)))).
Proof.
  apply (@make_token_classifies "true" boolean_true). reflexivity.
Defined.

(** ** A string literal *)

Lemma substring_all : forall s t : string,
  substring 0 (String.length s) (s ++ t) = s.
Proof.
  induction s as [ | c s IH]; intro t; cbn.
  - now destruct t.
  - now rewrite IH.
Qed.

Lemma length_append : forall s t : string,
  String.length (s ++ t) = (String.length s + String.length t)%nat.
Proof.
  induction s as [ | c s IH]; intro t; cbn; [reflexivity | now rewrite IH].
Qed.

Lemma strip_quotes_quoted : forall s : string, strip_quotes (quoted s) = s.
Proof.
  intro s. unfold strip_quotes, quoted, dq. cbn [append String.length substring].
  rewrite length_append. cbn [String.length].
  replace (S (String.length s + 1) - 2)%nat with (String.length s) by lia.
  apply substring_all.
Qed.

Lemma endswith_append : forall (s : string) (c : ascii),
  endswith (s ++ String.String c "") c = true.
Proof.
  induction s as [ | d s IH]; intro c; cbn.
  - apply Ascii.eqb_refl.
  - destruct (s ++ String.String c "") eqn:E; [ | rewrite <- E; apply IH].
    destruct s; discriminate.
Qed.

Lemma all_chars_append : forall (p : ascii -> bool) (s t : string),
  all_chars p (s ++ t) = all_chars p s && all_chars p t.
Proof.
  intros p s t. unfold all_chars. rewrite list_ascii_app. apply forallb_app.
Qed.

Lemma make_token_quoted : forall s : string,
  isprintable s = true ->
  make_token (quoted s) = Ok (MkToken "string" (quoted s)).
Proof.
  intros s Hp. unfold quoted, dq. cbn [append].
  unfold make_token, keywords, symbols, tests.
  assert (Hend : endswith (String.String quote (s ++ String.String quote "")) quote
                 = true)
    by apply (endswith_append (String.String quote s) quote).
  assert (Hpr : isprintable (String.String quote (s ++ String.String quote ""))
                = true).
  { change (String.String quote (s ++ String.String quote ""))
      with (String.String quote "" ++ (s ++ String.String quote "")).
    unfold isprintable in *. rewrite !all_chars_append, Hp. reflexivity. }
  cbn [find snd fst]. rewrite Hend, Hpr. reflexivity.
Qed.

(** Inside a literal the loop appends every character that is not a
    quote. *)
Lemma tokenize_run_in_string :
  forall (s : string) (buffer : string) (rest : list ascii),
  quotes s = 0%nat ->
  tokenize_run buffer true (list_ascii_of_string s ++ rest)
  = tokenize_run (buffer ++ s) true rest.
Proof.
  induction s as [ | c s IH]; intros buffer rest Hq.
  - now rewrite append_nil_r.
  - unfold quotes in Hq. cbn [list_ascii_of_string count_occ] in Hq.
    destruct (ascii_dec c quote) as [ | Hne]; [discriminate | ].
    cbn [list_ascii_of_string app tokenize_run]. unfold tokenize_char.
    destruct (Ascii.eqb_spec c quote); [contradiction | ]. cbn [andb negb].
    rewrite IH by exact Hq. unfold add_char. rewrite append_assoc. reflexivity.
Qed.

Lemma opening_quote : tokenize_char "" false quote = Ok (None, (dq, true)).
Proof. reflexivity. Qed.

(** X3.  A printable text [s] without a quote, written between quotes:
    the lexer, standing before it, yields one [string] token holding the
    text with its quotes, and stands after the closing quote with an empty
    buffer; and [eval_const] gives back [String(s)], the quotes
    stripped. *)
Theorem string_literal_round_trip :
  forall (s : string) (rest : list ascii) (st : state),
  isprintable s = true -> quotes s = 0%nat ->
  tokenizer_next (Running "" false (list_ascii_of_string (quoted s) ++ rest))
  = Ok (Some (MkToken "string" (quoted s), Running "" false rest))
  /\ eval_const (MkToken "string" (quoted s)) st = (Ok (String s), st).
Proof.
  intros s rest st Hp Hq. split.
  - cbn [tokenizer_next]. unfold quoted at 1, dq at 1 2.
    rewrite !list_ascii_app. cbn [list_ascii_of_string app].
    rewrite <- app_assoc. cbn [tokenize_run]. rewrite opening_quote.
    rewrite (tokenize_run_in_string s _ _ Hq).
    cbn [app tokenize_run]. unfold tokenize_char.
    rewrite Ascii.eqb_refl. cbn [andb negb]. unfold add_char.
    change ((dq ++ s) ++ String.String quote "") with (dq ++ s ++ dq).
    fold (quoted s). rewrite make_token_quoted by exact Hp. reflexivity.
  - unfold eval_const. cbn [type value].
    rewrite String.eqb_refl, strip_quotes_quoted. reflexivity.
Qed.

Lemma string_literal_witness :
  tokenizer_next
    (Running "" false
       (list_ascii_of_string (quoted "hello world") ++ [")"%char]))
  = Ok (Some (MkToken "string" (quoted "hello world"),
              Running "" false [")"%char]))
  /\ eval_const (MkToken "string" (quoted "hello world"))
       build_global_environment
     = (Ok (String "hello world"), build_global_environment).
Proof.
  apply (@string_literal_round_trip "hello world" [")"%char]
           build_global_environment);
    reflexivity.
Defined.

(** ** Namespaces *)

Lemma dict_in_get : forall (V : Type) (d : list (string * V)) (k : string),
  dict_in d k = true -> exists v, dict_get d k = Some v.
Proof.
  intros V d k. unfold dict_in. destruct (dict_get d k) as [v | ];
    [eauto | discriminate].
Qed.

(** X5.  [Namespace.__contains__] and [Namespace.__getitem__] agree: the
    subscript gives a value exactly when [in] is true, and otherwise
    raises the host's [KeyError] for the key that was asked, never
    another exception. *)
Theorem Namespace_contains_agrees_with_getitem :
  forall (n : nat) (h : list Namespace) (self : loc) (key : string),
  match Namespace_getitem n h self key with
  | Ok _ => Namespace_contains n h self key = true
  | Raise e => e = Host (KeyError key) /\ Namespace_contains n h self key = false
  | OutOfFuel | Unmodelled => False
  end.
Proof.
  induction n as [ | n IH]; intros h self key; cbn.
  - now split.
  - destruct (nth_error h self) as [ns | ]; [ | now split].
    unfold dict_in.
    destruct (parent ns) as [p | ].
    + specialize (IH h p key).
      destruct (dict_get (items ns) key) as [v | ]; cbn; [reflexivity | ].
      destruct (Namespace_contains n h p key) eqn:Hc.
      * destruct (Namespace_getitem n h p key); assumption.
      * now split.
    + destruct (dict_get (items ns) key); cbn; [reflexivity | now split].
Qed.

Lemma nth_error_list_set_same :
  forall (A : Type) (l : list A) (i : nat) (x a : A),
  nth_error l i = Some a -> nth_error (list_set l i x) i = Some x.
Proof.
  intros A l. induction l as [ | b l IH]; intros [ | i] x a H; cbn in *;
    try discriminate; [reflexivity | eauto].
Qed.

Lemma nth_error_list_set_other :
  forall (A : Type) (l : list A) (i j : nat) (x : A),
  j <> i -> nth_error (list_set l i x) j = nth_error l j.
Proof.
  intros A l. induction l as [ | b l IH]; intros [ | i] [ | j] x H; cbn;
    try reflexivity; try lia.
  apply IH. lia.
Qed.

Lemma length_list_set : forall (A : Type) (l : list A) (i : nat) (x : A),
  List.length (list_set l i x) = List.length l.
Proof.
  intros A l. induction l as [ | b l IH]; intros [ | i] x; cbn; auto.
Qed.

Lemma dict_get_set_same :
  forall (V : Type) (d : list (string * V)) (k : string) (v : V),
  dict_get (dict_set d k v) k = Some v.
Proof.
  intros V d k v. induction d as [ | [k0 v0] d IH]; cbn.
  - now rewrite String.eqb_refl.
  - destruct (String.eqb_spec k0 k) as [-> | Hne]; cbn.
    + now rewrite String.eqb_refl.
    + destruct (String.eqb_spec k0 k); [contradiction | exact IH].
Qed.

Lemma dict_in_set_other :
  forall (V : Type) (d : list (string * V)) (k k' : string) (v : V),
  k <> k' -> dict_in (dict_set d k v) k' = dict_in d k'.
Proof.
  intros. unfold dict_in. now rewrite dict_set_other.
Qed.

(** A write of [key] in one namespace changes no lookup of another name,
    from whatever namespace. *)
Lemma lookup_other_name :
  forall (n : nat) (h : list Namespace) (env e : loc) (ns : Namespace)
         (key k' : string) (v : object),
  nth_error h env = Some ns -> key <> k' ->
  let h' := list_set h env (MkNamespace (dict_set (items ns) key v) (parent ns)) in
  Namespace_contains n h' e k' = Namespace_contains n h e k'
  /\ Namespace_getitem n h' e k' = Namespace_getitem n h e k'.
Proof.
  induction n as [ | n IH]; intros h env e ns key k' v Hns Hne h'; cbn.
  - now split.
  - assert (Hrec : forall p,
              Namespace_contains n h' p k' = Namespace_contains n h p k'
              /\ Namespace_getitem n h' p k' = Namespace_getitem n h p k')
      by (intro p; now apply IH).
    destruct (Nat.eq_dec e env) as [-> | Hd].
    + subst h'. rewrite (nth_error_list_set_same _ _ _ Hns), Hns.
      cbn [items parent]. rewrite dict_in_set_other, dict_set_other by assumption.
      destruct (parent ns) as [p | ]; [ | now split].
      destruct (Hrec p) as [-> ->]. now split.
    + subst h'. rewrite nth_error_list_set_other by assumption.
      destruct (nth_error h e) as [ns' | ]; [ | now split].
      destruct (parent ns') as [p | ]; [ | now split].
      destruct (Hrec p) as [-> ->]. now split.
Qed.

(** X6.  An assignment to a name in a namespace that exists succeeds; the
    name then reads back as the value in that namespace; no lookup of
    another name changes, from whatever namespace it is made; and the
    lists and the output are untouched. *)
Theorem setitem_then_getitem :
  forall (env e : loc) (ns : Namespace) (key k' : string) (v : object)
         (st : state),
  nth_error (namespaces st) env = Some ns -> key <> k' ->
  let st' := store_after_setitem env key v st in
  setitem env key v st = (Ok tt, st')
  /\ getitem env key st' = (Ok v, st')
  /\ fst (getitem e k' st') = fst (getitem e k' st)
  /\ lists st' = lists st /\ output st' = output st.
Proof.
  intros env e ns key k' v st Hns Hne st'.
  assert (Hst' : st' = MkState
                   (list_set (namespaces st) env
                      (MkNamespace (dict_set (items ns) key v) (parent ns)))
                   (lists st) (output st))
    by (subst st'; unfold store_after_setitem, setitem; now rewrite Hns).
  repeat split.
  - unfold setitem. rewrite Hns. now rewrite Hst'.
  - rewrite Hst'. unfold getitem. cbn [namespaces]. f_equal.
    rewrite length_list_set.
    destruct (List.length (namespaces st)) as [ | n] eqn:Hlen.
    + apply length_zero_iff_nil in Hlen. rewrite Hlen in Hns.
      destruct env; discriminate.
    + cbn. rewrite (nth_error_list_set_same _ _ _ Hns). cbn [items parent].
      unfold dict_in. rewrite dict_get_set_same. cbn. now destruct (parent ns).
  - rewrite Hst'. unfold getitem. cbn [namespaces fst].
    rewrite length_list_set. now apply lookup_other_name.
  - now rewrite Hst'.
  - now rewrite Hst'.
Qed.

Lemma setitem_then_getitem_witness :
  setitem global "x" (Integer 1) build_global_environment
  = (Ok tt, store_after_setitem global "x" (Integer 1) build_global_environment)
  /\ getitem global "x"
       (store_after_setitem global "x" (Integer 1) build_global_environment)
     = (Ok (Integer 1),
        store_after_setitem global "x" (Integer 1) build_global_environment)
  /\ fst (getitem global "print"
            (store_after_setitem global "x" (Integer 1) build_global_environment))
     = fst (getitem global "print" build_global_environment)
  /\ lists (store_after_setitem global "x" (Integer 1) build_global_environment)
     = lists build_global_environment
  /\ output (store_after_setitem global "x" (Integer 1) build_global_environment)
     = output build_global_environment.
Proof.
  eapply (@setitem_then_getitem global global _ "x" "print" (Integer 1)
            build_global_environment);
    [reflexivity | discriminate].
Defined.

(** ** Lists *)

Lemma py_index_lt : forall (n : nat) (i : Z) (k : nat),
  py_index n i = Some k -> (k < n)%nat.
Proof.
  intros n i k. unfold py_index.
  destruct (Z.leb_spec 0 i).
  - destruct (Z.ltb_spec i (Z.of_nat n)); [ | discriminate].
    intros [= <-]. lia.
  - destruct (Z.leb_spec (- Z.of_nat n) i); [ | discriminate].
    intros [= <-]. lia.
Qed.

Lemma py_insert_position_le : forall (n : nat) (i : Z),
  (py_insert_position n i <= n)%nat.
Proof.
  intros n i. unfold py_insert_position.
  destruct (Z.leb_spec 0 i); lia.
Qed.

Lemma py_index_of_nat : forall (n k : nat),
  (k < n)%nat -> py_index n (Z.of_nat k) = Some k.
Proof.
  intros n k H. unfold py_index.
  destruct (Z.leb_spec 0 (Z.of_nat k)); [ | lia].
  destruct (Z.ltb_spec (Z.of_nat k) (Z.of_nat n)); [ | lia].
  now rewrite Nat2Z.id.
Qed.

Lemma binds_store_with_list :
  forall (st : state) (l : loc) (elems : list object) (env : loc)
         (key : string) (v : object),
  binds st env key v -> binds (store_with_list st l elems) env key v.
Proof. intros st l elems env key v H. exact H. Qed.

Lemma getitem_binds : forall (st : state) (env : loc) (key : string) (v : object),
  binds st env key v -> getitem env key st = (Ok v, st).
Proof.
  unfold binds, getitem. cbn. intros st env key v ->. reflexivity.
Qed.

Lemma getval_binds :
  forall (st : state) (env : loc) (key : string) (v : object) (pv : pyval),
  binds st env key v -> val_of v = Ok pv -> getval env key st = (Ok pv, st).
Proof.
  intros st env key v pv Hb Hv. unfold getval, mbind.
  rewrite (getitem_binds Hb). unfold lift. now rewrite Hv.
Qed.

Lemma read_list_store_with_list :
  forall (st : state) (l : loc) (old elems : list object),
  nth_error (lists st) l = Some old ->
  read_list l (store_with_list st l elems) = (Ok elems, store_with_list st l elems).
Proof.
  intros st l old elems H. unfold read_list, store_with_list. cbn [lists].
  now rewrite (nth_error_list_set_same _ _ _ H).
Qed.

Lemma nth_error_list_insert :
  forall (A : Type) (l : list A) (i : nat) (x : A),
  (i <= List.length l)%nat -> nth_error (list_insert l i x) i = Some x.
Proof.
  intros A l i x H. unfold list_insert.
  rewrite nth_error_app2; rewrite length_firstn, Nat.min_l by assumption;
    [ | lia].
  now rewrite Nat.sub_diag.
Qed.

Lemma length_list_insert :
  forall (A : Type) (l : list A) (i : nat) (x : A),
  List.length (list_insert l i x) = S (List.length l).
Proof.
  intros A l i x. unfold list_insert.
  rewrite length_app. cbn [List.length]. rewrite length_firstn, length_skipn. lia.
Qed.

Lemma geti_in_range :
  forall (r : loc) (st : state) (l : loc) (elems : list object) (j : Z)
         (k : nat) (v : object),
  binds st r "seq" (Sequence l) -> binds st r "i" (Integer j) ->
  nth_error (lists st) l = Some elems ->
  py_index (List.length elems) j = Some k -> nth_error elems k = Some v ->
  run_primitive r _geti st = (Ok v, st).
Proof.
  intros r st l elems j k v Hs Hi Hl Hj Hk.
  cbn [run_primitive]. unfold geti_body, mbind.
  rewrite (getval_binds Hs eq_refl), (getval_binds Hi eq_refl).
  unfold read_list. rewrite Hl. cbn [index_of as_int]. unfold unit_.
  now rewrite Hj, Hk.
Qed.

Lemma len_of_list :
  forall (r : loc) (st : state) (l : loc) (elems : list object),
  binds st r "seq" (Sequence l) -> nth_error (lists st) l = Some elems ->
  run_primitive r _len st = (Ok (Integer (Z.of_nat (List.length elems))), st).
Proof.
  intros r st l elems Hs Hl.
  cbn [run_primitive]. unfold len_body, mbind.
  rewrite (getval_binds Hs eq_refl). unfold read_list. now rewrite Hl.
Qed.

(** X7.  A list is shared by reference.  When the frame of [seti] and the
    frame of [geti] hold the same list, and their indices, negative or
    not, name the same position of it: [seti] succeeds, [geti] then gives
    the value written, and [len] is what it was. *)
Theorem seti_is_seen_through_every_reference :
  forall (w r : loc) (st : state) (l : loc) (elems : list object) (i j : Z)
         (k : nat) (v : object),
  binds st w "seq" (Sequence l) -> binds st w "i" (Integer i) ->
  binds st w "value" v ->
  binds st r "seq" (Sequence l) -> binds st r "i" (Integer j) ->
  nth_error (lists st) l = Some elems ->
  py_index (List.length elems) i = Some k ->
  py_index (List.length elems) j = Some k ->
  let st' := store_with_list st l (list_set elems k v) in
  run_primitive w _seti st = (Ok NoneObject, st')
  /\ run_primitive r _geti st' = (Ok v, st')
  /\ run_primitive r _len st'
     = (Ok (Integer (Z.of_nat (List.length elems))), st').
Proof.
  intros w r st l elems i j k v Hs Hi Hv Hs' Hj Hl Hki Hkj st'.
  pose proof (py_index_lt _ _ Hki) as Hlt.
  destruct (nth_error elems k) as [old | ] eqn:Hold;
    [ | apply nth_error_None in Hold; lia].
  assert (Hl' : nth_error (lists st') l = Some (list_set elems k v))
    by (subst st'; unfold store_with_list; cbn [lists];
        exact (nth_error_list_set_same _ _ _ Hl)).
  split; [ | split].
  - cbn [run_primitive]. unfold seti_body, mbind.
    rewrite (getitem_binds Hv), (getval_binds Hs eq_refl),
      (getval_binds Hi eq_refl).
    unfold read_list. rewrite Hl. cbn [index_of as_int]. unfold unit_.
    now rewrite Hki.
  - apply geti_in_range with (l := l) (elems := list_set elems k v) (j := j)
      (k := k); try assumption.
    + now rewrite length_list_set.
    + exact (nth_error_list_set_same _ _ _ Hold).
  - rewrite <- (length_list_set elems k v). now apply len_of_list with (l := l).
Qed.

Lemma seti_is_seen_witness :
  run_primitive 1 _seti list_frames_store
  = (Ok NoneObject,
     store_with_list list_frames_store 0 [Integer 10; Integer 7; Integer 30])
  /\ run_primitive 2 _geti
       (store_with_list list_frames_store 0 [Integer 10; Integer 7; Integer 30])
     = (Ok (Integer 7),
        store_with_list list_frames_store 0 [Integer 10; Integer 7; Integer 30])
  /\ run_primitive 2 _len
       (store_with_list list_frames_store 0 [Integer 10; Integer 7; Integer 30])
     = (Ok (Integer 3),
        store_with_list list_frames_store 0 [Integer 10; Integer 7; Integer 30]).
Proof.
  apply (@seti_is_seen_through_every_reference 1 2 list_frames_store 0
           [Integer 10; Integer 20; Integer 30] 1 (-2) 1 (Integer 7));
    reflexivity.
Defined.

(** X8.  [insert] clips its index and never fails on it: whatever the
    integer [i], the value is put at a position from 0 to the length, the
    elements before it staying and the others moving up; [geti] at that
    position then gives the value, and [len] has grown by one. *)
Theorem insert_clips_its_index :
  forall (w r : loc) (st : state) (l : loc) (elems : list object) (i : Z)
         (v : object),
  binds st w "seq" (Sequence l) -> binds st w "i" (Integer i) ->
  binds st w "value" v ->
  binds st r "seq" (Sequence l) ->
  binds st r "i" (Integer (Z.of_nat (py_insert_position (List.length elems) i))) ->
  nth_error (lists st) l = Some elems ->
  let pos := py_insert_position (List.length elems) i in
  let st' := store_with_list st l (list_insert elems pos v) in
  run_primitive w _insert st = (Ok NoneObject, st')
  /\ (pos <= List.length elems)%nat
  /\ list_insert elems pos v = (firstn pos elems ++ v :: skipn pos elems)%list
  /\ run_primitive r _geti st' = (Ok v, st')
  /\ run_primitive r _len st'
     = (Ok (Integer (Z.of_nat (List.length elems) + 1)), st').
Proof.
  intros w r st l elems i v Hs Hi Hv Hs' Hj Hl pos st'.
  pose proof (py_insert_position_le (List.length elems) i) as Hle. fold pos in Hle.
  assert (Hl' : nth_error (lists st') l = Some (list_insert elems pos v))
    by (subst st'; unfold store_with_list; cbn [lists];
        exact (nth_error_list_set_same _ _ _ Hl)).
  split; [ | split; [ | split; [ | split]]].
  - cbn [run_primitive]. unfold insert_body, mbind.
    rewrite (getval_binds Hs eq_refl), (getval_binds Hi eq_refl),
      (getitem_binds Hv).
    unfold read_list. rewrite Hl. cbn [index_of as_int]. reflexivity.
  - exact Hle.
  - reflexivity.
  - apply geti_in_range with (l := l) (elems := list_insert elems pos v)
      (j := Z.of_nat pos) (k := pos); try assumption.
    + apply py_index_of_nat. rewrite length_list_insert. lia.
    + now apply nth_error_list_insert.
  - replace (Z.of_nat (List.length elems) + 1)%Z
      with (Z.of_nat (List.length (list_insert elems pos v)))
      by (rewrite length_list_insert; lia).
    now apply len_of_list with (l := l).
Qed.

Lemma insert_clips_witness :
  run_primitive 3 _insert list_frames_store
  = (Ok NoneObject,
     store_with_list list_frames_store 0
       (list_insert [Integer 10; Integer 20; Integer 30] 3 (Integer 7)))
  /\ (3 <= 3)%nat
  /\ list_insert [Integer 10; Integer 20; Integer 30] 3 (Integer 7)
     = [Integer 10; Integer 20; Integer 30; Integer 7]
  /\ run_primitive 4 _geti
       (store_with_list list_frames_store 0
          (list_insert [Integer 10; Integer 20; Integer 30] 3 (Integer 7)))
     = (Ok (Integer 7),
        store_with_list list_frames_store 0
          (list_insert [Integer 10; Integer 20; Integer 30] 3 (Integer 7)))
  /\ run_primitive 4 _len
       (store_with_list list_frames_store 0
          (list_insert [Integer 10; Integer 20; Integer 30] 3 (Integer 7)))
     = (Ok (Integer 4),
        store_with_list list_frames_store 0
          (list_insert [Integer 10; Integer 20; Integer 30] 3 (Integer 7))).
Proof.
  apply (@insert_clips_its_index 3 4 list_frames_store 0
           [Integer 10; Integer 20; Integer 30] 10 (Integer 7));
    reflexivity.
Defined.

(** ** Integers written and read back *)

Lemma int_of_digits_fold : forall s : string,
  int_of_digits s = fold_left digit_step (list_ascii_of_string s) 0%Z.
Proof. reflexivity. Qed.

Ltac digit_value :=
  unfold digit_step;
  match goal with
  | |- context [Z.of_nat ?n] =>
      let v := eval vm_compute in (Z.of_nat n) in
      change (Z.of_nat n) with v
  end;
  lia.

Lemma digits_acc : forall (d : Decimal.uint) (acc : positive),
  fold_left digit_step (list_ascii_of_string (NilEmpty.string_of_uint d))
    (Z.pos acc)
  = Z.pos (Pos.of_uint_acc d acc).
Proof.
  induction d; intro acc;
    cbn [NilEmpty.string_of_uint list_ascii_of_string fold_left Pos.of_uint_acc];
    [reflexivity | .. ];
    (rewrite <- IHd; f_equal; digit_value).
Qed.

Lemma digits_value : forall d : Decimal.uint,
  fold_left digit_step (list_ascii_of_string (NilEmpty.string_of_uint d)) 0%Z
  = Z.of_N (Pos.of_uint d).
Proof.
  induction d;
    cbn [NilEmpty.string_of_uint list_ascii_of_string fold_left Pos.of_uint];
    [reflexivity | exact IHd | .. ];
    (cbn [Z.of_N]; rewrite <- digits_acc; f_equal).
Qed.

Lemma digits_all : forall d : Decimal.uint,
  all_chars is_digit_char (NilEmpty.string_of_uint d) = true.
Proof.
  induction d; cbn; try reflexivity; exact IHd.
Qed.

Lemma digits_text : forall d : Decimal.uint,
  isdigit (NilZero.string_of_uint d) = true
  /\ int_of_digits (NilZero.string_of_uint d) = Z.of_N (Pos.of_uint d)
  /\ make_token (NilZero.string_of_uint d)
     = Ok (MkToken "integer" (NilZero.string_of_uint d)).
Proof.
  intro d. rewrite int_of_digits_fold.
  destruct d; cbn [NilZero.string_of_uint]; [now repeat split | .. ];
    (split; [ | split];
     [ unfold isdigit; rewrite digits_all; reflexivity
     | apply digits_value
     | unfold make_token;
       match goal with
       | |- context [NilEmpty.string_of_uint ?x] =>
           pose proof (digits_all x) as Hd; cbn in Hd |- *; rewrite Hd
       end; reflexivity ]).
Qed.

(** X4.  What [print] writes for a non-negative [Integer] reads back as
    the same [Integer]: called in a frame that binds [s] to [Integer(z)],
    [print] appends the decimal text of [z] to the output and returns
    nothing; [make_token] makes one [integer] token of that text, and
    [eval_const] gives [Integer(z)] for it. *)
Theorem printed_integer_reads_back :
  forall (z : Z) (runenv : loc) (st : state),
  (0 <= z)%Z ->
  binds st runenv "s" (Integer z) -> binds st runenv ".out" Out ->
  run_primitive runenv _print st
  = (Ok NoneObject,
     MkState (namespaces st) (lists st) (output st ++ str_of_int z))
  /\ make_token (str_of_int z) = Ok (MkToken "integer" (str_of_int z))
  /\ eval_const (MkToken "integer" (str_of_int z)) st = (Ok (Integer z), st).
Proof.
  intros z runenv st Hz Hs Hout. split.
  { cbn [run_primitive]. unfold print_body, mbind.
    rewrite (getitem_binds Hs). rewrite (getitem_binds Hs).
    cbn [val_of lift unit_]. rewrite (getitem_binds Hout). reflexivity. }
  unfold str_of_int.
  assert (H : exists d, NilZero.string_of_int (Z.to_int z) = NilZero.string_of_uint d
                        /\ Z.of_N (Pos.of_uint d) = z).
  { destruct z as [ | p | p]; [ | | lia].
    - exists (Decimal.D0 Decimal.Nil). now split.
    - exists (Pos.to_uint p). split; [reflexivity | ].
      now rewrite DecimalPos.Unsigned.of_to. }
  destruct H as (d & -> & Hd).
  destruct (digits_text d) as (Hdig & Hval & Htok).
  split; [exact Htok | ].
  unfold eval_const. cbn [type value].
  change ("integer" =? "string") with false.
  change ("integer" =? "integer") with true. cbn iota.
  now rewrite Hdig, Hval, Hd.
Qed.

Lemma printed_integer_witness :
  run_primitive 1 _print print_frame_store
  = (Ok NoneObject,
     MkState (namespaces print_frame_store) (lists print_frame_store)
       (output print_frame_store ++ str_of_int 42))
  /\ make_token (str_of_int 42) = Ok (MkToken "integer" (str_of_int 42))
  /\ eval_const (MkToken "integer" (str_of_int 42)) print_frame_store
     = (Ok (Integer 42), print_frame_store).
Proof.
  apply (@printed_integer_reads_back 42 1 print_frame_store);
    [lia | reflexivity | reflexivity].
Defined.

(** ** What a run leaves alone *)

Lemma grows_refl : forall (env : option loc) (st : state), grows env st st.
Proof.
  intros env st. split; [auto | split; [lia | ]].
  exists "". now rewrite append_nil_r.
Qed.

Lemma grows_trans : forall (env : option loc) (a b c : state),
  grows env a b -> grows env b c -> grows env a c.
Proof.
  intros env a b c (H1 & L1 & w1 & O1) (H2 & L2 & w2 & O2).
  split; [auto | split; [lia | ]].
  exists (w1 ++ w2). now rewrite O2, O1, append_assoc.
Qed.

Lemma grows_weaken : forall (env : option loc) (a b : state),
  grows None a b -> grows env a b.
Proof.
  intros env a b (H & L & W). split; [ | now split].
  intros e ns _ Hns. apply H; [discriminate | assumption].
Qed.

Lemma runs_weaken : forall (A : Type) (env : option loc) (m : M A),
  runs None m -> runs env m.
Proof. intros A env m H st. apply grows_weaken, H. Qed.

Lemma runs_lift : forall (A : Type) (env : option loc) (r : result A),
  runs env (lift r).
Proof. intros A env r st. apply grows_refl. Qed.

Lemma runs_unit : forall (A : Type) (env : option loc) (a : A),
  runs env (unit_ a).
Proof. intros A env a st. apply grows_refl. Qed.

Lemma runs_raise : forall (A : Type) (env : option loc) (e : exception),
  runs env (raise e : M A).
Proof. intros A env e st. apply grows_refl. Qed.

Lemma runs_bind :
  forall (A B : Type) (env : option loc) (m : M A) (k : A -> M B),
  runs env m -> (forall a : A, runs env (k a)) -> runs env (mbind m k).
Proof.
  intros A B env m k Hm Hk st. unfold mbind.
  specialize (Hm st). destruct (m st) as [[a | e | | ] st1]; cbn in *;
    try assumption.
  eapply grows_trans; [eassumption | apply Hk].
Qed.

Lemma runs_getitem : forall (o : option loc) (env : loc) (key : string),
  runs o (getitem env key).
Proof. intros o env key st. apply grows_refl. Qed.

Lemma runs_setitem : forall (env : loc) (key : string) (v : object),
  runs (Some env) (setitem env key v).
Proof.
  intros env key v st. unfold setitem.
  destruct (nth_error (namespaces st) env) as [ns | ]; [ | apply grows_refl].
  unfold grows. cbn [snd namespaces output]. split; [ | split].
  - intros e ns' Hne Hns. rewrite nth_error_list_set_other; [assumption | ].
    intros ->. now apply Hne.
  - rewrite length_list_set. lia.
  - exists "". now rewrite append_nil_r.
Qed.

Lemma runs_new_namespace : forall (o : option loc) (p : option loc),
  runs o (new_namespace p).
Proof.
  intros o p st. unfold grows. cbn [snd new_namespace namespaces output].
  split; [ | split].
  - intros e ns _ Hns. rewrite nth_error_app1; [assumption | ].
    apply nth_error_Some. congruence.
  - rewrite length_app. lia.
  - exists "". now rewrite append_nil_r.
Qed.

Lemma grows_same_namespaces : forall (o : option loc) (st st' : state) (w : string),
  namespaces st' = namespaces st -> output st' = output st ++ w ->
  grows o st st'.
Proof.
  intros o st st' w Hn Ho. split; [ | split].
  - intros e ns _ Hns. now rewrite Hn.
  - rewrite Hn. lia.
  - now exists w.
Qed.

Lemma runs_new_list : forall (o : option loc) (elems : list object),
  runs o (new_list elems).
Proof.
  intros o elems st. apply grows_same_namespaces with (w := ""); cbn;
    [reflexivity | now rewrite append_nil_r].
Qed.

Lemma runs_read_list : forall (o : option loc) (l : loc), runs o (read_list l).
Proof.
  intros o l st. unfold read_list.
  destruct (nth_error (lists st) l); apply grows_refl.
Qed.

Lemma runs_write_list : forall (o : option loc) (l : loc) (elems : list object),
  runs o (write_list l elems).
Proof.
  intros o l elems st. apply grows_same_namespaces with (w := ""); cbn;
    [reflexivity | now rewrite append_nil_r].
Qed.

Lemma runs_write : forall (o : option loc) (s : string), runs o (write s).
Proof.
  intros o s st. now apply grows_same_namespaces with (w := s).
Qed.

Lemma runs_getval : forall (o : option loc) (runenv : loc) (key : string),
  runs o (getval runenv key).
Proof.
  intros. unfold getval. apply runs_bind; [apply runs_getitem | ].
  intro. apply runs_lift.
Qed.

Lemma runs_index_of : forall (o : option loc) (v : pyval), runs o (index_of v).
Proof.
  intros o v. unfold index_of. destruct (as_int v);
    [apply runs_unit | apply runs_raise].
Qed.

Lemma runs_ops_get :
  forall (V : Type) (o : option loc) (ops : list (string * V)) (key : string),
  runs o (ops_get ops key).
Proof.
  intros V o ops key. unfold ops_get.
  destruct (dict_get ops key); [apply runs_unit | apply runs_raise].
Qed.

Lemma runs_mapM :
  forall (A B : Type) (o : option loc) (f : A -> M B) (l : list A),
  (forall a : A, runs o (f a)) -> runs o (mapM f l).
Proof.
  intros A B o f l Hf. induction l as [ | a l IH]; cbn.
  - apply runs_unit.
  - apply runs_bind; [apply Hf | intro b].
    apply runs_bind; [exact IH | intro bs]. apply runs_unit.
Qed.

Lemma runs_update : forall (runenv : loc) (pairs : list (string * object)),
  runs (Some runenv) (update runenv pairs).
Proof.
  intros runenv pairs. induction pairs as [ | [k v] pairs IH]; cbn.
  - apply runs_unit.
  - apply runs_bind; [apply runs_setitem | intros _; exact IH].
Qed.

Lemma runs_eval_const : forall (o : option loc) (t : Token),
  runs o (eval_const t).
Proof.
  intros o t. unfold eval_const.
  repeat match goal with
         | |- runs _ (if ?b then _ else _) => destruct b
         end;
    first [apply runs_unit | apply runs_lift | apply runs_raise].
Qed.

Ltac runs_leaf :=
  first
    [ apply runs_getval | apply runs_getitem | apply runs_lift
    | apply runs_index_of | apply runs_raise | apply runs_write
    | apply runs_read_list | apply runs_write_list | apply runs_new_list
    | apply runs_ops_get | apply runs_eval_const | apply runs_unit ].

Ltac runs_step :=
  first
    [ runs_leaf
    | apply runs_bind; [ | intro ]
    | match goal with
      | |- runs _ (match ?x with _ => _ end) => destruct x
      | |- runs _ (if ?b then _ else _) => destruct b
      end ].

(** A primitive writes no namespace. *)
Lemma runs_run_primitive : forall (o : option loc) (runenv : loc) (f : primitive),
  runs o (run_primitive runenv f).
Proof.
  intros o runenv f.
  destruct f; cbn [run_primitive];
    unfold print_body, add_body, sub_body, lt_body, eq_body, geti_body,
      seti_body, len_body, insert_body;
    repeat runs_step.
Qed.

(** The store after a call: the frame of the call is new, so what the body
    writes in it is written in no namespace of the caller's store. *)
Lemma grows_call :
  forall (st st1 st4 : state) (p : option loc),
  grows None st st1 ->
  grows (Some (List.length (namespaces st1)))
        (snd (new_namespace p st1)) st4 ->
  grows None st st4.
Proof.
  intros st st1 st4 p (H1 & L1 & w1 & O1) (H2 & L2 & w2 & O2).
  cbn in H2, L2, O2. rewrite length_app in L2. cbn in L2.
  split; [ | split].
  - intros e ns _ Hns.
    assert (He : (e < List.length (namespaces st))%nat)
      by (apply nth_error_Some; congruence).
    apply H2; [intros [= ->]; lia | ].
    rewrite nth_error_app1 by lia. apply H1; [discriminate | assumption].
  - lia.
  - exists (w1 ++ w2). now rewrite O2, O1, append_assoc.
Qed.

Section RunsClosures.

Variable execute : loc -> list node -> M object.
Variable env : loc.
Variable eval_expr : node -> M object.
Variable exec_statement : node -> M object.
Variable exec_while : node -> M object.

Hypothesis runs_execute :
  forall (runenv : loc) (block : list node),
    runs (Some runenv) (execute runenv block).
Hypothesis runs_eval : forall e : node, runs None (eval_expr e).
Hypothesis runs_exec : forall s : node, runs (Some env) (exec_statement s).
Hypothesis runs_while : forall s : node, runs (Some env) (exec_while s).

Lemma runs_exec_block : forall block : list node,
  runs (Some env) (exec_block exec_statement block).
Proof.
  induction block as [ | s block IH]; cbn.
  - apply runs_unit.
  - apply runs_bind; [apply runs_exec | intro ret].
    destruct (host_bool ret); [apply runs_unit | exact IH].
Qed.

Lemma runs_eval_func_call : forall (id : Token) (args : list node),
  runs None (eval_func_call execute env eval_expr id args).
Proof.
  intros id args st. unfold eval_func_call, mbind at 1, getitem.
  destruct (Namespace_getitem _ _ env (value id)) as [func | e | | ];
    try apply grows_refl.
  unfold mbind at 1.
  pose proof (@runs_mapM _ _ None eval_expr args runs_eval st) as Hargs.
  destruct (mapM eval_expr args st) as [[vs | e | | ] st1]; cbn [snd] in *;
    try assumption.
  destruct func as [ | | | | | fenv fargs body | | ]; try assumption.
  apply grows_call with (st1 := st1) (p := Some fenv); [assumption | ].
  unfold mbind at 1. cbn [new_namespace snd].
  set (st2 := MkState _ _ _).
  assert (Hbody : runs (Some (List.length (namespaces st1)))
            (update (List.length (namespaces st1)) (combine fargs vs) ;;;
             match body with
             | Primitive f => run_primitive (List.length (namespaces st1)) f
             | Func block => execute (List.length (namespaces st1)) block
             end)).
  { apply runs_bind; [apply runs_update | intros _].
    destruct body; [apply runs_run_primitive | apply runs_execute]. }
  exact (Hbody st2).
Qed.

Lemma runs_true : forall (o : option loc) (c : object),
  runs o (lift (Execute.true c)).
Proof. intros. apply runs_lift. Qed.

Lemma runs_eval_expr_rule : forall e : node,
  runs None (eval_expr_rule execute env eval_expr e).
Proof.
  intro e. destruct e; cbn [eval_expr_rule]; try apply runs_raise;
    try apply runs_eval_const; try apply runs_eval_func_call;
    unfold eval_var, eval_seq, eval_or, eval_and, eval_not, eval_comp,
      eval_arith, eval_sign;
    repeat first [ apply runs_eval | apply runs_mapM; intro | runs_step ].
Qed.

Lemma runs_exec_statement_rule : forall s : node,
  runs (Some env)
    (exec_statement_rule execute env eval_expr exec_statement exec_while s).
Proof.
  intro s. destruct s; cbn [exec_statement_rule]; try apply runs_unit;
    try apply runs_while;
    unfold exec_if, exec_return, exec_assign, exec_func_def;
    repeat first
      [ apply runs_setitem | apply runs_exec_block
      | apply runs_weaken; apply runs_eval
      | apply runs_weaken; apply runs_eval_func_call
      | runs_step ].
Qed.

Lemma runs_exec_while_rule : forall (again : M object) (s : node),
  runs (Some env) again ->
  runs (Some env) (exec_while_rule eval_expr exec_statement again s).
Proof.
  intros again s Hagain. destruct s; cbn [exec_while_rule];
    try apply runs_raise.
  repeat first
    [ assumption | apply runs_exec_block
    | apply runs_weaken; apply runs_eval | runs_step ].
Qed.

End RunsClosures.

Lemma runs_closures : forall fuel : nat,
  (forall env e, runs None (eval_expr fuel env e))
  /\ (forall env s, runs (Some env) (exec_statement fuel env s))
  /\ (forall env s, runs (Some env) (exec_while fuel env s)).
Proof.
  induction fuel as [ | fuel (IHe & IHs & IHw)].
  - split; [ | split]; intros; apply runs_lift.
  - assert (Hbody : forall runenv block,
              runs (Some runenv) (exec_block (exec_statement fuel runenv) block))
      by (intros; apply runs_exec_block; auto).
    split; [ | split]; intros env x;
      cbn [eval_expr exec_statement exec_while].
    + apply runs_eval_expr_rule; auto.
    + apply runs_exec_statement_rule; auto.
    + apply runs_exec_while_rule; auto.
Qed.

Lemma runs_exec_program :
  forall (Iter : Type) (next : Iter -> result (option (Token * Iter)))
         (fuel n : nat) (env : loc) (g : parse_generator Iter),
  runs (Some env) (exec_program next fuel n env g).
Proof.
  intros Iter next fuel n env. induction n as [ | n IH]; intros g st; cbn.
  - apply grows_refl.
  - destruct (parse_next next fuel g) as [[[s g'] | ] | e | | ];
      try apply grows_refl.
    assert (H : runs (Some env)
              (ret <- exec_statement fuel env s ;;
               if host_bool ret then unit_ ret
               else exec_program next fuel n env g')).
    { apply runs_bind; [apply runs_closures | intro ret].
      destruct (host_bool ret); [apply runs_unit | apply IH]. }
    exact (H st).
Qed.

(** Two stores that agree on every old position. *)
Lemma prefix_of_nth_error : forall (A : Type) (l l' : list A),
  (forall (e : nat) (x : A), nth_error l e = Some x -> nth_error l' e = Some x) ->
  exists extra : list A, l' = (l ++ extra)%list.
Proof.
  intros A l. induction l as [ | a l IH]; intros l' H.
  - now exists l'.
  - destruct l' as [ | b l']; [specialize (H 0%nat a eq_refl); discriminate | ].
    pose proof (H 0%nat a eq_refl) as H0. cbn in H0. injection H0 as ->.
    destruct (IH l') as [extra ->].
    + intros e x Hx. exact (H (S e) x Hx).
    + now exists extra.
Qed.

Lemma list_set_of_nth_error :
  forall (A : Type) (l l' : list A) (env : nat) (d : A),
  (forall (e : nat) (x : A),
     e <> env -> nth_error l e = Some x -> nth_error l' e = Some x) ->
  (List.length l <= List.length l')%nat ->
  exists (a : A) (extra : list A), l' = (list_set l env a ++ extra)%list.
Proof.
  intros A l. induction l as [ | a l IH]; intros l' env d H Hlen.
  - exists d, l'. reflexivity.
  - destruct l' as [ | b l']; [cbn in Hlen; lia | ].
    destruct env as [ | env].
    + destruct (@prefix_of_nth_error _ l l') as [extra ->].
      * intros e x Hx. apply (H (S e) x); [lia | assumption].
      * exists b, extra. reflexivity.
    + pose proof (H 0%nat a (Nat.neq_0_succ env) eq_refl) as H0.
      cbn in H0. injection H0 as ->.
      destruct (IH l' env d) as (x & extra & ->).
      * intros e y Hne Hy. apply (H (S e) y); [lia | assumption].
      * cbn in Hlen. lia.
      * exists x, extra. reflexivity.
Qed.

(** X9.  An expression changes no namespace, whatever it evaluates and
    however it ends: the namespaces of the store it leaves are those it
    found, followed by the namespaces made meanwhile.  A call binds its
    parameters, and its body assigns, in a frame of its own, so that a
    function cannot rebind a name of its caller or of the global
    namespace. *)
Theorem expressions_change_no_namespace :
  forall (fuel : nat) (env : loc) (e : node) (st : state),
  exists extra : list Namespace,
    namespaces (snd (eval_expr fuel env e st)) = (namespaces st ++ extra)%list.
Proof.
  intros fuel env e st.
  destruct (runs_closures fuel) as (He & _).
  destruct (He env e st) as (H & _).
  apply prefix_of_nth_error. intros e' x Hx. apply H; [discriminate | assumption].
Qed.

(** X10.  A statement, and a whole program, changes only the namespace in
    which it executes: in the store it leaves, however it ends, every
    other namespace is as it was, at its place, and the namespaces made
    meanwhile come after them. *)
Theorem statements_change_their_own_namespace_only :
  forall (Iter : Type) (next : Iter -> result (option (Token * Iter)))
         (fuel n : nat) (env : loc) (s : node) (g : parse_generator Iter)
         (st : state),
  (exists (ns : Namespace) (extra : list Namespace),
     namespaces (snd (exec_statement fuel env s st))
     = (list_set (namespaces st) env ns ++ extra)%list)
  /\ (exists (ns : Namespace) (extra : list Namespace),
        namespaces (snd (exec_program next fuel n env g st))
        = (list_set (namespaces st) env ns ++ extra)%list).
Proof.
  intros Iter next fuel n env s g st.
  destruct (runs_closures fuel) as (_ & Hs & _).
  split.
  - destruct (Hs env s st) as (H & L & _).
    apply list_set_of_nth_error; [exact (MkNamespace [] None) | | exact L].
    intros e x Hne Hx. apply H; [congruence | assumption].
  - destruct (@runs_exec_program Iter next fuel n env g st) as (H & L & _).
    apply list_set_of_nth_error; [exact (MkNamespace [] None) | | exact L].
    intros e x Hne Hx. apply H; [congruence | assumption].
Qed.

(** X11.  Output is only appended: the output after an expression, a
    statement or a program, however it ends, starts with the output
    before it. *)
Theorem output_is_only_appended :
  forall (Iter : Type) (next : Iter -> result (option (Token * Iter)))
         (fuel n : nat) (env : loc) (e : node) (g : parse_generator Iter)
         (st : state),
  (exists w : string, output (snd (eval_expr fuel env e st)) = output st ++ w)
  /\ (exists w : string,
        output (snd (exec_statement fuel env e st)) = output st ++ w)
  /\ (exists w : string,
        output (snd (exec_program next fuel n env g st)) = output st ++ w).
Proof.
  intros Iter next fuel n env e g st.
  destruct (runs_closures fuel) as (He & Hs & _).
  split; [ | split].
  - now destruct (He env e st) as (_ & _ & H).
  - now destruct (Hs env e st) as (_ & _ & H).
  - now destruct (@runs_exec_program Iter next fuel n env g st) as (_ & _ & H).
Qed.

(** ** The class of a result *)

Lemma returns_bind :
  forall (A : Type) (Q : object -> Prop) (m : M A) (k : A -> M object),
  (forall a : A, returns Q (k a)) -> returns Q (mbind m k).
Proof.
  intros A Q m k H st v. unfold mbind.
  destruct (m st) as [[a | e | | ] st1]; cbn; try discriminate. apply H.
Qed.

Lemma returns_unit : forall (Q : object -> Prop) (v : object),
  Q v -> returns Q (unit_ v).
Proof. intros Q v H st v' [= <-]. exact H. Qed.

Lemma returns_raise : forall (Q : object -> Prop) (e : exception),
  returns Q (raise e).
Proof. intros Q e st v. discriminate. Qed.

Lemma returns_unmodelled : forall Q : object -> Prop,
  returns Q (lift Unmodelled).
Proof. intros Q st v. discriminate. Qed.

Lemma returns_eval_const : forall t : Token,
  returns (result_class (ConstantExpr t)) (eval_const t).
Proof.
  intro t. unfold eval_const.
  destruct (String.eqb_spec (type t) "string");
    [now apply returns_unit | ].
  destruct (String.eqb_spec (type t) "integer").
  - destruct (isdigit (value t));
      [now apply returns_unit | apply returns_unmodelled].
  - destruct (String.eqb_spec (type t) "boolean");
      [now apply returns_unit | apply returns_raise].
Qed.

(** X12.  The node decides the class of the record: a comparison and
    [not] give a [Boolean], an arithmetic operator and a sign an
    [Integer], a sequence display a [Sequence], a constant the class of
    its token, and a statement used as an expression gives nothing at
    all.  [or], [and], a variable and a call can give any object. *)
Theorem operators_decide_the_class_of_their_result :
  forall (fuel : nat) (env : loc) (e : node) (st : state) (v : object),
  fst (eval_expr fuel env e st) = Ok v -> result_class e v.
Proof.
  intros [ | fuel] env e; [discriminate | ].
  change (returns (result_class e) (eval_expr (S fuel) env e)).
  cbn [eval_expr].
  destruct e; cbn [eval_expr_rule]; try apply returns_raise;
    try apply returns_eval_const;
    unfold eval_var, eval_seq, eval_or, eval_and, eval_not, eval_comp,
      eval_arith, eval_sign, eval_func_call;
    try (intros st v _; exact I);
    repeat (apply returns_bind; intro);
    apply returns_unit; cbn; eauto.
Qed.

Lemma operators_decide_witness :
  result_class
    (CompExpr (MkToken "lt" "<") (ConstantExpr (int_tok "1"))
       (ConstantExpr (int_tok "2")))
    (Boolean true).
Proof.
  apply (@operators_decide_the_class_of_their_result 2 global
           (CompExpr (MkToken "lt" "<") (ConstantExpr (int_tok "1"))
              (ConstantExpr (int_tok "2")))
           build_global_environment (Boolean true)).
  reflexivity.
Defined.

(** ** Division *)

Lemma eval_arith_integers :
  forall (fuel : nat) (env : loc) (op : Token) (L R : node)
         (st st1 st2 : state) (x y : Z) (f : pyval -> pyval -> result Z),
  eval_expr fuel env L st = (Ok (Integer x), st1) ->
  eval_expr fuel env R st1 = (Ok (Integer y), st2) ->
  dict_get arith_ops (type op) = Some f ->
  eval_expr (S fuel) env (MulExpr op L R) st
  = (rbind (f (VInt x) (VInt y)) (fun z => Ok (Integer z)), st2).
Proof.
  intros fuel env op L R st st1 st2 x y f HL HR Hf.
  cbn [eval_expr eval_expr_rule]. unfold eval_arith.
  erewrite mbind_ok; [ | exact HL]. cbn [val_of]. unfold mbind at 1, lift at 1.
  erewrite mbind_ok; [ | exact HR]. cbn [val_of]. unfold mbind at 1, lift at 1.
  unfold ops_get. rewrite Hf. unfold mbind, unit_, lift.
  now destruct (f (VInt x) (VInt y)).
Qed.

(** X13.  With operands evaluated to the integers [x] and [y]: when [y]
    is zero, [/] and [%] raise the host's [ZeroDivisionError]; otherwise
    they give the quotient [q] and the remainder [m] of the division that
    rounds down, [x = y * q + m] with [m] between zero and [y], zero
    included and [y] not, on the side of [y]. *)
Theorem division_floors_and_modulus_follows_the_divisor :
  forall (fuel : nat) (env : loc) (L R : node) (st st1 st2 : state) (x y : Z),
  eval_expr fuel env L st = (Ok (Integer x), st1) ->
  eval_expr fuel env R st1 = (Ok (Integer y), st2) ->
  let quotient := eval_expr (S fuel) env (MulExpr (MkToken "div" "/") L R) st in
  let remainder := eval_expr (S fuel) env (MulExpr (MkToken "mod" "%") L R) st in
  if (y =? 0)%Z then
    quotient = (Raise (Host ZeroDivisionError), st2)
    /\ remainder = (Raise (Host ZeroDivisionError), st2)
  else
    exists q m : Z,
      quotient = (Ok (Integer q), st2) /\ remainder = (Ok (Integer m), st2)
      /\ x = (y * q + m)%Z
      /\ ((0 <= m < y)%Z \/ (y < m <= 0)%Z).
Proof.
  intros fuel env L R st st1 st2 x y HL HR quotient remainder.
  assert (Hq : quotient
               = (rbind (operator_floordiv (VInt x) (VInt y))
                    (fun z => Ok (Integer z)), st2))
    by (apply eval_arith_integers with (st1 := st1); auto).
  assert (Hm : remainder
               = (rbind (operator_mod (VInt x) (VInt y))
                    (fun z => Ok (Integer z)), st2))
    by (apply eval_arith_integers with (st1 := st1); auto).
  rewrite Hq, Hm. unfold operator_floordiv, operator_mod. cbn [as_int].
  destruct (Z.eqb_spec y 0) as [-> | Hy]; [now split | ].
  exists (x / y)%Z, (x mod y)%Z. cbn [rbind].
  repeat split.
  - apply Z.div_mod. exact Hy.
  - destruct (Z.lt_ge_cases 0 y) as [Hpos | Hneg].
    + left. now apply Z.mod_pos_bound.
    + right. apply Z.mod_neg_bound. lia.
Qed.

Lemma division_floors_witness :
  exists q m : Z,
    eval_expr 3 global
      (MulExpr (MkToken "div" "/")
         (SignExpr (MkToken "sub" "-") (ConstantExpr (int_tok "7")))
         (ConstantExpr (int_tok "2")))
      build_global_environment
    = (Ok (Integer q), build_global_environment)
    /\ eval_expr 3 global
         (MulExpr (MkToken "mod" "%")
            (SignExpr (MkToken "sub" "-") (ConstantExpr (int_tok "7")))
            (ConstantExpr (int_tok "2")))
         build_global_environment
       = (Ok (Integer m), build_global_environment)
    /\ (-7 = 2 * q + m)%Z
    /\ ((0 <= m < 2)%Z \/ (2 < m <= 0)%Z).
Proof.
  apply (@division_floors_and_modulus_follows_the_divisor 2 global
           (SignExpr (MkToken "sub" "-") (ConstantExpr (int_tok "7")))
           (ConstantExpr (int_tok "2"))
           build_global_environment build_global_environment
           build_global_environment (-7) 2);
    reflexivity.
Defined.

(** ** The frame of a call *)

Lemma lookup_app :
  forall (n : nat) (h extra : list Namespace) (e : loc) (key : string),
  chain_ok h -> (e < List.length h)%nat ->
  Namespace_contains n (h ++ extra) e key = Namespace_contains n h e key
  /\ Namespace_getitem n (h ++ extra) e key = Namespace_getitem n h e key.
Proof.
  induction n as [ | n IH]; intros h extra e key Hc He; cbn; [now split | ].
  rewrite nth_error_app1 by assumption.
  destruct (nth_error h e) as [ns | ] eqn:Hns; [ | now split].
  destruct (parent ns) as [p | ] eqn:Hp; [ | now split].
  assert (Hlt : (p < List.length h)%nat)
    by (pose proof (Hc _ _ _ Hns Hp); lia).
  destruct (IH h extra p key Hc Hlt) as [-> ->]. now split.
Qed.

Lemma list_set_twice : forall (A : Type) (l : list A) (i : nat) (x y : A),
  list_set (list_set l i x) i y = list_set l i y.
Proof.
  intros A l. induction l as [ | a l IH]; intros [ | i] x y; cbn;
    try reflexivity.
  now rewrite IH.
Qed.

Lemma list_set_last : forall (A : Type) (l : list A) (x y : A),
  list_set (l ++ [x]) (List.length l) y = (l ++ [y])%list.
Proof.
  intros A l x y. induction l as [ | a l IH]; cbn; [reflexivity | ].
  now rewrite IH.
Qed.

Lemma update_frame :
  forall (pairs : list (string * object)) (runenv : loc) (st : state)
         (ns : Namespace),
  nth_error (namespaces st) runenv = Some ns ->
  update runenv pairs st
  = (Ok tt,
     MkState (list_set (namespaces st) runenv
                (MkNamespace (dict_update (items ns) pairs) (parent ns)))
             (lists st) (output st)).
Proof.
  induction pairs as [ | [k v] pairs IH]; intros runenv st ns Hns; cbn.
  - unfold unit_. f_equal. destruct st as [h ls out]. cbn in *. f_equal.
    revert runenv Hns. induction h as [ | a h IHh]; intros [ | i] H; cbn in *;
      try discriminate.
    + injection H as ->. now destruct ns.
    + now rewrite <- IHh.
  - unfold mbind, setitem. rewrite Hns.
    erewrite IH; [ | cbn [namespaces]; exact (nth_error_list_set_same _ _ _ Hns)].
    cbn [namespaces lists output items parent]. now rewrite list_set_twice.
Qed.

Lemma call_frame_store :
  forall (fenv : loc) (fargs : list string) (vs : list object) (st : state),
  call_frame fenv fargs vs st
  = (Ok (List.length (namespaces st)),
     MkState (namespaces st
              ++ [MkNamespace (dict_update [] (combine fargs vs)) (Some fenv)])
             (lists st) (output st)).
Proof.
  intros fenv fargs vs st. unfold call_frame, mbind at 1.
  cbn [new_namespace]. unfold mbind.
  erewrite update_frame.
  2:{ cbn [namespaces]. rewrite nth_error_app2, Nat.sub_diag by lia.
      reflexivity. }
  cbn [namespaces lists output items parent unit_].
  now rewrite list_set_last.
Qed.

Lemma dict_update_other :
  forall (pairs d : list (string * object)) (x : string),
  ~ In x (map fst pairs) -> dict_get (dict_update d pairs) x = dict_get d x.
Proof.
  induction pairs as [ | [k v] pairs IH]; intros d x H; cbn; [reflexivity | ].
  cbn in H. unfold dict_update in IH. rewrite IH by tauto.
  apply dict_set_other. tauto.
Qed.

Lemma dict_update_last :
  forall (pairs d : list (string * object)) (k : string) (v : object),
  NoDup (map fst pairs) -> In (k, v) pairs ->
  dict_get (dict_update d pairs) k = Some v.
Proof.
  induction pairs as [ | [k0 v0] pairs IH]; intros d k v Hnd Hin; [easy | ].
  cbn in Hnd. inversion Hnd as [ | ? ? Hnot Hnd']; subst.
  destruct Hin as [[= -> ->] | Hin]; cbn.
  - unfold dict_update in *. fold (dict_update (dict_set d k v) pairs); rewrite dict_update_other by assumption.
    apply dict_get_set_same.
  - now apply IH.
Qed.

Lemma combine_fst_NoDup :
  forall (A B : Type) (l : list A) (l' : list B),
  NoDup l -> NoDup (map fst (combine l l')).
Proof.
  intros A B l. induction l as [ | a l IH]; intros [ | b l'] H; cbn;
    try constructor.
  - inversion H as [ | ? ? Hnot _]; subst. intro Hin. apply Hnot.
    apply in_map_iff in Hin. destruct Hin as ([a' b'] & <- & Hin).
    eapply in_combine_l; eassumption.
  - apply IH. now inversion H.
Qed.

Lemma chain_ok_app :
  forall (h : list Namespace) (items : list (string * object)) (p : loc),
  chain_ok h -> (p < List.length h)%nat ->
  chain_ok (h ++ [MkNamespace items (Some p)]).
Proof.
  intros h its p Hc Hp e ns q Hns Hq.
  destruct (Nat.lt_ge_cases e (List.length h)) as [Hlt | Hge].
  - rewrite nth_error_app1 in Hns by assumption. eapply Hc; eassumption.
  - rewrite nth_error_app2 in Hns by assumption.
    destruct (e - List.length h)%nat as [ | d] eqn:Hd; cbn in Hns.
    + injection Hns as <-. cbn in Hq. injection Hq as <-. lia.
    + destruct d; discriminate.
Qed.

Lemma chain_ok_initially : chain_ok (namespaces build_global_environment).
Proof.
  intros [ | e] ns p H Hp; cbn in H.
  - injection H as <-. discriminate.
  - destruct e; discriminate.
Qed.

Lemma dict_get_app :
  forall (V : Type) (d d' : list (string * V)) (k : string),
  dict_get (d ++ d') k
  = match dict_get d k with
    | Some v => Some v
    | None => dict_get d' k
    end.
Proof.
  intros V d d' k. induction d as [ | [k0 v0] d IH]; cbn; [reflexivity | ].
  now destruct (k0 =? k).
Qed.

Lemma dict_get_set :
  forall (V : Type) (d : list (string * V)) (k k' : string) (v : V),
  dict_get (dict_set d k v) k' = if k =? k' then Some v else dict_get d k'.
Proof.
  intros V d k k' v. destruct (String.eqb_spec k k') as [<- | Hne].
  - apply dict_get_set_same.
  - now apply dict_set_other.
Qed.

Lemma dict_update_get :
  forall (pairs d : list (string * object)) (k : string),
  dict_get (dict_update d pairs) k
  = match dict_get (rev pairs) k with
    | Some v => Some v
    | None => dict_get d k
    end.
Proof.
  induction pairs as [ | [k0 v0] pairs IH]; intros d k; [reflexivity | ].
  change (dict_update d ((k0, v0) :: pairs))
    with (dict_update (dict_set d k0 v0) pairs).
  rewrite IH. cbn [rev]. rewrite dict_get_app, dict_get_set. cbn [dict_get].
  destruct (dict_get (rev pairs) k); [reflexivity | ].
  now destruct (k0 =? k).
Qed.

(** X14.  Names resolve lexically in the frame of a call.  In a store
    whose parents are all older namespaces, the frame made for a call of
    a function that closes over [fenv] is the next namespace.  In it a
    name under which arguments were given reads as the last of them, as
    [dict.update] leaves it when a parameter name is written twice; every
    other name, a parameter left without argument included, reads in the
    frame as it read in [fenv] before the call, and fails there as it
    failed.  The parents of the new store are older namespaces again. *)
Theorem call_frame_resolves_names_lexically :
  forall (fenv : loc) (fargs : list string) (vs : list object) (st : state)
         (x : string),
  chain_ok (namespaces st) -> (fenv < List.length (namespaces st))%nat ->
  call_frame fenv fargs vs st
  = (Ok (List.length (namespaces st)), snd (call_frame fenv fargs vs st))
  /\ fst (getitem (List.length (namespaces st)) x
            (snd (call_frame fenv fargs vs st)))
     = match dict_get (rev (combine fargs vs)) x with
       | Some v => Ok v
       | None => fst (getitem fenv x st)
       end
  /\ chain_ok (namespaces (snd (call_frame fenv fargs vs st))).
Proof.
  intros fenv fargs vs st x Hc Hfenv.
  rewrite call_frame_store. cbn [snd].
  set (runenv := List.length (namespaces st)).
  set (frame := MkNamespace (dict_update [] (combine fargs vs)) (Some fenv)).
  assert (Hframe : nth_error (namespaces st ++ [frame]) runenv = Some frame)
    by (subst runenv; rewrite nth_error_app2, Nat.sub_diag by lia; reflexivity).
  assert (Hlen : List.length (namespaces st ++ [frame]) = S runenv)
    by (rewrite length_app; cbn; subst runenv; lia).
  split; [reflexivity | split].
  - unfold getitem. cbn [fst namespaces]. rewrite Hlen.
    cbn [Namespace_getitem]. rewrite Hframe. cbn [parent items frame].
    unfold dict_in. rewrite dict_update_get. cbn [dict_get].
    destruct (dict_get (rev (combine fargs vs)) x) as [v | ];
      [reflexivity | ].
    cbn [negb andb].
    destruct (@lookup_app runenv (namespaces st) [frame] fenv x Hc Hfenv)
      as [-> ->].
    destruct (Namespace_contains runenv (namespaces st) fenv x) eqn:Hcont;
      [reflexivity | ].
    symmetry. now apply Namespace_getitem_missing.
  - now apply chain_ok_app.
Qed.

Lemma call_frame_resolves_witness :
  chain_ok (namespaces build_global_environment)
  /\ (global < List.length (namespaces build_global_environment))%nat
  /\ call_frame global ["a"; "a"; "b"] [Integer 1; Integer 2]
       build_global_environment
     = (Ok 1%nat,
        snd (call_frame global ["a"; "a"; "b"] [Integer 1; Integer 2]
               build_global_environment))
  /\ fst (getitem 1 "a"
            (snd (call_frame global ["a"; "a"; "b"] [Integer 1; Integer 2]
                    build_global_environment)))
     = Ok (Integer 2)
  /\ chain_ok
       (namespaces
          (snd (call_frame global ["a"; "a"; "b"] [Integer 1; Integer 2]
                  build_global_environment))).
Proof.
  split; [exact chain_ok_initially | ].
  split; [cbn; unfold global; lia | ].
  apply (@call_frame_resolves_names_lexically global ["a"; "a"; "b"]
           [Integer 1; Integer 2] build_global_environment "a").
  - exact chain_ok_initially.
  - cbn. unfold global. lia.
Defined.

(** ** Parents are older *)

Lemma fun_ok_le : forall (n n' : nat) (v : object),
  fun_ok n v -> (n <= n')%nat -> fun_ok n' v.
Proof. intros n n' [ | | | | | env args body | | ]; cbn; auto. lia. Qed.

Lemma all_fun_ok_le : forall (n n' : nat) (l : list object),
  all_fun_ok n l -> (n <= n')%nat -> all_fun_ok n' l.
Proof. intros n n' l H Hle v Hin. eapply fun_ok_le; eauto. Qed.

Lemma wkeeps_unit : forall (A : Type) (n0 : nat) (a : A),
  wkeeps n0 whatever (unit_ a).
Proof.
  intros A n0 a st st' r Hst Hn [= <- <-]. split; [assumption | split; [lia | ]].
  intros. exact I.
Qed.

Lemma wkeeps_unit_fun : forall (n0 : nat) (v : object),
  fun_ok n0 v -> wkeeps n0 fun_ok (unit_ v).
Proof.
  intros n0 v Hv st st' r Hst Hn [= <- <-].
  split; [assumption | split; [lia | ]].
  intros a [= <-]. eapply fun_ok_le; eassumption.
Qed.

Lemma wkeeps_lift :
  forall (A : Type) (n0 : nat) (Q : nat -> A -> Prop) (r : result A),
  (forall a, r = Ok a -> forall n, Q n a) -> wkeeps n0 Q (lift r).
Proof.
  intros A n0 Q r H st st' r' Hst Hn [= <- <-].
  split; [assumption | split; [lia | ]]. intros a Ha. now apply H.
Qed.

Lemma wkeeps_raise :
  forall (A : Type) (n0 : nat) (Q : nat -> A -> Prop) (e : exception),
  wkeeps n0 Q (raise e).
Proof. intros. apply wkeeps_lift. discriminate. Qed.

Lemma wkeeps_whatever_lift : forall (A : Type) (n0 : nat) (r : result A),
  wkeeps n0 whatever (lift r).
Proof. intros. apply wkeeps_lift. intros. exact I. Qed.

Lemma wkeeps_bind :
  forall (A B : Type) (n0 : nat) (Q : nat -> A -> Prop) (R : nat -> B -> Prop)
         (m : M A) (k : A -> M B),
  wkeeps n0 Q m ->
  (forall (a : A) (n : nat), (n0 <= n)%nat -> Q n a -> wkeeps n R (k a)) ->
  wkeeps n0 R (mbind m k).
Proof.
  intros A B n0 Q R m k Hm Hk st st' r Hst Hn H. unfold mbind in H.
  destruct (m st) as [r1 st1] eqn:Hm1.
  destruct (Hm _ _ _ Hst Hn Hm1) as (Hst1 & Hle & HQ).
  destruct r1 as [a | e | | ].
  - destruct (Hk a (List.length (namespaces st1)) ltac:(lia) (HQ a eq_refl)
                _ _ _ Hst1 (le_n _) H) as (Hst' & Hle' & HR).
    split; [assumption | split; [lia | assumption]].
  - injection H as <- <-. split; [assumption | split; [lia | discriminate]].
  - injection H as <- <-. split; [assumption | split; [lia | discriminate]].
  - injection H as <- <-. split; [assumption | split; [lia | discriminate]].
Qed.

Lemma wkeeps_weaken :
  forall (A : Type) (n0 : nat) (Q Q' : nat -> A -> Prop) (m : M A),
  wkeeps n0 Q m -> (forall n a, Q n a -> Q' n a) -> wkeeps n0 Q' m.
Proof.
  intros A n0 Q Q' m Hm HQ st st' r Hst Hn H.
  destruct (Hm _ _ _ Hst Hn H) as (Hst' & Hle & Hr).
  split; [assumption | split; [assumption | auto]].
Qed.

Lemma wkeeps_forget :
  forall (A : Type) (n0 : nat) (Q : nat -> A -> Prop) (m : M A),
  wkeeps n0 Q m -> wkeeps n0 whatever m.
Proof. intros. eapply wkeeps_weaken; [eassumption | ]. intros. exact I. Qed.

(** *** The store operations *)

Lemma wkeeps_getitem : forall (n0 : nat) (env : loc) (key : string),
  wkeeps n0 fun_ok (getitem env key).
Proof.
  intros n0 env key st st' r Hst Hn H. unfold getitem in H.
  injection H as <- <-. split; [assumption | split; [lia | ]].
  intros v Hv. destruct (Namespace_getitem_In _ _ _ _ Hv) as (e & ns & Hns & Hin).
  destruct Hst as (_ & Hitems & _). eapply Hitems; eassumption.
Qed.

Lemma wkeeps_setitem : forall (n0 : nat) (env : loc) (key : string) (v : object),
  fun_ok n0 v -> wkeeps n0 whatever (setitem env key v).
Proof.
  intros n0 env key v Hv st st' r Hst Hn H. unfold setitem in H.
  destruct (nth_error (namespaces st) env) as [ns | ] eqn:Hns.
  - injection H as <- <-. cbn [namespaces lists]. rewrite length_list_set.
    destruct Hst as (Hc & Hitems & Hlists).
    split; [ | split; [lia | intros; exact I]].
    split; [ | split]; cbn [namespaces lists]; try rewrite length_list_set.
    + intros e ns' p He Hp.
      destruct (nth_error_list_set _ _ _ _ He) as [(-> & -> & _) | [_ Hold]].
      * eapply Hc; eassumption.
      * eapply Hc; eassumption.
    + intros e ns' k w He Hin.
      destruct (nth_error_list_set _ _ _ _ He) as [(-> & -> & _) | [_ Hold]].
      * cbn in Hin. destruct (dict_set_In _ _ _ _ _ Hin) as [[= -> ->] | Hin'].
        -- eapply fun_ok_le; eassumption.
        -- eapply Hitems; eassumption.
      * eapply Hitems; eassumption.
    + exact Hlists.
  - injection H as <- <-. split; [assumption | split; [lia | intros; exact I]].
Qed.

Lemma wkeeps_new_namespace : forall (n0 : nat) (p : loc),
  (p < n0)%nat -> wkeeps n0 below (new_namespace (Some p)).
Proof.
  intros n0 p Hp st st' r Hst Hn H. unfold new_namespace in H.
  injection H as <- <-. cbn [namespaces lists]. rewrite length_app. cbn [List.length].
  destruct Hst as (Hc & Hitems & Hlists).
  split; [ | split; [lia | intros a [= <-]; unfold below; lia]].
  split; [ | split]; cbn [namespaces lists]; try rewrite length_app;
    cbn [List.length].
  - apply chain_ok_app; [assumption | lia].
  - intros e ns k v He Hin.
    destruct (Nat.lt_ge_cases e (List.length (namespaces st))) as [Hlt | Hge].
    + rewrite nth_error_app1 in He by assumption.
      eapply fun_ok_le; [eapply Hitems; eassumption | lia].
    + rewrite nth_error_app2 in He by assumption.
      destruct (e - List.length (namespaces st))%nat as [ | d]; cbn in He.
      * injection He as <-. destruct Hin.
      * destruct d; discriminate.
  - intros l elems Hl. eapply all_fun_ok_le; [eapply Hlists; eassumption | lia].
Qed.

Lemma well_formed_lists :
  forall (st : state) (ls : list (list object)) (out : string),
  well_formed st ->
  (forall l elems, nth_error ls l = Some elems ->
                   all_fun_ok (List.length (namespaces st)) elems) ->
  well_formed (MkState (namespaces st) ls out).
Proof.
  intros st ls out (Hc & Hitems & _) H. split; [ | split]; assumption.
Qed.

Lemma wkeeps_new_list : forall (n0 : nat) (elems : list object),
  all_fun_ok n0 elems -> wkeeps n0 whatever (new_list elems).
Proof.
  intros n0 elems He st st' r Hst Hn H. unfold new_list in H.
  injection H as <- <-. cbn [namespaces].
  split; [ | split; [lia | intros; exact I]].
  apply well_formed_lists; [assumption | ].
  intros l x Hl.
  destruct (Nat.lt_ge_cases l (List.length (lists st))) as [Hlt | Hge].
  - rewrite nth_error_app1 in Hl by assumption.
    destruct Hst as (_ & _ & Hlists). eapply Hlists; eassumption.
  - rewrite nth_error_app2 in Hl by assumption.
    destruct (l - List.length (lists st))%nat as [ | d]; cbn in Hl.
    + injection Hl as <-. eapply all_fun_ok_le; eassumption.
    + destruct d; discriminate.
Qed.

Lemma wkeeps_read_list : forall (n0 : nat) (l : loc),
  wkeeps n0 all_fun_ok (read_list l).
Proof.
  intros n0 l st st' r Hst Hn H. unfold read_list in H.
  destruct (nth_error (lists st) l) as [elems | ] eqn:Hl; injection H as <- <-;
    (split; [assumption | split; [lia | ]]); [ | discriminate].
  intros a [= <-]. destruct Hst as (_ & _ & Hlists). eapply Hlists; eassumption.
Qed.

Lemma wkeeps_write_list : forall (n0 : nat) (l : loc) (elems : list object),
  all_fun_ok n0 elems -> wkeeps n0 whatever (write_list l elems).
Proof.
  intros n0 l elems He st st' r Hst Hn H. unfold write_list in H.
  injection H as <- <-. cbn [namespaces].
  split; [ | split; [lia | intros; exact I]].
  apply well_formed_lists; [assumption | ].
  intros l' x Hl.
  destruct (nth_error_list_set _ _ _ _ Hl) as [(_ & -> & _) | [_ Hold]].
  - eapply all_fun_ok_le; eassumption.
  - destruct Hst as (_ & _ & Hlists). eapply Hlists; eassumption.
Qed.

Lemma wkeeps_write : forall (n0 : nat) (s : string),
  wkeeps n0 whatever (write s).
Proof.
  intros n0 s st st' r Hst Hn H. unfold write in H. injection H as <- <-.
  cbn [namespaces]. split; [ | split; [lia | intros; exact I]].
  apply well_formed_lists; [assumption | ]. now destruct Hst as (_ & _ & Hl).
Qed.

Lemma wkeeps_getval : forall (n0 : nat) (runenv : loc) (key : string),
  wkeeps n0 whatever (getval runenv key).
Proof.
  intros. unfold getval.
  eapply wkeeps_bind; [apply wkeeps_getitem | intros o n _ _].
  apply wkeeps_whatever_lift.
Qed.

Lemma wkeeps_index_of : forall (n0 : nat) (v : pyval),
  wkeeps n0 whatever (index_of v).
Proof.
  intros n0 v. unfold index_of. destruct (as_int v);
    [apply wkeeps_unit | apply wkeeps_raise].
Qed.

Lemma wkeeps_ops_get :
  forall (V : Type) (n0 : nat) (ops : list (string * V)) (key : string),
  wkeeps n0 whatever (ops_get ops key).
Proof.
  intros V n0 ops key. unfold ops_get.
  destruct (dict_get ops key); [apply wkeeps_unit | apply wkeeps_raise].
Qed.

Lemma wkeeps_mapM :
  forall (A : Type) (f : A -> M object) (l : list A) (n0 : nat),
  (forall (a : A) (n : nat), (n0 <= n)%nat -> wkeeps n fun_ok (f a)) ->
  wkeeps n0 all_fun_ok (mapM f l).
Proof.
  intros A f l. induction l as [ | a l IH]; intros n0 Hf; cbn.
  - apply wkeeps_lift. intros vs [= <-] n v [].
  - eapply wkeeps_bind; [apply Hf; lia | intros b n Hn Hb].
    eapply wkeeps_bind.
    + apply IH. intros a' n' Hn'. apply Hf. lia.
    + intros bs n' Hn' Hbs. intros st st' r Hst Hlen [= <- <-].
      split; [assumption | split; [lia | ]].
      intros vs [= <-] v [<- | Hin].
      * eapply fun_ok_le; [eassumption | lia].
      * eapply fun_ok_le; [now apply Hbs | lia].
Qed.

Lemma wkeeps_update :
  forall (runenv : loc) (pairs : list (string * object)) (n0 : nat),
  (forall k v, In (k, v) pairs -> fun_ok n0 v) ->
  wkeeps n0 whatever (update runenv pairs).
Proof.
  intros runenv pairs. induction pairs as [ | [k v] pairs IH]; intros n0 H; cbn.
  - apply wkeeps_unit.
  - eapply wkeeps_bind.
    + apply wkeeps_setitem. apply (H k v). now left.
    + intros _ n Hn _. apply IH. intros k' v' Hin.
      eapply fun_ok_le; [apply (H k' v'); now right | assumption].
Qed.

Lemma all_fun_ok_list_set :
  forall (n : nat) (elems : list object) (k : nat) (v : object),
  all_fun_ok n elems -> fun_ok n v -> all_fun_ok n (list_set elems k v).
Proof.
  intros n elems k v He Hv w Hin.
  destruct (In_nth_error _ _ Hin) as [j Hj].
  destruct (nth_error_list_set _ _ _ _ Hj) as [(_ & -> & _) | [_ Hold]].
  - assumption.
  - apply He. eapply nth_error_In; eassumption.
Qed.

Lemma all_fun_ok_list_insert :
  forall (n : nat) (elems : list object) (k : nat) (v : object),
  all_fun_ok n elems -> fun_ok n v -> all_fun_ok n (list_insert elems k v).
Proof.
  intros n elems k v He Hv w Hin. unfold list_insert in Hin.
  apply in_app_or in Hin. destruct Hin as [Hin | [<- | Hin]].
  - apply He. rewrite <- (firstn_skipn k elems). apply in_or_app. now left.
  - assumption.
  - apply He. rewrite <- (firstn_skipn k elems). apply in_or_app. now right.
Qed.

Lemma wkeeps_eval_const : forall (n0 : nat) (t : Token),
  wkeeps n0 fun_ok (eval_const t).
Proof.
  intros n0 t. unfold eval_const.
  repeat match goal with
         | |- wkeeps _ _ (if ?b then _ else _) => destruct b
         end;
    first [ now apply wkeeps_unit_fun | apply wkeeps_raise
          | apply wkeeps_lift; discriminate ].
Qed.

Ltac wk_leaf :=
  first
    [ apply wkeeps_getval | apply wkeeps_getitem | apply wkeeps_index_of
    | apply wkeeps_raise | apply wkeeps_write | apply wkeeps_read_list
    | apply wkeeps_ops_get | apply wkeeps_eval_const
    | apply wkeeps_whatever_lift
    | apply wkeeps_lift; discriminate
    | apply wkeeps_unit_fun; exact I
    | apply wkeeps_unit ].

Ltac wk_step :=
  first
    [ wk_leaf
    | eapply wkeeps_bind; [ wk_leaf | intros ? ? ? ? ]
    | match goal with
      | |- wkeeps _ _ (match ?x with _ => _ end) => destruct x
      | |- wkeeps _ _ (if ?b then _ else _) => destruct b
      end ].

Lemma wkeeps_run_primitive : forall (n0 : nat) (runenv : loc) (f : primitive),
  wkeeps n0 fun_ok (run_primitive runenv f).
Proof.
  intros n0 runenv f. destruct f; cbn [run_primitive].
  - unfold print_body.
    eapply wkeeps_bind; [apply wkeeps_getitem | intros o n1 Hn1 _].
    eapply wkeeps_bind with (Q := whatever).
    + destruct o; repeat wk_step.
    + intros s n2 Hn2 _. repeat wk_step.
  - unfold add_body. repeat wk_step.
  - unfold sub_body. repeat wk_step.
  - unfold lt_body. repeat wk_step.
  - unfold eq_body. repeat wk_step.
  - unfold geti_body.
    eapply wkeeps_bind; [apply wkeeps_getval | intros seq n1 Hn1 _].
    eapply wkeeps_bind; [apply wkeeps_getval | intros i n2 Hn2 _].
    destruct seq; try apply wkeeps_raise.
    + repeat wk_step.
    + eapply wkeeps_bind; [apply wkeeps_read_list | intros elems n3 Hn3 He].
      eapply wkeeps_bind; [apply wkeeps_index_of | intros i' n4 Hn4 _].
      destruct (py_index (List.length elems) i') as [k | ];
        [ | apply wkeeps_raise].
      destruct (nth_error elems k) as [o | ] eqn:Ho; [ | apply wkeeps_raise].
      apply wkeeps_unit_fun. eapply fun_ok_le; [ | eassumption].
      apply He. eapply nth_error_In; eassumption.
  - unfold seti_body.
    eapply wkeeps_bind; [apply wkeeps_getitem | intros v n1 Hn1 Hv].
    eapply wkeeps_bind; [apply wkeeps_getval | intros seq n2 Hn2 _].
    eapply wkeeps_bind; [apply wkeeps_getval | intros i n3 Hn3 _].
    destruct seq; try apply wkeeps_raise.
    eapply wkeeps_bind; [apply wkeeps_read_list | intros elems n4 Hn4 He].
    eapply wkeeps_bind; [apply wkeeps_index_of | intros i' n5 Hn5 _].
    destruct (py_index (List.length elems) i') as [k | ]; [ | apply wkeeps_raise].
    eapply wkeeps_bind; [ | intros _ n6 _ _; now apply wkeeps_unit_fun].
    apply wkeeps_write_list. apply all_fun_ok_list_set.
    + eapply all_fun_ok_le; eassumption.
    + eapply fun_ok_le; [eassumption | lia].
  - unfold len_body. repeat wk_step.
  - unfold insert_body.
    eapply wkeeps_bind; [apply wkeeps_getval | intros seq n1 Hn1 _].
    destruct seq; try apply wkeeps_raise.
    eapply wkeeps_bind; [apply wkeeps_getval | intros i n2 Hn2 _].
    eapply wkeeps_bind; [apply wkeeps_getitem | intros v n3 Hn3 Hv].
    eapply wkeeps_bind; [apply wkeeps_read_list | intros elems n4 Hn4 He].
    eapply wkeeps_bind; [apply wkeeps_index_of | intros i' n5 Hn5 _].
    eapply wkeeps_bind; [ | intros _ n6 _ _; now apply wkeeps_unit_fun].
    apply wkeeps_write_list. apply all_fun_ok_list_insert.
    + eapply all_fun_ok_le; eassumption.
    + eapply fun_ok_le; [eassumption | lia].
Qed.

Section WellFormedClosures.

Variable execute : loc -> list node -> M object.
Variable env : loc.
Variable eval_expr : node -> M object.
Variable exec_statement : node -> M object.
Variable exec_while : node -> M object.

Hypothesis w_execute :
  forall (runenv : loc) (block : list node) (n : nat),
    (runenv < n)%nat -> wkeeps n fun_ok (execute runenv block).
Hypothesis w_eval :
  forall (e : node) (n : nat), (env < n)%nat -> wkeeps n fun_ok (eval_expr e).
Hypothesis w_exec :
  forall (s : node) (n : nat), (env < n)%nat -> wkeeps n fun_ok (exec_statement s).
Hypothesis w_while :
  forall (s : node) (n : nat), (env < n)%nat -> wkeeps n fun_ok (exec_while s).

Lemma wkeeps_exec_block : forall (block : list node) (n : nat),
  (env < n)%nat -> wkeeps n fun_ok (exec_block exec_statement block).
Proof.
  induction block as [ | s block IH]; intros n Hn; cbn.
  - now apply wkeeps_unit_fun.
  - eapply wkeeps_bind; [now apply w_exec | intros ret n1 Hn1 Hret].
    destruct (host_bool ret); [now apply wkeeps_unit_fun | apply IH; lia].
Qed.

Lemma wkeeps_eval_list : forall (l : list node) (n : nat),
  (env < n)%nat -> wkeeps n all_fun_ok (mapM eval_expr l).
Proof.
  intros l n Hn. apply wkeeps_mapM. intros a n' Hn'. apply w_eval. lia.
Qed.

Lemma wkeeps_eval_func_call : forall (id : Token) (args : list node) (n : nat),
  (env < n)%nat ->
  wkeeps n fun_ok (eval_func_call execute env eval_expr id args).
Proof.
  intros id args n Hn. unfold eval_func_call.
  eapply wkeeps_bind; [apply wkeeps_getitem | intros func n1 Hn1 Hfunc].
  eapply wkeeps_bind; [apply wkeeps_eval_list; lia | intros vs n2 Hn2 Hvs].
  destruct func as [ | | | | | fenv fargs body | | ]; try apply wkeeps_raise.
  cbn in Hfunc.
  eapply wkeeps_bind;
    [apply wkeeps_new_namespace; lia | intros runenv n3 Hn3 Hr].
  eapply wkeeps_bind.
  - apply wkeeps_update. intros k v Hin.
    eapply fun_ok_le; [apply Hvs; eapply in_combine_r; eassumption | lia].
  - intros _ n4 Hn4 _. destruct body as [f | block].
    + apply wkeeps_run_primitive.
    + apply w_execute. unfold below in Hr. lia.
Qed.

Lemma wkeeps_eval_expr_rule : forall (e : node) (n : nat),
  (env < n)%nat -> wkeeps n fun_ok (eval_expr_rule execute env eval_expr e).
Proof.
  intros e n Hn.
  destruct e; cbn [eval_expr_rule]; try apply wkeeps_raise;
    try apply wkeeps_eval_const; try (now apply wkeeps_eval_func_call).
  - apply wkeeps_getitem.
  - unfold eval_seq.
    eapply wkeeps_bind; [now apply wkeeps_eval_list | intros vs n1 Hn1 Hvs].
    eapply wkeeps_bind; [now apply wkeeps_new_list | intros l n2 Hn2 _].
    now apply wkeeps_unit_fun.
  - unfold eval_arith.
    eapply wkeeps_bind; [now apply w_eval | intros l n1 Hn1 _].
    eapply wkeeps_bind; [apply wkeeps_whatever_lift | intros l' n2 Hn2 _].
    eapply wkeeps_bind; [apply w_eval; lia | intros r n3 Hn3 _].
    repeat wk_step.
  - unfold eval_arith.
    eapply wkeeps_bind; [now apply w_eval | intros l n1 Hn1 _].
    eapply wkeeps_bind; [apply wkeeps_whatever_lift | intros l' n2 Hn2 _].
    eapply wkeeps_bind; [apply w_eval; lia | intros r n3 Hn3 _].
    repeat wk_step.
  - unfold eval_or.
    eapply wkeeps_bind; [now apply w_eval | intros l n1 Hn1 Hl].
    eapply wkeeps_bind; [apply wkeeps_whatever_lift | intros b n2 Hn2 _].
    destruct b.
    + apply wkeeps_unit_fun. eapply fun_ok_le; eassumption.
    + eapply wkeeps_bind; [apply w_eval; lia | intros r n3 Hn3 Hr].
      eapply wkeeps_bind; [apply wkeeps_whatever_lift | intros b' n4 Hn4 _].
      destruct b'; apply wkeeps_unit_fun; [ | exact I].
      eapply fun_ok_le; eassumption.
  - unfold eval_and.
    eapply wkeeps_bind; [now apply w_eval | intros l n1 Hn1 Hl].
    eapply wkeeps_bind; [apply wkeeps_whatever_lift | intros b n2 Hn2 _].
    destruct b; cbn [negb]; [ | now apply wkeeps_unit_fun].
    eapply wkeeps_bind; [apply w_eval; lia | intros r n3 Hn3 Hr].
    eapply wkeeps_bind; [apply wkeeps_whatever_lift | intros b' n4 Hn4 _].
    destruct b'; cbn [negb]; apply wkeeps_unit_fun; [ | exact I].
    eapply fun_ok_le; eassumption.
  - unfold eval_not.
    eapply wkeeps_bind; [now apply w_eval | intros r n1 Hn1 _].
    repeat wk_step.
  - unfold eval_comp.
    eapply wkeeps_bind; [now apply w_eval | intros l n1 Hn1 _].
    eapply wkeeps_bind; [apply wkeeps_whatever_lift | intros l' n2 Hn2 _].
    eapply wkeeps_bind; [apply w_eval; lia | intros r n3 Hn3 _].
    repeat wk_step.
  - unfold eval_sign.
    eapply wkeeps_bind; [now apply w_eval | intros r n1 Hn1 _].
    repeat wk_step.
Qed.

Lemma wkeeps_exec_statement_rule : forall (s : node) (n : nat),
  (env < n)%nat ->
  wkeeps n fun_ok
    (exec_statement_rule execute env eval_expr exec_statement exec_while s).
Proof.
  intros s n Hn.
  destruct s; cbn [exec_statement_rule]; try (now apply wkeeps_unit_fun).
  - unfold exec_if.
    eapply wkeeps_bind; [now apply w_eval | intros c n1 Hn1 _].
    eapply wkeeps_bind; [apply wkeeps_whatever_lift | intros b n2 Hn2 _].
    destruct b;
      (eapply wkeeps_bind; [apply wkeeps_exec_block; lia | intros ret n3 Hn3 Hret];
       destruct (host_bool ret); apply wkeeps_unit_fun; [ | exact I];
       assumption).
  - now apply w_while.
  - eapply wkeeps_bind; [ | intros _ n1 _ _; now apply wkeeps_unit_fun].
    unfold exec_assign.
    eapply wkeeps_bind; [now apply w_eval | intros v n1 Hn1 Hv].
    now apply wkeeps_setitem.
  - eapply wkeeps_bind; [ | intros _ n1 _ _; now apply wkeeps_unit_fun].
    now apply wkeeps_eval_func_call.
  - eapply wkeeps_bind; [ | intros _ n1 _ _; now apply wkeeps_unit_fun].
    unfold exec_func_def. apply wkeeps_setitem. exact Hn.
  - unfold exec_return. now apply w_eval.
Qed.

Lemma wkeeps_exec_while_rule : forall (again : M object) (s : node) (n : nat),
  (env < n)%nat ->
  (forall n' : nat, (env < n')%nat -> wkeeps n' fun_ok again) ->
  wkeeps n fun_ok (exec_while_rule eval_expr exec_statement again s).
Proof.
  intros again s n Hn Hagain.
  destruct s; cbn [exec_while_rule]; try apply wkeeps_raise.
  eapply wkeeps_bind; [now apply w_eval | intros c n1 Hn1 _].
  eapply wkeeps_bind; [apply wkeeps_whatever_lift | intros b n2 Hn2 _].
  destruct b; [ | now apply wkeeps_unit_fun].
  eapply wkeeps_bind; [apply wkeeps_exec_block; lia | intros ret n3 Hn3 Hret].
  destruct (host_bool ret); [now apply wkeeps_unit_fun | apply Hagain; lia].
Qed.

End WellFormedClosures.

Lemma wkeeps_closures : forall fuel : nat,
  (forall env e n, (env < n)%nat -> wkeeps n fun_ok (eval_expr fuel env e))
  /\ (forall env s n, (env < n)%nat -> wkeeps n fun_ok (exec_statement fuel env s))
  /\ (forall env s n, (env < n)%nat -> wkeeps n fun_ok (exec_while fuel env s)).
Proof.
  induction fuel as [ | fuel (IHe & IHs & IHw)].
  - split; [ | split]; intros; apply wkeeps_lift; discriminate.
  - assert (Hbody : forall runenv block n,
              (runenv < n)%nat ->
              wkeeps n fun_ok (exec_block (exec_statement fuel runenv) block))
      by (intros runenv block n Hr;
          apply wkeeps_exec_block with (env := runenv); auto).
    split; [ | split]; intros env x n Hn;
      cbn [eval_expr exec_statement exec_while].
    + apply wkeeps_eval_expr_rule; auto.
    + apply wkeeps_exec_statement_rule; auto.
    + apply wkeeps_exec_while_rule with (env := env); auto.
Qed.

Lemma wkeeps_exec_program :
  forall (Iter : Type) (next : Iter -> result (option (Token * Iter)))
         (fuel k : nat) (env : loc) (g : parse_generator Iter) (n : nat),
  (env < n)%nat -> wkeeps n fun_ok (exec_program next fuel k env g).
Proof.
  intros Iter next fuel k env. induction k as [ | k IH]; intros g n Hn; cbn.
  - apply wkeeps_lift. discriminate.
  - intros st st' r Hst Hlen H.
    destruct (parse_next next fuel g) as [[[s g'] | ] | e | | ];
      try (injection H as <- <-;
           split; [assumption | split; [lia | ]];
           first [discriminate | intros a [= <-]; exact I]).
    revert st st' r Hst Hlen H.
    change (wkeeps n fun_ok
              (ret <- exec_statement fuel env s ;;
               if host_bool ret then unit_ ret
               else exec_program next fuel k env g')).
    eapply wkeeps_bind;
      [apply (proj1 (proj2 (wkeeps_closures fuel))); exact Hn
      | intros ret n1 Hn1 Hret].
    destruct (host_bool ret); [now apply wkeeps_unit_fun | apply IH; lia].
Qed.

Lemma well_formed_initially : well_formed build_global_environment.
Proof.
  split; [exact chain_ok_initially | split].
  - intros [ | e] ns k v H Hin; cbn in H.
    + injection H as <-. cbn in Hin.
      repeat (destruct Hin as [[= <- <-] | Hin]; [cbn; unfold global; lia | ]).
      destruct Hin.
    + destruct e; discriminate.
  - intros [ | l] elems H; discriminate.
Qed.

(** More turns than there are namespaces change no lookup. *)
Lemma lookup_fuel :
  forall (h : list Namespace) (key : string),
  chain_ok h ->
  forall (n m : nat) (e : loc),
  (e < n)%nat -> (e < m)%nat ->
  Namespace_contains n h e key = Namespace_contains m h e key
  /\ Namespace_getitem n h e key = Namespace_getitem m h e key.
Proof.
  intros h key Hc. induction n as [ | n IH]; intros m e Hn Hm; [lia | ].
  destruct m as [ | m]; [lia | ]. cbn.
  destruct (nth_error h e) as [ns | ] eqn:Hns; [ | now split].
  destruct (parent ns) as [p | ] eqn:Hp; [ | now split].
  pose proof (Hc _ _ _ Hns Hp) as Hlt.
  destruct (IH m p ltac:(lia) ltac:(lia)) as [-> ->]. now split.
Qed.

Lemma lookup_beyond :
  forall (h : list Namespace) (key : string) (n : nat) (e : loc),
  (List.length h <= e)%nat ->
  Namespace_contains n h e key = false
  /\ Namespace_getitem n h e key = Raise (Host (KeyError key)).
Proof.
  intros h key n e He.
  assert (Hnone : nth_error h e = None) by now apply nth_error_None.
  destruct n; cbn; rewrite ?Hnone; now split.
Qed.

(** X15.  Lookups end.  In the store that interpretation leaves, however
    far it got, the parent of every namespace is an older namespace and
    every function closes over a namespace that exists; so the walk up
    the parents, from whatever namespace and for whatever name, is over
    within as many steps as there are namespaces: more steps change
    neither [in] nor the subscript. *)
Theorem parents_are_older_in_every_store :
  forall (fuel : nat) (text : string) (more : nat) (e : loc) (key : string),
  let st := snd (interpreter fuel text) in
  let n := List.length (namespaces st) in
  well_formed st
  /\ Namespace_contains (n + more) (namespaces st) e key
     = Namespace_contains n (namespaces st) e key
  /\ Namespace_getitem (n + more) (namespaces st) e key
     = Namespace_getitem n (namespaces st) e key.
Proof.
  intros fuel text more e key st n.
  assert (Hst : well_formed st).
  { subst st. unfold interpreter.
    destruct (exec_program tokenizer_next fuel fuel global
                (parse (tokenize text)) build_global_environment)
      as [r st'] eqn:H.
    refine (proj1 (@wkeeps_exec_program tokenizer tokenizer_next fuel fuel
                     global (parse (tokenize text)) 1 _ _ _ _
                     well_formed_initially _ H)); cbn; unfold global; lia. }
  split; [exact Hst | ]. destruct Hst as (Hc & _).
  destruct (Nat.lt_ge_cases e n) as [Hlt | Hge].
  - apply lookup_fuel; [assumption | lia | assumption].
  - destruct (@lookup_beyond (namespaces st) key (n + more) e Hge) as [-> ->].
    destruct (@lookup_beyond (namespaces st) key n e Hge) as [-> ->].
    now split.
Qed.

(** ** The generator and the list of its statements *)

Lemma exec_program_parsed :
  forall (Iter : Type) (next : Iter -> result (option (Token * Iter)))
         (fuel n : nat) (env : loc) (g : parse_generator Iter)
         (block : list node) (st : state),
  parse_all next fuel n g = Ok block ->
  exec_program next fuel n env g st = execute fuel env block st.
Proof.
  intros Iter next fuel n env. induction n as [ | n IH];
    intros g block st H; cbn in H; [discriminate | ].
  cbn [exec_program].
  destruct (parse_next next fuel g) as [[[s g'] | ] | e | | ]; cbn in H;
    try discriminate.
  - destruct (parse_all next fuel n g') as [ss | e | | ] eqn:Hall; cbn in H;
      try discriminate.
    injection H as <-. unfold execute. cbn [exec_block]. unfold mbind.
    destruct (exec_statement fuel env s st) as [[ret | e | | ] st1];
      try reflexivity.
    destruct (host_bool ret); [reflexivity | ].
    now apply IH.
  - injection H as <-. reflexivity.
Qed.

(** X16.  When the parser's generator gives all its statements without
    error, executing it as [interpreter] does, a statement parsed only
    when the one before has been executed, is executing the list of
    those statements: the same outcome and the same store. *)
Theorem generator_runs_as_its_list_of_statements :
  forall (Iter : Type) (next : Iter -> result (option (Token * Iter)))
         (fuel n : nat) (env : loc) (g : parse_generator Iter)
         (block : list node) (st : state),
  parse_all next fuel n g = Ok block ->
  exec_program next fuel n env g st = execute fuel env block st.
Proof.
  intros Iter next fuel n env g block st H. now apply exec_program_parsed.
Qed.

Lemma generator_runs_witness :
  exec_program list_next 5 3 global
    (parse [ident "x"; assign; int_tok "1"; ident "print";
            MkToken "open-paren" "("; ident "x"; MkToken "close-paren" ")"])
    build_global_environment
  = execute 5 global
      [AssignmentStmnt (ident "x") (ConstantExpr (int_tok "1"));
       FunctionCall (ident "print") [VariableExpr (ident "x")]]
      build_global_environment.
Proof.
  apply (@generator_runs_as_its_list_of_statements (list Token) list_next 5 3
           global
           (parse [ident "x"; assign; int_tok "1"; ident "print";
                   MkToken "open-paren" "("; ident "x";
                   MkToken "close-paren" ")"])
           [AssignmentStmnt (ident "x") (ConstantExpr (int_tok "1"));
            FunctionCall (ident "print") [VariableExpr (ident "x")]]
           build_global_environment).
  reflexivity.
Defined.

(** ** The bound of the evaluator *)

Lemma extends_refl : forall (A : Type) (m : M A), extends m m.
Proof. intros A m st _. reflexivity. Qed.

Lemma extends_bind :
  forall (A B : Type) (m m' : M A) (k k' : A -> M B),
  extends m m' -> (forall a : A, extends (k a) (k' a)) ->
  extends (mbind m k) (mbind m' k').
Proof.
  intros A B m m' k k' Hm Hk st H. unfold mbind in *.
  assert (Hne : fst (m st) <> OutOfFuel)
    by (intro Hc; apply H; destruct (m st) as [[a | e | | ] st1]; cbn in Hc;
        try discriminate; reflexivity).
  rewrite (Hm st Hne).
  destruct (m st) as [[a | e | | ] st1]; try reflexivity.
  now apply Hk.
Qed.

Lemma extends_mapM :
  forall (A B : Type) (f f' : A -> M B) (l : list A),
  (forall a : A, extends (f a) (f' a)) -> extends (mapM f l) (mapM f' l).
Proof.
  intros A B f f' l Hf. induction l as [ | a l IH]; cbn.
  - apply extends_refl.
  - apply extends_bind; [apply Hf | intro b].
    apply extends_bind; [exact IH | intro bs]. apply extends_refl.
Qed.

Section ExtendsClosures.

Variable execute : loc -> list node -> M object.
Variable execute' : loc -> list node -> M object.
Variable env : loc.
Variable eval_expr : node -> M object.
Variable eval_expr' : node -> M object.
Variable exec_statement : node -> M object.
Variable exec_statement' : node -> M object.
Variable exec_while : node -> M object.
Variable exec_while' : node -> M object.

Hypothesis e_execute :
  forall (runenv : loc) (block : list node),
    extends (execute runenv block) (execute' runenv block).
Hypothesis e_eval : forall e : node, extends (eval_expr e) (eval_expr' e).
Hypothesis e_exec :
  forall s : node, extends (exec_statement s) (exec_statement' s).
Hypothesis e_while : forall s : node, extends (exec_while s) (exec_while' s).

Lemma extends_exec_block : forall block : list node,
  extends (exec_block exec_statement block) (exec_block exec_statement' block).
Proof.
  induction block as [ | s block IH]; cbn.
  - apply extends_refl.
  - apply extends_bind; [apply e_exec | intro ret].
    destruct (host_bool ret); [apply extends_refl | exact IH].
Qed.

Ltac ext_step :=
  first
    [ apply e_eval | apply extends_exec_block
    | apply extends_mapM; intro
    | apply extends_bind; [ | intro ]
    | match goal with
      | |- extends (match ?x with _ => _ end) _ => destruct x
      | |- extends (if ?b then _ else _) _ => destruct b
      end
    | apply extends_refl ].

Lemma extends_eval_func_call : forall (id : Token) (args : list node),
  extends (eval_func_call execute env eval_expr id args)
          (eval_func_call execute' env eval_expr' id args).
Proof.
  intros id args. unfold eval_func_call.
  apply extends_bind; [apply extends_refl | intro func].
  apply extends_bind; [apply extends_mapM; apply e_eval | intro vs].
  destruct func as [ | | | | | fenv fargs body | | ]; try apply extends_refl.
  apply extends_bind; [apply extends_refl | intro runenv].
  apply extends_bind; [apply extends_refl | intros _].
  destruct body; [apply extends_refl | apply e_execute].
Qed.

Lemma extends_eval_expr_rule : forall e : node,
  extends (eval_expr_rule execute env eval_expr e)
          (eval_expr_rule execute' env eval_expr' e).
Proof.
  intro e. destruct e; cbn [eval_expr_rule]; try apply extends_refl;
    try apply extends_eval_func_call;
    unfold eval_seq, eval_or, eval_and, eval_not, eval_comp, eval_arith,
      eval_sign;
    repeat ext_step.
Qed.

Lemma extends_exec_statement_rule : forall s : node,
  extends
    (exec_statement_rule execute env eval_expr exec_statement exec_while s)
    (exec_statement_rule execute' env eval_expr' exec_statement' exec_while' s).
Proof.
  intro s. destruct s; cbn [exec_statement_rule]; try apply extends_refl;
    try apply e_while;
    unfold exec_if, exec_return, exec_assign, exec_func_def;
    repeat first [ apply extends_eval_func_call | ext_step ].
Qed.

Lemma extends_exec_while_rule : forall (again again' : M object) (s : node),
  extends again again' ->
  extends (exec_while_rule eval_expr exec_statement again s)
          (exec_while_rule eval_expr' exec_statement' again' s).
Proof.
  intros again again' s Hagain. destruct s; cbn [exec_while_rule];
    try apply extends_refl.
  repeat first [ assumption | ext_step ].
Qed.

End ExtendsClosures.

Lemma extends_closures : forall fuel : nat,
  (forall env e, extends (eval_expr fuel env e) (eval_expr (S fuel) env e))
  /\ (forall env s,
        extends (exec_statement fuel env s) (exec_statement (S fuel) env s))
  /\ (forall env s,
        extends (exec_while fuel env s) (exec_while (S fuel) env s)).
Proof.
  induction fuel as [ | fuel (IHe & IHs & IHw)].
  - split; [ | split]; intros env x st H; now elim H.
  - assert (Hbody : forall runenv block,
              extends (exec_block (exec_statement fuel runenv) block)
                      (exec_block (exec_statement (S fuel) runenv) block))
      by (intros; apply extends_exec_block; auto).
    split; [ | split]; intros env x.
    + change (extends
                (eval_expr_rule
                   (fun runenv block =>
                      exec_block (exec_statement fuel runenv) block)
                   env (eval_expr fuel env) x)
                (eval_expr_rule
                   (fun runenv block =>
                      exec_block (exec_statement (S fuel) runenv) block)
                   env (eval_expr (S fuel) env) x)).
      apply extends_eval_expr_rule; auto.
    + change (extends
                (exec_statement_rule
                   (fun runenv block =>
                      exec_block (exec_statement fuel runenv) block)
                   env (eval_expr fuel env) (exec_statement fuel env)
                   (exec_while fuel env) x)
                (exec_statement_rule
                   (fun runenv block =>
                      exec_block (exec_statement (S fuel) runenv) block)
                   env (eval_expr (S fuel) env) (exec_statement (S fuel) env)
                   (exec_while (S fuel) env) x)).
      apply extends_exec_statement_rule; auto.
    + change (extends
                (exec_while_rule (eval_expr fuel env) (exec_statement fuel env)
                   (exec_while fuel env x) x)
                (exec_while_rule (eval_expr (S fuel) env)
                   (exec_statement (S fuel) env)
                   (exec_while (S fuel) env x) x)).
      apply extends_exec_while_rule; auto.
Qed.

Lemma extends_more : forall (fuel more : nat),
  (forall env e, extends (eval_expr fuel env e) (eval_expr (fuel + more) env e))
  /\ (forall env s,
        extends (exec_statement fuel env s) (exec_statement (fuel + more) env s)).
Proof.
  intros fuel more. induction more as [ | more [IHe IHs]].
  - rewrite Nat.add_0_r. split; intros; apply extends_refl.
  - rewrite <- plus_n_Sm.
    destruct (extends_closures (fuel + more)) as (He & Hs & _).
    split; intros env x st H.
    + rewrite <- (IHe env x st H). apply He. now rewrite (IHe env x st H).
    + rewrite <- (IHs env x st H). apply Hs. now rewrite (IHs env x st H).
Qed.

(** X17.  The bound on the depth of the recursion and on the turns of
    the loops decides nothing but whether a run is cut short: an
    expression or a statement that ends within a bound, with a value or
    with an exception, ends in the same way and in the same store within
    every larger bound. *)
Theorem finished_runs_do_not_depend_on_the_bound :
  forall (fuel more : nat) (env : loc) (x : node) (st : state),
  (fst (eval_expr fuel env x st) = OutOfFuel
   \/ eval_expr (fuel + more) env x st = eval_expr fuel env x st)
  /\ (fst (exec_statement fuel env x st) = OutOfFuel
      \/ exec_statement (fuel + more) env x st = exec_statement fuel env x st).
Proof.
  intros fuel more env x st.
  destruct (extends_more fuel more) as [He Hs].
  split.
  - destruct (eval_expr fuel env x st) as [[v | e | | ] st'] eqn:H;
      try (right; rewrite <- H; apply He; rewrite H; discriminate).
    now left.
  - destruct (exec_statement fuel env x st) as [[v | e | | ] st'] eqn:H;
      try (right; rewrite <- H; apply Hs; rewrite H; discriminate).
    now left.
Qed.

(** ** The end of a loop *)

(** X18.  A loop that ends with nothing to hand on has ended on its
    test: the store it leaves is the store in which its condition was
    last evaluated, and the condition was not truthy there.  However the
    body ended, nothing else ends the loop without a value. *)
Theorem loop_without_value_ends_on_a_false_test :
  forall (fuel : nat) (env : loc) (cond : node) (do : list node)
         (st st' : state),
  exec_while fuel env (WhileStmnt cond do) st = (Ok NoneObject, st') ->
  exists (fuel' : nat) (st0 : state) (c : object),
    eval_expr fuel' env cond st0 = (Ok c, st')
    /\ Execute.true c = Ok false.
Proof.
  induction fuel as [ | fuel IH]; intros env cond do st st' H;
    [discriminate | ].
  cbn [exec_while exec_while_rule] in H. unfold mbind at 1 in H.
  destruct (eval_expr fuel env cond st) as [[c | e | | ] st1] eqn:Hc;
    try discriminate.
  unfold mbind at 1, lift at 1 in H.
  destruct (Execute.true c) as [[ | ] | e | | ] eqn:Hb; try discriminate.
  - unfold mbind in H.
    destruct (exec_block (exec_statement fuel env) do st1)
      as [[ret | e | | ] st2]; try discriminate.
    destruct (host_bool ret) eqn:Hret.
    + injection H as -> <-. discriminate.
    + eapply IH; eassumption.
  - injection H as <-. exists fuel, st, c. now split.
Qed.

Lemma loop_without_value_witness :
  exists (fuel' : nat) (st0 : state) (c : object),
    eval_expr fuel' global (ConstantExpr boolean_false) st0
    = (Ok c, build_global_environment)
    /\ Execute.true c = Ok false.
Proof.
  apply (@loop_without_value_ends_on_a_false_test 2 global
           (ConstantExpr boolean_false) [print_call "never"]
           build_global_environment build_global_environment).
  reflexivity.
Defined.

(** ** Primitives and operators *)

Lemma primitive_binary :
  forall (A : Type) (runenv : loc) (st : state) (l r : object)
         (f : pyval -> pyval -> result A) (wrap : A -> object),
  binds st runenv "lhs" l -> binds st runenv "rhs" r ->
  (lhs <- getval runenv "lhs" ;; rhs <- getval runenv "rhs" ;;
   z <- lift (f lhs rhs) ;; unit_ (wrap z)) st
  = (rbind (val_of l)
       (fun l' => rbind (val_of r)
                    (fun r' => rbind (f l' r') (fun z => Ok (wrap z)))), st).
Proof.
  intros A runenv st l r f wrap Hl Hr. unfold getval, mbind, lift, unit_.
  rewrite (getitem_binds Hl). destruct (val_of l) as [l' | e | | ]; try reflexivity.
  rewrite (getitem_binds Hr). destruct (val_of r) as [r' | e | | ]; try reflexivity.
  cbn [rbind]. now destruct (f l' r').
Qed.

Lemma eval_arith_binary :
  forall (fuel : nat) (env : loc) (op : Token) (L R : node) (st : state)
         (l r : object) (f : pyval -> pyval -> result Z),
  eval_expr fuel env L st = (Ok l, st) ->
  eval_expr fuel env R st = (Ok r, st) ->
  dict_get arith_ops (type op) = Some f ->
  eval_expr (S fuel) env (AddExpr op L R) st
  = (rbind (val_of l)
       (fun l' => rbind (val_of r)
                    (fun r' => rbind (f l' r') (fun z => Ok (Integer z)))), st).
Proof.
  intros fuel env op L R st l r f HL HR Hf.
  cbn [eval_expr eval_expr_rule]. unfold eval_arith, ops_get. rewrite Hf.
  unfold mbind, lift, unit_.
  rewrite HL. destruct (val_of l) as [l' | e | | ]; try reflexivity.
  rewrite HR. destruct (val_of r) as [r' | e | | ]; try reflexivity.
  cbn [rbind]. now destruct (f l' r').
Qed.

Lemma eval_comp_binary :
  forall (fuel : nat) (env : loc) (op : Token) (L R : node) (st : state)
         (l r : object) (f : pyval -> pyval -> result bool),
  eval_expr fuel env L st = (Ok l, st) ->
  eval_expr fuel env R st = (Ok r, st) ->
  dict_get comp_ops (type op) = Some f ->
  eval_expr (S fuel) env (CompExpr op L R) st
  = (rbind (val_of l)
       (fun l' => rbind (val_of r)
                    (fun r' => rbind (f l' r') (fun z => Ok (Boolean z)))), st).
Proof.
  intros fuel env op L R st l r f HL HR Hf.
  cbn [eval_expr eval_expr_rule]. unfold eval_comp, ops_get. rewrite Hf.
  unfold mbind, lift, unit_.
  rewrite HL. destruct (val_of l) as [l' | e | | ]; try reflexivity.
  rewrite HR. destruct (val_of r) as [r' | e | | ]; try reflexivity.
  cbn [rbind]. now destruct (f l' r').
Qed.

(** X19.  The primitives [add], [sub], [lt] and [eq] are the operators
    [+], [-], [<] and [==]: called in a frame that binds [lhs] and [rhs]
    to the values of two operands that leave the store as it is, each
    primitive gives what the operator gives on the operands, the same
    value or the same exception, for operands of any class. *)
Theorem primitives_agree_with_operators :
  forall (fuel : nat) (env runenv : loc) (L R : node) (st : state)
         (l r : object),
  eval_expr fuel env L st = (Ok l, st) ->
  eval_expr fuel env R st = (Ok r, st) ->
  binds st runenv "lhs" l -> binds st runenv "rhs" r ->
  run_primitive runenv _add st
  = eval_expr (S fuel) env (AddExpr (MkToken "add" "+") L R) st
  /\ run_primitive runenv _sub st
     = eval_expr (S fuel) env (AddExpr (MkToken "sub" "-") L R) st
  /\ run_primitive runenv _lt st
     = eval_expr (S fuel) env (CompExpr (MkToken "lt" "<") L R) st
  /\ run_primitive runenv _eq st
     = eval_expr (S fuel) env (CompExpr (MkToken "eq" "==") L R) st.
Proof.
  intros fuel env runenv L R st l r HL HR Hl Hr.
  cbn [run_primitive]. unfold add_body, sub_body, lt_body, eq_body.
  rewrite !(primitive_binary _ _ Hl Hr).
  rewrite (@eval_arith_binary fuel env (MkToken "add" "+") L R st l r
             operator_add HL HR eq_refl).
  rewrite (@eval_arith_binary fuel env (MkToken "sub" "-") L R st l r
             operator_sub HL HR eq_refl).
  rewrite (@eval_comp_binary fuel env (MkToken "lt" "<") L R st l r
             operator_lt HL HR eq_refl).
  rewrite (@eval_comp_binary fuel env (MkToken "eq" "==") L R st l r
             operator_eq HL HR eq_refl).
  repeat split.
Qed.

Lemma primitives_agree_witness :
  run_primitive 1 _add binary_frame_store
  = eval_expr 2 global
      (AddExpr (MkToken "add" "+") (ConstantExpr (int_tok "1"))
         (ConstantExpr (MkToken "string" (quoted "two"))))
      binary_frame_store
  /\ run_primitive 1 _sub binary_frame_store
     = eval_expr 2 global
         (AddExpr (MkToken "sub" "-") (ConstantExpr (int_tok "1"))
            (ConstantExpr (MkToken "string" (quoted "two"))))
         binary_frame_store
  /\ run_primitive 1 _lt binary_frame_store
     = eval_expr 2 global
         (CompExpr (MkToken "lt" "<") (ConstantExpr (int_tok "1"))
            (ConstantExpr (MkToken "string" (quoted "two"))))
         binary_frame_store
  /\ run_primitive 1 _eq binary_frame_store
     = eval_expr 2 global
         (CompExpr (MkToken "eq" "==") (ConstantExpr (int_tok "1"))
            (ConstantExpr (MkToken "string" (quoted "two"))))
         binary_frame_store.
Proof.
  apply (@primitives_agree_with_operators 1 global 1
           (ConstantExpr (int_tok "1"))
           (ConstantExpr (MkToken "string" (quoted "two")))
           binary_frame_store (Integer 1) (String "two"));
    reflexivity.
Defined.

(** ** A return of nothing *)

(** X20.  A [return] of nothing returns nothing: when its expression
    gives no object, as a call of [print] or of a function that ends
    without [return] does, the block goes on with the statements after
    the [return], in the store that the expression left. *)
Theorem return_of_nothing_does_not_leave_the_block :
  forall (fuel : nat) (env : loc) (e : node) (rest : list node)
         (st st1 : state),
  eval_expr fuel env e st = (Ok NoneObject, st1) ->
  execute (S fuel) env (ReturnStmnt e :: rest) st
  = execute (S fuel) env rest st1.
Proof.
  intros fuel env e rest st st1 H. unfold execute. cbn [exec_block].
  unfold mbind. cbn [exec_statement exec_statement_rule]. unfold exec_return.
  now rewrite H.
Qed.

Lemma return_of_nothing_witness :
  execute 4 global
    [ReturnStmnt (print_call "a"); FunctionCall (ident "print") [ConstantExpr (int_tok "2")]]
    build_global_environment
  = execute 4 global
      [FunctionCall (ident "print") [ConstantExpr (int_tok "2")]]
      (snd (eval_expr 3 global (print_call "a") build_global_environment)).
Proof.
  apply (@return_of_nothing_does_not_leave_the_block 3 global
           (print_call "a")
           [FunctionCall (ident "print") [ConstantExpr (int_tok "2")]]
           build_global_environment
           (snd (eval_expr 3 global (print_call "a") build_global_environment))).
  reflexivity.
Defined.

(** ** A function and its own name *)

Lemma setitem_store :
  forall (env : loc) (ns : Namespace) (key : string) (v : object) (st : state),
  nth_error (namespaces st) env = Some ns ->
  setitem env key v st
  = (Ok tt,
     MkState (list_set (namespaces st) env
                (MkNamespace (dict_set (items ns) key v) (parent ns)))
             (lists st) (output st)).
Proof. intros env ns key v st H. unfold setitem. now rewrite H. Qed.

Lemma getitem_after_setitem :
  forall (h : list Namespace) (env : loc) (ns : Namespace) (key : string)
         (v : object),
  nth_error h env = Some ns ->
  let h' := list_set h env (MkNamespace (dict_set (items ns) key v) (parent ns)) in
  Namespace_getitem (List.length h') h' env key = Ok v.
Proof.
  intros h env ns key v Hns h'. subst h'. rewrite length_list_set.
  destruct (List.length h) as [ | n] eqn:Hlen.
  - apply length_zero_iff_nil in Hlen. rewrite Hlen in Hns.
    destruct env; discriminate.
  - cbn. rewrite (nth_error_list_set_same _ _ _ Hns). cbn [items parent].
    unfold dict_in. rewrite dict_get_set_same. cbn. now destruct (parent ns).
Qed.

Lemma chain_ok_list_set :
  forall (h : list Namespace) (env : loc) (ns : Namespace)
         (its : list (string * object)),
  chain_ok h -> nth_error h env = Some ns ->
  chain_ok (list_set h env (MkNamespace its (parent ns))).
Proof.
  intros h env ns its Hc Hns e ns' p He Hp.
  destruct (nth_error_list_set _ _ _ _ He) as [(-> & -> & _) | [_ Hold]].
  - eapply Hc; eassumption.
  - eapply Hc; eassumption.
Qed.

(** X21.  A function sees its own name.  A definition binds the name, in
    the namespace in which it executes, to a function that closes over
    that namespace; in the frame of a call of the function the name,
    unless a parameter hides it, reads as the function itself, so that
    the body can call it. *)
Theorem function_body_sees_its_own_name :
  forall (fuel : nat) (env : loc) (ns : Namespace) (id : Token)
         (params : list Token) (body : list node) (vs : list object)
         (st : state),
  chain_ok (namespaces st) -> nth_error (namespaces st) env = Some ns ->
  ~ In (value id) (map fst (combine (map value params) vs)) ->
  let f := Function env (map value params) (Func body) in
  let st1 := snd (exec_statement (S fuel) env (FunctionDef id params body) st) in
  let st2 := snd (call_frame env (map value params) vs st1) in
  exec_statement (S fuel) env (FunctionDef id params body) st
  = (Ok NoneObject, st1)
  /\ getitem env (value id) st1 = (Ok f, st1)
  /\ call_frame env (map value params) vs st1
     = (Ok (List.length (namespaces st)), st2)
  /\ getitem (List.length (namespaces st)) (value id) st2 = (Ok f, st2).
Proof.
  intros fuel env ns id params body vs st Hc Hns Hx f st1 st2.
  assert (Hdef : exec_statement (S fuel) env (FunctionDef id params body) st
                 = (Ok NoneObject,
                    MkState (list_set (namespaces st) env
                               (MkNamespace (dict_set (items ns) (value id) f)
                                  (parent ns)))
                            (lists st) (output st))).
  { cbn [exec_statement exec_statement_rule]. unfold exec_func_def, mbind.
    erewrite setitem_store; [reflexivity | exact Hns]. }
  assert (Hst1 : st1 = MkState (list_set (namespaces st) env
                                  (MkNamespace (dict_set (items ns) (value id) f)
                                     (parent ns)))
                               (lists st) (output st))
    by (subst st1; now rewrite Hdef).
  assert (Hget : fst (getitem env (value id) st1) = Ok f)
    by (rewrite Hst1; unfold getitem; cbn [fst namespaces];
        now apply getitem_after_setitem).
  assert (Hc1 : chain_ok (namespaces st1))
    by (rewrite Hst1; cbn [namespaces]; now apply chain_ok_list_set).
  assert (Hlen : List.length (namespaces st1) = List.length (namespaces st))
    by (rewrite Hst1; cbn [namespaces]; apply length_list_set).
  assert (Henv : (env < List.length (namespaces st1))%nat)
    by (rewrite Hlen; apply nth_error_Some; congruence).
  split; [now rewrite Hst1 | split; [ | split]].
  - unfold getitem in *. cbn [fst] in Hget. now rewrite Hget.
  - subst st2. rewrite call_frame_store. now rewrite Hlen.
  - assert (Hframe : fst (getitem (List.length (namespaces st1)) (value id) st2)
                     = fst (getitem env (value id) st1)).
    { subst st2. rewrite call_frame_store. cbn [snd].
      set (frame := MkNamespace _ _).
      unfold getitem. cbn [fst namespaces].
      rewrite length_app. cbn [List.length]. rewrite Nat.add_1_r.
      cbn [Namespace_getitem].
      rewrite nth_error_app2, Nat.sub_diag by lia. cbn [nth_error].
      cbn [parent items frame]. unfold dict_in.
      rewrite (@dict_update_other _ [] _ Hx). cbn [dict_get negb andb].
      destruct (@lookup_app (List.length (namespaces st1)) (namespaces st1)
                  [frame] env (value id) Hc1 Henv) as [-> ->].
      destruct (Namespace_contains _ (namespaces st1) env (value id)) eqn:Hcont;
        [reflexivity | ].
      symmetry. now apply Namespace_getitem_missing. }
    rewrite Hlen in Hframe. unfold getitem in *. cbn [fst] in Hframe, Hget.
    now rewrite Hframe, Hget.
Qed.

Lemma function_sees_itself_witness :
  exec_statement 1 global
    (FunctionDef (ident "f") [ident "n"] [ReturnStmnt (VariableExpr (ident "n"))])
    build_global_environment
  = (Ok NoneObject,
     snd (exec_statement 1 global
            (FunctionDef (ident "f") [ident "n"]
               [ReturnStmnt (VariableExpr (ident "n"))])
            build_global_environment))
  /\ getitem global "f"
       (snd (exec_statement 1 global
               (FunctionDef (ident "f") [ident "n"]
                  [ReturnStmnt (VariableExpr (ident "n"))])
               build_global_environment))
     = (Ok (Function global ["n"] (Func [ReturnStmnt (VariableExpr (ident "n"))])),
        snd (exec_statement 1 global
               (FunctionDef (ident "f") [ident "n"]
                  [ReturnStmnt (VariableExpr (ident "n"))])
               build_global_environment))
  /\ call_frame global ["n"] [Integer 3]
       (snd (exec_statement 1 global
               (FunctionDef (ident "f") [ident "n"]
                  [ReturnStmnt (VariableExpr (ident "n"))])
               build_global_environment))
     = (Ok 1%nat,
        snd (call_frame global ["n"] [Integer 3]
               (snd (exec_statement 1 global
                       (FunctionDef (ident "f") [ident "n"]
                          [ReturnStmnt (VariableExpr (ident "n"))])
                       build_global_environment))))
  /\ getitem 1 "f"
       (snd (call_frame global ["n"] [Integer 3]
               (snd (exec_statement 1 global
                       (FunctionDef (ident "f") [ident "n"]
                          [ReturnStmnt (VariableExpr (ident "n"))])
                       build_global_environment))))
     = (Ok (Function global ["n"] (Func [ReturnStmnt (VariableExpr (ident "n"))])),
        snd (call_frame global ["n"] [Integer 3]
               (snd (exec_statement 1 global
                       (FunctionDef (ident "f") [ident "n"]
                          [ReturnStmnt (VariableExpr (ident "n"))])
                       build_global_environment)))).
Proof.
  eapply (@function_body_sees_its_own_name 0 global _ (ident "f") [ident "n"]
            [ReturnStmnt (VariableExpr (ident "n"))] [Integer 3]
            build_global_environment).
  - exact chain_ok_initially.
  - reflexivity.
  - cbn. intuition discriminate.
Defined.

(** ** A stream and the list of its tokens *)

Section Simulation.

Variable I1 : Type.
Variable I2 : Type.
Variable next1 : I1 -> result (option (Token * I1)).
Variable next2 : I2 -> result (option (Token * I2)).
Variable R : I1 -> I2 -> Prop.

Hypothesis R_next :
  forall (s1 : I1) (s2 : I2), R s1 s2 ->
  match next1 s1, next2 s2 with
  | Ok (Some (t1, s1')), Ok (Some (t2, s2')) => t1 = t2 /\ R s1' s2'
  | Ok None, Ok None => True
  | _, _ => False
  end.

Lemma ms_ret : forall (A : Type) (a : A),
  msim R (ret (Iter:=I1) a) (ret (Iter:=I2) a).
Proof. intros A a p1 p2 H. now split. Qed.

Lemma ms_cur : msim R (cur (Iter:=I1)) (cur (Iter:=I2)).
Proof. intros p1 p2 H. split; [apply H | exact H]. Qed.

Lemma ms_peek : msim R (peek (Iter:=I1)) (peek (Iter:=I2)).
Proof. intros p1 p2 H. split; [apply H | exact H]. Qed.

Lemma ms_throw : forall (A : Type) (e : exception),
  msim R (throw (Iter:=I1) (A:=A) e) (throw (Iter:=I2) (A:=A) e).
Proof. intros A e p1 p2 H. reflexivity. Qed.

Lemma ms_out_of_fuel : forall A : Type,
  msim R (fun _ : parser I1 => @OutOfFuel (A * parser I1))
         (fun _ : parser I2 => @OutOfFuel (A * parser I2)).
Proof. intros A p1 p2 H. exact I. Qed.

Lemma ms_next_token : msim R (next_token next1) (next_token next2).
Proof.
  intros p1 p2 (Ht & Hl & Hs). unfold next_token.
  pose proof (R_next Hs) as Hn.
  destruct (next1 (stream p1)) as [[[t1 s1] | ] | | | ];
    destruct (next2 (stream p2)) as [[[t2 s2] | ] | | | ];
    cbn in *; try contradiction.
  - destruct Hn as [-> Hr]. split; [reflexivity | ]. now split.
  - split; [reflexivity | ]. now split.
Qed.

Lemma ms_bind :
  forall (A B : Type) (m1 : P I1 A) (m2 : P I2 A)
         (k1 : A -> P I1 B) (k2 : A -> P I2 B),
  msim R m1 m2 -> (forall a : A, msim R (k1 a) (k2 a)) ->
  msim R (bind m1 k1) (bind m2 k2).
Proof.
  intros A B m1 m2 k1 k2 Hm Hk p1 p2 Hp. unfold bind.
  specialize (Hm p1 p2 Hp). unfold rsim in Hm.
  destruct (m1 p1) as [[a1 q1] | e1 | | ];
    destruct (m2 p2) as [[a2 q2] | e2 | | ]; cbn; try contradiction;
    try exact Hm; try exact I.
  destruct Hm as [-> Hq]. now apply Hk.
Qed.

Ltac ms_leaf :=
  first
    [ apply ms_cur | apply ms_peek | apply ms_next_token | apply ms_ret
    | apply ms_throw | apply ms_out_of_fuel | assumption ].

Ltac ms_step :=
  first
    [ ms_leaf
    | apply ms_bind; [ | intro ]
    | match goal with
      | |- msim _ (if ?b then _ else _) _ => destruct b
      | |- msim _ (match ?x with _ => _ end) _ => destruct x
      end ].

Lemma ms_build_tree :
  forall (expr_type : Token -> node -> node -> node)
         (n1 : P I1 node) (n2 : P I2 node) (types : token_types),
  msim R n1 n2 ->
  forall (fuel : nat) (lhs : node),
    msim R (build_tree next1 expr_type n1 types fuel lhs)
           (build_tree next2 expr_type n2 types fuel lhs).
Proof.
  intros expr_type n1 n2 types Hn fuel.
  induction fuel as [ | fuel IH]; intro lhs; cbn [build_tree].
  - apply ms_out_of_fuel.
  - repeat first [ apply IH | ms_step ].
Qed.

Lemma ms_binary :
  forall (expr_type : Token -> node -> node -> node)
         (n1 : P I1 node) (n2 : P I2 node) (types : token_types) (fuel : nat),
  msim R n1 n2 ->
  msim R (make_left_assoc_binary_op next1 expr_type n1 types fuel)
         (make_left_assoc_binary_op next2 expr_type n2 types fuel).
Proof.
  intros expr_type n1 n2 types fuel Hn. unfold make_left_assoc_binary_op.
  apply ms_bind; [assumption | intro lhs]. now apply ms_build_tree.
Qed.

Lemma ms_while_prefix :
  forall (types : token_types) (fuel : nat) (ops : list Token),
    msim R (while_prefix next1 types fuel ops) (while_prefix next2 types fuel ops).
Proof.
  intros types fuel. induction fuel as [ | fuel IH]; intro ops;
    cbn [while_prefix].
  - apply ms_out_of_fuel.
  - repeat first [ apply IH | ms_step ].
Qed.

Lemma ms_prefix :
  forall (expr_type : Token -> node -> node)
         (n1 : P I1 node) (n2 : P I2 node) (types : token_types) (fuel : nat),
  msim R n1 n2 ->
  msim R (make_prefix_unary_op next1 expr_type n1 types fuel)
         (make_prefix_unary_op next2 expr_type n2 types fuel).
Proof.
  intros expr_type n1 n2 types fuel Hn. unfold make_prefix_unary_op.
  apply ms_bind; [apply ms_while_prefix | intro ops].
  apply ms_bind; [assumption | intro exp]. apply ms_ret.
Qed.

Section SimAtom.

Variable expr1 : P I1 node.
Variable expr2 : P I2 node.
Hypothesis H_expr : msim R expr1 expr2.

Lemma ms_while_exprs :
  forall (fuel : nat) (close : string) (items : list node),
  msim R (while_exprs next1 expr1 fuel close items)
         (while_exprs next2 expr2 fuel close items).
Proof.
  induction fuel as [ | fuel IH]; intros close items; cbn [while_exprs].
  - apply ms_out_of_fuel.
  - repeat first [ apply IH | ms_step ].
Qed.

Lemma ms_function_call : forall fuel : nat,
  msim R (function_call next1 expr1 fuel) (function_call next2 expr2 fuel).
Proof.
  intro fuel. unfold function_call.
  repeat first [ apply ms_while_exprs | ms_step ].
Qed.

Lemma ms_atom : forall fuel : nat,
  msim R (atom next1 expr1 fuel) (atom next2 expr2 fuel).
Proof.
  intro fuel. unfold atom, constant_expr, variable_expr, sequence_expr,
    enclosure_expr.
  repeat first [ apply ms_function_call | apply ms_while_exprs | ms_step ].
Qed.

Lemma ms_or_expr : forall fuel : nat,
  msim R (or_expr next1 expr1 fuel) (or_expr next2 expr2 fuel).
Proof.
  intro fuel. unfold or_expr, and_expr, not_expr, comp_expr, add_expr,
    mul_expr, sign_expr.
  repeat first [ apply ms_binary | apply ms_prefix ]. apply ms_atom.
Qed.

End SimAtom.

Lemma ms_expr : forall fuel : nat, msim R (expr next1 fuel) (expr next2 fuel).
Proof.
  induction fuel as [ | fuel IH]; cbn [expr].
  - apply ms_out_of_fuel.
  - now apply ms_or_expr.
Qed.

Section SimStatement.

Variable statement1 : P I1 node.
Variable statement2 : P I2 node.
Variable fuel : nat.
Hypothesis H_statement : msim R statement1 statement2.

Lemma ms_while_statements :
  forall (n : nat) (stop : list string) (block : list node),
  msim R (while_statements statement1 n stop block)
         (while_statements statement2 n stop block).
Proof.
  induction n as [ | n IH]; intros stop block; cbn [while_statements].
  - apply ms_out_of_fuel.
  - repeat first [ apply IH | ms_step ].
Qed.

Lemma ms_while_params : forall (n : nat) (args : list Token),
  msim R (while_params next1 n args) (while_params next2 n args).
Proof.
  induction n as [ | n IH]; intro args; cbn [while_params].
  - apply ms_out_of_fuel.
  - repeat first [ apply IH | ms_step ].
Qed.

Lemma ms_statement_rule :
  msim R (statement_rule next1 statement1 fuel)
         (statement_rule next2 statement2 fuel).
Proof.
  unfold statement_rule, if_stmnt, while_stmnt, function_def, return_stmnt,
    assignment_stmnt.
  repeat first
    [ apply ms_expr | apply ms_while_statements | apply ms_while_params
    | apply ms_function_call; apply ms_expr | ms_step ].
Qed.

End SimStatement.

Lemma ms_statement : forall fuel : nat,
  msim R (statement next1 fuel) (statement next2 fuel).
Proof.
  induction fuel as [ | fuel IH]; cbn [statement].
  - apply ms_out_of_fuel.
  - now apply ms_statement_rule.
Qed.

Lemma ms_top_level_statement : forall fuel : nat,
  msim R (top_level_statement next1 fuel) (top_level_statement next2 fuel).
Proof.
  intro fuel. unfold top_level_statement.
  repeat first [ apply ms_statement | ms_step ].
Qed.

Lemma parse_next_sim :
  forall (fuel : nat) (g1 : parse_generator I1) (g2 : parse_generator I2),
  gsim R g1 g2 ->
  match parse_next next1 fuel g1, parse_next next2 fuel g2 with
  | Ok (Some (s1, g1')), Ok (Some (s2, g2')) => s1 = s2 /\ gsim R g1' g2'
  | Ok None, Ok None => True
  | Raise e1, Raise e2 => e1 = e2
  | OutOfFuel, OutOfFuel => True
  | Unmodelled, Unmodelled => True
  | _, _ => False
  end.
Proof.
  intros fuel g1 g2 Hg.
  assert (Hresume : forall p1 p2, psim R p1 p2 ->
            match parse_resume next1 fuel p1, parse_resume next2 fuel p2 with
            | Ok (Some (s1, g1')), Ok (Some (s2, g2')) => s1 = s2 /\ gsim R g1' g2'
            | Ok None, Ok None => True
            | Raise e1, Raise e2 => e1 = e2
            | OutOfFuel, OutOfFuel => True
            | Unmodelled, Unmodelled => True
            | _, _ => False
            end).
  { intros p1 p2 Hp. unfold parse_resume.
    destruct Hp as (Ht & Hl & Hs). rewrite <- Ht.
    destruct (negb (type (token p1) =? "eof")); [ | exact I].
    pose proof (@ms_top_level_statement fuel p1 p2
                  (conj Ht (conj Hl Hs))) as H.
    unfold rsim in H.
    destruct (top_level_statement next1 fuel p1) as [[a1 q1] | e1 | | ];
      destruct (top_level_statement next2 fuel p2) as [[a2 q2] | e2 | | ];
      cbn; try contradiction; try exact H; try exact I. }
  destruct g1 as [s1 | p1], g2 as [s2 | p2]; cbn in Hg; try contradiction;
    cbn [parse_next]; [ | now apply Hresume].
  unfold parse_start, next_or_stop.
  pose proof (R_next Hg) as Hn.
  destruct (next1 s1) as [[[t1 s1'] | ] | | | ];
    destruct (next2 s2) as [[[t2 s2'] | ] | | | ]; cbn in *;
    try contradiction; try reflexivity.
  destruct Hn as [-> Hr]. pose proof (R_next Hr) as Hn'.
  destruct (next1 s1') as [[[u1 s1''] | ] | | | ];
    destruct (next2 s2') as [[[u2 s2''] | ] | | | ]; cbn in *;
    try contradiction; try reflexivity.
  destruct Hn' as [-> Hr']. apply Hresume. now split.
Qed.

Lemma parse_all_sim :
  forall (fuel n : nat) (g1 : parse_generator I1) (g2 : parse_generator I2),
  gsim R g1 g2 -> parse_all next1 fuel n g1 = parse_all next2 fuel n g2.
Proof.
  intros fuel n. induction n as [ | n IH]; intros g1 g2 Hg; [reflexivity | ].
  cbn [parse_all]. pose proof (parse_next_sim fuel g1 g2 Hg) as H.
  destruct (parse_next next1 fuel g1) as [[[s1 g1'] | ] | e1 | | ];
    destruct (parse_next next2 fuel g2) as [[[s2 g2'] | ] | e2 | | ];
    cbn in *; try contradiction; try reflexivity.
  - destruct H as [-> Hg']. now rewrite (IH _ _ Hg').
  - now subst.
Qed.

End Simulation.

Lemma yields_next : forall (g : tokenizer) (ts : list Token),
  yields g ts ->
  match tokenizer_next g, list_next ts with
  | Ok (Some (t1, g')), Ok (Some (t2, ts')) => t1 = t2 /\ yields g' ts'
  | Ok None, Ok None => True
  | _, _ => False
  end.
Proof.
  intros g ts [[ | n] H]; [discriminate | ]. cbn [drain] in H.
  destruct (tokenizer_next g) as [[[t g'] | ] | | | ]; cbn in H;
    try discriminate.
  - destruct (drain n g') as [ts' | | | ] eqn:Hd; cbn in H; try discriminate.
    injection H as <-. cbn. split; [reflexivity | now exists n].
  - injection H as <-. exact I.
Qed.

(** X22.  The parser sees of its stream the tokens only: when the lexer
    gives all the tokens of a text without error, parsing the text, the
    tokens made one by one as the parser asks for them, is parsing the
    list of those tokens: the same statements or the same error. *)
Theorem parsing_a_text_is_parsing_its_tokens :
  forall (text : string) (ts : list Token) (fuel n : nat),
  tokens_of text = Ok ts ->
  parse_all tokenizer_next fuel n (parse (tokenize text))
  = parse_all list_next fuel n (parse ts).
Proof.
  intros text ts fuel n H.
  apply parse_all_sim with (R := yields); [exact yields_next | ].
  cbn. now exists (S (String.length text)).
Qed.

Lemma parsing_a_text_witness :
  parse_all tokenizer_next 5 3 (parse (tokenize "x = 1 print(x)"))
  = parse_all list_next 5 3
      (parse [ident "x"; assign; int_tok "1"; ident "print";
              MkToken "open-paren" "("; ident "x";
              MkToken "close-paren" ")"]).
Proof.
  apply (@parsing_a_text_is_parsing_its_tokens "x = 1 print(x)"
           [ident "x"; assign; int_tok "1"; ident "print";
            MkToken "open-paren" "("; ident "x"; MkToken "close-paren" ")"]
           5 3).
  reflexivity.
Defined.

(** ** From the text to the output *)

Lemma yields_cons :
  forall (g g' : tokenizer) (t : Token) (ts : list Token),
  tokenizer_next g = Ok (Some (t, g')) -> yields g' ts -> yields g (t :: ts).
Proof.
  intros g g' t ts H [n Hn]. exists (S n). cbn [drain]. rewrite H. cbn.
  now rewrite Hn.
Qed.

Lemma yields_nil : forall g : tokenizer,
  tokenizer_next g = Ok None -> yields g [].
Proof. intros g H. exists 1%nat. cbn [drain]. now rewrite H. Qed.

Lemma print_text_tokens : forall s : string,
  isprintable s = true -> quotes s = 0%nat ->
  yields (tokenize (print_text s))
    [ident "print"; MkToken "open-paren" "("; MkToken "string" (quoted s);
     MkToken "close-paren" ")"].
Proof.
  intros s Hp Hq.
  unfold tokenize, print_text. unfold quoted at 1, dq at 1 2.
  rewrite !list_ascii_app. cbn [list_ascii_of_string app].
  rewrite <- app_assoc. cbn [app].
  eapply yields_cons; [reflexivity | ].
  eapply yields_cons; [reflexivity | ].
  eapply yields_cons.
  - cbn [tokenizer_next strip]. 
    rewrite (tokenize_run_in_string s _ _ Hq).
    cbn [app tokenize_run]. unfold tokenize_char.
    rewrite Ascii.eqb_refl. cbn [andb negb]. unfold add_char.
    match goal with
    | |- context [make_token ?x] => change x with (quoted s)
    end.
    rewrite make_token_quoted by exact Hp. reflexivity.
  - eapply yields_cons; [reflexivity | ]. now apply yields_nil.
Qed.

(** X23.  From the text to the output.  For a printable text [s] without
    a quote, the program [print("s")] is parsed as the call of [print] on
    the literal, and executing it writes [s], the quotes stripped and
    nothing added, whatever the bound beyond five. *)
Theorem print_of_a_literal_writes_its_text :
  forall (s : string) (fuel : nat),
  isprintable s = true -> quotes s = 0%nat ->
  parse_text (5 + fuel) (print_text s) = Ok [print_call s]
  /\ exec_to_string (5 + fuel) (print_text s) = Ok s.
Proof.
  intros s fuel Hp Hq.
  assert (Hparse : parse_text (5 + fuel) (print_text s) = Ok [print_call s]).
  { unfold parse_text.
    rewrite (@parse_all_sim _ _ tokenizer_next list_next yields yields_next
               (5 + fuel) (5 + fuel) (parse (tokenize (print_text s)))
               (parse [ident "print"; MkToken "open-paren" "(";
                       MkToken "string" (quoted s);
                       MkToken "close-paren" ")"])
               (@print_text_tokens s Hp Hq)).
    reflexivity. }
  split; [exact Hparse | ].
  unfold exec_to_string, interpreter.
  rewrite (@exec_program_parsed _ tokenizer_next (5 + fuel) (5 + fuel) global
             (parse (tokenize (print_text s))) [print_call s]
             build_global_environment Hparse).
  unfold print_call. remember (quoted s) as q eqn:Hquoted.
  cbn. subst q. f_equal. apply strip_quotes_quoted.
Qed.

Lemma print_of_a_literal_witness :
  parse_text 5 (print_text "hello world") = Ok [print_call "hello world"]
  /\ exec_to_string 5 (print_text "hello world") = Ok "hello world".
Proof.
  apply (@print_of_a_literal_writes_its_text "hello world" 0); reflexivity.
Defined.

(** ** Commas *)

(** X24.  Commas separate nothing: between two arguments of a call, two
    elements of a sequence display or two parameters of a definition the
    comma may be left out, and one may follow the last of them; the
    statement parsed is the same.  The parameters of a definition are the
    tokens as they come, whatever their kind. *)
Theorem commas_are_optional :
  forall (f a b : Token) (fuel : nat),
  type f = "identifier" ->
  In (type a) leaf_kinds -> In (type b) leaf_kinds ->
  let parsed := parse_statement (6 + fuel) in
  let call := Ok [FunctionCall f [leaf a; leaf b]] in
  let display := Ok [AssignmentStmnt f (SequenceExpr [leaf a; leaf b])] in
  let def := Ok [FunctionDef f [a; b] []] in
  parsed [f; open_paren; a; comma; b; close_paren] = call
  /\ parsed [f; open_paren; a; b; close_paren] = call
  /\ parsed [f; open_paren; a; comma; b; comma; close_paren] = call
  /\ parsed [f; assign; MkToken "open-bracket" "["; a; comma; b;
             MkToken "close-bracket" "]"] = display
  /\ parsed [f; assign; MkToken "open-bracket" "["; a; b;
             MkToken "close-bracket" "]"] = display
  /\ parsed [kw "def"; f; open_paren; a; comma; b; close_paren; kw "end-def"]
     = def
  /\ parsed [kw "def"; f; open_paren; a; b; close_paren; kw "end-def"] = def.
Proof.
  intros f a b fuel Hf Ha Hb.
  destruct f as [tf vf]. cbn in Hf. subst tf.
  token_cases a Ha; token_cases b Hb; repeat split; vm_compute; reflexivity.
Qed.

Lemma commas_are_optional_witness :
  parse_statement 6
    [ident "f"; open_paren; int_tok "1"; comma; ident "y"; close_paren]
  = Ok [FunctionCall (ident "f") [leaf (int_tok "1"); leaf (ident "y")]]
  /\ parse_statement 6
       [ident "f"; open_paren; int_tok "1"; ident "y"; close_paren]
     = Ok [FunctionCall (ident "f") [leaf (int_tok "1"); leaf (ident "y")]]
  /\ parse_statement 6
       [ident "f"; open_paren; int_tok "1"; comma; ident "y"; comma; close_paren]
     = Ok [FunctionCall (ident "f") [leaf (int_tok "1"); leaf (ident "y")]]
  /\ parse_statement 6
       [ident "f"; assign; MkToken "open-bracket" "["; int_tok "1"; comma;
        ident "y"; MkToken "close-bracket" "]"]
     = Ok [AssignmentStmnt (ident "f")
             (SequenceExpr [leaf (int_tok "1"); leaf (ident "y")])]
  /\ parse_statement 6
       [ident "f"; assign; MkToken "open-bracket" "["; int_tok "1";
        ident "y"; MkToken "close-bracket" "]"]
     = Ok [AssignmentStmnt (ident "f")
             (SequenceExpr [leaf (int_tok "1"); leaf (ident "y")])]
  /\ parse_statement 6
       [kw "def"; ident "f"; open_paren; int_tok "1"; comma; ident "y";
        close_paren; kw "end-def"]
     = Ok [FunctionDef (ident "f") [int_tok "1"; ident "y"] []]
  /\ parse_statement 6
       [kw "def"; ident "f"; open_paren; int_tok "1"; ident "y"; close_paren;
        kw "end-def"]
     = Ok [FunctionDef (ident "f") [int_tok "1"; ident "y"] []].
Proof.
  apply (@commas_are_optional (ident "f") (int_tok "1") (ident "y") 0);
    [reflexivity | cbn; tauto | cbn; tauto].
Defined.

(** ** Words and symbols *)

Lemma word_char_facts : forall c : ascii,
  is_word_char c = true ->
  Ascii.eqb c quote = false /\ isspace c = false
  /\ existsb (Ascii.eqb c) symbol_heads = false.
Proof.
  intros [[] [] [] [] [] [] [] []]; vm_compute; intro H;
    first [discriminate H | repeat split].
Qed.

Lemma symbol_head_facts : forall c : ascii,
  existsb (Ascii.eqb c) symbol_heads = true ->
  Ascii.eqb c quote = false /\ isspace c = false
  /\ strip c = String.String c "".
Proof.
  intros [[] [] [] [] [] [] [] []]; vm_compute; intro H;
    first [discriminate H | repeat split].
Qed.

Lemma word_start_no_symbol : forall b : string,
  word_start b = true -> dict_in symbols b = false.
Proof.
  intros [ | a b]; [reflexivity | ]. cbn [word_start].
  destruct a as [[] [] [] [] [] [] [] []]; vm_compute; intro H;
    first [discriminate H | reflexivity].
Qed.

Lemma word_start_add : forall (b : string) (c : ascii),
  word_start b = true -> is_word_char c = true ->
  word_start (add_char b c) = true.
Proof. intros [ | a b] c Hb Hc; cbn; assumption. Qed.

Lemma word_start_add_any : forall (b : string) (c : ascii),
  word_start b = true -> b <> "" -> word_start (add_char b c) = true.
Proof. intros [ | a b] c Hb Hne; [contradiction | exact Hb]. Qed.

(** Outside a string, a character of a word goes to the buffer. *)
Lemma tokenize_char_word : forall (b : string) (c : ascii),
  word_start b = true -> is_word_char c = true ->
  tokenize_char b false c = Ok (None, (add_char b c, false)).
Proof.
  intros b c Hb Hc. unfold tokenize_char.
  destruct (@word_char_facts c Hc) as (Hq & Hs & Hh).
  rewrite Hq, Hs, Hh, (@word_start_no_symbol b Hb). cbn [andb orb negb].
  rewrite andb_false_r. unfold strip. rewrite Hs. reflexivity.
Qed.

Lemma tokenize_run_word :
  forall (w b : string) (rest : list ascii),
  all_chars is_word_char w = true -> word_start b = true ->
  tokenize_run b false (list_ascii_of_string w ++ rest)
  = tokenize_run (b ++ w) false rest.
Proof.
  induction w as [ | c w IH]; intros b rest Hw Hb.
  - now rewrite append_nil_r.
  - unfold all_chars in Hw. cbn [list_ascii_of_string forallb] in Hw.
    apply andb_prop in Hw. destruct Hw as [Hc Hw].
    cbn [list_ascii_of_string app tokenize_run].
    rewrite (@tokenize_char_word b c Hb Hc).
    rewrite IH; [ | exact Hw | now apply word_start_add].
    unfold add_char. now rewrite append_assoc.
Qed.

Lemma is_word_start : forall w : string,
  is_word w = true -> word_start w = true /\ w <> "".
Proof.
  intros [ | a w] H; [discriminate | ]. unfold is_word, all_chars in H.
  cbn in H. apply andb_prop in H. split; [apply H | discriminate].
Qed.

(** X25.  A word, of letters, digits and underscores, that a character
    starting a symbol follows is cut there: the lexer yields the token of
    the word, or rejects the word, and goes on from the symbol.  The one
    exception is the word [end], which the keywords [end-if], [end-while]
    and [end-def] start: after it the symbol is appended to the buffer,
    whatever symbol it is. *)
Theorem words_are_cut_before_symbols_except_end :
  forall (w : string) (c : ascii) (rest : list ascii),
  is_word w = true -> existsb (Ascii.eqb c) symbol_heads = true ->
  tokenizer_next (Running "" false (list_ascii_of_string w ++ c :: rest))
  = if w =? "end"
    then tokenizer_next (Running (add_char "end" c) false rest)
    else rbind (make_token w)
           (fun t => Ok (Some (t, Running (String.String c "") false rest))).
Proof.
  intros w c rest Hw Hc.
  destruct (@is_word_start w Hw) as [Hstart Hne].
  apply andb_prop in Hw. destruct Hw as [_ Hall].
  cbn [tokenizer_next]. rewrite (@tokenize_run_word w "" _ Hall eq_refl).
  cbn [append tokenize_run]. unfold tokenize_char.
  destruct (@symbol_head_facts c Hc) as (Hq & Hsp & Hs).
  rewrite Hq, Hc, Hs, (@word_start_no_symbol w Hstart).
  rewrite (@word_start_no_symbol _ (@word_start_add_any w c Hstart Hne)).
  cbn [andb orb negb].
  assert (Hlen : (0 <? String.length w)%nat = true)
    by (destruct w; [contradiction | reflexivity]).
  rewrite Hlen, Hsp. cbn [andb orb].
  destruct (String.eqb_spec w "end") as [-> | Hend]; cbn [negb].
  - reflexivity.
  - destruct (make_token w); reflexivity.
Qed.

Lemma words_are_cut_witness :
  tokenizer_next (Running "" false (list_ascii_of_string "x1" ++ ["-"%char; "2"%char]))
  = rbind (make_token "x1")
      (fun t => Ok (Some (t, Running "-" false ["2"%char]))).
Proof.
  apply (@words_are_cut_before_symbols_except_end "x1" "-"%char ["2"%char]);
    reflexivity.
Defined.

(** ** Arithmetic, from the text to the output *)

Lemma all_chars_impl : forall (p q : ascii -> bool) (s : string),
  (forall c, p c = true -> q c = true) ->
  all_chars p s = true -> all_chars q s = true.
Proof.
  intros p q s H. unfold all_chars.
  induction (list_ascii_of_string s) as [ | c l IH]; cbn; [reflexivity | ].
  intro Hc. apply andb_prop in Hc. destruct Hc as [Hc Hl].
  now rewrite (H c Hc), IH.
Qed.

Lemma digit_is_word_char : forall c : ascii,
  is_digit_char c = true -> is_word_char c = true.
Proof. intros c H. unfold is_word_char. rewrite H. apply orb_true_r. Qed.

(** The decimal text of a number that is not negative. *)
Lemma str_of_int_digits : forall z : Z,
  (0 <= z)%Z ->
  isdigit (str_of_int z) = true
  /\ int_of_digits (str_of_int z) = z
  /\ make_token (str_of_int z) = Ok (int_tok (str_of_int z)).
Proof.
  intros z Hz. unfold str_of_int.
  assert (H : exists d, NilZero.string_of_int (Z.to_int z) = NilZero.string_of_uint d
                        /\ Z.of_N (Pos.of_uint d) = z).
  { destruct z as [ | p | p]; [ | | lia].
    - exists (Decimal.D0 Decimal.Nil). now split.
    - exists (Pos.to_uint p). split; [reflexivity | ].
      now rewrite DecimalPos.Unsigned.of_to. }
  destruct H as (d & -> & Hd).
  destruct (digits_text d) as (Hdig & Hval & Htok).
  split; [exact Hdig | split; [now rewrite Hval | exact Htok]].
Qed.

Lemma isdigit_word : forall s : string,
  isdigit s = true ->
  exists (d : ascii) (r : string),
    s = String.String d r /\ is_word_char d = true
    /\ all_chars is_word_char r = true /\ s <> "end".
Proof.
  intros [ | d r] H; [discriminate | ]. unfold isdigit in H. cbn [negb andb] in H.
  change (String.String d r =? "") with false in H. cbn [negb andb] in H.
  unfold all_chars in H. cbn [list_ascii_of_string forallb] in H.
  apply andb_prop in H. destruct H as [Hd Hr].
  exists d, r. split; [reflexivity | ].
  split; [now apply digit_is_word_char | ].
  split; [eapply all_chars_impl; [apply digit_is_word_char | exact Hr] | ].
  intros [= -> _]. discriminate.
Qed.

(** A buffer that holds a word is yielded at the symbol that follows. *)
Lemma tokenize_run_cut :
  forall (b w : string) (c : ascii) (rest : list ascii),
  word_start b = true -> all_chars is_word_char w = true ->
  b ++ w <> "" -> b ++ w <> "end" ->
  existsb (Ascii.eqb c) symbol_heads = true ->
  tokenize_run b false (list_ascii_of_string w ++ c :: rest)
  = rbind (make_token (b ++ w))
      (fun t => Ok (Some (t, Running (String.String c "") false rest))).
Proof.
  intros b w c rest Hb Hw Hne Hend Hc.
  rewrite (@tokenize_run_word w b _ Hw Hb).
  assert (Hstart : word_start (b ++ w) = true).
  { destruct b as [ | a b']; [ | exact Hb]. cbn [append].
    destruct w as [ | a w']; [reflexivity | ].
    unfold all_chars in Hw. cbn in Hw. apply andb_prop in Hw. apply Hw. }
  cbn [tokenize_run]. unfold tokenize_char.
  destruct (@symbol_head_facts c Hc) as (Hq & Hsp & Hs).
  rewrite Hq, Hc, Hs, Hsp, (@word_start_no_symbol _ Hstart).
  rewrite (@word_start_no_symbol _ (@word_start_add_any _ c Hstart Hne)).
  cbn [andb orb negb].
  assert (Hlen : (0 <? String.length (b ++ w))%nat = true)
    by (destruct (b ++ w); [contradiction | reflexivity]).
  rewrite Hlen. cbn [andb].
  destruct (String.eqb_spec (b ++ w) "end") as [E | _]; [contradiction | ].
  cbn [negb]. destruct (make_token (b ++ w)); reflexivity.
Qed.

(** A symbol of one character that starts no longer symbol is yielded at
    the character of a word that follows. *)
Lemma tokenize_char_symbol_word :
  forall (s : ascii) (name : string) (d : ascii),
  In (String.String s "", name)
     [("(", "open-paren"); ("+", "add"); ("-", "sub"); ("*", "mul");
      ("/", "div"); ("%", "mod")] ->
  is_word_char d = true ->
  tokenize_char (String.String s "") false d
  = Ok (Some (MkToken name (String.String s "")), (String.String d "", false)).
Proof.
  intros s name d Hs Hd.
  destruct (@word_char_facts d Hd) as (Hq & Hsp & Hh).
  unfold tokenize_char, strip. rewrite Hq, Hsp. cbn [andb negb].
  cbn in Hs.
  repeat (destruct Hs as [[= <- <-] | Hs]; [reflexivity | ]).
  destruct Hs.
Qed.

Lemma arithmetic_symbol :
  forall (c : ascii) (name : string) (f : Z -> Z -> result Z),
  In (c, (name, f)) arithmetic ->
  In (String.String c "", name)
     [("(", "open-paren"); ("+", "add"); ("-", "sub"); ("*", "mul");
      ("/", "div"); ("%", "mod")]
  /\ existsb (Ascii.eqb c) symbol_heads = true.
Proof.
  intros c name f H. cbn in H.
  repeat (destruct H as [[= <- <- <-] | H]; [split; [cbn; tauto | reflexivity] | ]).
  destruct H.
Qed.

Lemma print_arith_tokens :
  forall (a b : Z) (c : ascii) (name : string) (f : Z -> Z -> result Z),
  (0 <= a)%Z -> (0 <= b)%Z -> In (c, (name, f)) arithmetic ->
  yields (tokenize (print_arith_text a c b))
    [ident "print"; open_paren; int_tok (str_of_int a);
     MkToken name (String.String c ""); int_tok (str_of_int b); close_paren].
Proof.
  intros a b c name f Ha Hb Hc.
  destruct (@str_of_int_digits a Ha) as (HdA & _ & HtA).
  destruct (@str_of_int_digits b Hb) as (HdB & _ & HtB).
  destruct (@isdigit_word _ HdA) as (d & r & HA & Hd & Hr & HendA).
  destruct (@isdigit_word _ HdB) as (e & r' & HB & He & Hr' & HendB).
  destruct (@arithmetic_symbol c name f Hc) as (Hsym & Hhead).
  unfold tokenize, print_arith_text.
  rewrite !list_ascii_app. cbn [list_ascii_of_string app].
  rewrite HA in HtA, HendA |- *. rewrite HB in HtB, HendB |- *.
  cbn [list_ascii_of_string app].
  apply yields_cons
    with (g' := Running "(" false
                  (d :: list_ascii_of_string r
                        ++ c :: e :: list_ascii_of_string r' ++ [")"%char]));
    [reflexivity | ].
  eapply yields_cons.
  { cbn [tokenizer_next tokenize_run].
    rewrite (@tokenize_char_symbol_word "("%char "open-paren" d);
      [reflexivity | cbn; tauto | exact Hd]. }
  eapply yields_cons.
  { cbn [tokenizer_next].
    rewrite (@tokenize_run_cut (String.String d "") r c _ Hd Hr);
      [ | discriminate | exact HendA | exact Hhead].
    cbn [append]. rewrite HtA. reflexivity. }
  eapply yields_cons.
  { cbn [tokenizer_next tokenize_run].
    rewrite (@tokenize_char_symbol_word c name e Hsym He). reflexivity. }
  eapply yields_cons.
  { cbn [tokenizer_next].
    rewrite (@tokenize_run_cut (String.String e "") r' ")"%char [] He Hr');
      [ | discriminate | exact HendB | reflexivity].
    cbn [append]. rewrite HtB. reflexivity. }
  eapply yields_cons; [reflexivity | ]. now apply yields_nil.
Qed.

Lemma eval_integer_literal : forall (fuel : nat) (env : loc) (z : Z) (st : state),
  (0 <= z)%Z ->
  eval_expr (S fuel) env (ConstantExpr (int_tok (str_of_int z))) st
  = (Ok (Integer z), st).
Proof.
  intros fuel env z st Hz.
  destruct (@str_of_int_digits z Hz) as (Hd & Hv & _).
  cbn [eval_expr eval_expr_rule]. unfold eval_const, int_tok. cbn [type value].
  change ("integer" =? "string") with false.
  change ("integer" =? "integer") with true. cbn iota.
  now rewrite Hd, Hv.
Qed.

(** [print(e)] as a program, for an expression that gives an integer or
    fails and leaves the first store as it is. *)
Lemma print_of_expression :
  forall (fuel : nat) (e : node) (rz : result Z),
  eval_expr (S fuel) global e build_global_environment
  = (rbind rz (fun z => Ok (Integer z)), build_global_environment) ->
  match execute (S (S fuel)) global [FunctionCall (ident "print") [e]]
          build_global_environment with
  | (Ok _, st) => Ok (output st)
  | (Raise x, _) => Raise x
  | (OutOfFuel, _) => OutOfFuel
  | (Unmodelled, _) => Unmodelled
  end
  = rbind rz (fun z => Ok (str_of_int z)).
Proof.
  intros fuel e rz H. unfold execute. cbn [exec_block].
  unfold mbind at 1. cbn [exec_statement exec_statement_rule].
  unfold mbind at 1. unfold eval_func_call. unfold mbind at 1.
  assert (Hprint : getitem global (value (ident "print")) build_global_environment
                   = (Ok (Function global ["s"] (Primitive _print)),
                      build_global_environment)) by reflexivity.
  rewrite Hprint. cbn [mapM]. unfold mbind at 1. unfold mbind at 1.
  rewrite H.
  destruct rz as [z | x | | ]; cbn; reflexivity.
Qed.

Lemma eval_arith_node :
  forall (fuel : nat) (env : loc) (name : string) (op : Token) (L R : node)
         (st : state) (x y : Z) (f : pyval -> pyval -> result Z),
  eval_expr fuel env L st = (Ok (Integer x), st) ->
  eval_expr fuel env R st = (Ok (Integer y), st) ->
  dict_get arith_ops (type op) = Some f ->
  eval_expr (S fuel) env (arith_node name op L R) st
  = (rbind (f (VInt x) (VInt y)) (fun z => Ok (Integer z)), st).
Proof.
  intros fuel env name op L R st x y f HL HR Hf. unfold arith_node.
  destruct (existsb (String.eqb name) ["add"; "sub"]).
  - rewrite (@eval_arith_binary fuel env op L R st (Integer x) (Integer y) f
               HL HR Hf).
    reflexivity.
  - eapply eval_arith_integers; eassumption.
Qed.

Lemma arithmetic_end_to_end :
  forall (a b : Z) (c : ascii) (name : string) (f : Z -> Z -> result Z)
         (fuel : nat),
  (0 <= a)%Z -> (0 <= b)%Z -> In (c, (name, f)) arithmetic ->
  exec_to_string (6 + fuel) (print_arith_text a c b)
  = rbind (f a b) (fun z => Ok (str_of_int z)).
Proof.
  intros a b c name f fuel Ha Hb Hc.
  assert (Hparse :
    parse_all tokenizer_next (6 + fuel) (6 + fuel)
      (parse (tokenize (print_arith_text a c b)))
    = Ok [FunctionCall (ident "print")
            [arith_node name (MkToken name (String.String c ""))
               (ConstantExpr (int_tok (str_of_int a)))
               (ConstantExpr (int_tok (str_of_int b)))]]).
  { rewrite (@parse_all_sim _ _ tokenizer_next list_next yields yields_next
               (6 + fuel) (6 + fuel) (parse (tokenize (print_arith_text a c b)))
               (parse [ident "print"; open_paren; int_tok (str_of_int a);
                       MkToken name (String.String c "");
                       int_tok (str_of_int b); close_paren])
               (@print_arith_tokens a b c name f Ha Hb Hc)).
    generalize (str_of_int a), (str_of_int b). intros A B.
    cbn in Hc.
    repeat (destruct Hc as [[= <- <- <-] | Hc]; [vm_compute; reflexivity | ]).
    destruct Hc. }
  unfold exec_to_string, interpreter.
  rewrite (@exec_program_parsed _ tokenizer_next (6 + fuel) (6 + fuel) global
             _ _ build_global_environment Hparse).
  change (6 + fuel)%nat with (S (S (4 + fuel))).
  apply print_of_expression.
  assert (Hop : exists g,
            dict_get arith_ops name = Some g
            /\ g (VInt a) (VInt b) = f a b).
  { cbn in Hc.
    repeat (destruct Hc as [[= <- <- <-] | Hc];
            [eexists; split; reflexivity | ]).
    destruct Hc. }
  destruct Hop as (g & Hg & Hgf).
  rewrite (@eval_arith_node (4 + fuel) global name
             (MkToken name (String.String c "")) _ _ build_global_environment
             a b g
             (@eval_integer_literal (3 + fuel) global a _ Ha)
             (@eval_integer_literal (3 + fuel) global b _ Hb) Hg).
  now rewrite Hgf.
Qed.

(** X26.  Arithmetic, from the text to the output.  For integers [a] and
    [b] that are not negative, written in decimal, the program
    [print(a + b)] writes the decimal text of the sum, and so for the
    difference, which may be negative, and the product; [print(a / b)]
    and [print(a % b)] write the quotient and the remainder of the
    division that rounds down, or raise the host's [ZeroDivisionError]
    when [b] is zero. *)
Theorem arithmetic_from_the_text_to_the_output :
  forall (a b : Z) (fuel : nat),
  (0 <= a)%Z -> (0 <= b)%Z ->
  let run c := exec_to_string (6 + fuel) (print_arith_text a c b) in
  run "+"%char = Ok (str_of_int (a + b))
  /\ run "-"%char = Ok (str_of_int (a - b))
  /\ run "*"%char = Ok (str_of_int (a * b))
  /\ run "/"%char
     = (if (b =? 0)%Z then Raise (Host ZeroDivisionError)
        else Ok (str_of_int (a / b)))
  /\ run "%"%char
     = (if (b =? 0)%Z then Raise (Host ZeroDivisionError)
        else Ok (str_of_int (a mod b))).
Proof.
  intros a b fuel Ha Hb run. subst run. cbv beta.
  split; [ | split; [ | split; [ | split]]].
  - apply (@arithmetic_end_to_end a b "+"%char "add"
             (fun x y => Ok (x + y)%Z) fuel Ha Hb).
    cbn. tauto.
  - apply (@arithmetic_end_to_end a b "-"%char "sub"
             (fun x y => Ok (x - y)%Z) fuel Ha Hb).
    cbn. tauto.
  - apply (@arithmetic_end_to_end a b "*"%char "mul"
             (fun x y => Ok (x * y)%Z) fuel Ha Hb).
    cbn. tauto.
  - rewrite (@arithmetic_end_to_end a b "/"%char "div"
               (fun x y => if (y =? 0)%Z then Raise (Host ZeroDivisionError)
                           else Ok (x / y)%Z) fuel Ha Hb);
      [ | cbn; tauto].
    cbv beta. now destruct (b =? 0)%Z.
  - rewrite (@arithmetic_end_to_end a b "%"%char "mod"
               (fun x y => if (y =? 0)%Z then Raise (Host ZeroDivisionError)
                           else Ok (x mod y)%Z) fuel Ha Hb);
      [ | cbn; tauto].
    cbv beta. now destruct (b =? 0)%Z.
Qed.

Lemma arithmetic_witness :
  exec_to_string 6 (print_arith_text 17 "+" 5) = Ok (str_of_int (17 + 5))
  /\ exec_to_string 6 (print_arith_text 17 "-" 5) = Ok (str_of_int (17 - 5))
  /\ exec_to_string 6 (print_arith_text 17 "*" 5) = Ok (str_of_int (17 * 5))
  /\ exec_to_string 6 (print_arith_text 17 "/" 5) = Ok (str_of_int (17 / 5))
  /\ exec_to_string 6 (print_arith_text 17 "%" 5) = Ok (str_of_int (17 mod 5)).
Proof.
  apply (@arithmetic_from_the_text_to_the_output 17 5 0); lia.
Defined.

(** ** The operator sets written as strings *)

(** X27.  The operator sets of [not], [and] and [or] are written as
    strings, so that the parser tests them with the substring test; for
    every type that a token can have, those the lexer makes and the
    end-of-stream sentinel, that test is the test of equality with the
    keyword, so the three levels take their own keyword and no other
    token.  It is the types that save it: a token of type [o] would be
    taken for an [or]. *)
Theorem operator_sets_as_strings_are_harmless :
  forall t : Token,
  In (type t) ("eof" :: token_kinds) ->
  type_in t (Str "not") = (type t =? "not")
  /\ type_in t (Str "and") = (type t =? "and")
  /\ type_in t (Str "or") = (type t =? "or")
  /\ type_in (MkToken "o" (value t)) (Str "or") = true.
Proof.
  intros [ty v] H. unfold token_kinds in H. cbn in H.
  repeat (destruct H as [<- | H]; [repeat split | ]).
  destruct H.
Qed.

Lemma operator_sets_witness :
  type_in (kw "or") (Str "not") = (type (kw "or") =? "not")
  /\ type_in (kw "or") (Str "and") = (type (kw "or") =? "and")
  /\ type_in (kw "or") (Str "or") = (type (kw "or") =? "or")
  /\ type_in (MkToken "o" (value (kw "or"))) (Str "or") = true.
Proof.
  apply (@operator_sets_as_strings_are_harmless (kw "or")). cbn. tauto.
Defined.
